(** * HL7Viewer statistics module: a shallow embedding and its properties

    The development follows the statistics module of the viewer
    (parseFieldReference, extractValueFromSegment, extractValueFromLine,
    extractComponentValue, parseFilterExpression, messageMatchesSingleFilter,
    messageMatchesFilters, validateCustomLogic, evaluateCustomLogic,
    parseMessagesForFiltering, extractFieldValues, generateStatistics).

    Conventions of the embedding.
    - A JavaScript string is a [string] of ASCII characters; one [ascii]
      stands for one code unit.  Text outside ASCII is not modelled: on
      code units from 128 on, the case mappings and the white space of
      the host differ from those written here, and the properties that
      depend on them are stated of ASCII texts ([asciiText]).
    - A JavaScript number that the module obtains from [parseInt] is an
      integer, modelled exactly as a [Z], as [parseInt] gives it up to
      [MAX_SAFE_INTEGER]; [NaN] is [None].  An [undefined] component or
      subcomponent number is [None].
    - The separators of a message are one-character strings in the source
      (they are read with [line[3]] and [encodingChars[0]]); they are [ascii]
      here.
    - A label is matched as the source matches it, with the pattern
      [\b LABEL \b] built from its text; the embedding reads the text
      literally, which is what the pattern does for a label without
      characters special to regular expressions.
    - The host's evaluator ([Function]) is modelled on the texts the
      whitelist of evaluateCustomLogic lets through. *)

From Stdlib Require Import String Ascii List ZArith Bool Arith Lia Permutation.
Import ListNotations.

Local Open Scope string_scope.
Local Open Scope Z_scope.

(** ** Host string primitives (String.prototype and parseInt) *)

(** White space as [String.prototype.trim], [\s] and [parseInt] see it, on
    ASCII: TAB, LF, VT, FF, CR and SPACE. *)
Definition isSpace (c : ascii) : bool :=
  let n := nat_of_ascii c in
  ((n =? 9) || (n =? 10) || (n =? 11) || (n =? 12) || (n =? 13) || (n =? 32))%nat.

Fixpoint trimStart (s : string) : string :=
  match s with
  | EmptyString => EmptyString
  | String c s' => if isSpace c then trimStart s' else s
  end.

Fixpoint trimEnd (s : string) : string :=
  match s with
  | EmptyString => EmptyString
  | String c s' =>
      let t := trimEnd s' in
      if isSpace c && (t =? "")%string then EmptyString else String c t
  end.

Definition trim (s : string) : string := trimEnd (trimStart s).

Fixpoint mapString (f : ascii -> ascii) (s : string) : string :=
  match s with
  | EmptyString => EmptyString
  | String c s' => String (f c) (mapString f s')
  end.

Definition upperChar (c : ascii) : ascii :=
  let n := nat_of_ascii c in
  if ((97 <=? n) && (n <=? 122))%nat then ascii_of_nat (n - 32) else c.

Definition lowerChar (c : ascii) : ascii :=
  let n := nat_of_ascii c in
  if ((65 <=? n) && (n <=? 90))%nat then ascii_of_nat (n + 32) else c.

Definition toUpperCase : string -> string := mapString upperChar.
Definition toLowerCase : string -> string := mapString lowerChar.

(** [s.split(c)] for a one-character separator: never the empty list. *)
Fixpoint split (c : ascii) (s : string) : list string :=
  match s with
  | EmptyString => [EmptyString]
  | String a s' =>
      if Ascii.eqb a c then EmptyString :: split c s'
      else match split c s' with
           | h :: t => String a h :: t
           | [] => [String a EmptyString]
           end
  end.

(** [a.join(sep)]. *)
Definition join (sep : string) (l : list string) : string := String.concat sep l.

(** [s.substring(n)]. *)
Fixpoint substringFrom (n : nat) (s : string) : string :=
  match n, s with
  | O, _ => s
  | S n', String _ s' => substringFrom n' s'
  | S _, EmptyString => EmptyString
  end.

(** [s.substring(a, b)] for [a <= b]. *)
Definition substring2 (a b : nat) (s : string) : string :=
  substring a (b - a) s.

(** [s.startsWith(c)] for a one-character [c]. *)
Definition startsWithChar (c : ascii) (s : string) : bool :=
  match s with
  | String a _ => Ascii.eqb a c
  | EmptyString => false
  end.

(** [s.includes(t)]. *)
Fixpoint includes (t s : string) : bool :=
  prefix t s ||
  match s with
  | EmptyString => false
  | String _ s' => includes t s'
  end.

Definition digitVal (c : ascii) : option Z :=
  let n := nat_of_ascii c in
  if ((48 <=? n) && (n <=? 57))%nat then Some (Z.of_nat (n - 48)) else None.

(** The longest prefix of decimal digits, as a number; [acc] is [None]
    until a digit has been read. *)
Fixpoint digitsPrefix (acc : option Z) (s : string) : option Z :=
  match s with
  | EmptyString => acc
  | String c s' =>
      match digitVal c with
      | Some d =>
          digitsPrefix (Some (10 * match acc with Some a => a | None => 0 end + d)) s'
      | None => acc
      end
  end.

(** [parseInt(s, 10)]: leading white space is skipped, one sign is read,
    then the longest prefix of digits; whatever follows is ignored.
    [None] is NaN. *)
Definition parseInt (s : string) : option Z :=
  match trimStart s with
  | String "-"%char r => option_map Z.opp (digitsPrefix None r)
  | String "+"%char r => digitsPrefix None r
  | r => digitsPrefix None r
  end.

(** ** Addresses *)

Record FieldReference : Type := mkFieldReference {
  segment : string;
  field : Z;
  component : option Z;
  subcomponent : option Z
}.

(** parseFieldReference.  [!fieldRef] holds of the empty string; the
    [typeof] test is the type of the argument. *)
Definition parseFieldReference (fieldRef : string) : option FieldReference :=
  if (fieldRef =? "")%string then None else
  let trimmed := toUpperCase (trim fieldRef) in
  let parts := split "." trimmed in
  if ((List.length parts <? 2) || (4 <? List.length parts))%nat then None else
  let segment := nth 0 parts "" in
  match parseInt (nth 1 parts "") with
  | None => None
  | Some field =>
      if (segment =? "")%string || (field <? 1) then None else
      let withComponent :=
        if (3 <=? List.length parts)%nat then
          match parseInt (nth 2 parts "") with
          | None => None
          | Some component =>
              if component <? 1 then None else Some (Some component)
          end
        else Some None in
      match withComponent with
      | None => None
      | Some component =>
          if (List.length parts =? 4)%nat then
            match parseInt (nth 3 parts "") with
            | None => None
            | Some subcomponent =>
                if subcomponent <? 1 then None
                else Some (mkFieldReference segment field component (Some subcomponent))
            end
          else Some (mkFieldReference segment field component None)
      end
  end.

(** ** Value resolution *)

Record Segment : Type := mkSegment {
  segmentId : string;
  fields : list string;
  fieldSeparator : ascii;
  componentSeparator : ascii;
  subcomponentSeparator : ascii
}.

(** [!n] for an optional number: true of [undefined] and of 0. *)
Definition absent (n : option Z) : bool :=
  match n with
  | None => true
  | Some k => k =? 0
  end.

Definition numOf (n : option Z) : Z :=
  match n with Some k => k | None => 0 end.

(** [a[i]] guarded by [i < 0 || i >= a.length]. *)
Definition outOfRange (i : Z) (a : list string) : bool :=
  (i <? 0) || (Z.of_nat (List.length a) <=? i).

Definition at_ (a : list string) (i : Z) : string := nth (Z.to_nat i) a "".

(** extractComponentValue *)
Definition extractComponentValue (fieldValue : string) (compNum subcompNum : option Z)
    (compSep subcompSep : ascii) : string :=
  if (fieldValue =? "")%string then "" else
  if absent compNum then fieldValue else
  let components := split compSep fieldValue in
  let compIndex := numOf compNum - 1 in
  if outOfRange compIndex components then "" else
  let compValue := at_ components compIndex in
  if absent subcompNum then compValue else
  let subcomponents := split subcompSep compValue in
  let subcompIndex := numOf subcompNum - 1 in
  if outOfRange subcompIndex subcomponents then "" else
  at_ subcomponents subcompIndex.

(** extractValueFromSegment *)
Definition extractValueFromSegment (segment : Segment) (fieldNum : Z)
    (compNum subcompNum : option Z) (compSep subcompSep : ascii) : string :=
  if (segmentId segment =? "MSH")%string then
    if fieldNum =? 1 then String (fieldSeparator segment) "" else
    if fieldNum =? 2 then nth 0 (fields segment) "" else
    let fieldIndex := fieldNum - 2 in
    if outOfRange fieldIndex (fields segment) then "" else
    extractComponentValue (at_ (fields segment) fieldIndex) compNum subcompNum compSep subcompSep
  else
    let fieldIndex := fieldNum - 1 in
    if outOfRange fieldIndex (fields segment) then "" else
    extractComponentValue (at_ (fields segment) fieldIndex) compNum subcompNum compSep subcompSep.

(** The fields of a line that is not a header: one leading separator is
    dropped, the rest is split. *)
Definition splitAfterId (fieldSep : ascii) (line : string) : list string :=
  let afterId := substringFrom 3 line in
  if startsWithChar fieldSep afterId then split fieldSep (substringFrom 1 afterId)
  else split fieldSep afterId.

(** extractValueFromLine *)
Definition extractValueFromLine (line segmentId : string) (fieldNum : Z)
    (compNum subcompNum : option Z) (fieldSep compSep subcompSep : ascii) : string :=
  if (segmentId =? "MSH")%string then
    if fieldNum =? 1 then String fieldSep "" else
    if fieldNum =? 2 then substring2 4 8 line else
    let afterSep := substringFrom 4 line in
    let fields := split fieldSep afterSep in
    let fieldIndex := fieldNum - 2 in
    if outOfRange fieldIndex fields then "" else
    extractComponentValue (at_ fields fieldIndex) compNum subcompNum compSep subcompSep
  else
    let fields := splitAfterId fieldSep line in
    let fieldIndex := fieldNum - 1 in
    if outOfRange fieldIndex fields then "" else
    extractComponentValue (at_ fields fieldIndex) compNum subcompNum compSep subcompSep.

(** ** Filter grammar *)

Definition isLineTerminator (c : ascii) : bool :=
  let n := nat_of_ascii c in ((n =? 10) || (n =? 13))%nat.

Fixpoint allSpace (s : string) : bool :=
  match s with
  | EmptyString => true
  | String c s' => isSpace c && allSpace s'
  end.

(** Strip the literal [p] from the front of [s], letters compared without
    case (the [i] flag). *)
Fixpoint dropPrefixCI (p s : string) : option string :=
  match p, s with
  | EmptyString, _ => Some s
  | String a p', String b s' =>
      if Ascii.eqb (upperChar a) (upperChar b) then dropPrefixCI p' s' else None
  | String _ _, EmptyString => None
  end.

(** [\s+(!exists|exists)\s*$] matched at the start of [s], flag [i];
    the result is the text of the second group, lower-cased. *)
Definition matchUnarySuffix (s : string) : option string :=
  let r := trimStart s in
  if (String.length r <? String.length s)%nat then
    match dropPrefixCI "!exists" r with
    | Some rest => if allSpace rest then Some "!exists" else None
    | None =>
        match dropPrefixCI "exists" r with
        | Some rest => if allSpace rest then Some "exists" else None
        | None => None
        end
    end
  else None.

(** [trimmed.match(/^(.+?)\s+(!exists|exists)\s*$/i)]: the lazy first
    group takes the fewest characters (at least one, none of them a line
    terminator) after which the rest of the pattern matches.  [acc] is the
    text the group holds so far. *)
Fixpoint unaryMatchFrom (acc s : string) : option (string * string) :=
  match s with
  | EmptyString => None
  | String c s' =>
      if isLineTerminator c then None
      else
        let acc' := acc ++ String c "" in
        match matchUnarySuffix s' with
        | Some op => Some (acc', op)
        | None => unaryMatchFrom acc' s'
        end
  end.

Definition unaryMatch (trimmed : string) : option (string * string) :=
  unaryMatchFrom "" trimmed.

(** [\s*OP\s*] matched at the start of [s], flag [i]: what is left of [s]
    after the match. *)
Definition matchOperatorAt (op s : string) : option string :=
  match dropPrefixCI op (trimStart s) with
  | Some rest => Some (trimStart rest)
  | None => None
  end.

(** [s.split(/\s*OP\s*/i)].  The scan tries the pattern at each index from
    left to right; a match closes the current piece [cur] and the scan
    resumes after it ([skip] counts the matched characters still to pass). *)
Fixpoint splitOperatorFrom (op : string) (skip : nat) (cur s : string) : list string :=
  match s with
  | EmptyString => [cur]
  | String c s' =>
      match skip with
      | S k => splitOperatorFrom op k cur s'
      | O =>
          match matchOperatorAt op s with
          | Some rest =>
              cur :: splitOperatorFrom op (String.length s' - String.length rest) "" s'
          | None => splitOperatorFrom op 0 (cur ++ String c "") s'
          end
      end
  end.

Definition splitOperator (op s : string) : list string :=
  splitOperatorFrom op 0 "" s.

Record Filter : Type := mkFilter {
  fieldRef : string;
  operator : string;
  value : string
}.

Definition isSome {A : Type} (o : option A) : bool :=
  match o with Some _ => true | None => false end.

(** The loop of parseFilterExpression over '!=', '=', '!contains',
    'contains', in that order. *)
Fixpoint tryOperators (operators : list string) (trimmed : string) : option Filter :=
  match operators with
  | [] => None
  | op :: rest =>
      match splitOperator op trimmed with
      | [p0; p1] =>
          let fieldRef := trim p0 in
          let value := trim p1 in
          if negb (fieldRef =? "")%string && isSome (parseFieldReference fieldRef)
          then Some (mkFilter fieldRef (toLowerCase op) value)
          else tryOperators rest trimmed
      | _ => tryOperators rest trimmed
      end
  end.

(** parseFilterExpression *)
Definition parseFilterExpression (filterExpr : string) : option Filter :=
  if (filterExpr =? "")%string then None else
  let trimmed := trim filterExpr in
  if (trimmed =? "")%string then None else
  let unary :=
    match unaryMatch trimmed with
    | Some (g1, g2) =>
        let fieldRef := trim g1 in
        let op := toLowerCase g2 in
        if negb (fieldRef =? "")%string && isSome (parseFieldReference fieldRef)
        then Some (mkFilter fieldRef op "")
        else None
    | None => None
    end in
  match unary with
  | Some f => Some f
  | None => tryOperators ["!="; "="; "!contains"; "contains"] trimmed
  end.

(** messageMatchesSingleFilter *)
Definition messageMatchesSingleFilter (messageSegments : list Segment) (filter : Filter)
    (componentSeparator subcomponentSeparator : ascii) : bool :=
  match parseFieldReference (fieldRef filter) with
  | None => true
  | Some parsed =>
      match find (fun s => (segmentId s =? segment parsed)%string) messageSegments with
      | None =>
          (operator filter =? "!=")%string || (operator filter =? "!contains")%string
          || (operator filter =? "!exists")%string
      | Some seg =>
          let v := extractValueFromSegment seg (field parsed) (component parsed)
                     (subcomponent parsed) componentSeparator subcomponentSeparator in
          let fieldValue := toUpperCase (trim v) in
          let filterValue := toUpperCase (trim (value filter)) in
          if (operator filter =? "=")%string then (fieldValue =? filterValue)%string
          else if (operator filter =? "!=")%string then negb (fieldValue =? filterValue)%string
          else if (operator filter =? "contains")%string then includes filterValue fieldValue
          else if (operator filter =? "!contains")%string then negb (includes filterValue fieldValue)
          else if (operator filter =? "exists")%string then (0 <? String.length fieldValue)%nat
          else if (operator filter =? "!exists")%string then (String.length fieldValue =? 0)%nat
          else true
      end
  end.

(** ** Host objects used as maps *)

(** A plain object whose properties are written with [o[k] = v]: the own
    properties in creation order.  Writing an existing key keeps its place.
    The key [__proto__], whose write goes to the setter of the prototype
    and creates no property, is not modelled: the properties about
    results stored by label leave that label out. *)
Definition JsObject (V : Type) : Type := list (string * V).

Fixpoint objSet {V : Type} (k : string) (v : V) (o : JsObject V) : JsObject V :=
  match o with
  | [] => [(k, v)]
  | (k', v') :: o' =>
      if (k =? k')%string then (k, v) :: o' else (k', v') :: objSet k v o'
  end.

Fixpoint objGet {V : Type} (k : string) (o : JsObject V) : option V :=
  match o with
  | [] => None
  | (k', v') :: o' => if (k =? k')%string then Some v' else objGet k o'
  end.

Fixpoint allDigits (s : string) : bool :=
  match s with
  | EmptyString => true
  | String c s' => isSome (digitVal c) && allDigits s'
  end.

(** An array index: the canonical decimal text of an integer below 2^32 - 1.
    Own property keys that are array indices are enumerated first, in
    ascending order, before the other keys in creation order. *)
Definition arrayIndex (k : string) : option Z :=
  match k with
  | EmptyString => None
  | String c r =>
      if allDigits k && ((k =? "0")%string || negb (Ascii.eqb c "0")) then
        match digitsPrefix None k with
        | Some n => if n <? 4294967295 then Some n else None
        | None => None
        end
      else None
  end.

Fixpoint insertIndexed {V : Type} (n : Z) (e : string * V) (l : list (Z * (string * V)))
  : list (Z * (string * V)) :=
  match l with
  | [] => [(n, e)]
  | (m, e') :: l' => if n <? m then (n, e) :: l else (m, e') :: insertIndexed n e l'
  end.

Fixpoint indexedEntries {V : Type} (o : JsObject V) : list (Z * (string * V)) :=
  match o with
  | [] => []
  | (k, v) :: o' =>
      match arrayIndex k with
      | Some n => insertIndexed n (k, v) (indexedEntries o')
      | None => indexedEntries o'
      end
  end.

(** [Object.entries(o)] *)
Definition objEntries {V : Type} (o : JsObject V) : list (string * V) :=
  map snd (indexedEntries o) ++ filter (fun e => negb (isSome (arrayIndex (fst e)))) o.

(** [Object.keys(o)] and [Object.values(o)] *)
Definition objKeys {V : Type} (o : JsObject V) : list string := map fst (objEntries o).
Definition objValues {V : Type} (o : JsObject V) : list V := map snd (objEntries o).

(** [a.sort((x, y) => y.length - x.length)] on a copy: longer strings first,
    strings of one length in their former order (the sort is stable). *)
Fixpoint insertByLength (x : string) (l : list string) : list string :=
  match l with
  | [] => [x]
  | y :: l' =>
      if (String.length y <=? String.length x)%nat then x :: l
      else y :: insertByLength x l'
  end.

Definition sortByLengthDesc (l : list string) : list string :=
  fold_right insertByLength [] l.

(** ** Regular expressions of the combinator *)

Definition isLetter (c : ascii) : bool :=
  let n := nat_of_ascii c in
  (((65 <=? n) && (n <=? 90)) || ((97 <=? n) && (n <=? 122)))%nat.

(** [\w] *)
Definition isWordChar (c : ascii) : bool :=
  isLetter c || isSome (digitVal c) || Ascii.eqb c "_".

Definition headIsWord (s : string) : bool :=
  match s with
  | String c _ => isWordChar c
  | EmptyString => false
  end.

Fixpoint dropPrefix (p s : string) : option string :=
  match p, s with
  | EmptyString, _ => Some s
  | String a p', String b s' => if Ascii.eqb a b then dropPrefix p' s' else None
  | String _ _, EmptyString => None
  end.

Fixpoint lastIsWord (dflt : bool) (s : string) : bool :=
  match s with
  | EmptyString => dflt
  | String c s' => lastIsWord (isWordChar c) s'
  end.

(** [\bL\b] tested at the front of [s], for a literal [L]; [prevWord] tells
    whether the character before [s] is a word character.  A [\b] holds
    between two positions of which exactly one is a word character. *)
Definition wordMatchAt (L : string) (prevWord : bool) (s : string) : bool :=
  match dropPrefix L s with
  | Some rest =>
      xorb prevWord (headIsWord s) && xorb (lastIsWord prevWord L) (headIsWord rest)
  | None => false
  end.

(** [s.replace(new RegExp('\\b' + L + '\\b', 'g'), r)] for a pattern text
    [L] that holds no character special to regular expressions (so it is
    matched literally), and a replacement [r] without [$].  Matches are
    sought from left to right and do not overlap; [skip] counts the
    characters of the last match still to pass. *)
Fixpoint replaceWordFrom (L r : string) (prevWord : bool) (skip : nat) (s : string) : string :=
  match s with
  | EmptyString => if (skip =? 0)%nat && wordMatchAt L prevWord "" then r else ""
  | String c s' =>
      match skip with
      | S k => replaceWordFrom L r (isWordChar c) k s'
      | O =>
          if wordMatchAt L prevWord s then
            match L with
            | EmptyString => r ++ String c (replaceWordFrom L r (isWordChar c) 0 s')
            | String _ L' => r ++ replaceWordFrom L r (isWordChar c) (String.length L') s'
            end
          else String c (replaceWordFrom L r (isWordChar c) 0 s')
      end
  end.

Definition replaceWord (L r s : string) : string := replaceWordFrom L r false 0 s.

Fixpoint filterString (keep : ascii -> bool) (s : string) : string :=
  match s with
  | EmptyString => EmptyString
  | String c s' => if keep c then String c (filterString keep s') else filterString keep s'
  end.

Fixpoint allChars (p : ascii -> bool) (s : string) : bool :=
  match s with
  | EmptyString => true
  | String c s' => p c && allChars p s'
  end.

Fixpoint anyAdjacent (p q : ascii -> bool) (s : string) : bool :=
  match s with
  | String a ((String b _) as s') => (p a && q b) || anyAdjacent p q s'
  | _ => false
  end.

Fixpoint lastChar (s : string) : option ascii :=
  match s with
  | EmptyString => None
  | String c EmptyString => Some c
  | String _ s' => lastChar s'
  end.

Fixpoint takeDigits (s : string) : string :=
  match s with
  | String c s' => if isSome (digitVal c) then String c (takeDigits s') else ""
  | EmptyString => ""
  end.

(** [s.match(/F\d+/gi)]: every match from left to right, the empty list
    for [null]. *)
Fixpoint matchFDigits (skip : nat) (s : string) : list string :=
  match s with
  | EmptyString => []
  | String c s' =>
      match skip with
      | S k => matchFDigits k s'
      | O =>
          let ds := takeDigits s' in
          if Ascii.eqb (upperChar c) "F" && negb (ds =? "")%string
          then String c ds :: matchFDigits (String.length ds) s'
          else matchFDigits 0 s'
      end
  end.

(** ** Custom logic: validation *)

Inductive Validation : Type :=
| Valid
| Invalid (error : string).

(** The loop over the characters that counts parentheses: [None] when a
    closing parenthesis comes first, else the final count. *)
Fixpoint parenScan (parenCount : Z) (s : string) : option Z :=
  match s with
  | EmptyString => Some parenCount
  | String c s' =>
      let n1 := if Ascii.eqb c "(" then parenCount + 1 else parenCount in
      let n2 := if Ascii.eqb c ")" then n1 - 1 else n1 in
      if n2 <? 0 then None else parenScan n2 s'
  end.

Definition isAndOr (c : ascii) : bool := Ascii.eqb c "&" || Ascii.eqb c "|".
Definition isBang (c : ascii) : bool := Ascii.eqb c "!".
Definition isX (c : ascii) : bool := Ascii.eqb c "X".
Definition isPlaceholder (c : ascii) : bool := isX c || isAndOr c || isBang c.
Definition isSpaceOrParen (c : ascii) : bool :=
  isSpace c || Ascii.eqb c "(" || Ascii.eqb c ")".

(** The labels replaced by the placeholder, longest label first. *)
Definition replaceLabels (sortedLabels : list string) (normalized : string) : string :=
  fold_left (fun acc label => replaceWord (toUpperCase label) "X" acc) sortedLabels normalized.

(** The text on which the rules are checked. *)
Definition simplify (expr : string) (availableLabels : list string) : string :=
  let normalized := replaceLabels (sortByLengthDesc availableLabels) expr in
  let normalized := replaceWord "NOT" "!" (replaceWord "OR" "|" (replaceWord "AND" "&" normalized)) in
  filterString (fun c => negb (isSpaceOrParen c)) normalized.

(** validateCustomLogic *)
Definition validateCustomLogic (expression : string) (availableLabels : list string)
  : Validation :=
  if (expression =? "")%string || (trim expression =? "")%string then
    Invalid "Custom logic expression is empty"
  else
  let expr := toUpperCase (trim expression) in
  match parenScan 0 expr with
  | None => Invalid "Unbalanced parentheses - extra closing parenthesis"
  | Some parenCount =>
  if negb (parenCount =? 0) then
    Invalid "Unbalanced parentheses - missing closing parenthesis"
  else
  let simplified := simplify expr availableLabels in
  let unmatchedFilters := matchFDigits 0 simplified in
  if negb (List.length unmatchedFilters =? 0)%nat then
    Invalid ("Unknown filter label(s): " ++ join ", " unmatchedFilters
             ++ ". Available labels: " ++ join ", " availableLabels)
  else
  if negb (negb (simplified =? "")%string && allChars isPlaceholder simplified)
     && negb (filterString (fun c => negb (isPlaceholder c)) simplified =? "")%string
  then
    Invalid ("Invalid characters or words in expression. Use only filter labels ("
             ++ join ", " availableLabels ++ "), AND, OR, NOT, and parentheses.")
  else
  if match simplified with String c _ => isAndOr c | EmptyString => false end then
    Invalid "Expression cannot start with AND/OR"
  else
  if match lastChar simplified with Some c => isAndOr c || isBang c | None => false end then
    Invalid "Expression cannot end with AND/OR/NOT"
  else
  if anyAdjacent isAndOr isAndOr simplified then
    Invalid "Cannot have consecutive AND/OR operators"
  else
  if anyAdjacent isBang isAndOr simplified then
    Invalid "NOT must be followed by a filter label, not AND/OR"
  else
  if anyAdjacent isX isBang simplified then
    Invalid "Missing AND/OR between filter label and NOT"
  else
  if anyAdjacent isX isX simplified then
    Invalid "Missing AND/OR between filter labels"
  else Valid
  end.

(** ** Custom logic: evaluation by the host *)

(** The values an expression over [true], [false], [!], [&&], [||], [&] and
    [|] can have: booleans, and the 32-bit integers the bitwise operators
    produce. *)
Inductive JsValue : Type :=
| JBool (b : bool)
| JNum (n : Z).

Inductive JsError : Type := SyntaxError | ReferenceError | TypeError.

Inductive Completion : Type :=
| Normal (v : JsValue)
| Throw (e : JsError).

Definition toBoolean (v : JsValue) : bool :=
  match v with
  | JBool b => b
  | JNum n => negb (n =? 0)
  end.

Definition toInt32 (v : JsValue) : Z :=
  match v with
  | JBool b => if b then 1 else 0
  | JNum n => (n + 2147483648) mod 4294967296 - 2147483648
  end.

Inductive JsToken : Type :=
| TWord (w : string)
| TAmpAmp | TBarBar | TAmp | TBar | TBang | TLParen | TRParen.

(** The tokens of a text over the alphabet the whitelist lets through:
    letters, [&], [|], [!], parentheses and the space.  [word] is the
    identifier being read.  Punctuators are read longest first. *)
Fixpoint jsTokenize (word : string) (s : string) : option (list JsToken) :=
  let flush (ts : list JsToken) :=
    if (word =? "")%string then ts else TWord word :: ts in
  match s with
  | EmptyString => Some (flush [])
  | String c s' =>
      if isLetter c then jsTokenize (word ++ String c "") s'
      else if Ascii.eqb c " " then option_map flush (jsTokenize "" s')
      else if Ascii.eqb c "(" then option_map (fun ts => flush (TLParen :: ts)) (jsTokenize "" s')
      else if Ascii.eqb c ")" then option_map (fun ts => flush (TRParen :: ts)) (jsTokenize "" s')
      else if Ascii.eqb c "!" then option_map (fun ts => flush (TBang :: ts)) (jsTokenize "" s')
      else if Ascii.eqb c "&" then
        match s' with
        | String "&"%char s'' => option_map (fun ts => flush (TAmpAmp :: ts)) (jsTokenize "" s'')
        | _ => option_map (fun ts => flush (TAmp :: ts)) (jsTokenize "" s')
        end
      else if Ascii.eqb c "|" then
        match s' with
        | String "|"%char s'' => option_map (fun ts => flush (TBarBar :: ts)) (jsTokenize "" s'')
        | _ => option_map (fun ts => flush (TBar :: ts)) (jsTokenize "" s')
        end
      else None
  end.

Inductive JsExpr : Type :=
| EId (w : string)
| ENot (e : JsExpr)
| ELogicalAnd (a b : JsExpr)
| ELogicalOr (a b : JsExpr)
| EBitAnd (a b : JsExpr)
| EBitOr (a b : JsExpr)
| ECall0 (f : JsExpr)
| ECall1 (f arg : JsExpr).

(** The binary operators of the alphabet, loosest first: [||], [&&], [|],
    [&].  Each is left associative over the next level; below [&] come the
    unary expressions. *)
Inductive Level : Type := LOr | LAnd | BOr | BAnd.

Definition nextLevel (l : Level) : option Level :=
  match l with
  | LOr => Some LAnd
  | LAnd => Some BOr
  | BOr => Some BAnd
  | BAnd => None
  end.

Definition isOperator (l : Level) (t : JsToken) : bool :=
  match l, t with
  | LOr, TBarBar | LAnd, TAmpAmp | BOr, TBar | BAnd, TAmp => true
  | _, _ => false
  end.

Definition mkBinary (l : Level) (a b : JsExpr) : JsExpr :=
  match l with
  | LOr => ELogicalOr a b
  | LAnd => ELogicalAnd a b
  | BOr => EBitOr a b
  | BAnd => EBitAnd a b
  end.

(** Recursive descent over the tokens; [n] bounds the depth of the calls.
    [parseLevel n (Some l)] reads an expression of level [l],
    [parseLevel n None] a unary expression; [parseRest] reads the operators
    of one level after a first operand; [parseCalls] reads the argument
    lists that follow a primary expression. *)
Fixpoint parseLevel (n : nat) (l : option Level) (ts : list JsToken) {struct n}
  : option (JsExpr * list JsToken) :=
  match n with
  | O => None
  | S n =>
      match l with
      | Some l =>
          match parseLevel n (nextLevel l) ts with
          | Some (e, r) => parseRest n l e r
          | None => None
          end
      | None =>
          match ts with
          | TBang :: r =>
              match parseLevel n None r with
              | Some (e, r') => Some (ENot e, r')
              | None => None
              end
          | TWord w :: r => parseCalls n (EId w) r
          | TLParen :: r =>
              match parseLevel n (Some LOr) r with
              | Some (e, TRParen :: r') => parseCalls n e r'
              | _ => None
              end
          | _ => None
          end
      end
  end
with parseRest (n : nat) (l : Level) (acc : JsExpr) (ts : list JsToken) {struct n}
  : option (JsExpr * list JsToken) :=
  match n with
  | O => None
  | S n =>
      match ts with
      | t :: r =>
          if isOperator l t then
            match parseLevel n (nextLevel l) r with
            | Some (e, r') => parseRest n l (mkBinary l acc e) r'
            | None => None
            end
          else Some (acc, ts)
      | [] => Some (acc, ts)
      end
  end
with parseCalls (n : nat) (acc : JsExpr) (ts : list JsToken) {struct n}
  : option (JsExpr * list JsToken) :=
  match n with
  | O => None
  | S n =>
      match ts with
      | TLParen :: TRParen :: r => parseCalls n (ECall0 acc) r
      | TLParen :: r =>
          match parseLevel n (Some LOr) r with
          | Some (e, TRParen :: r') => parseCalls n (ECall1 acc e) r'
          | _ => None
          end
      | _ => Some (acc, ts)
      end
  end.

(** Eight calls a token: beyond that bound the result of [parseLevel] no
    longer changes. *)
Definition parseFuel (ts : list JsToken) : nat := 8 * (List.length ts + 1).

(** The levels below a level. *)
Definition levelRank (l : option Level) : nat :=
  match l with
  | None => 0
  | Some BAnd => 1
  | Some BOr => 2
  | Some LAnd => 3
  | Some LOr => 4
  end.

(** The bindings of the global object that the evaluated text can see,
    those to booleans and numbers (a binding to an object, as a
    constructor of the host, is not modelled). *)
Definition Globals : Type := string -> option JsValue.

Definition noGlobals : Globals := fun _ => None.

(** Evaluation: [&&] and [||] return one of their operands and do not
    evaluate the right one when the left one decides; [&] and [|] evaluate
    both and yield a number; a call evaluates callee and argument and then
    fails, no value here being callable.  A word other than [true] and
    [false] is a reference to a global binding: the expression is
    upper-cased before the substitution, so no reserved word of the host
    comes in. *)
Fixpoint jsEval (globals : Globals) (e : JsExpr) : Completion :=
  match e with
  | EId w =>
      if (w =? "true")%string then Normal (JBool true)
      else if (w =? "false")%string then Normal (JBool false)
      else match globals w with
           | Some v => Normal v
           | None => Throw ReferenceError
           end
  | ENot a =>
      match jsEval globals a with
      | Normal v => Normal (JBool (negb (toBoolean v)))
      | Throw x => Throw x
      end
  | ELogicalAnd a b =>
      match jsEval globals a with
      | Normal v => if toBoolean v then jsEval globals b else Normal v
      | Throw x => Throw x
      end
  | ELogicalOr a b =>
      match jsEval globals a with
      | Normal v => if toBoolean v then Normal v else jsEval globals b
      | Throw x => Throw x
      end
  | EBitAnd a b =>
      match jsEval globals a with
      | Normal v =>
          match jsEval globals b with
          | Normal w => Normal (JNum (Z.land (toInt32 v) (toInt32 w)))
          | Throw x => Throw x
          end
      | Throw x => Throw x
      end
  | EBitOr a b =>
      match jsEval globals a with
      | Normal v =>
          match jsEval globals b with
          | Normal w => Normal (JNum (Z.lor (toInt32 v) (toInt32 w)))
          | Throw x => Throw x
          end
      | Throw x => Throw x
      end
  | ECall0 f =>
      match jsEval globals f with
      | Normal _ => Throw TypeError
      | Throw x => Throw x
      end
  | ECall1 f a =>
      match jsEval globals f with
      | Normal _ =>
          match jsEval globals a with
          | Normal _ => Throw TypeError
          | Throw x => Throw x
          end
      | Throw x => Throw x
      end
  end.

(** [Function('"use strict"; return (' + evalExpr + ')')()] for a text
    [evalExpr] over the whitelisted alphabet: the text between the
    parentheses of the [return] must read as one expression, else the
    constructor throws a SyntaxError before anything is evaluated. *)
Definition runFunction (globals : Globals) (evalExpr : string) : Completion :=
  match jsTokenize "" evalExpr with
  | None => Throw SyntaxError
  | Some ts =>
      let body := TLParen :: ts ++ [TRParen] in
      match parseLevel (parseFuel body) (Some LOr) body with
      | Some (e, []) => jsEval globals e
      | _ => Throw SyntaxError
      end
  end.

(** [/^[truefalse&|!() ]+$/i] *)
Definition isAllowedChar (c : ascii) : bool :=
  let u := upperChar c in
  Ascii.eqb u "T" || Ascii.eqb u "R" || Ascii.eqb u "U" || Ascii.eqb u "E"
  || Ascii.eqb u "F" || Ascii.eqb u "A" || Ascii.eqb u "L" || Ascii.eqb u "S"
  || Ascii.eqb c "&" || Ascii.eqb c "|" || Ascii.eqb c "!"
  || Ascii.eqb c "(" || Ascii.eqb c ")" || Ascii.eqb c " ".

Definition onlyAllowedChars (s : string) : bool :=
  negb (s =? "")%string && allChars isAllowedChar s.

Definition boolText (b : bool) : string := if b then "true" else "false".

(** [filterResults[label] ? 'true' : 'false'] *)
Definition resultText (filterResults : JsObject bool) (label : string) : string :=
  boolText (match objGet label filterResults with Some b => b | None => false end).

(** The text handed to the host: labels replaced by their results, longest
    label first, then the three keywords by the host's operators. *)
Definition substitute (expression : string) (filterResults : JsObject bool) : string :=
  let evalExpr := toUpperCase expression in
  let labels := sortByLengthDesc (objKeys filterResults) in
  let evalExpr :=
    fold_left (fun acc label =>
                 replaceWord (toUpperCase label) (resultText filterResults label) acc)
              labels evalExpr in
  replaceWord "NOT" "!" (replaceWord "OR" "||" (replaceWord "AND" "&&" evalExpr)).

(** evaluateCustomLogic.  The [catch] turns every exception of the host
    evaluation into [true]. *)
Definition evaluateCustomLogic (globals : Globals) (expression : string)
    (filterResults : JsObject bool) : JsValue :=
  let evalExpr := substitute expression filterResults in
  if negb (onlyAllowedChars evalExpr) then JBool true
  else
    match runFunction globals evalExpr with
    | Normal v => v
    | Throw _ => JBool true
    end.

(** ** Combining the conditions of a message *)

Record FilterEntry : Type := mkFilterEntry {
  label : string;
  expression : string
}.

(** [filtersConfig]: an absent [expression] is the empty string, both
    being falsy where the module tests it. *)
Record FiltersConfig : Type := mkFiltersConfig {
  filters : list FilterEntry;
  logic : string;
  logicExpression : string
}.

(** The result the loop of messageMatchesFilters stores for one entry. *)
Definition conditionResult (messageSegments : list Segment) (f : FilterEntry)
    (componentSeparator subcomponentSeparator : ascii) : bool :=
  match parseFilterExpression (expression f) with
  | Some parsedFilter =>
      messageMatchesSingleFilter messageSegments parsedFilter
        componentSeparator subcomponentSeparator
  | None => true
  end.

Definition buildFilterResults (messageSegments : list Segment) (filters : list FilterEntry)
    (componentSeparator subcomponentSeparator : ascii) : JsObject bool :=
  fold_left (fun filterResults f =>
               objSet (label f)
                 (conditionResult messageSegments f componentSeparator subcomponentSeparator)
                 filterResults)
            filters [].

Definition every (vs : list bool) : bool := forallb (fun r => Bool.eqb r true) vs.
Definition some (vs : list bool) : bool := existsb (fun r => Bool.eqb r true) vs.

(** messageMatchesFilters; [None] stands for a missing [filtersConfig]. *)
Definition messageMatchesFilters (globals : Globals) (messageSegments : list Segment)
    (filtersConfig : option FiltersConfig) (componentSeparator subcomponentSeparator : ascii)
  : JsValue :=
  match filtersConfig with
  | None => JBool true
  | Some cfg =>
      match filters cfg with
      | [] => JBool true
      | first :: _ =>
          let filterResults :=
            buildFilterResults messageSegments (filters cfg)
              componentSeparator subcomponentSeparator in
          if (logic cfg =? "single")%string || (List.length (filters cfg) =? 1)%nat then
            JBool (match objGet (label first) filterResults with Some b => b | None => false end)
          else if (logic cfg =? "AND")%string then
            JBool (every (objValues filterResults))
          else if (logic cfg =? "OR")%string then
            JBool (some (objValues filterResults))
          else if (logic cfg =? "custom")%string && negb (logicExpression cfg =? "")%string then
            evaluateCustomLogic globals (logicExpression cfg) filterResults
          else JBool (every (objValues filterResults))
      end
  end.

(** ** Segmentation *)

Record Message : Type := mkMessage {
  msgFieldSeparator : ascii;
  msgComponentSeparator : ascii;
  msgSubcomponentSeparator : ascii;
  segments : list Segment
}.

(** [content.split(/\r\n|\n|\r/)] *)
Fixpoint splitLines (s : string) : list string :=
  match s with
  | EmptyString => [EmptyString]
  | String c s' =>
      if Ascii.eqb c "013" then
        match s' with
        | String "010"%char s'' => EmptyString :: splitLines s''
        | _ => EmptyString :: splitLines s'
        end
      else if Ascii.eqb c "010" then EmptyString :: splitLines s'
      else match splitLines s' with
           | h :: t => String c h :: t
           | [] => [String c EmptyString]
           end
  end.

(** [s[n]], with [dflt] where the source writes [s[n] || dflt]. *)
Definition charAt (n : nat) (s : string) (dflt : ascii) : ascii :=
  match String.get n s with
  | Some c => c
  | None => dflt
  end.

(** The variables of the loop of parseMessagesForFiltering. *)
Record ParserState : Type := mkParserState {
  messages : list Message;
  currentMessage : option Message;
  curFieldSeparator : ascii;
  curComponentSeparator : ascii;
  curSubcomponentSeparator : ascii
}.

Definition initialState : ParserState := mkParserState [] None "|" "^" "&".

Definition pushCurrent (st : ParserState) : list Message :=
  match currentMessage st with
  | Some m => messages st ++ [m]
  | None => messages st
  end.

(** What a header line does before it is stored: the open message is
    closed, the separators are read again, a new message is opened. *)
Definition openMessage (st : ParserState) (trimmedLine : string) : ParserState :=
  let fieldSeparator :=
    if (3 <? String.length trimmedLine)%nat
    then charAt 3 trimmedLine (curFieldSeparator st) else curFieldSeparator st in
  let componentSeparator :=
    if (7 <? String.length trimmedLine)%nat
    then charAt 0 (substring2 4 8 trimmedLine) "^" else curComponentSeparator st in
  let subcomponentSeparator :=
    if (7 <? String.length trimmedLine)%nat
    then charAt 3 (substring2 4 8 trimmedLine) "&" else curSubcomponentSeparator st in
  mkParserState (pushCurrent st)
    (Some (mkMessage fieldSeparator componentSeparator subcomponentSeparator []))
    fieldSeparator componentSeparator subcomponentSeparator.

(** The segment stored for a line of a known kind. *)
Definition segmentOfLine (st : ParserState) (segmentId trimmedLine : string) : Segment :=
  let fields :=
    if (segmentId =? "MSH")%string
    then split (curFieldSeparator st) (substringFrom 4 trimmedLine)
    else splitAfterId (curFieldSeparator st) trimmedLine in
  mkSegment segmentId fields (curFieldSeparator st) (curComponentSeparator st)
    (curSubcomponentSeparator st).

Definition pushSegment (m : Message) (s : Segment) : Message :=
  mkMessage (msgFieldSeparator m) (msgComponentSeparator m) (msgSubcomponentSeparator m)
    (segments m ++ [s]).

Section Engine.

(** The table of known segment kinds ([HL7_SEGMENT_IDS]) is declared in the
    viewer's definition tables, outside this module; it is a parameter. *)
Variable HL7_SEGMENT_IDS : list string.

(** The global object of the host, seen by evaluateCustomLogic. *)
Variable globals : Globals.

(** One turn of the loop of parseMessagesForFiltering. *)
Definition processLine (st : ParserState) (line : string) : ParserState :=
  let trimmedLine := trim line in
  if (trimmedLine =? "")%string then st else
  let segmentId := substring2 0 3 trimmedLine in
  let st := if (segmentId =? "MSH")%string then openMessage st trimmedLine else st in
  match currentMessage st with
  | Some m =>
      if existsb (String.eqb segmentId) HL7_SEGMENT_IDS then
        mkParserState (messages st)
          (Some (pushSegment m (segmentOfLine st segmentId trimmedLine)))
          (curFieldSeparator st) (curComponentSeparator st) (curSubcomponentSeparator st)
      else st
  | None => st
  end.

(** parseMessagesForFiltering *)
Definition parseMessagesForFiltering (content : string) : list Message :=
  pushCurrent (fold_left processLine (splitLines content) initialState).

(** ** Extraction *)

Record ResultItem : Type := mkResultItem {
  messageIndex : nat;
  itemValue : string
}.

Record ExtractionResult : Type := mkExtractionResult {
  results : list ResultItem;
  totalMessages : nat;
  filteredMessages : nat;
  filterApplied : bool;
  filterExpression : string;
  appliedConfig : option FiltersConfig;
  filteredHL7Content : string;
  filterOnly : bool
}.

Inductive Extraction : Type :=
| ExtractionError (error : string)
| Extracted (r : ExtractionResult).

Definition quote : string := String (ascii_of_nat 34) "".

Definition invalidFieldReference : string :=
  "Invalid field reference. Use format like PID.5, FT1.13, or MSH.9.1".

Definition invalidFilterFormat (invalidFilters : list string) : string :=
  "Invalid filter format for " ++ join ", " invalidFilters ++ ". Use format like "
  ++ quote ++ "PV1.2 = E" ++ quote ++ ", " ++ quote ++ "PV1.2 != E" ++ quote ++ ", "
  ++ quote ++ "PV1.2 contains E" ++ quote ++ ", or " ++ quote ++ "PV1.2 exists" ++ quote.

Definition missingCustomLogic : string :=
  "Please enter a custom logic expression (e.g., " ++ quote ++ "F1 AND (F2 OR F3)"
  ++ quote ++ ")".

(** The checks of extractFieldValues on a non-empty list of conditions,
    in the order of the source: [Some error] stops the run. *)
Definition checkFilters (cfg : FiltersConfig) : option string :=
  let invalidFilters :=
    map label (filter (fun f => negb (isSome (parseFilterExpression (expression f))))
                 (filters cfg)) in
  if (0 <? List.length invalidFilters)%nat then Some (invalidFilterFormat invalidFilters)
  else if (logic cfg =? "custom")%string then
    if (logicExpression cfg =? "")%string || (trim (logicExpression cfg) =? "")%string
    then Some missingCustomLogic
    else
      match validateCustomLogic (logicExpression cfg) (map label (filters cfg)) with
      | Invalid error => Some ("Invalid custom logic: " ++ error)
      | Valid => None
      end
  else None.

(** [messages.filter(msg => messageMatchesFilters(...))] *)
Definition applyFilters (cfg : FiltersConfig) (msgs : list Message) : list Message :=
  filter (fun msg =>
            toBoolean (messageMatchesFilters globals (segments msg) (Some cfg)
                         (msgComponentSeparator msg) (msgSubcomponentSeparator msg)))
         msgs.

Definition describeFilters (cfg : FiltersConfig) : string :=
  match filters cfg with
  | [f] => expression f
  | fs =>
      let filterLabels := join ", " (map (fun f => label f ++ ": " ++ expression f) fs) in
      if (logic cfg =? "custom")%string
      then filterLabels ++ " [Logic: " ++ logicExpression cfg ++ "]"
      else filterLabels ++ " [Logic: " ++ logic cfg ++ "]"
  end.

Definition matchingSegments (parsed : FieldReference) (msg : Message) : list Segment :=
  filter (fun s => (segmentId s =? segment parsed)%string) (segments msg).

(** What one filtered message adds to [results]. *)
Definition messageExtractions (parsed : FieldReference) (idx : nat) (msg : Message)
  : list ResultItem :=
  match matchingSegments parsed msg with
  | [] => [mkResultItem idx ""]
  | _ =>
      map (fun seg =>
             mkResultItem idx
               (extractValueFromSegment seg (field parsed) (component parsed)
                  (subcomponent parsed) (msgComponentSeparator msg)
                  (msgSubcomponentSeparator msg)))
          (matchingSegments parsed msg)
  end.

(** [a.forEach((x, idx) => ...)] collecting what each turn pushes. *)
Fixpoint collectIndexed {A B : Type} (f : nat -> A -> list B) (idx : nat) (l : list A)
  : list B :=
  match l with
  | [] => []
  | x :: l' => f idx x ++ collectIndexed f (S idx) l'
  end.

Definition segmentText (seg : Segment) : string :=
  segmentId seg ++ String (fieldSeparator seg) ""
  ++ join (String (fieldSeparator seg) "") (fields seg).

Definition CR : string := String "013" "".
Definition CRCRLF : string := String "013" (String "013" (String "010" "")).

Definition messageText (msg : Message) : string :=
  join CR (map segmentText (segments msg)).

(** The text built from the filtered messages. *)
Definition exportText (msgs : list Message) : string :=
  join CRCRLF (map messageText msgs).

(** extractFieldValues; [None] stands for a missing [filtersConfig]. *)
Definition extractFieldValues (content fieldRef : string)
    (filtersConfig : option FiltersConfig) : Extraction :=
  let filterOnly := (fieldRef =? "")%string || (trim fieldRef =? "")%string in
  let parsed := if filterOnly then None else parseFieldReference fieldRef in
  if negb filterOnly && negb (isSome parsed) then ExtractionError invalidFieldReference
  else
  let messages := parseMessagesForFiltering content in
  let totalMessages := List.length messages in
  let filtering :=
    match filtersConfig with
    | Some cfg =>
        if (0 <? List.length (filters cfg))%nat then
          match checkFilters cfg with
          | Some error => inl error
          | None => inr (applyFilters cfg messages, true, describeFilters cfg)
          end
        else inr (messages, false, "")
    | None => inr (messages, false, "")
    end in
  match filtering with
  | inl error => ExtractionError error
  | inr (filteredMessages, hasValidFilters, filterDescription) =>
      let results :=
        match parsed with
        | Some p => collectIndexed (messageExtractions p) 0 filteredMessages
        | None => []
        end in
      let filteredHL7Content :=
        if hasValidFilters then exportText filteredMessages else "" in
      Extracted
        (mkExtractionResult results totalMessages (List.length filteredMessages)
           hasValidFilters filterDescription
           (if hasValidFilters then filtersConfig else None)
           filteredHL7Content filterOnly)
  end.

End Engine.

(** ** Statistics *)

(** [set.add(x)] on a Set of message indices, in insertion order. *)
Definition setAdd (x : nat) (s : list nat) : list nat :=
  if existsb (Nat.eqb x) s then s else s ++ [x].

Definition setHas (x : nat) (s : list nat) : bool := existsb (Nat.eqb x) s.

Definition displayValue (v : string) : string :=
  if (trim v =? "")%string then "(empty)" else trim v.

(** [valueCounts[displayValue]++] after the initialisation to 0.  The keys
    that name a member of Object.prototype (constructor, toString, ...),
    which the test [!valueCounts[displayValue]] reads through the
    prototype, are not modelled. *)
Definition countValue (valueCounts : JsObject nat) (k : string) : JsObject nat :=
  match objGet k valueCounts with
  | Some n => objSet k (S n) valueCounts
  | None => objSet k 1%nat valueCounts
  end.

(** [a.sort((x, y) => y[1] - x[1])]: larger counts first, stable. *)
Fixpoint insertByCount (x : string * nat) (l : list (string * nat)) : list (string * nat) :=
  match l with
  | [] => [x]
  | y :: l' =>
      if (snd y <=? snd x)%nat then x :: l else y :: insertByCount x l'
  end.

Definition sortByCountDesc (l : list (string * nat)) : list (string * nat) :=
  fold_right insertByCount [] l.

Record Statistics : Type := mkStatistics {
  statTotalMessages : nat;
  statFilteredMessages : option nat;
  statFilterApplied : bool;
  statFilterExpression : string;
  messagesWithValue : nat;
  messagesWithoutValue : Z;
  totalOccurrences : nat;
  distinctValues : list (string * nat);
  segmentNotFound : bool;
  statFilteredHL7Content : string
}.

Inductive StatisticsResult : Type :=
| StatisticsError (error : string)
| FilterOnlyStatistics (totalMessages : nat) (filteredMessages : option nat)
    (filterApplied : bool) (filterExpression : string) (filteredHL7Content : string)
| FieldStatistics (s : Statistics).

Definition nonEmptyItem (item : ResultItem) : bool :=
  negb (trim (itemValue item) =? "")%string.

Definition countValues (results : list ResultItem) : JsObject nat :=
  fold_left (fun valueCounts item => countValue valueCounts (displayValue (itemValue item)))
            results [].

Definition hasValueSet (results : list ResultItem) : list nat :=
  fold_left (fun s item => if nonEmptyItem item then setAdd (messageIndex item) s else s)
            results [].

Definition hasNoValueSet (results : list ResultItem) : list nat :=
  fold_left (fun s item => if nonEmptyItem item then s else setAdd (messageIndex item) s)
            results [].

(** generateStatistics *)
Definition generateStatistics (extractionResult : Extraction) : StatisticsResult :=
  match extractionResult with
  | ExtractionError error => StatisticsError error
  | Extracted r =>
      let messageCount := if filterApplied r then filteredMessages r else totalMessages r in
      let filtered := if filterApplied r then Some (filteredMessages r) else None in
      if filterOnly r then
        FilterOnlyStatistics (totalMessages r) filtered (filterApplied r)
          (filterExpression r) (filteredHL7Content r)
      else
        let valueCounts := countValues (results r) in
        let messageHasValue := hasValueSet (results r) in
        let messageHasNoValue := hasNoValueSet (results r) in
        let messagesWithValue := List.length messageHasValue in
        let messagesWithOnlyEmpty :=
          List.length (filter (fun m => negb (setHas m messageHasValue)) messageHasNoValue) in
        let messagesWithSegment :=
          fold_left (fun s m => setAdd m s) (messageHasValue ++ messageHasNoValue) [] in
        let messagesWithoutSegment :=
          Z.of_nat messageCount - Z.of_nat (List.length messagesWithSegment) in
        let messagesWithoutValue := Z.of_nat messagesWithOnlyEmpty + messagesWithoutSegment in
        FieldStatistics
          (mkStatistics (totalMessages r) filtered (filterApplied r) (filterExpression r)
             messagesWithValue messagesWithoutValue (List.length (results r))
             (sortByCountDesc (objEntries valueCounts))
             ((List.length (results r) =? 0)%nat && negb (filterApplied r))
             (filteredHL7Content r))
  end.

(** ** Words and symbols of a text *)

(** A text cut at its word boundaries: maximal runs of word characters,
    and single characters that are not word characters. *)
Inductive Chunk : Type :=
| CWord (w : string)
| CSym (c : ascii).

Fixpoint chunks (s : string) : list Chunk :=
  match s with
  | EmptyString => []
  | String c s' =>
      if isWordChar c then
        match chunks s' with
        | CWord w :: r => CWord (String c w) :: r
        | r => CWord (String c "") :: r
        end
      else CSym c :: chunks s'
  end.

Definition chunkText (ch : Chunk) : string :=
  match ch with
  | CWord w => w
  | CSym c => String c ""
  end.

Fixpoint render (cs : list Chunk) : string :=
  match cs with
  | [] => ""
  | ch :: r => chunkText ch ++ render r
  end.

Definition wordlike (w : string) : bool :=
  negb (w =? "")%string && allChars isWordChar w.

Definition startsWithWord (cs : list Chunk) : bool :=
  match cs with
  | CWord _ :: _ => true
  | _ => false
  end.

(** The chunk lists that are the cut of some text: words are non-empty
    runs of word characters, no two words touch, symbols are not word
    characters. *)
Fixpoint canonical (cs : list Chunk) : bool :=
  match cs with
  | [] => true
  | CSym c :: r => negb (isWordChar c) && canonical r
  | CWord w :: r => wordlike w && negb (startsWithWord r) && canonical r
  end.

Definition chunk_eqb (a b : Chunk) : bool :=
  match a, b with
  | CWord v, CWord w => (v =? w)%string
  | CSym c, CSym d => Ascii.eqb c d
  | _, _ => false
  end.

(** One word replaced by the chunks of a replacement text. *)
Definition replaceChunk (L : string) (rc : list Chunk) (ch : Chunk) : list Chunk :=
  if chunk_eqb ch (CWord L) then rc else [ch].

(** ** The expression language of the specification *)

(** The closed token set: LABEL, AND, OR, NOT and the parentheses. *)
Inductive Token : Type :=
| TkLabel (l : string)
| TkAnd | TkOr | TkNot | TkOpen | TkClose.

(** The token of a chunk of the upper-cased expression: [Some None] for
    a space, which separates tokens; [None] for a text outside the token
    set.  A word is a keyword or the upper-cased name of a declared
    label. *)
Definition tokenOfChunk (labels : list string) (ch : Chunk) : option (option Token) :=
  match ch with
  | CSym c =>
      if Ascii.eqb c " " then Some None
      else if Ascii.eqb c "(" then Some (Some TkOpen)
      else if Ascii.eqb c ")" then Some (Some TkClose)
      else None
  | CWord w =>
      if (w =? "AND")%string then Some (Some TkAnd)
      else if (w =? "OR")%string then Some (Some TkOr)
      else if (w =? "NOT")%string then Some (Some TkNot)
      else
        match find (fun l => (toUpperCase l =? w)%string) labels with
        | Some l => Some (Some (TkLabel l))
        | None => None
        end
  end.

Fixpoint tokensOfChunks (labels : list string) (cs : list Chunk) : option (list Token) :=
  match cs with
  | [] => Some []
  | ch :: r =>
      match tokenOfChunk labels ch, tokensOfChunks labels r with
      | Some (Some t), Some ts => Some (t :: ts)
      | Some None, Some ts => Some ts
      | _, _ => None
      end
  end.

(** Tokenize: keywords and labels without regard to case. *)
Definition tokenize (labels : list string) (expression : string) : option (list Token) :=
  tokensOfChunks labels (chunks (toUpperCase expression)).

Inductive Ast : Type :=
| ALabel (l : string)
| ANot (a : Ast)
| AAnd (a b : Ast)
| AOr (a b : Ast).

(** Parse: the grammar EXPR := LABEL | NOT EXPR | EXPR AND EXPR |
    EXPR OR EXPR | ( EXPR ), with NOT binding tighter than AND and AND
    tighter than OR, both associating to the left.  [KAndTail a] and
    [KOrTail a] read the operators that follow a first operand [a]. *)
Inductive Kind : Type :=
| KUnary
| KAnd
| KOr
| KAndTail (acc : Ast)
| KOrTail (acc : Ast).

Inductive derives : Kind -> list Token -> Ast -> Prop :=
| d_label (l : string) : derives KUnary [TkLabel l] (ALabel l)
| d_not (ts : list Token) (a : Ast) :
    derives KUnary ts a -> derives KUnary (TkNot :: ts) (ANot a)
| d_paren (ts : list Token) (a : Ast) :
    derives KOr ts a -> derives KUnary (TkOpen :: ts ++ [TkClose]) a
| d_and (ts1 ts2 : list Token) (a b : Ast) :
    derives KUnary ts1 a -> derives (KAndTail a) ts2 b -> derives KAnd (ts1 ++ ts2) b
| d_and_done (acc : Ast) : derives (KAndTail acc) [] acc
| d_and_more (acc : Ast) (ts1 ts2 : list Token) (a b : Ast) :
    derives KUnary ts1 a -> derives (KAndTail (AAnd acc a)) ts2 b ->
    derives (KAndTail acc) (TkAnd :: ts1 ++ ts2) b
| d_or (ts1 ts2 : list Token) (a b : Ast) :
    derives KAnd ts1 a -> derives (KOrTail a) ts2 b -> derives KOr (ts1 ++ ts2) b
| d_or_done (acc : Ast) : derives (KOrTail acc) [] acc
| d_or_more (acc : Ast) (ts1 ts2 : list Token) (a b : Ast) :
    derives KAnd ts1 a -> derives (KOrTail (AOr acc a)) ts2 b ->
    derives (KOrTail acc) (TkOr :: ts1 ++ ts2) b.

Definition labelValue (filterResults : JsObject bool) (l : string) : bool :=
  match objGet l filterResults with Some b => b | None => false end.

(** Reduce over boolean literals. *)
Fixpoint reduce (filterResults : JsObject bool) (a : Ast) : bool :=
  match a with
  | ALabel l => labelValue filterResults l
  | ANot x => negb (reduce filterResults x)
  | AAnd x y => reduce filterResults x && reduce filterResults y
  | AOr x y => reduce filterResults x || reduce filterResults y
  end.

(** The declared labels a custom expression can name: words, distinct
    without regard to case, none of them a keyword. *)
Definition isKeyword (w : string) : bool :=
  (w =? "AND")%string || (w =? "OR")%string || (w =? "NOT")%string.

Definition declaredLabels (filterResults : JsObject bool) : Prop :=
  Forall (fun l => wordlike l = true /\ isKeyword (toUpperCase l) = false)
         (map fst filterResults)
  /\ NoDup (map toUpperCase (map fst filterResults)).

(** What the host is given for a token. *)
Definition hostToken (filterResults : JsObject bool) (t : Token) : JsToken :=
  match t with
  | TkLabel l => TWord (boolText (labelValue filterResults l))
  | TkAnd => TAmpAmp
  | TkOr => TBarBar
  | TkNot => TBang
  | TkOpen => TLParen
  | TkClose => TRParen
  end.

Fixpoint hostExpr (filterResults : JsObject bool) (a : Ast) : JsExpr :=
  match a with
  | ALabel l => EId (boolText (labelValue filterResults l))
  | ANot x => ENot (hostExpr filterResults x)
  | AAnd x y => ELogicalAnd (hostExpr filterResults x) (hostExpr filterResults y)
  | AOr x y => ELogicalOr (hostExpr filterResults x) (hostExpr filterResults y)
  end.

(** The parser of the grammar by recursive descent; [n] bounds the depth
    of the calls.  For each kind it reads what [derives] describes and
    returns the tokens left. *)
Fixpoint parseKind (n : nat) (k : Kind) (ts : list Token) {struct n}
  : option (Ast * list Token) :=
  match n with
  | O => None
  | S n =>
      match k with
      | KUnary =>
          match ts with
          | TkLabel l :: r => Some (ALabel l, r)
          | TkNot :: r =>
              match parseKind n KUnary r with
              | Some (a, r') => Some (ANot a, r')
              | None => None
              end
          | TkOpen :: r =>
              match parseKind n KOr r with
              | Some (a, TkClose :: r') => Some (a, r')
              | _ => None
              end
          | _ => None
          end
      | KAnd =>
          match parseKind n KUnary ts with
          | Some (a, r) => parseKind n (KAndTail a) r
          | None => None
          end
      | KOr =>
          match parseKind n KAnd ts with
          | Some (a, r) => parseKind n (KOrTail a) r
          | None => None
          end
      | KAndTail acc =>
          match ts with
          | TkAnd :: r =>
              match parseKind n KUnary r with
              | Some (a, r') => parseKind n (KAndTail (AAnd acc a)) r'
              | None => None
              end
          | _ => Some (acc, ts)
          end
      | KOrTail acc =>
          match ts with
          | TkOr :: r =>
              match parseKind n KAnd r with
              | Some (a, r') => parseKind n (KOrTail (AOr acc a)) r'
              | None => None
              end
          | _ => Some (acc, ts)
          end
      end
  end.

Definition properFuel (ts : list Token) : nat := 3 * List.length ts + 2.

(** The evaluator of the specification: tokenize, parse, reduce over
    boolean literals.  [None] for a text that is not an expression of the
    grammar over the declared labels. *)
Definition properEvaluate (expression : string) (filterResults : JsObject bool)
  : option bool :=
  match tokenize (map fst filterResults) expression with
  | Some ts =>
      match parseKind (properFuel ts) KOr ts with
      | Some (a, []) => Some (reduce filterResults a)
      | _ => None
      end
  | None => None
  end.

(** What may follow a derivation of a kind for the parser to stop there. *)
Definition stopsAt (k : Kind) (rest : list Token) : Prop :=
  match k, rest with
  | KUnary, _ => True
  | (KAnd | KAndTail _), t :: _ => t <> TkAnd
  | (KOr | KOrTail _), t :: _ => t <> TkAnd /\ t <> TkOr
  | _, [] => True
  end.

Definition kindFuel (k : Kind) (ts : list Token) : nat :=
  match k with
  | KUnary => 3 * List.length ts
  | KAnd | KAndTail _ | KOrTail _ => 3 * List.length ts + 1
  | KOr => 3 * List.length ts + 2
  end.

(** ** The messages a run works on *)

(** The filtered messages of extractFieldValues: all messages unless a
    FilterSet with conditions is given. *)
Definition selectedMessages (HL7_SEGMENT_IDS : list string) (globals : Globals)
    (content : string) (filtersConfig : option FiltersConfig) : list Message :=
  match filtersConfig with
  | Some cfg =>
      if (0 <? List.length (filters cfg))%nat
      then applyFilters globals cfg (parseMessagesForFiltering HL7_SEGMENT_IDS content)
      else parseMessagesForFiltering HL7_SEGMENT_IDS content
  | None => parseMessagesForFiltering HL7_SEGMENT_IDS content
  end.

(** A message has a value when one of its extractions is not blank. *)
Definition messageHasValue (parsed : FieldReference) (msg : Message) : bool :=
  existsb nonEmptyItem (messageExtractions parsed 0 msg).

(** The indices, counted from [k], at which a list of flags holds. *)
Fixpoint indicesWhere (k : nat) (flags : list bool) : list nat :=
  match flags with
  | [] => []
  | b :: flags' => (if b then [k] else []) ++ indicesWhere (S k) flags'
  end.

(** ** The lines a run keeps *)

(** How a kept line reads in the export text: its first three characters,
    the field separator in force, and what followed the kind label less
    one leading separator (for a header, what followed the fourth
    character). *)
Definition renderLine (sep : ascii) (line : string) : string :=
  let id := substring2 0 3 line in
  id ++ String sep ""
  ++ (if (id =? "MSH")%string then substringFrom 4 line
      else
        let afterId := substringFrom 3 line in
        if startsWithChar sep afterId then substringFrom 1 afterId else afterId).

(** The loop of parseMessagesForFiltering seen from the text: the trimmed
    lines it stores, by message, each with the field separator in force
    when it is stored. *)
Record KeptState : Type := mkKeptState {
  closedGroups : list (list (ascii * string));
  openGroup : option (list (ascii * string));
  separatorInForce : ascii
}.

Definition closeGroup (ks : KeptState) : list (list (ascii * string)) :=
  match openGroup ks with
  | Some g => (closedGroups ks ++ [g])%list
  | None => closedGroups ks
  end.

Definition keepLine (HL7_SEGMENT_IDS : list string) (ks : KeptState) (line : string)
  : KeptState :=
  let trimmedLine := trim line in
  if (trimmedLine =? "")%string then ks else
  let segmentId := substring2 0 3 trimmedLine in
  let ks :=
    if (segmentId =? "MSH")%string then
      mkKeptState (closeGroup ks) (Some [])
        (if (3 <? String.length trimmedLine)%nat
         then charAt 3 trimmedLine (separatorInForce ks) else separatorInForce ks)
    else ks in
  match openGroup ks with
  | Some g =>
      if existsb (String.eqb segmentId) HL7_SEGMENT_IDS then
        mkKeptState (closedGroups ks) (Some (g ++ [(separatorInForce ks, trimmedLine)])%list)
          (separatorInForce ks)
      else ks
  | None => ks
  end.

Definition keptLines (HL7_SEGMENT_IDS : list string) (content : string)
  : list (list (ascii * string)) :=
  closeGroup (fold_left (keepLine HL7_SEGMENT_IDS) (splitLines content)
                (mkKeptState [] None "|")).

Definition segmentTexts (m : Message) : list string := map segmentText (segments m).
Definition renderGroup (g : list (ascii * string)) : list string :=
  map (fun k => renderLine (fst k) (snd k)) g.

(** The parser state and the kept lines go together. *)
Definition agree (ps : ParserState) (ks : KeptState) : Prop :=
  curFieldSeparator ps = separatorInForce ks
  /\ map segmentTexts (messages ps) = map renderGroup (closedGroups ks)
  /\ option_map segmentTexts (currentMessage ps) = option_map renderGroup (openGroup ks).

(** A kept line has the field separator in force right after its kind
    label. *)
Definition wellSeparated (k : ascii * string) : Prop :=
  String.get 3 (snd k) = Some (fst k).

(** The lines of a text without the blank ones, each trimmed: the text up
    to its line terminators. *)
Definition nonBlankLines (s : string) : list string :=
  filter (fun l => negb (l =? "")%string) (map trim (splitLines s)).

Definition noSeparatorContent : string := "MSH|^~\&|A" ++ CR ++ "PID1".

(** ** Conditions under which a run goes through its checks *)

(** Labels that are words (as F1, F2, ...): the labels for which the
    patterns built from them are matched literally. *)
Definition plainLabels (labels : list string) : Prop :=
  Forall (fun l => allChars isWordChar l = true) labels.



(** ** The substitution of evaluateCustomLogic, seen on the cut *)

(** A replacement that keeps the cut a cut: one word, or symbols only. *)
Definition noWords (rc : list Chunk) : bool :=
  forallb (fun ch => match ch with CSym c => negb (isWordChar c) | CWord _ => false end) rc.

Definition simpleReplacement (rc : list Chunk) : Prop :=
  (exists w, rc = [CWord w] /\ wordlike w = true) \/ noWords rc = true.

Definition labelStage (filterResults : JsObject bool) (cs : list Chunk) (l : string)
  : list Chunk :=
  flat_map (replaceChunk (toUpperCase l) [CWord (resultText filterResults l)]) cs.

Definition keywordStages (cs : list Chunk) : list Chunk :=
  flat_map (replaceChunk "NOT" [CSym "!"])
    (flat_map (replaceChunk "OR" [CSym "|"; CSym "|"])
       (flat_map (replaceChunk "AND" [CSym "&"; CSym "&"]) cs)).

Definition substituteChunks (filterResults : JsObject bool) (cs : list Chunk) : list Chunk :=
  keywordStages
    (fold_left (labelStage filterResults) (sortByLengthDesc (objKeys filterResults)) cs).

(** The chunks the host is given for a token, and for a space. *)
Definition hostChunks (filterResults : JsObject bool) (t : option Token) : list Chunk :=
  match t with
  | None => [CSym " "]
  | Some (TkLabel l) => [CWord (boolText (labelValue filterResults l))]
  | Some TkAnd => [CSym "&"; CSym "&"]
  | Some TkOr => [CSym "|"; CSym "|"]
  | Some TkNot => [CSym "!"]
  | Some TkOpen => [CSym "("]
  | Some TkClose => [CSym ")"]
  end.

(** The word the host's tokenizer holds, put before the tokens that
    follow. *)
Definition flushWord (word : string) (ts : list JsToken) : list JsToken :=
  if (word =? "")%string then ts else TWord word :: ts.

(** What may come after an expression: nothing, or one of [allowed]. *)
Definition follows (allowed rest : list JsToken) : Prop :=
  match rest with
  | [] => True
  | t :: _ => In t allowed
  end.

(** The host reads a derivation of the grammar as the same expression,
    whatever follows it, given calls enough. *)
Definition hostParses (filterResults : JsObject bool) (k : Kind) (ts : list Token) (a : Ast)
  : Prop :=
  match k with
  | KUnary =>
      forall rest n, follows [TRParen; TAmpAmp; TBarBar] rest ->
        (8 * List.length ts <= n)%nat ->
        parseLevel n None (map (hostToken filterResults) ts ++ rest)
        = Some (hostExpr filterResults a, rest)
  | KAnd =>
      forall rest n, follows [TRParen; TBarBar] rest ->
        (8 * List.length ts + 3 <= n)%nat ->
        parseLevel n (Some LAnd) (map (hostToken filterResults) ts ++ rest)
        = Some (hostExpr filterResults a, rest)
  | KOr =>
      forall rest n, follows [TRParen] rest ->
        (8 * List.length ts + 4 <= n)%nat ->
        parseLevel n (Some LOr) (map (hostToken filterResults) ts ++ rest)
        = Some (hostExpr filterResults a, rest)
  | KAndTail acc =>
      forall rest n, follows [TRParen; TBarBar] rest ->
        (8 * List.length ts + 2 <= n)%nat ->
        parseRest n LAnd (hostExpr filterResults acc)
          (map (hostToken filterResults) ts ++ rest)
        = Some (hostExpr filterResults a, rest)
  | KOrTail acc =>
      forall rest n, follows [TRParen] rest ->
        (8 * List.length ts + 2 <= n)%nat ->
        parseRest n LOr (hostExpr filterResults acc)
          (map (hostToken filterResults) ts ++ rest)
        = Some (hostExpr filterResults a, rest)
  end.

(** ** Addresses of the grammar *)

(** A segment token: not empty, without white space or dot. *)
Definition isTokenChar (c : ascii) : bool := negb (isSpace c) && negb (Ascii.eqb c ".").

Definition segmentToken (s : string) : bool :=
  negb (s =? "")%string && allChars isTokenChar s.

(** A numeric part: decimal digits, at least one. *)
Definition digitString (s : string) : bool :=
  negb (s =? "")%string && allDigits s.

(** A numeric part and the positive number it writes. *)
Definition writes (ds : string) (v : Z) : Prop :=
  digitString ds = true /\ digitsPrefix None ds = Some v /\ 1 <= v.

(** ** Sample data *)

Definition mshSegment : Segment := mkSegment "MSH" ["^~\&"; "APP"; "FAC"] "|" "^" "&".
Definition pidSegment : Segment :=
  mkSegment "PID" [""; ""; "ID1^^^SYS"; ""; "DOE^JOHN"] "|" "^" "&".

Definition sampleSegmentIds : list string := ["MSH"; "PID"; "PV1"; "OBX"].

(** The two messages of the specification's examples. *)
Definition sampleContent : string :=
  "MSH|^~\&|A" ++ CR ++ "PID|||ID1^^^SYS||DOE^JOHN" ++ CR
  ++ "MSH|^~\&|A" ++ CR ++ "PID|||ID2^^^SYS||SMITH^JANE" ++ CR.

Definition headerExists : FiltersConfig :=
  mkFiltersConfig [mkFilterEntry "F1" "MSH.1 exists"] "single" "".



Definition twoConditions : list FilterEntry :=
  [mkFilterEntry "F1" "PID.5.1 = DOE"; mkFilterEntry "F2" "PV1.2 exists"].

Definition brokenCondition : FilterEntry := mkFilterEntry "F1" "no operator here".

Definition bothTrue : JsObject bool := [("F1", true); ("F2", true)].


Definition oneTrueOneFalse : JsObject bool := [("F1", true); ("F2", false)].


(** ** Text after an address *)

Definition headIsDigit (s : string) : bool :=
  match s with
  | String c _ => isSome (digitVal c)
  | EmptyString => false
  end.

Definition noDot (s : string) : bool :=
  allChars (fun c => negb (Ascii.eqb c ".")) s.


(** ** Plain texts of a condition *)

(** [p] found somewhere in [s], letters compared without case. *)
Fixpoint occursCI (p s : string) : bool :=
  isSome (dropPrefixCI p s) ||
  match s with
  | EmptyString => false
  | String _ s' => occursCI p s'
  end.

Definition isPlainChar (c : ascii) : bool :=
  negb (isSpace c) && negb (Ascii.eqb c "=") && negb (Ascii.eqb c "!").

(** A text that can stand for the address or for the value of a condition
    without being taken for an operator: no white space, no [=], no [!],
    and the word [contains] nowhere within. *)
Definition plainText (s : string) : bool :=
  allChars isPlainChar s && negb (occursCI "contains" s).

(** What may follow a text for a pattern not to run over its end: nothing,
    or a character that the pattern does not hold. *)
Definition cannotContinue (p rest : string) : Prop :=
  match rest with
  | EmptyString => True
  | String c _ => allChars (fun a => negb (Ascii.eqb (upperChar a) (upperChar c))) p = true
  end.



(** ** The text validateCustomLogic checks, seen on the cut *)

Definition placeholderStage (cs : list Chunk) (l : string) : list Chunk :=
  flat_map (replaceChunk (toUpperCase l) [CWord "X"]) cs.

Definition operatorStages (cs : list Chunk) : list Chunk :=
  flat_map (replaceChunk "NOT" [CSym "!"])
    (flat_map (replaceChunk "OR" [CSym "|"])
       (flat_map (replaceChunk "AND" [CSym "&"]) cs)).

Definition normalizedChunks (labels : list string) (cs : list Chunk) : list Chunk :=
  operatorStages (fold_left placeholderStage (sortByLengthDesc labels) cs).

(** What validateCustomLogic makes of a token: [X] for a label, [&], [|]
    and [!] for the keywords, nothing for a parenthesis. *)
Definition placeholder (t : Token) : string :=
  match t with
  | TkLabel _ => "X"
  | TkAnd => "&"
  | TkOr => "|"
  | TkNot => "!"
  | TkOpen | TkClose => ""
  end.

Fixpoint placeholders (ts : list Token) : string :=
  match ts with
  | [] => ""
  | t :: r => placeholder t ++ placeholders r
  end.

Definition parenText (t : Token) : string :=
  match t with
  | TkOpen => "("
  | TkClose => ")"
  | _ => ""
  end.

Fixpoint parens (ts : list Token) : string :=
  match ts with
  | [] => ""
  | t :: r => parenText t ++ parens r
  end.

(** Operands and operators in turn: [alternates true s] when [s] is an
    operand ([X] after any number of [!]) followed by operator and
    operand any number of times; [alternates false s] for what may follow
    an operand. *)
Fixpoint alternates (operand : bool) (s : string) : bool :=
  match s with
  | EmptyString => negb operand
  | String c s' =>
      if operand then
        if isBang c then alternates true s'
        else if isX c then alternates false s'
        else false
      else
        if isAndOr c then alternates true s' else false
  end.

(** The first chunk of a word that grows by one character. *)
Definition attach (c : ascii) (cs : list Chunk) : list Chunk :=
  match cs with
  | CWord w :: r => CWord (String c w) :: r
  | r => CWord (String c "") :: r
  end.


(** ** Writing a segment *)

(** A text without the character [c]. *)
Definition separatorFree (c : ascii) (s : string) : bool :=
  allChars (fun a => negb (Ascii.eqb a c)) s.

(** A component written from its subcomponents, a field from its
    components, a line from its kind label and its fields: the parts
    joined with the separator of their level. *)
Definition writeComponent (ss : ascii) (subcomponents : list string) : string :=
  join (String ss "") subcomponents.



(** A text that holds none of the three separators. *)
Definition isAtom (fs cs ss : ascii) (x : string) : bool :=
  separatorFree fs x && separatorFree cs x && separatorFree ss x.

(** ** Header lines and stored messages *)

(** A line that opens a message: its text without the blanks around it
    starts with MSH. *)
Definition opensMessage (line : string) : bool :=
  (substring2 0 3 (trim line) =? "MSH")%string.

(** What holds of a stored segment of a message: its kind is in the table
    of known kinds, it carries the separators of its message, and it has
    at least one field. *)
Definition segmentOf (HL7_SEGMENT_IDS : list string) (m : Message) (s : Segment) : Prop :=
  In (segmentId s) HL7_SEGMENT_IDS
  /\ fieldSeparator s = msgFieldSeparator m
  /\ componentSeparator s = msgComponentSeparator m
  /\ subcomponentSeparator s = msgSubcomponentSeparator m
  /\ fields s <> [].

(** A message whose segments are segments of it, the header, if stored,
    first and only there. *)
Definition wellFormed (HL7_SEGMENT_IDS : list string) (m : Message) : Prop :=
  Forall (segmentOf HL7_SEGMENT_IDS m) (segments m)
  /\ Forall (fun s => segmentId s <> "MSH") (tl (segments m)).

(** The state of the loop between two lines: the closed messages and the
    open one are well formed, and the open one has the separators in
    force. *)
Definition parserInvariant (HL7_SEGMENT_IDS : list string) (st : ParserState) : Prop :=
  Forall (wellFormed HL7_SEGMENT_IDS) (messages st)
  /\ match currentMessage st with
     | Some m =>
         wellFormed HL7_SEGMENT_IDS m
         /\ msgFieldSeparator m = curFieldSeparator st
         /\ msgComponentSeparator m = curComponentSeparator st
         /\ msgSubcomponentSeparator m = curSubcomponentSeparator st
     | None => True
     end.

(** Three messages, the second one without a segment of kind PID, and no
    message at all. *)
Definition threeMessages : string :=
  "MSH|^~\&|A" ++ CR ++ "PID|||ID1" ++ CR ++ "PID|||ID2" ++ CR
  ++ "MSH|^~\&|B" ++ CR ++ "PV1||E" ++ CR
  ++ "  MSH|^~\&|C" ++ CR ++ "PID|||ID3".

Definition noMessage : string := "PID|||ID1" ++ CR ++ "PV1||E".

(** ** The table of values *)

(** The names an empty object answers through its prototype.  A display
    value equal to one of them is read by [!valueCounts[displayValue]] as
    present before it was ever counted; countValue leaves these out. *)
Definition prototypeMembers : list string :=
  ["constructor"; "__defineGetter__"; "__defineSetter__"; "hasOwnProperty";
   "__lookupGetter__"; "__lookupSetter__"; "isPrototypeOf"; "propertyIsEnumerable";
   "toString"; "valueOf"; "__proto__"; "toLocaleString"].

Definition plainValues (results : list ResultItem) : Prop :=
  Forall (fun item => ~ In (displayValue (itemValue item)) prototypeMembers) results.

(** How many extractions display as [v]. *)
Definition occurrences (v : string) (results : list ResultItem) : nat :=
  List.length (filter (fun item => (displayValue (itemValue item) =? v)%string) results).

(** [distinctValues.reduce((sum, item) => sum + item.count, 0)], the base
    of the percentages of renderStatistics and of createPieChart. *)
Definition sumCounts (distinctValues : list (string * nat)) : nat :=
  fold_left (fun sum item => (sum + snd item)%nat) distinctValues 0%nat.

(** Counts in descending order. *)
Fixpoint descending (l : list (string * nat)) : bool :=
  match l with
  | [] => true
  | x :: l' => forallb (fun y => (snd y <=? snd x)%nat) l' && descending l'
  end.

(** The entries of a table with the count [c]. *)
Definition withCount (c : nat) (l : list (string * nat)) : list (string * nat) :=
  filter (fun e => (snd e =? c)%nat) l.

Definition sampleExtraction : ExtractionResult :=
  mkExtractionResult
    [mkResultItem 0 "E"; mkResultItem 1 " I "; mkResultItem 1 "E"; mkResultItem 2 "";
     mkResultItem 3 "7"; mkResultItem 4 "I"; mkResultItem 5 "E"; mkResultItem 6 "  "]
    7 7 false "" None "" false.

(** ** The pie chart *)

Definition colors : list string :=
  ["#4fc1ff"; "#4ec9b0"; "#c586c0"; "#dcdcaa"; "#d7ba7d";
   "#f48771"; "#ff6b6b"; "#9cdcfe"; "#b8d7a3"; "#ce9178";
   "#89d185"; "#e9a369"; "#ffcc66"; "#ff9ecd"; "#7cc5ff";
   "#a8e6cf"; "#ffd3b6"; "#ffaaa5"; "#dcedc1"; "#ff8b94"].

(** generateColors: the loop pushes [colors[i % colors.length]] for
    [i = 0 .. count - 1]. *)
Definition generateColors (count : nat) : list string :=
  fold_left (fun result i => (result ++ [nth (i mod List.length colors) colors ""])%list)
            (seq 0 count) [].

Definition maxSlices : nat := 15.

(** The slices createPieChart draws for a table of values: the table, or
    its first [maxSlices - 1] entries and one slice for the others. *)
Definition chartData (distinctValues : list (string * nat)) : list (string * nat) :=
  if (maxSlices <? List.length distinctValues)%nat then
    let topValues := firstn (maxSlices - 1) distinctValues in
    let otherValues := skipn (maxSlices - 1) distinctValues in
    let otherCount := sumCounts otherValues in
    (topValues ++ [("(Other)", otherCount)])%list
  else distinctValues.

(** truncateValue; [substring] reads a negative end as 0. *)
Definition truncateValue (value : string) (maxLength : Z) : string :=
  if Z.of_nat (String.length value) <=? maxLength then value
  else substring2 0 (Z.to_nat (maxLength - 3)) value ++ "...".

(** A table of [n] values, each counted [k] times. *)
Definition evenTable (n k : nat) : list (string * nat) :=
  map (fun i => (String (ascii_of_nat (65 + i)) "", k)) (seq 0 n).

(** ** The line-based extractor *)

(** The earlier version of the module reads the values off the lines of
    the text, without storing messages and without filters. *)
Module LineBased.

Record Item : Type := mkItem {
  messageIndex : Z;
  value : string
}.

(** The variables of the loop of extractFieldValues. *)
Record LoopState : Type := mkLoopState {
  results : list Item;
  currentMessageIndex : Z;
  fieldSeparator : ascii;
  componentSeparator : ascii;
  subcomponentSeparator : ascii
}.

Definition initialState : LoopState := mkLoopState [] (-1) "|" "^" "&".

(** What a header line does: the next message starts, the separators are
    read again. *)
Definition nextMessage (st : LoopState) (trimmedLine : string) : LoopState :=
  mkLoopState (results st) (currentMessageIndex st + 1)
    (if (3 <? String.length trimmedLine)%nat
     then charAt 3 trimmedLine (fieldSeparator st) else fieldSeparator st)
    (if (7 <? String.length trimmedLine)%nat
     then charAt 0 (substring2 4 8 trimmedLine) "^" else componentSeparator st)
    (if (7 <? String.length trimmedLine)%nat
     then charAt 3 (substring2 4 8 trimmedLine) "&" else subcomponentSeparator st).

(** One turn of the loop. *)
Definition processLine (parsed : FieldReference) (st : LoopState) (line : string)
  : LoopState :=
  let trimmedLine := trim line in
  if (trimmedLine =? "")%string then st else
  let segmentId := substring2 0 3 trimmedLine in
  let st := if (segmentId =? "MSH")%string then nextMessage st trimmedLine else st in
  if (segmentId =? segment parsed)%string then
    let value :=
      extractValueFromLine trimmedLine segmentId (field parsed) (component parsed)
        (subcomponent parsed) (fieldSeparator st) (componentSeparator st)
        (subcomponentSeparator st) in
    mkLoopState (results st ++ [mkItem (currentMessageIndex st) value])
      (currentMessageIndex st) (fieldSeparator st) (componentSeparator st)
      (subcomponentSeparator st)
  else st.

Inductive Extraction : Type :=
| ExtractionError (error : string)
| Extracted (results : list Item) (totalMessages : Z).

(** extractFieldValues *)
Definition extractFieldValues (content fieldRef : string) : Extraction :=
  match parseFieldReference fieldRef with
  | None => ExtractionError invalidFieldReference
  | Some parsed =>
      let st := fold_left (processLine parsed) (splitLines content) initialState in
      Extracted (results st) (currentMessageIndex st + 1)
  end.

End LineBased.

(** An extraction of the stored messages as an item of the lines. *)
Definition itemOfResult (r : ResultItem) : LineBased.Item :=
  LineBased.mkItem (Z.of_nat (messageIndex r)) (itemValue r).

(** The items of the lines that belong to a message: a line before the
    first header gets the index -1. *)
Definition inMessage (it : LineBased.Item) : bool := 0 <=? LineBased.messageIndex it.

(** What a stored message adds to the results, less the blank entry that
    stands for a message without a segment of the kind. *)
Definition segmentExtractions (parsed : FieldReference) (idx : nat) (msg : Message)
  : list ResultItem :=
  map (fun seg =>
         mkResultItem idx
           (extractValueFromSegment seg (field parsed) (component parsed)
              (subcomponent parsed) (msgComponentSeparator msg)
              (msgSubcomponentSeparator msg)))
      (matchingSegments parsed msg).

(** The two loops after the same lines. *)
Definition inStep (p : FieldReference) (lst : LineBased.LoopState)
    (st : ParserState) : Prop :=
  LineBased.currentMessageIndex lst = Z.of_nat (List.length (pushCurrent st)) - 1
  /\ LineBased.fieldSeparator lst = curFieldSeparator st
  /\ LineBased.componentSeparator lst = curComponentSeparator st
  /\ LineBased.subcomponentSeparator lst = curSubcomponentSeparator st
  /\ (currentMessage st = None -> messages st = [])
  /\ (forall m, currentMessage st = Some m ->
        msgComponentSeparator m = curComponentSeparator st
        /\ msgSubcomponentSeparator m = curSubcomponentSeparator st)
  /\ filter inMessage (LineBased.results lst)
     = map itemOfResult (collectIndexed (segmentExtractions p) 0 (pushCurrent st))
  /\ Forall (fun it => -1 <= LineBased.messageIndex it <= LineBased.currentMessageIndex lst)
       (LineBased.results lst).

(** A PID line before the first header, then two messages, the second
    one without a PID line. *)
Definition strayLineContent : string :=
  "PID|||ID0" ++ CR ++ "MSH|^~\&|A" ++ CR ++ "PID|||ID1" ++ CR ++ "MSH|^~\&|B" ++ CR
  ++ "PV1||E".

(** ** The filter panel of the page *)

From Stdlib Require Import DecimalString DecimalNat.













(** ** Texts in the range of the embedding *)

(** A text of ASCII characters: the texts on which [toUpperCase],
    [toLowerCase], [trim] and the patterns are those of the host. *)
Definition asciiText (s : string) : bool :=
  allChars (fun c => (nat_of_ascii c <? 128)%nat) s.

(** The integers up to which [parseInt] is exact. *)
Definition MAX_SAFE_INTEGER : Z := 9007199254740991.

(** ** Parentheses that balance *)




(** * Properties *)

Example parseFieldReference_PID_5_1 :
  parseFieldReference "pid.5.1" = Some (mkFieldReference "PID" 5 (Some 1) None).
Proof. reflexivity. Qed.

Example parseFieldReference_zero : parseFieldReference "PID.0" = None.
Proof. reflexivity. Qed.

Example parseFieldReference_five_parts : parseFieldReference "PID.1.2.3.4" = None.
Proof. reflexivity. Qed.

Example parseFilterExpression_eq :
  parseFilterExpression "PV1.2 = E" = Some (mkFilter "PV1.2" "=" "E").
Proof. reflexivity. Qed.

Example parseFilterExpression_neq :
  parseFilterExpression " PV1.2 != E " = Some (mkFilter "PV1.2" "!=" "E").
Proof. reflexivity. Qed.

Example parseFilterExpression_exists :
  parseFilterExpression "PID.5  EXISTS" = Some (mkFilter "PID.5" "exists" "").
Proof. reflexivity. Qed.

Example parseFilterExpression_ncontains :
  parseFilterExpression "PID.5.1 !Contains doe" = Some (mkFilter "PID.5.1" "!contains" "doe").
Proof. reflexivity. Qed.

Example parseFilterExpression_bad : parseFilterExpression "hello" = None.
Proof. reflexivity. Qed.

(** ** Value resolution: the field index of a segment *)

Lemma extractComponentValue_empty (c sc : option Z) (cs ss : ascii) :
  extractComponentValue "" c sc cs ss = "".
Proof. reflexivity. Qed.

Lemma extractComponentValue_whole (v : string) (sc : option Z) (cs ss : ascii) :
  extractComponentValue v None sc cs ss = v.
Proof.
  unfold extractComponentValue.
  destruct (String.eqb_spec v "") as [->|_]; reflexivity.
Qed.

Lemma at_outOfRange (a : list string) (i : Z) :
  outOfRange i a = true -> 0 <= i -> nth (Z.to_nat i) a "" = "".
Proof.
  unfold outOfRange. intros H Hi.
  apply orb_true_iff in H. destruct H as [H|H].
  - apply Z.ltb_lt in H. lia.
  - apply Z.leb_le in H. apply nth_overflow. lia.
Qed.

(** A guarded read [a[i]] followed by the drill-down is the drill-down of
    the entry, the empty string standing for an entry out of range. *)
Lemma guarded_read (a : list string) (i : Z) (c sc : option Z) (cs ss : ascii) :
  0 <= i ->
  (if outOfRange i a then "" else extractComponentValue (at_ a i) c sc cs ss)
  = extractComponentValue (nth (Z.to_nat i) a "") c sc cs ss.
Proof.
  intros Hi. destruct (outOfRange i a) eqn:E.
  - rewrite (at_outOfRange _ _ E Hi). reflexivity.
  - reflexivity.
Qed.

Lemma extractValueFromSegment_header (seg : Segment) (N : Z) (c sc : option Z) (cs ss : ascii) :
  segmentId seg = "MSH" ->
  (N = 1 -> extractValueFromSegment seg N c sc cs ss = String (fieldSeparator seg) "") /\
  (N = 2 -> extractValueFromSegment seg N c sc cs ss = nth 0 (fields seg) "") /\
  (2 < N -> extractValueFromSegment seg N c sc cs ss
            = extractComponentValue (nth (Z.to_nat (N - 2)) (fields seg) "") c sc cs ss).
Proof.
  intros Hid. unfold extractValueFromSegment. rewrite Hid. simpl.
  repeat split; intros HN.
  - subst N. reflexivity.
  - subst N. reflexivity.
  - destruct (Z.eqb_spec N 1); [lia|]. destruct (Z.eqb_spec N 2); [lia|].
    apply guarded_read. lia.
Qed.

Lemma extractValueFromSegment_other (seg : Segment) (N : Z) (c sc : option Z) (cs ss : ascii) :
  segmentId seg <> "MSH" -> 1 <= N ->
  extractValueFromSegment seg N c sc cs ss
  = extractComponentValue (nth (Z.to_nat (N - 1)) (fields seg) "") c sc cs ss.
Proof.
  intros Hid HN. unfold extractValueFromSegment.
  destruct (String.eqb_spec (segmentId seg) "MSH") as [E|_]; [contradiction|].
  apply guarded_read. lia.
Qed.

Lemma extractValueFromLine_header (line : string) (N : Z) (c sc : option Z) (fs cs ss : ascii) :
  (N = 1 -> extractValueFromLine line "MSH" N c sc fs cs ss = String fs "") /\
  (N = 2 -> extractValueFromLine line "MSH" N c sc fs cs ss = substring 4 4 line) /\
  (2 < N -> extractValueFromLine line "MSH" N c sc fs cs ss
            = extractComponentValue
                (nth (Z.to_nat (N - 2)) (split fs (substringFrom 4 line)) "") c sc cs ss).
Proof.
  unfold extractValueFromLine. simpl.
  repeat split; intros HN.
  - subst N. reflexivity.
  - subst N. reflexivity.
  - destruct (Z.eqb_spec N 1); [lia|]. destruct (Z.eqb_spec N 2); [lia|].
    apply guarded_read. lia.
Qed.

Lemma extractValueFromLine_other (line id : string) (N : Z) (c sc : option Z) (fs cs ss : ascii) :
  id <> "MSH" -> 1 <= N ->
  extractValueFromLine line id N c sc fs cs ss
  = extractComponentValue (nth (Z.to_nat (N - 1)) (splitAfterId fs line) "") c sc cs ss.
Proof.
  intros Hid HN. unfold extractValueFromLine.
  destruct (String.eqb_spec id "MSH") as [E|_]; [contradiction|].
  apply guarded_read. lia.
Qed.

(** C2.  In a header segment field 1 is the field separator, field 2 the
    encoding-character block (the first stored field of a parsed segment,
    the four characters after the separator of a raw line), and field N,
    N > 2, the entry N-2 of the field list; in a segment of another kind
    field N is the entry N-1.  An entry out of range reads as the empty
    string, and the entry is then drilled into by component and
    subcomponent (an address without component yields the entry itself). *)
Theorem header_field_offset :
  forall (seg : Segment) (line id : string) (N : Z) (c sc : option Z) (fs cs ss : ascii),
    1 <= N ->
    (segmentId seg = "MSH" ->
       (N = 1 -> extractValueFromSegment seg N c sc cs ss = String (fieldSeparator seg) "") /\
       (N = 2 -> extractValueFromSegment seg N c sc cs ss = nth 0 (fields seg) "") /\
       (2 < N -> extractValueFromSegment seg N c sc cs ss
                 = extractComponentValue (nth (Z.to_nat (N - 2)) (fields seg) "") c sc cs ss)) /\
    (segmentId seg <> "MSH" ->
       extractValueFromSegment seg N c sc cs ss
       = extractComponentValue (nth (Z.to_nat (N - 1)) (fields seg) "") c sc cs ss) /\
    ((N = 1 -> extractValueFromLine line "MSH" N c sc fs cs ss = String fs "") /\
     (N = 2 -> extractValueFromLine line "MSH" N c sc fs cs ss = substring 4 4 line) /\
     (2 < N -> extractValueFromLine line "MSH" N c sc fs cs ss
               = extractComponentValue
                   (nth (Z.to_nat (N - 2)) (split fs (substringFrom 4 line)) "") c sc cs ss)) /\
    (id <> "MSH" ->
       extractValueFromLine line id N c sc fs cs ss
       = extractComponentValue (nth (Z.to_nat (N - 1)) (splitAfterId fs line) "") c sc cs ss) /\
    (forall v, extractComponentValue v None sc cs ss = v) /\
    extractComponentValue "" c sc cs ss = "".
Proof.
  intros seg line id N c sc fs cs ss HN.
  split; [intros H; apply extractValueFromSegment_header; exact H|].
  split; [intros H; apply extractValueFromSegment_other; assumption|].
  split; [apply extractValueFromLine_header|].
  split; [intros H; apply extractValueFromLine_other; assumption|].
  split; [intros v; apply extractComponentValue_whole|reflexivity].
Qed.

Lemma header_field_offset_witness :
  extractValueFromSegment mshSegment 3 None None "^" "&" = "APP"
  /\ extractValueFromSegment pidSegment 5 (Some 1) None "^" "&" = "DOE".
Proof.
  pose proof (header_field_offset mshSegment "MSH|^~\&|APP|FAC" "PID" 3 None None "|" "^" "&"
                ltac:(lia)) as Hm.
  pose proof (header_field_offset pidSegment "PID|||ID1^^^SYS||DOE^JOHN" "PID" 5 (Some 1) None
                "|" "^" "&" ltac:(lia)) as Hp.
  destruct Hm as [Hm _]. destruct Hp as [_ [Hp _]].
  split.
  - destruct (Hm eq_refl) as [_ [_ H3]]. rewrite H3 by lia. reflexivity.
  - rewrite Hp by discriminate. reflexivity.
Defined.

Example header_fields_1_2 :
  extractValueFromSegment mshSegment 1 None None "^" "&" = "|"
  /\ extractValueFromSegment mshSegment 2 None None "^" "&" = "^~\&"
  /\ extractValueFromLine "MSH|^~\&|APP|FAC" "MSH" 2 None None "|" "^" "&" = "^~\&"
  /\ extractValueFromLine "MSH|^~\&|APP|FAC" "MSH" 4 None None "|" "^" "&" = "FAC"
  /\ extractValueFromSegment mshSegment 9 None None "^" "&" = "".
Proof. repeat split. Qed.

(** ** The address parser *)

(** [parseInt] reads the digits at the front and ignores what follows. *)
Example parseInt_trailing_text : parseInt "5X" = Some 5 /\ parseInt " 7" = Some 7.
Proof. split; reflexivity. Qed.

Example parseInt_not_a_number : parseInt "X5" = None /\ parseInt "" = None.
Proof. split; reflexivity. Qed.

(** C3.  The address [PID.5X], whose field part is not a number, is
    accepted and read as field 5: the numeric parts are read with
    [parseInt], which stops at the first character that is not a digit. *)
Theorem parseFieldReference_accepts_trailing_text :
  parseFieldReference "PID.5X" = Some (mkFieldReference "PID" 5 None None)
  /\ parseFieldReference "PID.5.1abc" = Some (mkFieldReference "PID" 5 (Some 1) None)
  /\ parseFieldReference "PID. 5" = Some (mkFieldReference "PID" 5 None None).
Proof. repeat split. Qed.

(** The other violations of the grammar are refused. *)
Example parseFieldReference_refusals :
  parseFieldReference "PID" = None
  /\ parseFieldReference "PID.1.2.3.4" = None
  /\ parseFieldReference ".5" = None
  /\ parseFieldReference "PID.0" = None
  /\ parseFieldReference "PID.-2" = None
  /\ parseFieldReference "PID.X" = None
  /\ parseFieldReference "PID.5.0" = None
  /\ parseFieldReference "PID.5.1.y" = None
  /\ parseFieldReference "" = None.
Proof. repeat split. Qed.

(** ** Single conditions *)

Lemma find_none_segment (segs : list Segment) (k : string) :
  (forall s, In s segs -> segmentId s <> k) ->
  find (fun s => (segmentId s =? k)%string) segs = None.
Proof.
  induction segs as [|s segs IH]; intros H; simpl; [reflexivity|].
  destruct (String.eqb_spec (segmentId s) k) as [E|_].
  - exfalso. apply (H s); [left; reflexivity|exact E].
  - apply IH. intros s' Hs'. apply H. right. exact Hs'.
Qed.

(** C5.  When no segment of the message has the addressed kind, a
    condition with [=], [contains] or [exists] is false and a condition
    with [!=], [!contains] or [!exists] is true. *)
Theorem missing_segment_default :
  forall (segs : list Segment) (f : Filter) (cs ss : ascii) (a : FieldReference),
    parseFieldReference (fieldRef f) = Some a ->
    (forall s, In s segs -> segmentId s <> segment a) ->
    (In (operator f) ["="; "contains"; "exists"] ->
       messageMatchesSingleFilter segs f cs ss = false)
    /\ (In (operator f) ["!="; "!contains"; "!exists"] ->
          messageMatchesSingleFilter segs f cs ss = true).
Proof.
  intros segs f cs ss a Hp Hnone.
  unfold messageMatchesSingleFilter. rewrite Hp.
  rewrite (find_none_segment _ _ Hnone).
  split; intros Hop; simpl in Hop;
    repeat (destruct Hop as [Hop|Hop]; [rewrite <- Hop; reflexivity|]);
    contradiction.
Qed.

Lemma missing_segment_default_witness :
  messageMatchesSingleFilter [mshSegment] (mkFilter "PID.5" "exists" "") "^" "&" = false
  /\ messageMatchesSingleFilter [mshSegment] (mkFilter "PID.5" "!exists" "") "^" "&" = true.
Proof.
  assert (Hnone : forall s, In s [mshSegment] -> segmentId s <> "PID").
  { intros s [<-|[]]. discriminate. }
  split.
  - apply (missing_segment_default [mshSegment] (mkFilter "PID.5" "exists" "") "^" "&"
             (mkFieldReference "PID" 5 None None) eq_refl Hnone).
    simpl. right. right. left. reflexivity.
  - apply (missing_segment_default [mshSegment] (mkFilter "PID.5" "!exists" "") "^" "&"
             (mkFieldReference "PID" 5 None None) eq_refl Hnone).
    simpl. right. right. left. reflexivity.
Defined.

(** ** The export text *)

Lemma join_nil (sep : string) : join sep [] = "".
Proof. reflexivity. Qed.

Lemma join_one (sep x : string) : join sep [x] = x.
Proof. reflexivity. Qed.

Lemma join_cons (sep x y : string) (l : list string) :
  join sep (x :: y :: l) = x ++ sep ++ join sep (y :: l).
Proof. reflexivity. Qed.

Section ExportText.

Variable HL7_SEGMENT_IDS : list string.
Variable globals : Globals.

Lemma extractFieldValues_filtered (content fieldRef : string) (cfg : FiltersConfig)
    (r : ExtractionResult) :
  filters cfg <> [] ->
  extractFieldValues HL7_SEGMENT_IDS globals content fieldRef (Some cfg) = Extracted r ->
  checkFilters cfg = None
  /\ filterApplied r = true
  /\ filteredMessages r
     = List.length (applyFilters globals cfg (parseMessagesForFiltering HL7_SEGMENT_IDS content))
  /\ filteredHL7Content r
     = exportText (applyFilters globals cfg (parseMessagesForFiltering HL7_SEGMENT_IDS content)).
Proof.
  intros Hne H. unfold extractFieldValues in H.
  destruct (negb _ && negb _); [discriminate|].
  destruct (filters cfg) as [|f fs] eqn:Ef; [contradiction|].
  simpl List.length in H. simpl Nat.ltb in H. cbv iota in H.
  destruct (checkFilters cfg) as [e|]; [discriminate|].
  injection H as <-. simpl. repeat split.
Qed.

(** C7.  When a FilterSet is applied, the export text is made of the
    filtered messages: each segment is its kind label, its own field
    separator and its fields joined with that separator; the segments of a
    message are joined with CR and the messages with CR CR LF. *)
Theorem export_text_format :
  forall (content fieldRef : string) (cfg : FiltersConfig) (r : ExtractionResult),
    filters cfg <> [] ->
    extractFieldValues HL7_SEGMENT_IDS globals content fieldRef (Some cfg) = Extracted r ->
    filteredHL7Content r
    = String.concat (String "013" (String "013" (String "010" "")))
        (map (fun msg =>
                String.concat (String "013" "")
                  (map (fun seg =>
                          segmentId seg ++ String (fieldSeparator seg) ""
                          ++ String.concat (String (fieldSeparator seg) "") (fields seg))
                       (segments msg)))
             (applyFilters globals cfg (parseMessagesForFiltering HL7_SEGMENT_IDS content))).
Proof.
  intros content fieldRef cfg r Hne H.
  destruct (extractFieldValues_filtered _ _ _ _ Hne H) as (_ & _ & _ & ->).
  reflexivity.
Qed.

End ExportText.

(** The shape of the export text: nothing before the first message or
    after the last, CR CR LF between two messages, CR between two
    segments. *)
Lemma exportText_unfold (m1 m2 : Message) (ms : list Message) :
  exportText [] = ""
  /\ exportText [m1] = messageText m1
  /\ exportText (m1 :: m2 :: ms) = messageText m1 ++ CRCRLF ++ exportText (m2 :: ms).
Proof. repeat split. Qed.

Lemma messageText_unfold (f a b c : ascii) (s1 s2 : Segment) (ss : list Segment) :
  messageText (mkMessage f a b []) = ""
  /\ messageText (mkMessage f a b [s1]) = segmentText s1
  /\ messageText (mkMessage f a b (s1 :: s2 :: ss))
     = segmentText s1 ++ CR ++ messageText (mkMessage f a b (s2 :: ss)).
Proof. repeat split. Qed.

Lemma export_text_format_witness :
  exists r,
    extractFieldValues sampleSegmentIds noGlobals sampleContent "" (Some headerExists)
    = Extracted r
    /\ filteredHL7Content r
       = "MSH|^~\&|A" ++ CR ++ "PID|||ID1^^^SYS||DOE^JOHN" ++ CRCRLF
         ++ "MSH|^~\&|A" ++ CR ++ "PID|||ID2^^^SYS||SMITH^JANE".
Proof.
  eexists. split.
  - vm_compute. reflexivity.
  - etransitivity.
    + apply (export_text_format sampleSegmentIds noGlobals sampleContent "" headerExists);
        [discriminate|vm_compute; reflexivity].
    + vm_compute. reflexivity.
Defined.

(** ** Validation comes before evaluation *)


Section ValidationFirst.

Variable HL7_SEGMENT_IDS : list string.
Variable globals : Globals.




End ValidationFirst.

Example unknown_label_F9 :
  validateCustomLogic "(F1 OR F2) AND NOT F9" ["F1"; "F2"]
  = Invalid "Unknown filter label(s): F9. Available labels: F1, F2".
Proof. vm_compute. reflexivity. Qed.

Example validation_rules :
  validateCustomLogic "   " ["F1"] = Invalid "Custom logic expression is empty"
  /\ validateCustomLogic "(F1" ["F1"] = Invalid "Unbalanced parentheses - missing closing parenthesis"
  /\ validateCustomLogic "F1)" ["F1"] = Invalid "Unbalanced parentheses - extra closing parenthesis"
  /\ validateCustomLogic "AND F1" ["F1"] = Invalid "Expression cannot start with AND/OR"
  /\ validateCustomLogic "F1 AND NOT" ["F1"] = Invalid "Expression cannot end with AND/OR/NOT"
  /\ validateCustomLogic "F1 AND OR F2" ["F1"; "F2"] = Invalid "Cannot have consecutive AND/OR operators"
  /\ validateCustomLogic "NOT AND F1" ["F1"] = Invalid "NOT must be followed by a filter label, not AND/OR"
  /\ validateCustomLogic "F1 NOT F2" ["F1"; "F2"] = Invalid "Missing AND/OR between filter label and NOT"
  /\ validateCustomLogic "F1 F2" ["F1"; "F2"] = Invalid "Missing AND/OR between filter labels"
  /\ validateCustomLogic "F10 AND (F1 OR NOT F2)" ["F1"; "F2"; "F10"] = Valid.
Proof. vm_compute. repeat split. Qed.

(** ** Broken filter input at the evaluation layer *)

Lemma conditionResult_unparsed (segs : list Segment) (f : FilterEntry) (cs ss : ascii) :
  parseFilterExpression (expression f) = None -> conditionResult segs f cs ss = true.
Proof. intros H. unfold conditionResult. rewrite H. reflexivity. Qed.

Lemma evaluateCustomLogic_unexpected_characters (globals : Globals) (e : string)
    (fr : JsObject bool) :
  onlyAllowedChars (substitute e fr) = false -> evaluateCustomLogic globals e fr = JBool true.
Proof. intros H. unfold evaluateCustomLogic. rewrite H. reflexivity. Qed.

Lemma evaluateCustomLogic_throw (globals : Globals) (e : string) (fr : JsObject bool)
    (x : JsError) :
  runFunction globals (substitute e fr) = Throw x -> evaluateCustomLogic globals e fr = JBool true.
Proof.
  intros H. unfold evaluateCustomLogic. rewrite H.
  destruct (negb _); reflexivity.
Qed.

(** C10.  A condition whose expression does not parse counts as true for
    every message, so a FilterSet made of it alone lets every message
    through; with plain labels, a custom expression whose text after
    substitution holds a character outside the allowed ones, or whose
    evaluation by the host throws, yields true. *)
Theorem broken_filter_input_includes :
  forall (globals : Globals) (segs : list Segment) (f : FilterEntry) (lg e : string)
         (fr : JsObject bool) (cs ss : ascii),
    plainLabels (map fst fr) ->
    label f <> "__proto__" ->
    (parseFilterExpression (expression f) = None ->
       conditionResult segs f cs ss = true
       /\ messageMatchesFilters globals segs (Some (mkFiltersConfig [f] lg e)) cs ss
          = JBool true)
    /\ (onlyAllowedChars (substitute e fr) = false ->
          evaluateCustomLogic globals e fr = JBool true)
    /\ (forall x, runFunction globals (substitute e fr) = Throw x ->
          evaluateCustomLogic globals e fr = JBool true).
Proof.
  intros globals segs f lg e fr cs ss _ _. split; [|split].
  - intros H. split; [apply conditionResult_unparsed; exact H|].
    unfold messageMatchesFilters. simpl filters. simpl List.length.
    rewrite orb_true_r.
    unfold buildFilterResults. simpl.
    rewrite (conditionResult_unparsed segs f cs ss H).
    rewrite String.eqb_refl. reflexivity.
  - apply evaluateCustomLogic_unexpected_characters.
  - intros x. apply evaluateCustomLogic_throw.
Qed.

Lemma broken_filter_input_includes_witness :
  messageMatchesFilters noGlobals [mshSegment]
    (Some (mkFiltersConfig [brokenCondition] "AND" "")) "^" "&" = JBool true
  /\ evaluateCustomLogic noGlobals "F1 XOR F2" bothTrue = JBool true
  /\ evaluateCustomLogic noGlobals "F1 AND" bothTrue = JBool true.
Proof.
  assert (Hp : plainLabels (map fst bothTrue)) by (repeat constructor).
  split; [|split].
  - apply (broken_filter_input_includes noGlobals [mshSegment] brokenCondition "AND" ""
             bothTrue "^" "&" Hp ltac:(discriminate)).
    vm_compute. reflexivity.
  - apply (broken_filter_input_includes noGlobals [mshSegment] brokenCondition "AND"
             "F1 XOR F2" bothTrue "^" "&" Hp ltac:(discriminate)).
    vm_compute. reflexivity.
  - apply (broken_filter_input_includes noGlobals [mshSegment] brokenCondition "AND"
             "F1 AND" bothTrue "^" "&" Hp ltac:(discriminate)) with (x := SyntaxError).
    vm_compute. reflexivity.
Defined.

Example evaluation_errors :
  runFunction noGlobals (substitute "F1 AND" bothTrue) = Throw SyntaxError
  /\ runFunction noGlobals (substitute "F1 AND TRUE" bothTrue) = Throw ReferenceError
  /\ runFunction noGlobals (substitute "F1 (F2)" bothTrue) = Throw TypeError
  /\ substitute "F1 XOR F2" bothTrue = "true XOR true".
Proof. vm_compute. repeat split. Qed.

(** ** AND and OR over the conditions *)

Lemma forallb_permutation {A : Type} (p : A -> bool) (l l' : list A) :
  Permutation l l' -> forallb p l = forallb p l'.
Proof.
  induction 1 as [|x l l' _ IH|x y l|l l' l'' _ IH1 _ IH2]; simpl.
  - reflexivity.
  - rewrite IH. reflexivity.
  - destruct (p x), (p y); reflexivity.
  - rewrite IH1. exact IH2.
Qed.

Lemma existsb_permutation {A : Type} (p : A -> bool) (l l' : list A) :
  Permutation l l' -> existsb p l = existsb p l'.
Proof.
  induction 1 as [|x l l' _ IH|x y l|l l' l'' _ IH1 _ IH2]; simpl.
  - reflexivity.
  - rewrite IH. reflexivity.
  - destruct (p x), (p y); reflexivity.
  - rewrite IH1. exact IH2.
Qed.

Lemma forallb_of_map {A : Type} (f : A -> bool) (l : list A) :
  forallb (fun b => b) (map f l) = forallb f l.
Proof. induction l as [|x l IH]; simpl; [reflexivity|rewrite IH; reflexivity]. Qed.

Lemma existsb_of_map {A : Type} (f : A -> bool) (l : list A) :
  existsb (fun b => b) (map f l) = existsb f l.
Proof. induction l as [|x l IH]; simpl; [reflexivity|rewrite IH; reflexivity]. Qed.

Lemma insertIndexed_permutation {V : Type} (n : Z) (e : string * V)
    (l : list (Z * (string * V))) :
  Permutation (insertIndexed n e l) ((n, e) :: l).
Proof.
  induction l as [|[m e'] l IH]; simpl.
  - apply Permutation_refl.
  - destruct (n <? m).
    + apply Permutation_refl.
    + eapply perm_trans; [apply perm_skip; exact IH|apply perm_swap].
Qed.

(** [Object.entries] lists every own property once, whatever the order. *)
Lemma objEntries_permutation {V : Type} (o : JsObject V) :
  Permutation (objEntries o) o.
Proof.
  unfold objEntries. induction o as [|[k v] o IH]; simpl.
  - apply Permutation_refl.
  - destruct (arrayIndex k) as [n|]; simpl.
    + eapply perm_trans.
      * apply Permutation_app_tail. apply Permutation_map.
        apply insertIndexed_permutation.
      * simpl. apply perm_skip. exact IH.
    + eapply perm_trans; [apply Permutation_sym; apply Permutation_middle|].
      apply perm_skip. exact IH.
Qed.

Lemma objValues_permutation {V : Type} (o : JsObject V) :
  Permutation (objValues o) (map snd o).
Proof. unfold objValues. apply Permutation_map. apply objEntries_permutation. Qed.

Lemma objSet_fresh {V : Type} (k : string) (v : V) (o : JsObject V) :
  ~ In k (map fst o) -> objSet k v o = (o ++ [(k, v)])%list.
Proof.
  induction o as [|[k' v'] o IH]; simpl; intros H; [reflexivity|].
  destruct (String.eqb_spec k k') as [E|_].
  - exfalso. apply H. left. symmetry. exact E.
  - rewrite IH; [reflexivity|]. intros Hin. apply H. right. exact Hin.
Qed.

(** With distinct labels the loop stores one result per condition, in
    the order of the conditions. *)
Lemma buildFilterResults_distinct (segs : list Segment) (fs : list FilterEntry) (cs ss : ascii) :
  NoDup (map label fs) ->
  buildFilterResults segs fs cs ss
  = map (fun f => (label f, conditionResult segs f cs ss)) fs.
Proof.
  unfold buildFilterResults.
  assert (G : forall acc : JsObject bool,
             NoDup (map fst acc ++ map label fs)%list ->
             fold_left (fun filterResults f =>
                          objSet (label f) (conditionResult segs f cs ss) filterResults)
                       fs acc
             = (acc ++ map (fun f => (label f, conditionResult segs f cs ss)) fs)%list).
  { induction fs as [|f fs IH]; intros acc Hnd; simpl.
    - rewrite app_nil_r. reflexivity.
    - simpl in Hnd. rewrite objSet_fresh.
      + rewrite IH.
        * rewrite <- app_assoc. reflexivity.
        * rewrite map_app. simpl. rewrite <- app_assoc. exact Hnd.
      + apply NoDup_remove_2 in Hnd. intros Hin. apply Hnd.
        apply in_or_app. left. exact Hin. }
  intros Hnd. apply (G []). exact Hnd.
Qed.

Lemma every_is_forallb (vs : list bool) : every vs = forallb (fun b => b) vs.
Proof.
  unfold every. induction vs as [|b vs IH]; simpl; [reflexivity|].
  rewrite IH. destruct b; reflexivity.
Qed.

Lemma some_is_existsb (vs : list bool) : some vs = existsb (fun b => b) vs.
Proof.
  unfold some. induction vs as [|b vs IH]; simpl; [reflexivity|].
  rewrite IH. destruct b; reflexivity.
Qed.

Lemma and_or_of_distinct_labels (globals : Globals) (segs : list Segment)
    (fs : list FilterEntry) (e : string) (cs ss : ascii) :
  NoDup (map label fs) ->
  (2 <= List.length fs)%nat ->
  messageMatchesFilters globals segs (Some (mkFiltersConfig fs "AND" e)) cs ss
  = JBool (forallb (fun f => conditionResult segs f cs ss) fs)
  /\ messageMatchesFilters globals segs (Some (mkFiltersConfig fs "OR" e)) cs ss
     = JBool (existsb (fun f => conditionResult segs f cs ss) fs).
Proof.
  intros Hnd Hlen.
  unfold messageMatchesFilters. simpl filters. simpl logic.
  destruct fs as [|f1 fs]; [simpl in Hlen; lia|].
  destruct (Nat.eqb_spec (List.length (f1 :: fs)) 1) as [E|_]; [simpl in E, Hlen; lia|].
  rewrite (buildFilterResults_distinct segs (f1 :: fs) cs ss Hnd).
  change ("AND" =? "single")%string with false.
  change ("OR" =? "single")%string with false.
  change ("AND" =? "AND")%string with true.
  change ("OR" =? "AND")%string with false.
  change ("OR" =? "OR")%string with true.
  cbv iota. simpl orb. cbv iota.
  split.
  - f_equal. rewrite every_is_forallb.
    rewrite (forallb_permutation _ _ _ (objValues_permutation _)).
    rewrite map_map. simpl snd. apply forallb_of_map.
  - f_equal. rewrite some_is_existsb.
    rewrite (existsb_permutation _ _ _ (objValues_permutation _)).
    rewrite map_map. simpl snd. apply existsb_of_map.
Qed.

(** C4.  For a FilterSet of two or more conditions with distinct labels,
    the AND mode yields the conjunction of the conditions' results on the
    message and the OR mode their disjunction. *)
Theorem and_or_modes :
  forall (globals : Globals) (segs : list Segment) (fs : list FilterEntry) (e : string)
         (cs ss : ascii),
    NoDup (map label fs) ->
    ~ In "__proto__" (map label fs) ->
    (2 <= List.length fs)%nat ->
    messageMatchesFilters globals segs (Some (mkFiltersConfig fs "AND" e)) cs ss
    = JBool (forallb (fun f => conditionResult segs f cs ss) fs)
    /\ messageMatchesFilters globals segs (Some (mkFiltersConfig fs "OR" e)) cs ss
       = JBool (existsb (fun f => conditionResult segs f cs ss) fs).
Proof.
  intros globals segs fs e cs ss Hnd _ Hlen.
  apply and_or_of_distinct_labels; assumption.
Qed.

Lemma and_or_modes_witness :
  messageMatchesFilters noGlobals [mshSegment; pidSegment]
    (Some (mkFiltersConfig twoConditions "AND" "")) "^" "&" = JBool false
  /\ messageMatchesFilters noGlobals [mshSegment; pidSegment]
       (Some (mkFiltersConfig twoConditions "OR" "")) "^" "&" = JBool true.
Proof.
  assert (Hnd : NoDup (map label twoConditions)).
  { repeat constructor; simpl; intuition discriminate. }
  assert (Hp : ~ In "__proto__" (map label twoConditions)).
  { simpl. intuition discriminate. }
  assert (Hlen : (2 <= List.length twoConditions)%nat) by (simpl; lia).
  destruct (and_or_modes noGlobals [mshSegment; pidSegment] twoConditions "" "^" "&"
              Hnd Hp Hlen) as [Ha Ho].
  split.
  - rewrite Ha. vm_compute. reflexivity.
  - rewrite Ho. vm_compute. reflexivity.
Defined.

(** The order in which the conditions are declared does not matter. *)
Corollary and_or_modes_any_order (globals : Globals) (segs : list Segment)
    (fs fs' : list FilterEntry) (e : string) (cs ss : ascii) :
  Permutation fs fs' ->
  NoDup (map label fs) -> ~ In "__proto__" (map label fs) -> (2 <= List.length fs)%nat ->
  messageMatchesFilters globals segs (Some (mkFiltersConfig fs "AND" e)) cs ss
  = messageMatchesFilters globals segs (Some (mkFiltersConfig fs' "AND" e)) cs ss
  /\ messageMatchesFilters globals segs (Some (mkFiltersConfig fs "OR" e)) cs ss
     = messageMatchesFilters globals segs (Some (mkFiltersConfig fs' "OR" e)) cs ss.
Proof.
  intros Hp Hnd Hproto Hlen.
  assert (Hnd' : NoDup (map label fs')).
  { eapply Permutation_NoDup; [apply Permutation_map; exact Hp|exact Hnd]. }
  assert (Hproto' : ~ In "__proto__" (map label fs')).
  { intros Hin. apply Hproto. eapply Permutation_in; [|exact Hin].
    apply Permutation_sym. apply Permutation_map. exact Hp. }
  assert (Hlen' : (2 <= List.length fs')%nat).
  { rewrite <- (Permutation_length Hp). exact Hlen. }
  assert (Ha := and_or_of_distinct_labels globals segs fs e cs ss Hnd Hlen).
  assert (Ha' := and_or_of_distinct_labels globals segs fs' e cs ss Hnd' Hlen').
  destruct Ha as [A1 O1]. destruct Ha' as [A2 O2].
  rewrite A1, A2, O1, O2.
  rewrite (forallb_permutation _ _ _ Hp), (existsb_permutation _ _ _ Hp).
  split; reflexivity.
Qed.

(** ** Extractions and their statistics *)

Lemma setHas_In (x : nat) (s : list nat) : setHas x s = true <-> In x s.
Proof.
  unfold setHas. rewrite existsb_exists. split.
  - intros [y [Hy E]]. apply Nat.eqb_eq in E. subst y. exact Hy.
  - intros H. exists x. split; [exact H|apply Nat.eqb_refl].
Qed.

Lemma setHas_false (x : nat) (s : list nat) : setHas x s = false <-> ~ In x s.
Proof.
  rewrite <- setHas_In. destruct (setHas x s); split; intros H; congruence.
Qed.

Lemma setAdd_fresh (x : nat) (s : list nat) : ~ In x s -> setAdd x s = (s ++ [x])%list.
Proof.
  intros H. unfold setAdd. apply setHas_false in H. unfold setHas in H.
  rewrite H. reflexivity.
Qed.

Lemma setAdd_present (x : nat) (s : list nat) : In x s -> setAdd x s = s.
Proof.
  intros H. unfold setAdd. apply setHas_In in H. unfold setHas in H.
  rewrite H. reflexivity.
Qed.

Lemma setAdd_In (x y : nat) (s : list nat) : In y (setAdd x s) <-> y = x \/ In y s.
Proof.
  destruct (in_dec Nat.eq_dec x s) as [Hin|Hout].
  - rewrite (setAdd_present _ _ Hin). split; [auto|]. intros [->|H]; assumption.
  - rewrite (setAdd_fresh _ _ Hout). rewrite in_app_iff. simpl. intuition.
Qed.

Lemma setAdd_idempotent (x : nat) (s : list nat) : setAdd x (setAdd x s) = setAdd x s.
Proof. apply setAdd_present. apply setAdd_In. left. reflexivity. Qed.

Lemma setAdd_NoDup (x : nat) (s : list nat) : NoDup s -> NoDup (setAdd x s).
Proof.
  intros H. destruct (in_dec Nat.eq_dec x s) as [Hin|Hout].
  - rewrite (setAdd_present _ _ Hin). exact H.
  - rewrite (setAdd_fresh _ _ Hout).
    apply NoDup_app; [exact H|repeat constructor; intros []|].
    intros y Hy [<-|[]]. exact (Hout Hy).
Qed.

Lemma conditional_adds_NoDup (c : ResultItem -> bool) (l : list ResultItem) (s : list nat) :
  NoDup s ->
  NoDup (fold_left (fun s item => if c item then setAdd (messageIndex item) s else s) l s).
Proof.
  revert s. induction l as [|it l IH]; intros s H; simpl; [exact H|].
  apply IH. destruct (c it); [apply setAdd_NoDup|]; exact H.
Qed.

Lemma hasValueSet_NoDup (rs : list ResultItem) : NoDup (hasValueSet rs).
Proof. apply conditional_adds_NoDup. constructor. Qed.

Lemma hasNoValueSet_NoDup (rs : list ResultItem) : NoDup (hasNoValueSet rs).
Proof.
  unfold hasNoValueSet.
  assert (G : forall l s, NoDup s ->
            NoDup (fold_left (fun s item =>
                     if nonEmptyItem item then s else setAdd (messageIndex item) s) l s)).
  { induction l as [|it l IH]; intros s H; simpl; [exact H|].
    apply IH. destruct (nonEmptyItem it); [|apply setAdd_NoDup]; exact H. }
  apply G. constructor.
Qed.

(** Adding the members of a duplicate-free list to a set that holds none
    of them appends them. *)
Lemma adds_of_fresh (l s : list nat) :
  NoDup (s ++ l)%list -> fold_left (fun s m => setAdd m s) l s = (s ++ l)%list.
Proof.
  revert s. induction l as [|m l IH]; intros s H; simpl.
  - rewrite app_nil_r. reflexivity.
  - rewrite setAdd_fresh.
    + rewrite IH; rewrite <- app_assoc; [reflexivity|exact H].
    + apply NoDup_remove_2 in H. intros Hin. apply H. apply in_or_app. left. exact Hin.
Qed.

(** The size of a union: the members of the second set not in the first
    are the ones added. *)
Lemma union_size (l s : list nat) :
  NoDup l ->
  List.length (fold_left (fun s m => setAdd m s) l s)
  = (List.length s + List.length (filter (fun m => negb (setHas m s)) l))%nat.
Proof.
  revert s. induction l as [|m l IH]; intros s H; simpl; [lia|].
  inversion H as [|m' l' Hm Hl]; subst.
  destruct (setHas m s) eqn:E; simpl.
  - apply setHas_In in E. rewrite (setAdd_present _ _ E). apply IH. exact Hl.
  - apply setHas_false in E. rewrite (setAdd_fresh _ _ E). rewrite (IH _ Hl).
    rewrite length_app. simpl.
    assert (F : filter (fun x => negb (setHas x (s ++ [m])%list)) l
                = filter (fun x => negb (setHas x s)) l).
    { apply filter_ext_in. intros x Hx. f_equal.
      destruct (setHas x s) eqn:Ex.
      - apply setHas_In. apply in_or_app. left. apply setHas_In. exact Ex.
      - apply setHas_false. intros Hin. apply in_app_or in Hin. destruct Hin as [Hin|[<-|[]]].
        + apply setHas_false in Ex. exact (Ex Hin).
        + exact (Hm Hx). }
    rewrite F. lia.
Qed.

(** Whatever the extractions, the messages without value are the counted
    messages that are not messages with value. *)
Lemma without_value_is_complement (r : ExtractionResult) :
  filterOnly r = false ->
  exists s,
    generateStatistics (Extracted r) = FieldStatistics s
    /\ messagesWithValue s = List.length (hasValueSet (results r))
    /\ messagesWithoutValue s
       = Z.of_nat (if filterApplied r then filteredMessages r else totalMessages r)
         - Z.of_nat (messagesWithValue s)
    /\ totalOccurrences s = List.length (results r)
    /\ distinctValues s = sortByCountDesc (objEntries (countValues (results r))).
Proof.
  intros Hf. unfold generateStatistics. rewrite Hf.
  eexists. split; [reflexivity|]. simpl.
  split; [reflexivity|]. split; [|split; reflexivity].
  rewrite fold_left_app.
  rewrite (adds_of_fresh (hasValueSet (results r)) []) by (simpl; apply hasValueSet_NoDup).
  simpl app. rewrite (union_size _ _ (hasNoValueSet_NoDup _)).
  lia.
Qed.

Lemma same_index_adds (c : ResultItem -> bool) (i : nat) (l : list ResultItem) (s : list nat) :
  (forall it, In it l -> messageIndex it = i) ->
  fold_left (fun s item => if c item then setAdd (messageIndex item) s else s) l s
  = if existsb c l then setAdd i s else s.
Proof.
  revert s. induction l as [|it l IH]; intros s H; simpl; [reflexivity|].
  assert (Hi : messageIndex it = i) by (apply H; left; reflexivity).
  assert (Hl : forall it', In it' l -> messageIndex it' = i) by (intros; apply H; right; assumption).
  rewrite (IH _ Hl). rewrite Hi.
  destruct (c it); simpl; [|reflexivity].
  destruct (existsb c l); [apply setAdd_idempotent|reflexivity].
Qed.

Lemma messageExtractions_index (p : FieldReference) (i : nat) (m : Message) :
  forall it, In it (messageExtractions p i m) -> messageIndex it = i.
Proof.
  intros it. unfold messageExtractions.
  destruct (matchingSegments p m) as [|s l].
  - intros [<-|[]]. reflexivity.
  - intros H. apply in_map_iff in H. destruct H as [seg [<- _]]. reflexivity.
Qed.

Lemma messageExtractions_values (p : FieldReference) (i j : nat) (m : Message) :
  map itemValue (messageExtractions p i m) = map itemValue (messageExtractions p j m).
Proof.
  unfold messageExtractions. destruct (matchingSegments p m); [reflexivity|].
  rewrite !map_map. reflexivity.
Qed.

Lemma existsb_nonEmpty_values (l l' : list ResultItem) :
  map itemValue l = map itemValue l' -> existsb nonEmptyItem l = existsb nonEmptyItem l'.
Proof.
  revert l'. induction l as [|a l IH]; intros [|b l'] H; simpl in *; try discriminate;
    [reflexivity|].
  injection H as Hab Hl. unfold nonEmptyItem at 1 3. rewrite Hab. rewrite (IH _ Hl).
  reflexivity.
Qed.

Lemma messageHasValue_index (p : FieldReference) (i : nat) (m : Message) :
  existsb nonEmptyItem (messageExtractions p i m) = messageHasValue p m.
Proof. apply existsb_nonEmpty_values. apply messageExtractions_values. Qed.

Lemma indicesWhere_lower (k : nat) (flags : list bool) :
  forall x, In x (indicesWhere k flags) -> (k <= x)%nat.
Proof.
  revert k. induction flags as [|b flags IH]; intros k x H; simpl in H; [contradiction|].
  apply in_app_or in H. destruct H as [H|H].
  - destruct b; simpl in H; [destruct H as [<-|[]]; lia|contradiction].
  - apply IH in H. lia.
Qed.

Lemma indicesWhere_length {A : Type} (f : A -> bool) (k : nat) (l : list A) :
  List.length (indicesWhere k (map f l)) = List.length (filter f l).
Proof.
  revert k. induction l as [|a l IH]; intros k; simpl; [reflexivity|].
  rewrite length_app, IH. destruct (f a); reflexivity.
Qed.

(** The set of messages with value of a run: the indices of the filtered
    messages that have a value, in order. *)
Lemma hasValueSet_collect (p : FieldReference) (msgs : list Message) (k : nat) (s : list nat) :
  (forall x, In x s -> (x < k)%nat) ->
  fold_left (fun s item => if nonEmptyItem item then setAdd (messageIndex item) s else s)
            (collectIndexed (messageExtractions p) k msgs) s
  = (s ++ indicesWhere k (map (messageHasValue p) msgs))%list.
Proof.
  revert k s. induction msgs as [|m msgs IH]; intros k s Hs; simpl.
  - rewrite app_nil_r. reflexivity.
  - rewrite fold_left_app.
    rewrite (same_index_adds nonEmptyItem k _ _ (messageExtractions_index p k m)).
    rewrite messageHasValue_index.
    destruct (messageHasValue p m); simpl.
    + rewrite setAdd_fresh by (intros Hin; apply Hs in Hin; lia).
      rewrite IH.
      * rewrite <- app_assoc. reflexivity.
      * intros x Hx. apply in_app_or in Hx. destruct Hx as [Hx|[<-|[]]]; [apply Hs in Hx|]; lia.
    + apply IH. intros x Hx. apply Hs in Hx. lia.
Qed.

Lemma filter_complement_length {A : Type} (f : A -> bool) (l : list A) :
  (List.length (filter f l) + List.length (filter (fun x => negb (f x)) l))%nat
  = List.length l.
Proof.
  induction l as [|a l IH]; simpl; [reflexivity|].
  destruct (f a); simpl; lia.
Qed.

Lemma messageExtractions_count (p : FieldReference) (i : nat) (m : Message) :
  List.length (messageExtractions p i m) = Nat.max 1 (List.length (matchingSegments p m)).
Proof.
  unfold messageExtractions. destruct (matchingSegments p m) as [|s l] eqn:E.
  - reflexivity.
  - rewrite length_map. simpl. reflexivity.
Qed.

Lemma no_matching_segment_no_value (p : FieldReference) (m : Message) :
  matchingSegments p m = [] -> messageHasValue p m = false.
Proof.
  intros H. unfold messageHasValue, messageExtractions. rewrite H. reflexivity.
Qed.

Lemma parseFieldReference_nonblank (fieldRef : string) (p : FieldReference) :
  parseFieldReference fieldRef = Some p -> fieldRef <> "" /\ trim fieldRef <> "".
Proof.
  unfold parseFieldReference. intros H.
  destruct (String.eqb_spec fieldRef "") as [E|Hne]; [discriminate|].
  split; [exact Hne|]. intros Ht. rewrite Ht in H. simpl in H. discriminate.
Qed.

Lemma countValue_empty_bucket (n : nat) (it : ResultItem) :
  nonEmptyItem it = false ->
  countValue [("(empty)", n)] (displayValue (itemValue it)) = [("(empty)", S n)].
Proof.
  unfold nonEmptyItem, displayValue. intros H. apply negb_false_iff in H. rewrite H.
  reflexivity.
Qed.

(** When every extraction is blank they all fall into the bucket of the
    empty value. *)
Lemma countValues_all_blank (rs : list ResultItem) :
  Forall (fun it => nonEmptyItem it = false) rs -> rs <> [] ->
  countValues rs = [("(empty)", List.length rs)].
Proof.
  intros H Hne. destruct rs as [|it rs]; [contradiction|].
  inversion H as [|it' rs' Hit Hrs]; subst.
  unfold countValues. simpl fold_left.
  assert (E0 : countValue [] (displayValue (itemValue it)) = [("(empty)", 1%nat)]).
  { unfold nonEmptyItem in Hit. apply negb_false_iff in Hit.
    unfold displayValue. rewrite Hit. reflexivity. }
  rewrite E0. clear E0 H Hne Hit.
  assert (G : forall l n, Forall (fun it => nonEmptyItem it = false) l ->
            fold_left (fun valueCounts item =>
                         countValue valueCounts (displayValue (itemValue item)))
                      l [("(empty)", n)]
            = [("(empty)", (n + List.length l)%nat)]).
  { induction l as [|a l IH]; intros n Hl; simpl.
    - rewrite Nat.add_0_r. reflexivity.
    - inversion Hl as [|a' l' Ha Hl']; subst.
      rewrite (countValue_empty_bucket n a Ha). rewrite (IH _ Hl').
      f_equal. f_equal. lia. }
  rewrite (G rs 1%nat Hrs). reflexivity.
Qed.

Section Extractions.

Variable HL7_SEGMENT_IDS : list string.
Variable globals : Globals.

Lemma extractFieldValues_results (content fieldRef : string)
    (filtersConfig : option FiltersConfig) (r : ExtractionResult) (p : FieldReference) :
  parseFieldReference fieldRef = Some p ->
  extractFieldValues HL7_SEGMENT_IDS globals content fieldRef filtersConfig = Extracted r ->
  results r
  = collectIndexed (messageExtractions p) 0
      (selectedMessages HL7_SEGMENT_IDS globals content filtersConfig)
  /\ filterOnly r = false
  /\ (if filterApplied r then filteredMessages r else totalMessages r)
     = List.length (selectedMessages HL7_SEGMENT_IDS globals content filtersConfig).
Proof.
  intros Hp H. destruct (parseFieldReference_nonblank _ _ Hp) as [Hne Hnb].
  unfold extractFieldValues in H.
  destruct (String.eqb_spec fieldRef "") as [E|_]; [contradiction|].
  destruct (String.eqb_spec (trim fieldRef) "") as [E|_]; [contradiction|].
  simpl orb in H. cbv iota in H. rewrite Hp in H. simpl andb in H. cbv iota in H.
  unfold selectedMessages.
  destruct filtersConfig as [cfg|].
  - destruct (0 <? List.length (filters cfg))%nat.
    + destruct (checkFilters cfg); [discriminate|].
      injection H as <-. simpl. repeat split.
    + injection H as <-. simpl. repeat split.
  - injection H as <-. simpl. repeat split.
Qed.

(** The extractions of a run, by message, and what the statistics count:
    the results are the extractions of the filtered messages in order; a
    message with a value is one with an extraction that is not blank. *)
Lemma extractions_by_message :
  forall (content fieldRef : string) (filtersConfig : option FiltersConfig)
         (r : ExtractionResult) (p : FieldReference),
    parseFieldReference fieldRef = Some p ->
    extractFieldValues HL7_SEGMENT_IDS globals content fieldRef filtersConfig = Extracted r ->
    results r
    = collectIndexed (messageExtractions p) 0
        (selectedMessages HL7_SEGMENT_IDS globals content filtersConfig)
    /\ (forall (idx : nat) (msg : Message),
          List.length (messageExtractions p idx msg)
          = Nat.max 1 (List.length (matchingSegments p msg))
          /\ (matchingSegments p msg = [] ->
                messageExtractions p idx msg = [mkResultItem idx ""]
                /\ messageHasValue p msg = false)
          /\ (matchingSegments p msg <> [] ->
                messageExtractions p idx msg
                = map (fun seg =>
                         mkResultItem idx
                           (extractValueFromSegment seg (field p) (component p) (subcomponent p)
                              (msgComponentSeparator msg) (msgSubcomponentSeparator msg)))
                      (matchingSegments p msg)))
    /\ exists s,
         generateStatistics (Extracted r) = FieldStatistics s
         /\ messagesWithValue s
            = List.length (filter (messageHasValue p)
                             (selectedMessages HL7_SEGMENT_IDS globals content filtersConfig))
         /\ messagesWithoutValue s
            = Z.of_nat (List.length
                          (filter (fun m => negb (messageHasValue p m))
                             (selectedMessages HL7_SEGMENT_IDS globals content filtersConfig)))
         /\ totalOccurrences s = List.length (results r)
         /\ (Forall (fun it => nonEmptyItem it = false) (results r) -> results r <> [] ->
             distinctValues s = [("(empty)", List.length (results r))]).
Proof.
  intros content fieldRef filtersConfig r p Hp H.
  destruct (extractFieldValues_results _ _ _ _ _ Hp H) as (Hres & Hfo & Hcount).
  split; [exact Hres|]. split.
  - intros idx msg. split; [apply messageExtractions_count|]. split.
    + intros Hm. split; [|apply no_matching_segment_no_value; exact Hm].
      unfold messageExtractions. rewrite Hm. reflexivity.
    + intros Hm. unfold messageExtractions.
      destruct (matchingSegments p msg); [contradiction|reflexivity].
  - destruct (without_value_is_complement r Hfo) as (s & Hs & Hwith & Hwithout & Htot & Hdv).
    exists s. split; [exact Hs|].
    assert (Hv : messagesWithValue s
                 = List.length (filter (messageHasValue p)
                     (selectedMessages HL7_SEGMENT_IDS globals content filtersConfig))).
    { rewrite Hwith. unfold hasValueSet. rewrite Hres.
      rewrite (hasValueSet_collect p _ 0 []) by (intros x []).
      simpl app. apply indicesWhere_length. }
    split; [exact Hv|]. split; [|split; [exact Htot|]].
    + rewrite Hwithout, Hcount, Hv.
      rewrite <- (filter_complement_length (messageHasValue p)
                    (selectedMessages HL7_SEGMENT_IDS globals content filtersConfig)).
      lia.
    + intros Hall Hne. rewrite Hdv. rewrite (countValues_all_blank _ Hall Hne). reflexivity.
Qed.

End Extractions.

(** ** The extractions of a run, spelled out *)

Lemma collectIndexed_flat_map {A B : Type} (f : nat -> A -> list B) (k : nat) (l : list A) :
  collectIndexed f k l
  = flat_map (fun im => f (fst im) (snd im)) (combine (seq k (List.length l)) l).
Proof.
  revert k. induction l as [|x l IH]; intros k; [reflexivity|].
  cbn [collectIndexed List.length seq combine flat_map fst snd]. rewrite IH. reflexivity.
Qed.

Lemma collectIndexed_ext {A B : Type} (f g : nat -> A -> list B) (k : nat) (l : list A) :
  (forall i x, f i x = g i x) -> collectIndexed f k l = collectIndexed g k l.
Proof.
  intros H. revert k. induction l as [|x l IH]; intros k; [reflexivity|].
  cbn [collectIndexed]. rewrite H, IH. reflexivity.
Qed.

Lemma existsb_through_map {A B : Type} (f : A -> B) (p : B -> bool) (l : list A) :
  existsb p (map f l) = existsb (fun x => p (f x)) l.
Proof. induction l as [|x l IH]; [reflexivity|]. simpl. rewrite IH. reflexivity. Qed.

Lemma messageExtractions_of_kind (p : FieldReference) (idx : nat) (msg : Message) :
  messageExtractions p idx msg
  = match filter (fun seg => (segmentId seg =? segment p)%string) (segments msg) with
    | [] => [mkResultItem idx ""]
    | segs =>
        map (fun seg =>
               mkResultItem idx
                 (extractValueFromSegment seg (field p) (component p) (subcomponent p)
                    (msgComponentSeparator msg) (msgSubcomponentSeparator msg)))
            segs
    end.
Proof.
  unfold messageExtractions, matchingSegments.
  destruct (filter _ (segments msg)); reflexivity.
Qed.

Lemma messageHasValue_of_kind (p : FieldReference) (msg : Message) :
  messageHasValue p msg
  = existsb (fun seg =>
               negb (trim (extractValueFromSegment seg (field p) (component p)
                             (subcomponent p) (msgComponentSeparator msg)
                             (msgSubcomponentSeparator msg)) =? "")%string)
      (filter (fun seg => (segmentId seg =? segment p)%string) (segments msg)).
Proof.
  unfold messageHasValue. rewrite messageExtractions_of_kind.
  destruct (filter _ (segments msg)) as [|seg segs] eqn:E; [reflexivity|].
  rewrite existsb_through_map. reflexivity.
Qed.

(** C8.  With an address, the results of a run are the extractions of
    its filtered messages, in the order of the messages, each with the
    position of its message in the filtered list: a message yields one
    extraction for each of its segments whose kind is the segment kind of
    the address, in their order, the value the address resolves to in
    that segment; a message without such a segment yields one empty
    extraction.  The statistics count as messages with value the
    filtered messages with a segment of the kind whose value is not
    blank, and as messages without value the others, among them every
    message without a segment of the kind; when all extractions are
    blank they make one bucket, the empty-value bucket, with all of
    them. *)
Theorem one_extraction_per_matching_segment :
  forall (HL7_SEGMENT_IDS : list string) (globals : Globals) (content fieldRef : string)
         (filtersConfig : option FiltersConfig) (r : ExtractionResult) (p : FieldReference),
    parseFieldReference fieldRef = Some p ->
    extractFieldValues HL7_SEGMENT_IDS globals content fieldRef filtersConfig = Extracted r ->
    let messages := parseMessagesForFiltering HL7_SEGMENT_IDS content in
    let filtered :=
      match filtersConfig with
      | Some cfg =>
          if (0 <? List.length (filters cfg))%nat then
            filter (fun msg =>
                      toBoolean (messageMatchesFilters globals (segments msg) (Some cfg)
                                   (msgComponentSeparator msg)
                                   (msgSubcomponentSeparator msg)))
                   messages
          else messages
      | None => messages
      end in
    let ofKind := fun msg : Message =>
      filter (fun seg => (segmentId seg =? segment p)%string) (segments msg) in
    let value := fun (msg : Message) (seg : Segment) =>
      extractValueFromSegment seg (field p) (component p) (subcomponent p)
        (msgComponentSeparator msg) (msgSubcomponentSeparator msg) in
    let extractions := fun (idx : nat) (msg : Message) =>
      match ofKind msg with
      | [] => [mkResultItem idx ""]
      | segs => map (fun seg => mkResultItem idx (value msg seg)) segs
      end in
    let hasValue := fun msg : Message =>
      existsb (fun seg => negb (trim (value msg seg) =? "")%string) (ofKind msg) in
    results r
    = flat_map (fun im => extractions (fst im) (snd im))
        (combine (seq 0 (List.length filtered)) filtered)
    /\ (forall idx msg,
          List.length (extractions idx msg) = Nat.max 1 (List.length (ofKind msg))
          /\ (ofKind msg = [] -> hasValue msg = false))
    /\ exists s,
         generateStatistics (Extracted r) = FieldStatistics s
         /\ messagesWithValue s = List.length (filter hasValue filtered)
         /\ messagesWithoutValue s
            = Z.of_nat (List.length (filter (fun msg => negb (hasValue msg)) filtered))
         /\ totalOccurrences s = List.length (results r)
         /\ (Forall (fun it => trim (itemValue it) = "") (results r) -> results r <> [] ->
             distinctValues s = [("(empty)", List.length (results r))]).
Proof.
  intros ids globals content fieldRef filtersConfig r p Hp H
         messages filtered ofKind value extractions hasValue.
  destruct (extractions_by_message ids globals content fieldRef filtersConfig r p Hp H)
    as (Hres & Hper & s & Hs & Hwith & Hwithout & Htot & Hempty).
  assert (Hsel : selectedMessages ids globals content filtersConfig = filtered).
  { unfold selectedMessages, filtered, applyFilters, messages.
    destruct filtersConfig as [cfg|]; reflexivity. }
  assert (Hext : forall idx msg, messageExtractions p idx msg = extractions idx msg)
    by (intros idx msg; apply messageExtractions_of_kind).
  assert (Hhas : forall msg, messageHasValue p msg = hasValue msg)
    by (intros msg; apply messageHasValue_of_kind).
  rewrite Hsel in *.
  split.
  { rewrite Hres, (collectIndexed_ext _ extractions 0 filtered Hext).
    apply collectIndexed_flat_map. }
  split.
  { intros idx msg. destruct (Hper idx msg) as (Hlen & _ & _).
    rewrite Hext in Hlen. split; [exact Hlen|].
    intros E. unfold hasValue. rewrite E. reflexivity. }
  exists s. split; [exact Hs|].
  split; [rewrite Hwith; apply (f_equal (@List.length _)), filter_ext, Hhas|].
  split.
  { rewrite Hwithout. do 2 f_equal. apply filter_ext. intros msg. rewrite Hhas. reflexivity. }
  split; [exact Htot|].
  intros Hall Hne. apply Hempty; [|exact Hne].
  eapply Forall_impl; [|exact Hall]. cbv beta. intros it E.
  unfold nonEmptyItem. rewrite E. reflexivity.
Qed.

Lemma one_extraction_per_matching_segment_witness :
  (exists r s,
     extractFieldValues sampleSegmentIds noGlobals sampleContent "PID.99" None = Extracted r
     /\ generateStatistics (Extracted r) = FieldStatistics s
     /\ map itemValue (results r) = [""; ""]
     /\ messagesWithValue s = 0%nat
     /\ messagesWithoutValue s = 2
     /\ distinctValues s = [("(empty)", 2%nat)])
  /\ (exists r s,
        extractFieldValues sampleSegmentIds noGlobals threeMessages "PID.3" None = Extracted r
        /\ generateStatistics (Extracted r) = FieldStatistics s
        /\ results r
           = [mkResultItem 0 "ID1"; mkResultItem 0 "ID2"; mkResultItem 1 "";
              mkResultItem 2 "ID3"]
        /\ messagesWithValue s = 2%nat
        /\ messagesWithoutValue s = 1).
Proof.
  split.
  - assert (Hp : parseFieldReference "PID.99" = Some (mkFieldReference "PID" 99 None None))
      by (vm_compute; reflexivity).
    destruct (extractFieldValues sampleSegmentIds noGlobals sampleContent "PID.99" None)
      as [e|r] eqn:E.
    { vm_compute in E. discriminate. }
    destruct (one_extraction_per_matching_segment sampleSegmentIds noGlobals sampleContent
                "PID.99" None r (mkFieldReference "PID" 99 None None) Hp E)
      as (Hres & _ & s & Hs & Hv & Hw & _ & Hd).
    exists r, s. split; [reflexivity|]. split; [exact Hs|].
    assert (Hr : map itemValue (results r) = [""; ""]).
    { rewrite Hres. vm_compute. reflexivity. }
    split; [exact Hr|].
    split; [rewrite Hv; vm_compute; reflexivity|].
    split; [rewrite Hw; vm_compute; reflexivity|].
    rewrite Hd.
    + rewrite Hres. vm_compute. reflexivity.
    + rewrite Hres. vm_compute. repeat constructor.
    + rewrite Hres. vm_compute. discriminate.
  - assert (Hp : parseFieldReference "PID.3" = Some (mkFieldReference "PID" 3 None None))
      by (vm_compute; reflexivity).
    destruct (extractFieldValues sampleSegmentIds noGlobals threeMessages "PID.3" None)
      as [e|r] eqn:E.
    { vm_compute in E. discriminate. }
    destruct (one_extraction_per_matching_segment sampleSegmentIds noGlobals threeMessages
                "PID.3" None r (mkFieldReference "PID" 3 None None) Hp E)
      as (Hres & _ & s & Hs & Hv & Hw & _ & _).
    exists r, s. split; [reflexivity|]. split; [exact Hs|].
    split; [rewrite Hres; vm_compute; reflexivity|].
    split; [rewrite Hv; vm_compute; reflexivity|].
    rewrite Hw. vm_compute. reflexivity.
Defined.

(** The two messages of the specification queried at PID.99 and at
    PID.5.1. *)
Example statistics_PID_99 :
  generateStatistics (extractFieldValues sampleSegmentIds noGlobals sampleContent "PID.99" None)
  = FieldStatistics
      (mkStatistics 2 None false "" 0 2 2 [("(empty)", 2%nat)] false "").
Proof. vm_compute. reflexivity. Qed.

Example statistics_PID_5_1 :
  generateStatistics (extractFieldValues sampleSegmentIds noGlobals sampleContent "PID.5.1" None)
  = FieldStatistics
      (mkStatistics 2 None false "" 2 0 2 [("DOE", 1%nat); ("SMITH", 1%nat)] false "").
Proof. vm_compute. reflexivity. Qed.

(** ** Segmenting and exporting again *)

Lemma split_nonempty (c : ascii) (s : string) : split c s <> [].
Proof.
  destruct s as [|a s]; simpl; [discriminate|].
  destruct (Ascii.eqb a c); [discriminate|].
  destruct (split c s); discriminate.
Qed.

(** Joining the pieces of a split with the separator gives the text back. *)
Lemma join_split (c : ascii) (s : string) : join (String c "") (split c s) = s.
Proof.
  induction s as [|a s IH]; simpl; [reflexivity|].
  destruct (Ascii.eqb_spec a c) as [->|Hne].
  - unfold join in *. simpl.
    destruct (split c s) as [|h t] eqn:E; [exfalso; exact (split_nonempty c s E)|].
    rewrite IH. reflexivity.
  - unfold join in *.
    destruct (split c s) as [|h t] eqn:E; [exfalso; exact (split_nonempty c s E)|].
    simpl. destruct t as [|h' t'].
    + simpl in IH. rewrite IH. reflexivity.
    + simpl in *. rewrite IH. reflexivity.
Qed.

Lemma substringFrom_step (n : nat) (s : string) :
  substringFrom n (substringFrom 1 s) = substringFrom (S n) s.
Proof. destruct s as [|a s]; simpl; [destruct n; reflexivity|reflexivity]. Qed.

Lemma substringFrom_get (n : nat) (s : string) (c : ascii) :
  String.get n s = Some c -> substringFrom n s = String c (substringFrom (S n) s).
Proof.
  revert s. induction n as [|n IH]; intros [|a s] H; simpl in *; try discriminate.
  - injection H as ->. reflexivity.
  - apply IH. exact H.
Qed.

Lemma substring_prefix_split (n : nat) (s : string) :
  (substring 0 n s ++ substringFrom n s)%string = s.
Proof.
  revert s. induction n as [|n IH]; intros [|a s]; simpl; try reflexivity.
  rewrite IH. reflexivity.
Qed.

Lemma segmentText_segmentOfLine (st : ParserState) (line : string) :
  segmentText (segmentOfLine st (substring2 0 3 line) line)
  = renderLine (curFieldSeparator st) line.
Proof.
  unfold segmentText, segmentOfLine, renderLine.
  cbn [segmentId fields fieldSeparator].
  destruct (substring2 0 3 line =? "MSH")%string.
  - rewrite join_split. reflexivity.
  - unfold splitAfterId.
    destruct (startsWithChar (curFieldSeparator st) (substringFrom 3 line));
      rewrite join_split; reflexivity.
Qed.

(** A line with the separator right after its kind label is exported as
    it is. *)
Lemma renderLine_exact (sep : ascii) (line : string) :
  String.get 3 line = Some sep -> renderLine sep line = line.
Proof.
  intros H. unfold renderLine.
  pose proof (substringFrom_get 3 line sep H) as E3.
  assert (E : (substring2 0 3 line ++ String sep "" ++ substringFrom 4 line)%string = line).
  { etransitivity; [|apply (substring_prefix_split 3 line)]. rewrite E3. reflexivity. }
  destruct (substring2 0 3 line =? "MSH")%string; [exact E|].
  cbv zeta. rewrite E3. simpl startsWithChar. rewrite Ascii.eqb_refl.
  simpl substringFrom at 1. exact E.
Qed.

Section RoundTrip.

Variable HL7_SEGMENT_IDS : list string.
Variable globals : Globals.

Lemma agree_close (ps : ParserState) (ks : KeptState) :
  agree ps ks -> map segmentTexts (pushCurrent ps) = map renderGroup (closeGroup ks).
Proof.
  intros (_ & Hc & Ho). unfold pushCurrent, closeGroup.
  destruct (currentMessage ps) as [m|], (openGroup ks) as [g|]; simpl in Ho; try discriminate.
  - injection Ho as Ho. rewrite !map_app, Hc. simpl. rewrite Ho. reflexivity.
  - exact Hc.
Qed.

Lemma agree_step (ps : ParserState) (ks : KeptState) (line : string) :
  agree ps ks -> agree (processLine HL7_SEGMENT_IDS ps line) (keepLine HL7_SEGMENT_IDS ks line).
Proof.
  intros A. unfold processLine, keepLine.
  destruct (trim line =? "")%string; [exact A|].
  set (t := trim line). set (id := substring2 0 3 t).
  assert (A1 : agree (if (id =? "MSH")%string then openMessage ps t else ps)
                     (if (id =? "MSH")%string
                      then mkKeptState (closeGroup ks) (Some [])
                             (if (3 <? String.length t)%nat
                              then charAt 3 t (separatorInForce ks) else separatorInForce ks)
                      else ks)).
  { destruct (id =? "MSH")%string; [|exact A].
    pose proof (agree_close ps ks A) as Hc. destruct A as (Hs & _ & _).
    unfold openMessage, agree. simpl. rewrite Hs. repeat split. exact Hc. }
  revert A1.
  generalize (if (id =? "MSH")%string then openMessage ps t else ps) as ps1.
  generalize (if (id =? "MSH")%string
              then mkKeptState (closeGroup ks) (Some [])
                     (if (3 <? String.length t)%nat
                      then charAt 3 t (separatorInForce ks) else separatorInForce ks)
              else ks) as ks1.
  intros ks1 ps1 (Hs & Hc & Ho).
  destruct (currentMessage ps1) as [m|] eqn:Em, (openGroup ks1) as [g|] eqn:Eg;
    simpl in Ho; try discriminate.
  - destruct (existsb (String.eqb id) HL7_SEGMENT_IDS).
    + injection Ho as Ho. unfold agree. simpl. repeat split; [exact Hs|exact Hc|].
      f_equal. unfold segmentTexts, renderGroup, pushSegment. simpl.
      rewrite !map_app. simpl. unfold segmentTexts, renderGroup in Ho. rewrite Ho.
      unfold id. rewrite segmentText_segmentOfLine. rewrite Hs. reflexivity.
    + unfold agree. rewrite Em, Eg. simpl. repeat split; [exact Hs|exact Hc|exact Ho].
  - unfold agree. rewrite Em, Eg. repeat split; [exact Hs|exact Hc].
Qed.

Lemma agree_fold (lines : list string) (ps : ParserState) (ks : KeptState) :
  agree ps ks ->
  agree (fold_left (processLine HL7_SEGMENT_IDS) lines ps)
        (fold_left (keepLine HL7_SEGMENT_IDS) lines ks).
Proof.
  revert ps ks. induction lines as [|l lines IH]; intros ps ks A; simpl; [exact A|].
  apply IH. apply agree_step. exact A.
Qed.

(** The segments stored for a text, as they are exported, are its kept
    lines, as they are rendered. *)
Lemma stored_segments_are_kept_lines (content : string) :
  map segmentTexts (parseMessagesForFiltering HL7_SEGMENT_IDS content)
  = map renderGroup (keptLines HL7_SEGMENT_IDS content).
Proof.
  unfold parseMessagesForFiltering, keptLines. apply agree_close. apply agree_fold.
  unfold agree. simpl. repeat split.
Qed.

Lemma exportText_segmentTexts (msgs : list Message) :
  exportText msgs = join CRCRLF (map (join CR) (map segmentTexts msgs)).
Proof. unfold exportText. rewrite map_map. reflexivity. Qed.

Lemma renderGroup_exact (g : list (ascii * string)) :
  Forall wellSeparated g -> renderGroup g = map snd g.
Proof.
  induction 1 as [|k g Hk _ IH]; simpl; [reflexivity|].
  rewrite IH. rewrite (renderLine_exact _ _ Hk). reflexivity.
Qed.

Lemma filter_all {A : Type} (p : A -> bool) (l : list A) :
  (forall x, In x l -> p x = true) -> filter p l = l.
Proof.
  induction l as [|a l IH]; intros H; simpl; [reflexivity|].
  rewrite (H a (or_introl eq_refl)). rewrite IH; [reflexivity|].
  intros x Hx. apply H. right. exact Hx.
Qed.

Lemma extractFieldValues_unfiltered (content fieldRef : string) (r : ExtractionResult) :
  extractFieldValues HL7_SEGMENT_IDS globals content fieldRef None = Extracted r ->
  filterApplied r = false /\ filteredHL7Content r = "".
Proof.
  unfold extractFieldValues. destruct (negb _ && negb _); [discriminate|].
  intros H. injection H as <-. split; reflexivity.
Qed.

(** C9, amended.  Without a FilterSet the export text is empty.  With a
    FilterSet that passes the checks and that every message satisfies,
    the export text is made of the lines the segmenter keeps, by message:
    CR between the lines of a message, CR CR LF between messages, each
    line rendered as its kind label, the separator in force and its
    fields; when every kept line has the separator in force right after
    its kind label, the lines are reproduced as they are. *)
Theorem export_reproduces_kept_lines :
  forall (content fieldRef : string) (cfg : FiltersConfig) (r r0 : ExtractionResult),
    extractFieldValues HL7_SEGMENT_IDS globals content fieldRef None = Extracted r0 ->
    filters cfg <> [] ->
    extractFieldValues HL7_SEGMENT_IDS globals content fieldRef (Some cfg) = Extracted r ->
    (forall msg, In msg (parseMessagesForFiltering HL7_SEGMENT_IDS content) ->
       toBoolean (messageMatchesFilters globals (segments msg) (Some cfg)
                    (msgComponentSeparator msg) (msgSubcomponentSeparator msg)) = true) ->
    filteredHL7Content r0 = ""
    /\ filteredHL7Content r
       = join CRCRLF
           (map (fun g => join CR (map (fun k => renderLine (fst k) (snd k)) g))
                (keptLines HL7_SEGMENT_IDS content))
    /\ (Forall (Forall wellSeparated) (keptLines HL7_SEGMENT_IDS content) ->
        filteredHL7Content r
        = join CRCRLF
            (map (fun g => join CR (map snd g)) (keptLines HL7_SEGMENT_IDS content))).
Proof.
  intros content fieldRef cfg r r0 H0 Hne H Hpass.
  split; [apply (extractFieldValues_unfiltered _ _ _ H0)|].
  destruct (extractFieldValues_filtered HL7_SEGMENT_IDS globals _ _ _ _ Hne H)
    as (_ & _ & _ & Hx).
  assert (Hall : applyFilters globals cfg (parseMessagesForFiltering HL7_SEGMENT_IDS content)
                 = parseMessagesForFiltering HL7_SEGMENT_IDS content).
  { unfold applyFilters. apply filter_all. exact Hpass. }
  rewrite Hall in Hx. rewrite exportText_segmentTexts in Hx.
  rewrite stored_segments_are_kept_lines in Hx. rewrite map_map in Hx.
  split; [exact Hx|].
  intros Hw. rewrite Hx. f_equal.
  apply map_ext_in. intros g Hg. f_equal.
  rewrite Forall_forall in Hw. apply (renderGroup_exact g (Hw g Hg)).
Qed.

End RoundTrip.

Lemma export_reproduces_kept_lines_witness :
  exists r,
    extractFieldValues sampleSegmentIds noGlobals sampleContent "" (Some headerExists)
    = Extracted r
    /\ filteredHL7Content r
       = join CRCRLF
           (map (fun g => join CR (map snd g)) (keptLines sampleSegmentIds sampleContent))
    /\ nonBlankLines (filteredHL7Content r) = nonBlankLines sampleContent.
Proof.
  destruct (extractFieldValues sampleSegmentIds noGlobals sampleContent "" None)
    as [e0|r0] eqn:E0; [vm_compute in E0; discriminate|].
  destruct (extractFieldValues sampleSegmentIds noGlobals sampleContent "" (Some headerExists))
    as [e|r] eqn:E; [vm_compute in E; discriminate|].
  assert (Hpass : forall msg,
            In msg (parseMessagesForFiltering sampleSegmentIds sampleContent) ->
            toBoolean (messageMatchesFilters noGlobals (segments msg) (Some headerExists)
                         (msgComponentSeparator msg) (msgSubcomponentSeparator msg)) = true).
  { intros msg Hin. vm_compute in Hin.
    destruct Hin as [<-|[<-|[]]]; vm_compute; reflexivity. }
  destruct (export_reproduces_kept_lines sampleSegmentIds noGlobals sampleContent ""
              headerExists r r0 E0 ltac:(discriminate) E Hpass) as (_ & _ & Hexact).
  assert (Hw : Forall (Forall wellSeparated) (keptLines sampleSegmentIds sampleContent)).
  { vm_compute. repeat constructor. }
  exists r. split; [reflexivity|]. split; [exact (Hexact Hw)|].
  rewrite (Hexact Hw). vm_compute. reflexivity.
Defined.

(** C9 as stated fails: with no filter applied no export text is built. *)
Lemma round_trip_fails_without_filter :
  exists r,
    extractFieldValues sampleSegmentIds noGlobals "MSH|^~\&|A" "" None = Extracted r
    /\ filteredHL7Content r = ""
    /\ nonBlankLines (filteredHL7Content r) <> nonBlankLines "MSH|^~\&|A".
Proof.
  eexists. split; [vm_compute; reflexivity|]. split; [reflexivity|].
  vm_compute. discriminate.
Qed.

(** A line without the separator after its kind label is stored, and
    exported with the separator. *)
Example separator_is_inserted :
  exists r,
    extractFieldValues sampleSegmentIds noGlobals noSeparatorContent "" (Some headerExists)
    = Extracted r
    /\ filteredHL7Content r = "MSH|^~\&|A" ++ CR ++ "PID|1".
Proof. eexists. split; vm_compute; reflexivity. Qed.

Example bare_header_gets_separator :
  exists r,
    extractFieldValues sampleSegmentIds noGlobals "MSH" "" (Some headerExists) = Extracted r
    /\ filteredHL7Content r = "MSH|".
Proof. eexists. split; vm_compute; reflexivity. Qed.

(** ** The bound on the calls of the host's parser is enough *)

Lemma parseLevel_binary (n : nat) (l : Level) (ts : list JsToken) :
  parseLevel (S n) (Some l) ts
  = match parseLevel n (nextLevel l) ts with
    | Some (e, r) => parseRest n l e r
    | None => None
    end.
Proof. reflexivity. Qed.

Lemma parseLevel_unary (n : nat) (ts : list JsToken) :
  parseLevel (S n) None ts
  = match ts with
    | TBang :: r =>
        match parseLevel n None r with
        | Some (e, r') => Some (ENot e, r')
        | None => None
        end
    | TWord w :: r => parseCalls n (EId w) r
    | TLParen :: r =>
        match parseLevel n (Some LOr) r with
        | Some (e, TRParen :: r') => parseCalls n e r'
        | _ => None
        end
    | _ => None
    end.
Proof. reflexivity. Qed.

Lemma parseRest_step (n : nat) (l : Level) (acc : JsExpr) (ts : list JsToken) :
  parseRest (S n) l acc ts
  = match ts with
    | t :: r =>
        if isOperator l t then
          match parseLevel n (nextLevel l) r with
          | Some (e, r') => parseRest n l (mkBinary l acc e) r'
          | None => None
          end
        else Some (acc, ts)
    | [] => Some (acc, ts)
    end.
Proof. reflexivity. Qed.

Lemma parseCalls_step (n : nat) (acc : JsExpr) (ts : list JsToken) :
  parseCalls (S n) acc ts
  = match ts with
    | TLParen :: TRParen :: r => parseCalls n (ECall0 acc) r
    | TLParen :: r =>
        match parseLevel n (Some LOr) r with
        | Some (e, TRParen :: r') => parseCalls n (ECall1 acc e) r'
        | _ => None
        end
    | _ => Some (acc, ts)
    end.
Proof. reflexivity. Qed.

(** What is left after an expression is shorter than what was given. *)
Lemma parser_consumes (n : nat) :
  (forall l ts e r, parseLevel n l ts = Some (e, r) -> (List.length r < List.length ts)%nat)
  /\ (forall l acc ts e r, parseRest n l acc ts = Some (e, r) ->
        (List.length r <= List.length ts)%nat)
  /\ (forall acc ts e r, parseCalls n acc ts = Some (e, r) ->
        (List.length r <= List.length ts)%nat).
Proof.
  induction n as [|n (IHL & IHR & IHC)].
  - repeat split; intros; discriminate.
  - split; [|split].
    + intros [l|] ts e r H.
      * rewrite parseLevel_binary in H.
        destruct (parseLevel n (nextLevel l) ts) as [[e1 r1]|] eqn:E; [|discriminate].
        apply IHL in E. apply IHR in H. lia.
      * rewrite parseLevel_unary in H.
        destruct ts as [|[w| | | | | | | ] ts]; try discriminate.
        -- apply IHC in H. simpl. lia.
        -- destruct (parseLevel n None ts) as [[e1 r1]|] eqn:E; [|discriminate].
           injection H as <- <-. apply IHL in E. simpl. lia.
        -- destruct (parseLevel n (Some LOr) ts) as [[e1 [|[w| | | | | | | ] r1]]|] eqn:E;
             try discriminate.
           apply IHL in E. apply IHC in H. simpl in *. lia.
    + intros l acc ts e r H. rewrite parseRest_step in H.
      destruct ts as [|t ts]; [injection H as <- <-; lia|].
      destruct (isOperator l t).
      * destruct (parseLevel n (nextLevel l) ts) as [[e1 r1]|] eqn:E; [|discriminate].
        apply IHL in E. apply IHR in H. simpl. lia.
      * injection H as <- <-. lia.
    + intros acc ts e r H. rewrite parseCalls_step in H.
      destruct ts as [|t ts]; [injection H as <- <-; lia|].
      destruct t; try (injection H as <- <-; lia).
      destruct ts as [|t2 ts].
      * destruct (parseLevel n (Some LOr) []) as [[e1 [|t3 r1]]|] eqn:E; try discriminate.
        destruct t3; try discriminate. apply IHL in E. simpl in E. lia.
      * destruct t2.
        all: try (apply IHC in H; simpl; lia).
        all: destruct (parseLevel n (Some LOr) (_ :: ts)) as [[e1 [|t3 r1]]|] eqn:E.
        all: try discriminate.
        all: destruct t3; try discriminate.
        all: apply IHL in E; apply IHC in H; simpl in *; lia.
Qed.

Lemma nextLevel_rank (l : Level) : S (levelRank (nextLevel l)) = levelRank (Some l).
Proof. destruct l; reflexivity. Qed.

(** Beyond eight calls a token the result no longer depends on the bound. *)
Lemma parser_stable (n : nat) :
  (forall l ts, (8 * List.length ts + levelRank l < n)%nat ->
     parseLevel n l ts = parseLevel (S n) l ts)
  /\ (forall l acc ts, (8 * List.length ts + 1 <= n)%nat ->
        parseRest n l acc ts = parseRest (S n) l acc ts)
  /\ (forall acc ts, (8 * List.length ts + 1 <= n)%nat ->
        parseCalls n acc ts = parseCalls (S n) acc ts).
Proof.
  induction n as [|n (IHL & IHR & IHC)].
  - repeat split; intros; lia.
  - destruct (parser_consumes n) as (CL & CR & CC).
    split; [|split].
    + intros [l|] ts Hn.
      * rewrite (parseLevel_binary (S n)), (parseLevel_binary n).
        pose proof (nextLevel_rank l) as Hr.
        rewrite <- (IHL (nextLevel l) ts) by lia.
        destruct (parseLevel n (nextLevel l) ts) as [[e1 r1]|] eqn:E; [|reflexivity].
        apply CL in E. apply IHR. lia.
      * rewrite (parseLevel_unary (S n)), (parseLevel_unary n). simpl in Hn.
        destruct ts as [|[w| | | | | | | ] ts]; try reflexivity; simpl List.length in Hn.
        -- apply IHC. lia.
        -- rewrite <- (IHL None ts) by (simpl; lia). reflexivity.
        -- rewrite <- (IHL (Some LOr) ts) by (simpl; lia).
           destruct (parseLevel n (Some LOr) ts) as [[e1 [|[w| | | | | | | ] r1]]|] eqn:E;
             try reflexivity.
           apply CL in E. apply IHC. simpl in E. lia.
    + intros l acc ts Hn. rewrite (parseRest_step (S n)), (parseRest_step n).
      destruct ts as [|t ts]; [reflexivity|]. simpl List.length in Hn.
      destruct (isOperator l t); [|reflexivity].
      assert (Hrk : (levelRank (nextLevel l) <= 3)%nat) by (destruct l; simpl; lia).
      rewrite <- (IHL (nextLevel l) ts) by lia.
      destruct (parseLevel n (nextLevel l) ts) as [[e1 r1]|] eqn:E; [|reflexivity].
      apply CL in E. apply IHR. lia.
    + intros acc ts Hn. rewrite (parseCalls_step (S n)), (parseCalls_step n).
      destruct ts as [|t ts]; [reflexivity|]. simpl List.length in Hn.
      destruct t; try reflexivity.
      destruct ts as [|t2 ts].
      * rewrite <- (IHL (Some LOr) []) by (simpl; lia).
        destruct (parseLevel n (Some LOr) []) as [[e1 [|t3 r1]]|] eqn:E; try reflexivity.
        apply CL in E. simpl in E. lia.
      * simpl List.length in Hn.
        destruct t2.
        all: try (apply IHC; lia).
        all: rewrite <- (IHL (Some LOr) (_ :: ts)) by (simpl List.length; simpl levelRank; lia).
        all: destruct (parseLevel n (Some LOr) (_ :: ts)) as [[e1 [|t3 r1]]|] eqn:E.
        all: try reflexivity.
        all: destruct t3; try reflexivity.
        all: apply CL in E; apply IHC; simpl List.length in E; lia.
Qed.

(** [parseFuel] is such a bound: more calls change nothing. *)
Lemma parseFuel_enough (ts : list JsToken) (k : nat) :
  parseLevel (parseFuel ts + k) (Some LOr) ts = parseLevel (parseFuel ts) (Some LOr) ts.
Proof.
  induction k as [|k IH]; [rewrite Nat.add_0_r; reflexivity|].
  rewrite Nat.add_succ_r. rewrite <- IH.
  symmetry. apply (proj1 (parser_stable _)).
  unfold parseFuel. simpl levelRank. lia.
Qed.

(** ** Custom logic on the grammar of the specification *)

(** ** Strings *)

Lemma append_assoc (a b c : string) : ((a ++ b) ++ c = a ++ (b ++ c))%string.
Proof. induction a as [|x a IH]; simpl; [reflexivity|rewrite IH; reflexivity]. Qed.

Lemma append_nil_r (a : string) : (a ++ "")%string = a.
Proof. induction a as [|x a IH]; simpl; [reflexivity|rewrite IH; reflexivity]. Qed.

(** ** Words and symbols: the cut of a text *)

Lemma render_app (a b : list Chunk) : render (a ++ b) = (render a ++ render b)%string.
Proof.
  induction a as [|ch a IH]; simpl; [reflexivity|].
  rewrite IH. destruct ch; simpl; reflexivity || (rewrite append_assoc; reflexivity).
Qed.

Lemma render_chunks (s : string) : render (chunks s) = s.
Proof.
  induction s as [|c s IH]; simpl; [reflexivity|].
  destruct (isWordChar c).
  - destruct (chunks s) as [|[w|d] r]; simpl in *; rewrite <- IH; reflexivity.
  - simpl. rewrite IH. reflexivity.
Qed.

Lemma canonical_chunks (s : string) : canonical (chunks s) = true.
Proof.
  induction s as [|c s IH]; simpl; [reflexivity|].
  destruct (isWordChar c) eqn:E.
  - destruct (chunks s) as [|[w|d] r]; simpl in *.
    + unfold wordlike. simpl. rewrite E. reflexivity.
    + unfold wordlike in *. simpl. rewrite E.
      apply andb_true_iff in IH. destruct IH as [IH1 IH3].
      apply andb_true_iff in IH1. destruct IH1 as [IH1 IH2].
      apply andb_true_iff in IH1. destruct IH1 as [_ IH1].
      rewrite IH1, IH2, IH3. reflexivity.
    + unfold wordlike. simpl. rewrite E. simpl. exact IH.
  - simpl. rewrite E. exact IH.
Qed.

Lemma wordlike_cons (w : string) :
  wordlike w = true -> exists c w', w = String c w' /\ isWordChar c = true /\ allChars isWordChar w' = true.
Proof.
  unfold wordlike. destruct w as [|c w']; simpl; [discriminate|].
  intros H. apply andb_true_iff in H. destruct H as [Hc Hw].
  exists c, w'. repeat split; assumption.
Qed.

Lemma headIsWord_render (cs : list Chunk) :
  canonical cs = true -> startsWithWord cs = false -> headIsWord (render cs) = false.
Proof.
  destruct cs as [|[w|c] r]; simpl; intros Hc Hs; try reflexivity; try discriminate.
  apply andb_true_iff in Hc. destruct Hc as [Hc _].
  apply negb_true_iff in Hc. exact Hc.
Qed.

(** ** Replacing a word, seen on the cut *)

Lemma skip_match (P r w t : string) (p : bool) :
  replaceWordFrom P r p (String.length w) (w ++ t)
  = replaceWordFrom P r (lastIsWord p w) 0 t.
Proof.
  revert p. induction w as [|c w IH]; intros p; simpl.
  - destruct t; reflexivity.
  - apply IH.
Qed.

Section ReplaceWord.

Variable L r : string.
Hypothesis L_word : wordlike L = true.

Lemma lastIsWord_word (w : string) (d : bool) :
  wordlike w = true -> lastIsWord d w = true.
Proof.
  intros H. destruct (wordlike_cons w H) as (c & w' & -> & Hc & Hw). simpl.
  clear H. revert c Hc. induction w' as [|a w' IH]; intros c Hc; simpl; [exact Hc|].
  simpl in Hw. apply andb_true_iff in Hw. destruct Hw as [Ha Hw]. apply IH; assumption.
Qed.

Lemma no_match_at_end (p : bool) : replaceWordFrom L r p 0 "" = "".
Proof.
  destruct (wordlike_cons L L_word) as (c & L' & -> & _ & _). reflexivity.
Qed.

Lemma no_match_at_symbol (p : bool) (c : ascii) (t : string) :
  isWordChar c = false ->
  replaceWordFrom L r p 0 (String c t) = String c (replaceWordFrom L r false 0 t).
Proof.
  intros Hc. destruct (wordlike_cons L L_word) as (a & L' & E & Ha & _).
  simpl. unfold wordMatchAt. rewrite E. simpl.
  destruct (Ascii.eqb_spec a c) as [->|_]; [congruence|].
  rewrite Hc. reflexivity.
Qed.

Lemma no_match_inside_word (c : ascii) (t : string) :
  isWordChar c = true ->
  replaceWordFrom L r true 0 (String c t) = String c (replaceWordFrom L r true 0 t).
Proof.
  intros Hc. simpl. unfold wordMatchAt.
  destruct (dropPrefix L (String c t)); simpl; rewrite Hc; reflexivity.
Qed.

Lemma copy_rest_of_word (w t : string) :
  allChars isWordChar w = true ->
  replaceWordFrom L r true 0 (w ++ t) = (w ++ replaceWordFrom L r true 0 t)%string.
Proof.
  induction w as [|c w IH]; simpl; intros H; [reflexivity|].
  apply andb_true_iff in H. destruct H as [Hc Hw].
  change (replaceWordFrom L r true 0 (String c (w ++ t))
          = String c (w ++ replaceWordFrom L r true 0 t)).
  rewrite (no_match_inside_word c (w ++ t) Hc). rewrite (IH Hw). reflexivity.
Qed.

Lemma dropPrefix_app (w t : string) : dropPrefix w (w ++ t) = Some t.
Proof.
  induction w as [|c w IH]; simpl; [destruct t; reflexivity|].
  rewrite Ascii.eqb_refl. exact IH.
Qed.

(** A pattern of word characters found at the front of a word followed by
    a symbol is the whole word, or else ends inside the word. *)
Lemma dropPrefix_in_word (P w t rest : string) :
  allChars isWordChar P = true -> allChars isWordChar w = true ->
  headIsWord t = false ->
  dropPrefix P (w ++ t) = Some rest ->
  (P = w /\ rest = t) \/ headIsWord rest = true.
Proof.
  revert w. induction P as [|a P IH]; intros w HP Hw Ht H.
  - simpl in H. assert (E : rest = (w ++ t)%string) by (destruct (w ++ t)%string; congruence).
    subst rest. destruct w as [|c w]; [left; split; reflexivity|].
    right. simpl in *. apply andb_true_iff in Hw. tauto.
  - simpl in HP. apply andb_true_iff in HP. destruct HP as [Ha HP].
    destruct w as [|c w].
    + simpl in H. destruct t as [|c t]; [discriminate|].
      destruct (Ascii.eqb_spec a c) as [->|_]; [|discriminate].
      simpl in Ht. congruence.
    + simpl in H, Hw. apply andb_true_iff in Hw. destruct Hw as [Hc Hw].
      destruct (Ascii.eqb_spec a c) as [->|_]; [|discriminate].
      destruct (IH w HP Hw Ht H) as [[-> ->]|Hr]; [left; split; reflexivity|right; exact Hr].
Qed.

Lemma match_at_word (t : string) :
  headIsWord t = false ->
  replaceWordFrom L r false 0 (L ++ t) = (r ++ replaceWordFrom L r true 0 t)%string.
Proof.
  intros Ht. destruct (wordlike_cons L L_word) as (a & L' & E & Ha & HL').
  assert (M : wordMatchAt L false (L ++ t) = true).
  { unfold wordMatchAt. rewrite dropPrefix_app.
    rewrite (lastIsWord_word L false L_word), Ht.
    rewrite E. simpl. rewrite Ha. reflexivity. }
  rewrite E in M |- *. simpl append. simpl replaceWordFrom.
  simpl append in M. rewrite M.
  rewrite skip_match.
  replace (lastIsWord (isWordChar a) L') with true; [reflexivity|].
  symmetry. change (lastIsWord false (String a L') = true).
  rewrite <- E. apply lastIsWord_word. exact L_word.
Qed.

Lemma no_match_at_other_word (w t : string) :
  wordlike w = true -> w <> L -> headIsWord t = false ->
  replaceWordFrom L r false 0 (w ++ t) = (w ++ replaceWordFrom L r true 0 t)%string.
Proof.
  intros Hw Hne Ht.
  destruct (wordlike_cons w Hw) as (c & w' & E & Hc & Hw').
  assert (HLall : allChars isWordChar L = true).
  { unfold wordlike in L_word. apply andb_true_iff in L_word. tauto. }
  assert (Hwall : allChars isWordChar w = true).
  { unfold wordlike in Hw. apply andb_true_iff in Hw. tauto. }
  assert (M : wordMatchAt L false (w ++ t) = false).
  { unfold wordMatchAt. destruct (dropPrefix L (w ++ t)) as [rest|] eqn:D; [|reflexivity].
    destruct (dropPrefix_in_word L w t rest HLall Hwall Ht D) as [[EL _]|Hr].
    - exfalso. apply Hne. symmetry. exact EL.
    - rewrite (lastIsWord_word L false L_word), Hr. apply andb_false_r. }
  rewrite E in M |- *. simpl append. simpl replaceWordFrom.
  simpl append in M. rewrite M. rewrite Hc.
  rewrite (copy_rest_of_word w' t Hw'). reflexivity.
Qed.

Variable rc : list Chunk.
Hypothesis rc_text : render rc = r.

(** The replacement works chunk by chunk. *)
Lemma replaceWordFrom_chunks (cs : list Chunk) (p : bool) :
  canonical cs = true ->
  (p = true -> startsWithWord cs = false) ->
  replaceWordFrom L r p 0 (render cs) = render (flat_map (replaceChunk L rc) cs).
Proof.
  revert p. induction cs as [|[w|c] cs IH]; intros p Hc Hp.
  - simpl. apply no_match_at_end.
  - simpl in Hc. apply andb_true_iff in Hc. destruct Hc as [Hc Hcs].
    apply andb_true_iff in Hc. destruct Hc as [Hw Hn]. apply negb_true_iff in Hn.
    assert (p = false) as -> by (destruct p; [specialize (Hp eq_refl); discriminate|reflexivity]).
    pose proof (headIsWord_render cs Hcs Hn) as Ht.
    simpl flat_map. rewrite render_app. simpl render at 1.
    unfold replaceChunk at 1. simpl chunk_eqb.
    destruct (String.eqb_spec w L) as [->|Hne].
    + rewrite (match_at_word _ Ht). rewrite rc_text. f_equal.
      apply IH; [exact Hcs|intros _; exact Hn].
    + rewrite (no_match_at_other_word w _ Hw Hne Ht). simpl. rewrite append_assoc.
      f_equal. 
      apply IH; [exact Hcs|intros _; exact Hn].
  - simpl in Hc. apply andb_true_iff in Hc. destruct Hc as [Hc Hcs].
    apply negb_true_iff in Hc.
    change (replaceWordFrom L r p 0 (String c (render cs))
            = String c (render (flat_map (replaceChunk L rc) cs))).
    rewrite (no_match_at_symbol p c _ Hc). f_equal.
    apply IH; [exact Hcs|discriminate].
Qed.

Lemma replaceWord_chunks (cs : list Chunk) :
  canonical cs = true ->
  replaceWord L r (render cs) = render (flat_map (replaceChunk L rc) cs).
Proof.
  intros Hc. unfold replaceWord. apply replaceWordFrom_chunks; [exact Hc|discriminate].
Qed.

End ReplaceWord.

(** ** The substitution keeps the cut *)

Lemma replaceChunk_symbol (L : string) (rc : list Chunk) (c : ascii) :
  replaceChunk L rc (CSym c) = [CSym c].
Proof. reflexivity. Qed.

Lemma canonical_noWords_app (rc cs : list Chunk) :
  noWords rc = true -> canonical cs = true -> canonical (rc ++ cs) = true.
Proof.
  induction rc as [|[w|c] rc IH]; simpl; intros Hr Hc; [exact Hc|discriminate|].
  apply andb_true_iff in Hr. destruct Hr as [Hn Hr]. rewrite Hn. simpl. apply IH; assumption.
Qed.

Lemma noWords_app_start (rc cs : list Chunk) :
  noWords rc = true -> startsWithWord cs = false -> startsWithWord (rc ++ cs) = false.
Proof. destruct rc as [|[w|c] rc]; simpl; intros Hr Hc; [exact Hc|discriminate|reflexivity]. Qed.

Lemma startsWithWord_flat_map (L : string) (rc cs : list Chunk) :
  startsWithWord cs = false ->
  startsWithWord (flat_map (replaceChunk L rc) cs) = false.
Proof. destruct cs as [|[w|c] cs]; simpl; intros H; [reflexivity|discriminate|reflexivity]. Qed.

Lemma canonical_flat_map (L : string) (rc cs : list Chunk) :
  simpleReplacement rc -> canonical cs = true ->
  canonical (flat_map (replaceChunk L rc) cs) = true.
Proof.
  intros Hrc. induction cs as [|[w|c] cs IH]; intros Hc; [reflexivity| |].
  - simpl in Hc. apply andb_true_iff in Hc. destruct Hc as [Hc Hcs].
    apply andb_true_iff in Hc. destruct Hc as [Hw Hn]. apply negb_true_iff in Hn.
    pose proof (startsWithWord_flat_map L rc cs Hn) as Hn'.
    simpl flat_map. unfold replaceChunk at 1. simpl chunk_eqb.
    destruct (w =? L)%string.
    + destruct Hrc as [(w' & -> & Hw')|Hnw].
      * simpl. rewrite Hw', Hn'. simpl. apply IH. exact Hcs.
      * apply canonical_noWords_app; [exact Hnw|apply IH; exact Hcs].
    + simpl. rewrite Hw, Hn'. simpl. apply IH. exact Hcs.
  - simpl in Hc. apply andb_true_iff in Hc. destruct Hc as [Hc Hcs].
    simpl. rewrite Hc. simpl. apply IH. exact Hcs.
Qed.

Lemma isWordChar_upper (c : ascii) : isWordChar (upperChar c) = isWordChar c.
Proof. destruct c as [[] [] [] [] [] [] [] []]; reflexivity. Qed.

Lemma wordlike_upper (w : string) : wordlike w = true -> wordlike (toUpperCase w) = true.
Proof.
  unfold wordlike. destruct w as [|c w]; simpl; [discriminate|].
  intros H. apply andb_true_iff in H. destruct H as [Hc Hw].
  rewrite isWordChar_upper, Hc. simpl.
  induction w as [|a w IH]; simpl in *; [reflexivity|].
  apply andb_true_iff in Hw. destruct Hw as [Ha Hw].
  rewrite isWordChar_upper, Ha. simpl. apply IH. exact Hw.
Qed.

Lemma wordlike_resultText (fr : JsObject bool) (l : string) : wordlike (resultText fr l) = true.
Proof. unfold resultText. destruct (match objGet l fr with Some b => b | None => false end); reflexivity. Qed.

Lemma insertByLength_permutation (x : string) (l : list string) :
  Permutation (insertByLength x l) (x :: l).
Proof.
  induction l as [|y l IH]; simpl; [apply Permutation_refl|].
  destruct (String.length y <=? String.length x)%nat; [apply Permutation_refl|].
  eapply perm_trans; [apply perm_skip; exact IH|apply perm_swap].
Qed.

Lemma sortByLengthDesc_permutation (l : list string) : Permutation (sortByLengthDesc l) l.
Proof.
  induction l as [|x l IH]; simpl; [apply Permutation_refl|].
  eapply perm_trans; [apply insertByLength_permutation|apply perm_skip; exact IH].
Qed.

(** The labels in the order of the substitution are the declared labels. *)
Lemma sorted_labels_permutation (fr : JsObject bool) :
  Permutation (sortByLengthDesc (objKeys fr)) (map fst fr).
Proof.
  eapply perm_trans; [apply sortByLengthDesc_permutation|].
  unfold objKeys. apply Permutation_map. apply objEntries_permutation.
Qed.

Lemma label_stages_chunks (fr : JsObject bool) (ls : list string) (cs : list Chunk) :
  Forall (fun l => wordlike l = true) ls ->
  canonical cs = true ->
  fold_left (fun acc l => replaceWord (toUpperCase l) (resultText fr l) acc) ls (render cs)
  = render (fold_left (labelStage fr) ls cs)
  /\ canonical (fold_left (labelStage fr) ls cs) = true.
Proof.
  intros Hls. revert cs. induction Hls as [|l ls Hl _ IH]; intros cs Hc; simpl.
  - split; [reflexivity|exact Hc].
  - rewrite (replaceWord_chunks (toUpperCase l) (resultText fr l) (wordlike_upper l Hl)
               [CWord (resultText fr l)]) by (simpl; try apply append_nil_r; exact Hc).
    apply IH. apply canonical_flat_map; [|exact Hc].
    left. eexists. split; [reflexivity|apply wordlike_resultText].
Qed.

Lemma keyword_stages_chunks (cs : list Chunk) :
  canonical cs = true ->
  replaceWord "NOT" "!" (replaceWord "OR" "||" (replaceWord "AND" "&&" (render cs)))
  = render (keywordStages cs)
  /\ canonical (keywordStages cs) = true.
Proof.
  intros Hc. unfold keywordStages.
  assert (H1 : canonical (flat_map (replaceChunk "AND" [CSym "&"; CSym "&"]) cs) = true).
  { apply canonical_flat_map; [right; reflexivity|exact Hc]. }
  assert (H2 : canonical (flat_map (replaceChunk "OR" [CSym "|"; CSym "|"])
                            (flat_map (replaceChunk "AND" [CSym "&"; CSym "&"]) cs)) = true).
  { apply canonical_flat_map; [right; reflexivity|exact H1]. }
  split.
  - rewrite (replaceWord_chunks "AND" "&&" eq_refl [CSym "&"; CSym "&"] eq_refl cs Hc).
    rewrite (replaceWord_chunks "OR" "||" eq_refl [CSym "|"; CSym "|"] eq_refl _ H1).
    rewrite (replaceWord_chunks "NOT" "!" eq_refl [CSym "!"] eq_refl _ H2).
    reflexivity.
  - apply canonical_flat_map; [right; reflexivity|exact H2].
Qed.

Lemma wordlike_labels_sorted (fr : JsObject bool) :
  declaredLabels fr ->
  Forall (fun l => wordlike l = true) (sortByLengthDesc (objKeys fr)).
Proof.
  intros [H _].
  eapply Permutation_Forall; [apply Permutation_sym; apply sorted_labels_permutation|].
  eapply Forall_impl; [|exact H]. intros l [Hl _]. exact Hl.
Qed.

(** The text handed to the host is the substitution done chunk by chunk
    on the cut of the upper-cased expression. *)
Lemma substitute_chunks (e : string) (fr : JsObject bool) :
  declaredLabels fr ->
  substitute e fr = render (substituteChunks fr (chunks (toUpperCase e)))
  /\ canonical (substituteChunks fr (chunks (toUpperCase e))) = true.
Proof.
  intros Hd. unfold substitute, substituteChunks.
  rewrite <- (render_chunks (toUpperCase e)) at 1.
  destruct (label_stages_chunks fr _ (chunks (toUpperCase e)) (wordlike_labels_sorted fr Hd)
              (canonical_chunks _)) as [E Hc].
  rewrite E. apply keyword_stages_chunks. exact Hc.
Qed.

(** ** What the substitution does to each chunk *)

Lemma labelStage_app (fr : JsObject bool) (a b : list Chunk) (l : string) :
  labelStage fr (a ++ b)%list l = (labelStage fr a l ++ labelStage fr b l)%list.
Proof. unfold labelStage. apply flat_map_app. Qed.

Lemma label_stages_app (fr : JsObject bool) (ls : list string) (a b : list Chunk) :
  fold_left (labelStage fr) ls (a ++ b)%list
  = (fold_left (labelStage fr) ls a ++ fold_left (labelStage fr) ls b)%list.
Proof.
  revert a b. induction ls as [|l ls IH]; intros a b; simpl; [reflexivity|].
  rewrite labelStage_app. apply IH.
Qed.

Lemma keywordStages_app (a b : list Chunk) :
  keywordStages (a ++ b)%list = (keywordStages a ++ keywordStages b)%list.
Proof. unfold keywordStages. rewrite !flat_map_app. reflexivity. Qed.

Lemma substituteChunks_cons (fr : JsObject bool) (ch : Chunk) (cs : list Chunk) :
  substituteChunks fr (ch :: cs) = (substituteChunks fr [ch] ++ substituteChunks fr cs)%list.
Proof.
  unfold substituteChunks. change (ch :: cs) with ([ch] ++ cs)%list.
  rewrite label_stages_app. apply keywordStages_app.
Qed.

Lemma substituteChunks_nil (fr : JsObject bool) : substituteChunks fr [] = [].
Proof.
  unfold substituteChunks.
  assert (E : forall ls, fold_left (labelStage fr) ls [] = []).
  { induction ls as [|l ls IH]; simpl; [reflexivity|exact IH]. }
  rewrite E. reflexivity.
Qed.

Lemma label_stages_symbol (fr : JsObject bool) (ls : list string) (c : ascii) :
  fold_left (labelStage fr) ls [CSym c] = [CSym c].
Proof. induction ls as [|l ls IH]; simpl; [reflexivity|exact IH]. Qed.

Lemma label_stages_other_word (fr : JsObject bool) (ls : list string) (W : string) :
  Forall (fun l => toUpperCase l <> W) ls ->
  fold_left (labelStage fr) ls [CWord W] = [CWord W].
Proof.
  induction 1 as [|l ls Hl _ IH]; simpl; [reflexivity|].
  unfold replaceChunk. simpl chunk_eqb.
  destruct (String.eqb_spec W (toUpperCase l)) as [E|_]; [symmetry in E; contradiction|].
  exact IH.
Qed.

Lemma upperChar_not_lower (c : ascii) :
  upperChar c <> "t"%char /\ upperChar c <> "f"%char.
Proof. destruct c as [[] [] [] [] [] [] [] []]; split; vm_compute; discriminate. Qed.

Lemma toUpperCase_not_boolText (l : string) (b : bool) : toUpperCase l <> boolText b.
Proof.
  destruct l as [|c l]; [destruct b; discriminate|].
  destruct (upperChar_not_lower c) as [Ht Hf].
  destruct b; simpl; intros H; injection H as H _; contradiction.
Qed.

Lemma label_stages_label (fr : JsObject bool) (ls : list string) (l : string) :
  NoDup (map toUpperCase ls) -> In l ls ->
  fold_left (labelStage fr) ls [CWord (toUpperCase l)] = [CWord (resultText fr l)].
Proof.
  induction ls as [|l' ls IH]; intros Hnd Hin; [contradiction|].
  simpl in Hnd. inversion Hnd as [|x xs Hx Hxs]; subst.
  simpl. unfold replaceChunk. simpl chunk_eqb.
  destruct (String.eqb_spec (toUpperCase l) (toUpperCase l')) as [E|Hne].
  - assert (l = l') as <-.
    { destruct Hin as [<-|Hin]; [reflexivity|].
      exfalso. apply Hx. rewrite <- E. apply in_map. exact Hin. }
    apply label_stages_other_word.
    apply Forall_forall. intros x _. apply toUpperCase_not_boolText.
  - destruct Hin as [->|Hin]; [contradiction|]. apply IH; assumption.
Qed.

Lemma keywordStages_result (b : bool) :
  keywordStages [CWord (boolText b)] = [CWord (boolText b)].
Proof. destruct b; reflexivity. Qed.

Lemma not_keyword_sorted (fr : JsObject bool) (W : string) :
  declaredLabels fr -> isKeyword W = true ->
  Forall (fun l => toUpperCase l <> W) (sortByLengthDesc (objKeys fr)).
Proof.
  intros [H _] HW.
  eapply Permutation_Forall; [apply Permutation_sym; apply sorted_labels_permutation|].
  eapply Forall_impl; [|exact H]. intros l [_ Hk] E. rewrite E in Hk. congruence.
Qed.

(** A chunk of the token set becomes the host's text for its token. *)
Lemma substituteChunks_token (fr : JsObject bool) (ch : Chunk) (t : option Token) :
  declaredLabels fr ->
  tokenOfChunk (map fst fr) ch = Some t ->
  substituteChunks fr [ch] = hostChunks fr t.
Proof.
  intros Hd Ht. unfold substituteChunks. destruct ch as [w|c]; simpl in Ht.
  - destruct (String.eqb_spec w "AND") as [->|_].
    { injection Ht as <-.
      rewrite (label_stages_other_word fr _ "AND" (not_keyword_sorted fr "AND" Hd eq_refl)).
      reflexivity. }
    destruct (String.eqb_spec w "OR") as [->|_].
    { injection Ht as <-.
      rewrite (label_stages_other_word fr _ "OR" (not_keyword_sorted fr "OR" Hd eq_refl)).
      reflexivity. }
    destruct (String.eqb_spec w "NOT") as [->|_].
    { injection Ht as <-.
      rewrite (label_stages_other_word fr _ "NOT" (not_keyword_sorted fr "NOT" Hd eq_refl)).
      reflexivity. }
    destruct (find (fun l => (toUpperCase l =? w)%string) (map fst fr)) as [l|] eqn:F;
      [|discriminate].
    injection Ht as <-.
    apply find_some in F. destruct F as [Hin E]. apply String.eqb_eq in E. subst w.
    rewrite (label_stages_label fr _ l).
    + apply keywordStages_result.
    + destruct Hd as [_ Hnd].
      eapply Permutation_NoDup; [|exact Hnd].
      apply Permutation_map. apply Permutation_sym. apply sorted_labels_permutation.
    + eapply Permutation_in; [apply Permutation_sym; apply sorted_labels_permutation|exact Hin].
  - rewrite label_stages_symbol.
    destruct (Ascii.eqb_spec c " ") as [->|_]; [injection Ht as <-; reflexivity|].
    destruct (Ascii.eqb_spec c "(") as [->|_]; [injection Ht as <-; reflexivity|].
    destruct (Ascii.eqb_spec c ")") as [->|_]; [injection Ht as <-; reflexivity|].
    discriminate.
Qed.

(** ** The host's tokens of the substituted text *)

Lemma jsTokenize_letters (word w rest : string) :
  allChars isLetter w = true ->
  jsTokenize word (w ++ rest) = jsTokenize (word ++ w) rest.
Proof.
  revert word. induction w as [|c w IH]; intros word H; simpl.
  - rewrite append_nil_r. reflexivity.
  - simpl in H. apply andb_true_iff in H. destruct H as [Hc Hw].
    rewrite Hc. rewrite (IH _ Hw). rewrite append_assoc. reflexivity.
Qed.

Lemma jsTokenize_chunks (fr : JsObject bool) (cs : list Chunk) :
  declaredLabels fr ->
  forall (ts : list Token) (word : string),
    canonical cs = true ->
    tokensOfChunks (map fst fr) cs = Some ts ->
    (word <> "" -> startsWithWord cs = false) ->
    jsTokenize word (render (substituteChunks fr cs))
    = Some (flushWord word (map (hostToken fr) ts)).
Proof.
  intros Hd. induction cs as [|ch cs IH]; intros ts word Hc Ht Hw.
  - simpl in Ht. injection Ht as <-. rewrite substituteChunks_nil. reflexivity.
  - simpl in Ht.
    destruct (tokenOfChunk (map fst fr) ch) as [t|] eqn:Et; [|discriminate].
    destruct (tokensOfChunks (map fst fr) cs) as [ts'|] eqn:Ets;
      [|destruct t; discriminate].
    rewrite substituteChunks_cons, render_app.
    rewrite (substituteChunks_token fr ch t Hd Et).
    assert (Hcs : canonical cs = true).
    { destruct ch; simpl in Hc; apply andb_true_iff in Hc; tauto. }
    destruct ch as [w|c].
    + assert (Hn : startsWithWord cs = false).
      { simpl in Hc. apply andb_true_iff in Hc. destruct Hc as [Hc _].
        apply andb_true_iff in Hc. destruct Hc as [_ Hc]. apply negb_true_iff in Hc. exact Hc. }
      assert (word = "") as ->.
      { destruct (String.eqb_spec word "") as [E|E]; [exact E|].
        specialize (Hw E). discriminate. }
      destruct t as [[l| | | | | ]|]; injection Ht as <-.
      * (* a label: the word true or false, closed by what follows *)
        simpl hostChunks. simpl render at 1. rewrite append_nil_r.
        rewrite (jsTokenize_letters "" (boolText (labelValue fr l)))
          by (destruct (labelValue fr l); reflexivity).
        simpl append.
        rewrite (IH ts' (boolText (labelValue fr l)) Hcs eq_refl (fun _ => Hn)).
        change (map (hostToken fr) (TkLabel l :: ts'))
          with (TWord (boolText (labelValue fr l)) :: map (hostToken fr) ts').
        destruct (labelValue fr l); reflexivity.
      * simpl. rewrite (IH ts' "" Hcs eq_refl) by (intros E; contradiction). reflexivity.
      * simpl. rewrite (IH ts' "" Hcs eq_refl) by (intros E; contradiction). reflexivity.
      * simpl. rewrite (IH ts' "" Hcs eq_refl) by (intros E; contradiction). reflexivity.
      * simpl in Et. repeat (destruct (_ =? _)%string in Et; [discriminate|]).
        destruct (find _ _) in Et; discriminate.
      * simpl in Et. repeat (destruct (_ =? _)%string in Et; [discriminate|]).
        destruct (find _ _) in Et; discriminate.
      * simpl in Et. repeat (destruct (_ =? _)%string in Et; [discriminate|]).
        destruct (find _ _) in Et; discriminate.
    + simpl in Et.
      destruct (Ascii.eqb_spec c " ") as [->|_].
      { injection Et as <-. injection Ht as <-. simpl.
        rewrite (IH ts' "" Hcs eq_refl) by (intros E; contradiction). reflexivity. }
      destruct (Ascii.eqb_spec c "(") as [->|_].
      { injection Et as <-. injection Ht as <-. simpl.
        rewrite (IH ts' "" Hcs eq_refl) by (intros E; contradiction). reflexivity. }
      destruct (Ascii.eqb_spec c ")") as [->|_].
      { injection Et as <-. injection Ht as <-. simpl.
        rewrite (IH ts' "" Hcs eq_refl) by (intros E; contradiction). reflexivity. }
      discriminate.
Qed.

(** ** The whitelist lets the substituted text through *)

Lemma allChars_app (p : ascii -> bool) (a b : string) :
  allChars p (a ++ b) = allChars p a && allChars p b.
Proof.
  induction a as [|c a IH]; simpl; [reflexivity|].
  rewrite IH. apply andb_assoc.
Qed.

Lemma hostChunks_allowed (fr : JsObject bool) (t : option Token) :
  allChars isAllowedChar (render (hostChunks fr t)) = true
  /\ render (hostChunks fr t) <> "".
Proof.
  destruct t as [[l| | | | | ]|]; simpl;
    try (split; [reflexivity|discriminate]).
  destruct (labelValue fr l); split; (reflexivity || discriminate).
Qed.

Lemma substituted_text_allowed (fr : JsObject bool) (cs : list Chunk) (ts : list Token) :
  declaredLabels fr ->
  tokensOfChunks (map fst fr) cs = Some ts ->
  allChars isAllowedChar (render (substituteChunks fr cs)) = true
  /\ (cs <> [] -> render (substituteChunks fr cs) <> "").
Proof.
  intros Hd. revert ts. induction cs as [|ch cs IH]; intros ts Ht.
  - rewrite substituteChunks_nil. split; [reflexivity|intros H; contradiction].
  - simpl in Ht.
    destruct (tokenOfChunk (map fst fr) ch) as [t|] eqn:Et; [|discriminate].
    destruct (tokensOfChunks (map fst fr) cs) as [ts'|] eqn:Ets;
      [|destruct t; discriminate].
    rewrite substituteChunks_cons, render_app.
    rewrite (substituteChunks_token fr ch t Hd Et).
    destruct (hostChunks_allowed fr t) as [Ha Hne].
    destruct (IH ts' eq_refl) as [IHa _].
    split.
    + rewrite allChars_app, Ha, IHa. reflexivity.
    + intros _ E. destruct (render (hostChunks fr t)); [contradiction|discriminate].
Qed.

(** ** The host parses the grammar *)

Lemma parseCalls_done (n : nat) (e : JsExpr) (rest : list JsToken) :
  follows [TRParen; TAmpAmp; TBarBar] rest ->
  parseCalls (S n) e rest = Some (e, rest).
Proof.
  destruct rest as [|t rest]; [reflexivity|].
  simpl. intros [<-|[<-|[<-|[]]]]; reflexivity.
Qed.

Lemma parseRest_done (n : nat) (l : Level) (e : JsExpr) (rest : list JsToken) :
  (forall t r, rest = t :: r -> isOperator l t = false) ->
  parseRest (S n) l e rest = Some (e, rest).
Proof.
  destruct rest as [|t rest]; [reflexivity|].
  intros H. simpl. rewrite (H t rest eq_refl). reflexivity.
Qed.

(** A unary expression is an operand of [&&]: the levels of [|] and [&]
    between them pass it on. *)
Lemma unary_is_operand (n : nat) (ts rest : list JsToken) (e : JsExpr) :
  parseLevel (S n) None ts = Some (e, rest) ->
  follows [TRParen; TAmpAmp; TBarBar] rest ->
  parseLevel (S (S (S n))) (Some BOr) ts = Some (e, rest).
Proof.
  intros H Hf.
  change (parseLevel (S (S (S n))) (Some BOr) ts)
    with (match parseLevel (S (S n)) (Some BAnd) ts with
          | Some (e, r) => parseRest (S (S n)) BOr e r
          | None => None
          end).
  change (parseLevel (S (S n)) (Some BAnd) ts)
    with (match parseLevel (S n) None ts with
          | Some (e, r) => parseRest (S n) BAnd e r
          | None => None
          end).
  rewrite H.
  rewrite parseRest_done.
  - apply parseRest_done. intros t r ->. simpl in Hf.
    destruct Hf as [<-|[<-|[<-|[]]]]; reflexivity.
  - intros t r ->. simpl in Hf.
    destruct Hf as [<-|[<-|[<-|[]]]]; reflexivity.
Qed.

Lemma and_tail_head (fr : JsObject bool) (acc : Ast) (ts : list Token) (b : Ast)
    (rest : list JsToken) :
  derives (KAndTail acc) ts b ->
  follows [TRParen; TBarBar] rest ->
  follows [TRParen; TAmpAmp; TBarBar] (map (hostToken fr) ts ++ rest).
Proof.
  intros D Hf. inversion D; subst.
  - simpl. destruct rest as [|t r]; [exact I|]. simpl in *. tauto.
  - simpl. right. left. reflexivity.
Qed.

Lemma or_tail_head (fr : JsObject bool) (acc : Ast) (ts : list Token) (b : Ast)
    (rest : list JsToken) :
  derives (KOrTail acc) ts b ->
  follows [TRParen] rest ->
  follows [TRParen; TBarBar] (map (hostToken fr) ts ++ rest).
Proof.
  intros D Hf. inversion D; subst.
  - simpl. destruct rest as [|t r]; [exact I|]. simpl in *. tauto.
  - simpl. right. left. reflexivity.
Qed.

Lemma derives_nonempty (k : Kind) (ts : list Token) (a : Ast) :
  derives k ts a ->
  match k with
  | KUnary | KAnd | KOr => (1 <= List.length ts)%nat
  | _ => True
  end.
Proof.
  induction 1; simpl in *; try rewrite length_app; try lia; exact I.
Qed.

Lemma derives_hostParses (fr : JsObject bool) (k : Kind) (ts : list Token) (a : Ast) :
  derives k ts a -> hostParses fr k ts a.
Proof.
  induction 1 as [l|ts a D IH|ts a D IH|ts1 ts2 a b D1 IH1 D2 IH2|acc
                  |acc ts1 ts2 a b D1 IH1 D2 IH2|ts1 ts2 a b D1 IH1 D2 IH2|acc
                  |acc ts1 ts2 a b D1 IH1 D2 IH2]; simpl in *.
  - (* label *)
    intros rest n Hf Hn. destruct n as [|[|n]]; [lia|lia|].
    change (parseCalls (S n) (EId (boolText (labelValue fr l))) rest
            = Some (EId (boolText (labelValue fr l)), rest)).
    apply parseCalls_done. exact Hf.
  - (* NOT *)
    intros rest n Hf Hn. destruct n as [|n]; [lia|].
    change (match parseLevel n None (map (hostToken fr) ts ++ rest) with
            | Some (e, r') => Some (ENot e, r')
            | None => None
            end = Some (ENot (hostExpr fr a), rest)).
    rewrite (IH rest n Hf) by lia. reflexivity.
  - (* parentheses *)
    intros rest n Hf Hn. rewrite length_app in Hn. simpl in Hn.
    destruct n as [|[|n]]; [lia|lia|].
    rewrite map_app. simpl map. rewrite <- app_assoc. simpl app.
    change (match parseLevel (S n) (Some LOr) (map (hostToken fr) ts ++ TRParen :: rest) with
            | Some (e, TRParen :: r') => parseCalls (S n) e r'
            | _ => None
            end = Some (hostExpr fr a, rest)).
    rewrite (IH (TRParen :: rest) (S n)) by (simpl; try lia; left; reflexivity).
    apply parseCalls_done. exact Hf.
  - (* AND level *)
    intros rest n Hf Hn. rewrite length_app in Hn.
    pose proof (derives_nonempty _ _ _ D1) as Hlen. simpl in Hlen.
    destruct n as [|[|[|[|n]]]]; try lia.
    rewrite map_app, <- app_assoc.
    change (match parseLevel (S (S (S n))) (Some BOr)
                    (map (hostToken fr) ts1 ++ map (hostToken fr) ts2 ++ rest) with
            | Some (e, r) => parseRest (S (S (S n))) LAnd e r
            | None => None
            end = Some (hostExpr fr b, rest)).
    rewrite (unary_is_operand n _ (map (hostToken fr) ts2 ++ rest)%list (hostExpr fr a)).
    + apply IH2; [exact Hf|lia].
    + apply IH1; [apply (and_tail_head fr a ts2 b rest D2 Hf)|lia].
    + apply (and_tail_head fr a ts2 b rest D2 Hf).
  - (* no more AND *)
    intros rest n Hf Hn. destruct n as [|n]; [lia|].
    apply parseRest_done. intros t r ->. simpl in Hf.
    destruct Hf as [<-|[<-|[]]]; reflexivity.
  - (* one more AND *)
    intros rest n Hf Hn. rewrite length_app in Hn.
    pose proof (derives_nonempty _ _ _ D1) as Hlen. simpl in Hlen.
    destruct n as [|[|[|[|n]]]]; try lia.
    rewrite map_app, <- app_assoc.
    change (match parseLevel (S (S (S n))) (Some BOr)
                    (map (hostToken fr) ts1 ++ map (hostToken fr) ts2 ++ rest) with
            | Some (e, r') =>
                parseRest (S (S (S n))) LAnd (ELogicalAnd (hostExpr fr acc) e) r'
            | None => None
            end = Some (hostExpr fr b, rest)).
    rewrite (unary_is_operand n _ (map (hostToken fr) ts2 ++ rest)%list (hostExpr fr a)).
    + apply IH2; [exact Hf|lia].
    + apply IH1; [apply (and_tail_head fr _ ts2 b rest D2 Hf)|lia].
    + apply (and_tail_head fr _ ts2 b rest D2 Hf).
  - (* OR level *)
    intros rest n Hf Hn. rewrite length_app in Hn.
    destruct n as [|n]; [lia|].
    rewrite map_app, <- app_assoc.
    change (match parseLevel n (Some LAnd)
                    (map (hostToken fr) ts1 ++ map (hostToken fr) ts2 ++ rest) with
            | Some (e, r) => parseRest n LOr e r
            | None => None
            end = Some (hostExpr fr b, rest)).
    rewrite (IH1 (map (hostToken fr) ts2 ++ rest)%list n
               (or_tail_head fr a ts2 b rest D2 Hf)) by lia.
    apply IH2; [exact Hf|lia].
  - (* no more OR *)
    intros rest n Hf Hn. destruct n as [|n]; [lia|].
    apply parseRest_done. intros t r ->. simpl in Hf.
    destruct Hf as [<-|[]]; reflexivity.
  - (* one more OR *)
    intros rest n Hf Hn. rewrite length_app in Hn.
    destruct n as [|n]; [lia|].
    rewrite map_app, <- app_assoc.
    change (match parseLevel n (Some LAnd)
                    (map (hostToken fr) ts1 ++ map (hostToken fr) ts2 ++ rest) with
            | Some (e, r') => parseRest n LOr (ELogicalOr (hostExpr fr acc) e) r'
            | None => None
            end = Some (hostExpr fr b, rest)).
    rewrite (IH1 (map (hostToken fr) ts2 ++ rest)%list n
               (or_tail_head fr _ ts2 b rest D2 Hf)) by lia.
    apply IH2; [exact Hf|lia].
Qed.

(** ** The parser of the specification's grammar *)

Lemma parseKind_step (n : nat) (k : Kind) (ts : list Token) :
  parseKind (S n) k ts
  = match k with
    | KUnary =>
        match ts with
        | TkLabel l :: r => Some (ALabel l, r)
        | TkNot :: r =>
            match parseKind n KUnary r with
            | Some (a, r') => Some (ANot a, r')
            | None => None
            end
        | TkOpen :: r =>
            match parseKind n KOr r with
            | Some (a, TkClose :: r') => Some (a, r')
            | _ => None
            end
        | _ => None
        end
    | KAnd =>
        match parseKind n KUnary ts with
        | Some (a, r) => parseKind n (KAndTail a) r
        | None => None
        end
    | KOr =>
        match parseKind n KAnd ts with
        | Some (a, r) => parseKind n (KOrTail a) r
        | None => None
        end
    | KAndTail acc =>
        match ts with
        | TkAnd :: r =>
            match parseKind n KUnary r with
            | Some (a, r') => parseKind n (KAndTail (AAnd acc a)) r'
            | None => None
            end
        | _ => Some (acc, ts)
        end
    | KOrTail acc =>
        match ts with
        | TkOr :: r =>
            match parseKind n KAnd r with
            | Some (a, r') => parseKind n (KOrTail (AOr acc a)) r'
            | None => None
            end
        | _ => Some (acc, ts)
        end
    end.
Proof. reflexivity. Qed.

(** What the parser reads is a derivation. *)
Lemma parseKind_sound (n : nat) :
  forall k ts a rest,
    parseKind n k ts = Some (a, rest) ->
    exists pre, ts = (pre ++ rest)%list /\ derives k pre a.
Proof.
  induction n as [|n IH]; intros k ts a rest H; [discriminate|].
  rewrite parseKind_step in H. destruct k as [| | |acc|acc].
  - destruct ts as [|[l| | | | | ] ts]; try discriminate.
    + injection H as <- <-. exists [TkLabel l]. split; [reflexivity|constructor].
    + destruct (parseKind n KUnary ts) as [[a1 r1]|] eqn:E; [|discriminate].
      injection H as <- <-. destruct (IH _ _ _ _ E) as (pre & -> & D).
      exists (TkNot :: pre). split; [reflexivity|constructor; exact D].
    + destruct (parseKind n KOr ts) as [[a1 [|[l| | | | | ] r1]]|] eqn:E; try discriminate.
      injection H as <- <-. destruct (IH _ _ _ _ E) as (pre & -> & D).
      exists (TkOpen :: pre ++ [TkClose])%list. split.
      * simpl. rewrite <- app_assoc. reflexivity.
      * constructor. exact D.
  - destruct (parseKind n KUnary ts) as [[a1 r1]|] eqn:E; [|discriminate].
    destruct (IH _ _ _ _ E) as (pre1 & -> & D1).
    destruct (IH _ _ _ _ H) as (pre2 & -> & D2).
    exists (pre1 ++ pre2)%list. split; [apply app_assoc|].
    apply (d_and pre1 pre2 a1 a D1 D2).
  - destruct (parseKind n KAnd ts) as [[a1 r1]|] eqn:E; [|discriminate].
    destruct (IH _ _ _ _ E) as (pre1 & -> & D1).
    destruct (IH _ _ _ _ H) as (pre2 & -> & D2).
    exists (pre1 ++ pre2)%list. split; [apply app_assoc|].
    apply (d_or pre1 pre2 a1 a D1 D2).
  - destruct ts as [|t ts].
    { injection H as <- <-. exists []. split; [reflexivity|constructor]. }
    destruct t; try (injection H as <- <-; exists []; split; [reflexivity|constructor]).
    destruct (parseKind n KUnary ts) as [[a1 r1]|] eqn:E; [|discriminate].
    destruct (IH _ _ _ _ E) as (pre1 & -> & D1).
    destruct (IH _ _ _ _ H) as (pre2 & -> & D2).
    exists (TkAnd :: pre1 ++ pre2)%list. split; [simpl; rewrite app_assoc; reflexivity|].
    apply (d_and_more acc pre1 pre2 a1 a D1 D2).
  - destruct ts as [|t ts].
    { injection H as <- <-. exists []. split; [reflexivity|constructor]. }
    destruct t; try (injection H as <- <-; exists []; split; [reflexivity|constructor]).
    destruct (parseKind n KAnd ts) as [[a1 r1]|] eqn:E; [|discriminate].
    destruct (IH _ _ _ _ E) as (pre1 & -> & D1).
    destruct (IH _ _ _ _ H) as (pre2 & -> & D2).
    exists (TkOr :: pre1 ++ pre2)%list. split; [simpl; rewrite app_assoc; reflexivity|].
    apply (d_or_more acc pre1 pre2 a1 a D1 D2).
Qed.

(** The parser reads every derivation, given calls enough and a
    following token at which it stops. *)
Lemma parseKind_complete (k : Kind) (ts : list Token) (a : Ast) :
  derives k ts a ->
  forall rest n, stopsAt k rest -> (kindFuel k ts <= n)%nat ->
    parseKind n k (ts ++ rest) = Some (a, rest).
Proof.
  induction 1 as [l|ts a D IH|ts a D IH|ts1 ts2 a b D1 IH1 D2 IH2|acc
                  |acc ts1 ts2 a b D1 IH1 D2 IH2|ts1 ts2 a b D1 IH1 D2 IH2|acc
                  |acc ts1 ts2 a b D1 IH1 D2 IH2];
    intros rest n Hs Hn; unfold kindFuel in *.
  - destruct n as [|n]; [simpl in Hn; lia|]. reflexivity.
  - simpl List.length in Hn. destruct n as [|n]; [lia|].
    rewrite parseKind_step. cbn [app].
    rewrite (IH rest n I) by lia. reflexivity.
  - simpl List.length in Hn. rewrite length_app in Hn. simpl List.length in Hn.
    destruct n as [|n]; [lia|].
    rewrite parseKind_step. cbn [app]. rewrite <- app_assoc. cbn [app].
    rewrite (IH (TkClose :: rest) n) by (simpl; try lia; split; discriminate).
    reflexivity.
  - rewrite length_app in Hn. destruct n as [|n]; [lia|].
    pose proof (derives_nonempty _ _ _ D1) as Hl. simpl in Hl.
    rewrite parseKind_step, <- app_assoc.
    rewrite (IH1 (ts2 ++ rest)%list n I) by lia.
    apply IH2; [exact Hs|lia].
  - destruct n as [|n]; [lia|]. rewrite parseKind_step. cbn [app].
    destruct rest as [|t rest]; [reflexivity|]. simpl in Hs.
    destruct t; try reflexivity. contradiction.
  - simpl List.length in Hn. rewrite length_app in Hn. destruct n as [|n]; [lia|].
    rewrite parseKind_step. cbn [app]. rewrite <- app_assoc.
    rewrite (IH1 (ts2 ++ rest)%list n I) by lia.
    apply IH2; [exact Hs|lia].
  - rewrite length_app in Hn. destruct n as [|n]; [lia|].
    pose proof (derives_nonempty _ _ _ D1) as Hl. simpl in Hl.
    assert (Hs1 : stopsAt KAnd (ts2 ++ rest)%list).
    { inversion D2; subst; simpl; [|discriminate].
      destruct rest as [|t r]; simpl in *; [exact I|tauto]. }
    rewrite parseKind_step, <- app_assoc.
    rewrite (IH1 (ts2 ++ rest)%list n Hs1) by lia.
    apply IH2; [exact Hs|lia].
  - destruct n as [|n]; [lia|]. rewrite parseKind_step. cbn [app].
    destruct rest as [|t rest]; [reflexivity|]. simpl in Hs.
    destruct t; try reflexivity. destruct Hs as [_ Hs]. contradiction.
  - simpl List.length in Hn. rewrite length_app in Hn. destruct n as [|n]; [lia|].
    assert (Hs1 : stopsAt KAnd (ts2 ++ rest)%list).
    { inversion D2; subst; simpl; [|discriminate].
      destruct rest as [|t r]; simpl in *; [exact I|tauto]. }
    rewrite parseKind_step. cbn [app]. rewrite <- app_assoc.
    rewrite (IH1 (ts2 ++ rest)%list n Hs1) by lia.
    apply IH2; [exact Hs|lia].
Qed.

(** The evaluator of the specification yields a boolean exactly for the
    texts that tokenize and derive an expression, and then its
    reduction. *)
Lemma properEvaluate_derives (e : string) (fr : JsObject bool) (b : bool) :
  properEvaluate e fr = Some b
  <-> exists ts a,
        tokenize (map fst fr) e = Some ts /\ derives KOr ts a /\ reduce fr a = b.
Proof.
  unfold properEvaluate. split.
  - destruct (tokenize (map fst fr) e) as [ts|]; [|discriminate].
    destruct (parseKind (properFuel ts) KOr ts) as [[a [|t r]]|] eqn:E; try discriminate.
    intros H. injection H as <-.
    destruct (parseKind_sound _ _ _ _ _ E) as (pre & Hpre & D).
    rewrite app_nil_r in Hpre. subst pre.
    exists ts, a. repeat split. exact D.
  - intros (ts & a & -> & D & <-).
    pose proof (parseKind_complete KOr ts a D [] (properFuel ts) I) as P.
    rewrite app_nil_r in P. rewrite P; [reflexivity|].
    unfold kindFuel, properFuel. lia.
Qed.

(** ** The host evaluates the expression as the reduction does *)

Lemma jsEval_hostExpr (globals : Globals) (fr : JsObject bool) (a : Ast) :
  jsEval globals (hostExpr fr a) = Normal (JBool (reduce fr a)).
Proof.
  induction a as [l|a IH|a IHa b IHb|a IHa b IHb]; simpl.
  - destruct (labelValue fr l); reflexivity.
  - rewrite IH. reflexivity.
  - rewrite IHa. simpl. destruct (reduce fr a); [exact IHb|reflexivity].
  - rewrite IHa. simpl. destruct (reduce fr a); [reflexivity|exact IHb].
Qed.

Lemma runFunction_tokens (globals : Globals) (fr : JsObject bool) (s : string)
    (ts : list Token) (a : Ast) :
  jsTokenize "" s = Some (map (hostToken fr) ts) ->
  derives KOr ts a ->
  runFunction globals s = Normal (JBool (reduce fr a)).
Proof.
  intros Ht D. unfold runFunction. rewrite Ht.
  assert (D' : derives KOr (((TkOpen :: ts ++ [TkClose]) ++ []) ++ [])%list a).
  { apply (d_or _ [] a a); [|apply d_or_done].
    apply (d_and _ [] a a); [|apply d_and_done].
    apply d_paren. exact D. }
  pose proof (derives_hostParses fr KOr _ a D') as P.
  simpl in P. specialize (P [] (parseFuel (TLParen :: map (hostToken fr) ts ++ [TRParen])) I).
  rewrite !app_nil_r in P. rewrite map_app in P. simpl map in P.
  rewrite P.
  - apply jsEval_hostExpr.
  - unfold parseFuel. simpl List.length. rewrite !length_app, !length_map. simpl. lia.
Qed.

(** On a text that tokenizes and derives an expression of the grammar,
    evaluateCustomLogic yields the reduction of the expression. *)
Lemma custom_logic_on_derivations :
  forall (globals : Globals) (e : string) (fr : JsObject bool) (ts : list Token) (a : Ast),
    declaredLabels fr ->
    tokenize (map fst fr) e = Some ts ->
    derives KOr ts a ->
    evaluateCustomLogic globals e fr = JBool (reduce fr a).
Proof.
  intros globals e fr ts a Hd Ht D. unfold tokenize in Ht.
  destruct (substitute_chunks e fr Hd) as [Es Hc].
  destruct (substituted_text_allowed fr _ ts Hd Ht) as [Ha Hne].
  unfold evaluateCustomLogic. rewrite Es.
  assert (Hcs : chunks (toUpperCase e) <> []).
  { intros E. rewrite E in Ht. simpl in Ht. injection Ht as <-.
    pose proof (derives_nonempty _ _ _ D) as Hl. simpl in Hl. lia. }
  assert (Hw : onlyAllowedChars (render (substituteChunks fr (chunks (toUpperCase e)))) = true).
  { unfold onlyAllowedChars. rewrite Ha, andb_true_r. apply negb_true_iff.
    apply String.eqb_neq. apply Hne. exact Hcs. }
  rewrite Hw. simpl negb. cbv iota.
  rewrite (runFunction_tokens globals fr _ ts a); [reflexivity| |exact D].
  rewrite (jsTokenize_chunks fr _ Hd ts "" (canonical_chunks _) Ht) by (intros E; contradiction).
  reflexivity.
Qed.

(** C1, amended.  For declared labels that are words, distinct without
    regard to case and none of them AND, OR or NOT, and for every
    expression on which the evaluator of the specification succeeds (the
    text reads as tokens of the closed set: labels, AND, OR, NOT,
    parentheses, separated by spaces; it parses by the grammar with NOT
    over AND over OR; it reduces to a boolean), evaluateCustomLogic yields
    that boolean, whatever the host's global bindings. *)
Theorem custom_logic_on_the_grammar :
  forall (globals : Globals) (e : string) (fr : JsObject bool) (b : bool),
    declaredLabels fr ->
    properEvaluate e fr = Some b ->
    evaluateCustomLogic globals e fr = JBool b.
Proof.
  intros globals e fr b Hd H.
  apply properEvaluate_derives in H. destruct H as (ts & a & Ht & D & <-).
  apply (custom_logic_on_derivations globals e fr ts a Hd Ht D).
Qed.

Lemma custom_logic_on_the_grammar_witness :
  evaluateCustomLogic noGlobals "F1 AND NOT F2" oneTrueOneFalse = JBool true.
Proof.
  apply (custom_logic_on_the_grammar noGlobals "F1 AND NOT F2" oneTrueOneFalse true).
  - split.
    + repeat constructor.
    + simpl. repeat constructor; simpl; intuition discriminate.
  - vm_compute. reflexivity.
Defined.

(** C1 as stated fails: the text built from [F1 & F2] is handed to the
    host, whose [&] yields a number, which no reduction over boolean
    literals yields; and the character is not of the closed token set. *)
Lemma custom_logic_runs_host_code :
  evaluateCustomLogic noGlobals "F1 & F2" bothTrue = JNum 1
  /\ tokenize (map fst bothTrue) "F1 & F2" = None
  /\ properEvaluate "F1 & F2" bothTrue = None
  /\ forall b : bool, evaluateCustomLogic noGlobals "F1 & F2" bothTrue <> JBool b.
Proof.
  split; [vm_compute; reflexivity|]. split; [vm_compute; reflexivity|].
  split; [vm_compute; reflexivity|].
  intros b. vm_compute. discriminate.
Qed.

(** More of the host's language comes through: parentheses that do not
    nest, its own operators, and calls. *)
Example custom_logic_outside_the_grammar :
  evaluateCustomLogic noGlobals "F1) AND (F2" oneTrueOneFalse = JBool false
  /\ properEvaluate "F1) AND (F2" oneTrueOneFalse = None
  /\ evaluateCustomLogic noGlobals "F1 && !F2" oneTrueOneFalse = JBool true
  /\ evaluateCustomLogic noGlobals "F1 | F2" oneTrueOneFalse = JNum 1
  /\ substitute "F1 (F2)" oneTrueOneFalse = "true (false)"
  /\ runFunction noGlobals "true (false)" = Throw TypeError.
Proof. vm_compute. repeat split. Qed.

Example custom_logic_spec_examples :
  evaluateCustomLogic noGlobals "F1 AND NOT F2" oneTrueOneFalse = JBool true
  /\ evaluateCustomLogic noGlobals "F1 AND NOT F2" bothTrue = JBool false
  /\ evaluateCustomLogic noGlobals "f1 or (F2 and not f1)" oneTrueOneFalse = JBool true
  /\ properEvaluate "F1 AND NOT F2" oneTrueOneFalse = Some true
  /\ properEvaluate "F1 AND NOT F2" bothTrue = Some false
  /\ properEvaluate "f1 or (F2 and not f1)" oneTrueOneFalse = Some true
  /\ properEvaluate "NOT F2 AND F2 OR F1" oneTrueOneFalse = Some true.
Proof. vm_compute. repeat split. Qed.

(** ** The address parser on the grammar *)

Lemma allDigits_allChars (s : string) :
  allDigits s = allChars (fun c => isSome (digitVal c)) s.
Proof. induction s as [|c s IH]; simpl; [reflexivity|rewrite IH; reflexivity]. Qed.

Lemma digit_facts (c : ascii) :
  isSome (digitVal c) = true ->
  isTokenChar c = true /\ upperChar c = c
  /\ c <> "-"%char /\ c <> "+"%char.
Proof.
  destruct c as [[] [] [] [] [] [] [] []]; vm_compute; intros H; try discriminate H;
    repeat split; discriminate.
Qed.

Lemma tokenChar_upper (c : ascii) : isTokenChar (upperChar c) = isTokenChar c.
Proof. destruct c as [[] [] [] [] [] [] [] []]; reflexivity. Qed.

Lemma allChars_impl (p q : ascii -> bool) (s : string) :
  (forall c, p c = true -> q c = true) -> allChars p s = true -> allChars q s = true.
Proof.
  intros H. induction s as [|c s IH]; simpl; [reflexivity|].
  intros Hs. apply andb_true_iff in Hs. destruct Hs as [Hc Hs].
  rewrite (H c Hc), (IH Hs). reflexivity.
Qed.

Lemma digitString_token (ds : string) : digitString ds = true -> segmentToken ds = true.
Proof.
  unfold digitString, segmentToken. intros H. apply andb_true_iff in H. destruct H as [Hn Hd].
  rewrite Hn. simpl. rewrite allDigits_allChars in Hd.
  apply (allChars_impl _ _ ds (fun c Hc => proj1 (digit_facts c Hc)) Hd).
Qed.

Lemma toUpperCase_digits (ds : string) : allDigits ds = true -> toUpperCase ds = ds.
Proof.
  induction ds as [|c ds IH]; [reflexivity|].
  simpl allDigits. intros H. apply andb_true_iff in H. destruct H as [Hc Hd].
  change (String (upperChar c) (toUpperCase ds) = String c ds).
  destruct (digit_facts c Hc) as (_ & -> & _). rewrite (IH Hd). reflexivity.
Qed.

Lemma segmentToken_upper (s : string) : segmentToken s = true -> segmentToken (toUpperCase s) = true.
Proof.
  unfold segmentToken. destruct s as [|c s]; [discriminate|]. simpl.
  rewrite tokenChar_upper. intros H. apply andb_true_iff in H. destruct H as [Hc Hs].
  rewrite Hc. simpl. induction s as [|a s IH]; simpl in *; [reflexivity|].
  apply andb_true_iff in Hs. destruct Hs as [Ha Hs].
  rewrite tokenChar_upper, Ha. simpl. apply IH. exact Hs.
Qed.

Lemma toUpperCase_app (a b : string) :
  toUpperCase (a ++ b) = (toUpperCase a ++ toUpperCase b)%string.
Proof.
  unfold toUpperCase. induction a as [|c a IH]; simpl; [reflexivity|rewrite IH; reflexivity].
Qed.

(** The dotted text of a list of tokens. *)
Lemma toUpperCase_join (parts : list string) :
  toUpperCase (join "." parts) = join "." (map toUpperCase parts).
Proof.
  induction parts as [|x [|y l] IH]; try reflexivity.
  rewrite join_cons. simpl map. rewrite join_cons.
  rewrite !toUpperCase_app. simpl map in IH. rewrite IH. reflexivity.
Qed.

Lemma allChars_join (p : ascii -> bool) (parts : list string) :
  p "."%char = true ->
  Forall (fun x => allChars p x = true) parts ->
  allChars p (join "." parts) = true.
Proof.
  intros Hdot. induction 1 as [|x l Hx Hl IH]; [reflexivity|].
  destruct l as [|y l]; [exact Hx|].
  rewrite join_cons, !allChars_app, Hx, IH. simpl. rewrite Hdot. reflexivity.
Qed.

Lemma trimStart_nonspace (s : string) :
  allChars (fun c => negb (isSpace c)) s = true -> trimStart s = s.
Proof.
  destruct s as [|c s]; simpl; [reflexivity|].
  intros H. apply andb_true_iff in H. destruct H as [Hc _].
  apply negb_true_iff in Hc. rewrite Hc. reflexivity.
Qed.

Lemma trimEnd_nonspace (s : string) :
  allChars (fun c => negb (isSpace c)) s = true -> trimEnd s = s.
Proof.
  induction s as [|c s IH]; simpl; [reflexivity|].
  intros H. apply andb_true_iff in H. destruct H as [Hc Hs].
  apply negb_true_iff in Hc. rewrite Hc, (IH Hs). reflexivity.
Qed.

Lemma trim_nonspace (s : string) :
  allChars (fun c => negb (isSpace c)) s = true -> trim s = s.
Proof.
  intros H. unfold trim. rewrite (trimStart_nonspace s H). apply trimEnd_nonspace. exact H.
Qed.

Lemma split_token (s : string) :
  allChars isTokenChar s = true -> split "." s = [s].
Proof.
  induction s as [|c s IH]; simpl; [reflexivity|].
  intros H. apply andb_true_iff in H. destruct H as [Hc Hs].
  unfold isTokenChar in Hc. apply andb_true_iff in Hc. destruct Hc as [_ Hc].
  apply negb_true_iff in Hc. rewrite Hc, (IH Hs). reflexivity.
Qed.

Lemma split_token_dot (a b : string) :
  allChars isTokenChar a = true ->
  split "." (a ++ "." ++ b) = a :: split "." b.
Proof.
  induction a as [|c a IH]; simpl; [reflexivity|].
  intros H. apply andb_true_iff in H. destruct H as [Hc Hs].
  unfold isTokenChar in Hc. apply andb_true_iff in Hc. destruct Hc as [_ Hc].
  apply negb_true_iff in Hc. rewrite Hc. simpl in IH. rewrite (IH Hs). reflexivity.
Qed.

(** Splitting the dotted text gives the tokens back. *)
Lemma split_join_tokens (parts : list string) :
  parts <> [] ->
  Forall (fun x => allChars isTokenChar x = true) parts ->
  split "." (join "." parts) = parts.
Proof.
  intros Hne H. induction H as [|x l Hx Hl IH]; [contradiction|].
  destruct l as [|y l]; [apply split_token; exact Hx|].
  rewrite join_cons, (split_token_dot x _ Hx). f_equal. apply IH. discriminate.
Qed.

Lemma parseInt_digits (ds : string) :
  digitString ds = true -> parseInt ds = digitsPrefix None ds.
Proof.
  unfold digitString. destruct ds as [|c ds]; [discriminate|].
  intros H. apply andb_true_iff in H. destruct H as [_ H].
  change (isSome (digitVal c) && allDigits ds = true) in H.
  apply andb_true_iff in H. destruct H as [Hc _].
  destruct (digit_facts c Hc) as (Ht & _ & Hm & Hp).
  unfold isTokenChar in Ht. apply andb_true_iff in Ht. destruct Ht as [Hs _].
  apply negb_true_iff in Hs.
  unfold parseInt. simpl trimStart. rewrite Hs.
  destruct c as [[] [] [] [] [] [] [] []]; try reflexivity; contradiction.
Qed.

Lemma segmentToken_parts (s : string) :
  segmentToken s = true -> s <> "" /\ allChars isTokenChar s = true.
Proof.
  unfold segmentToken. intros H. apply andb_true_iff in H. destruct H as [Hn Ha].
  split; [|exact Ha]. apply negb_true_iff in Hn. apply String.eqb_neq. exact Hn.
Qed.

(** The address parser on a text of the grammar: the parts it reads are
    the tokens of the text, the segment token upper-cased. *)
Lemma parseFieldReference_parts (seg : string) (nums : list string) :
  segmentToken seg = true ->
  Forall (fun ds => digitString ds = true) nums ->
  join "." (seg :: nums) <> ""
  /\ split "." (toUpperCase (trim (join "." (seg :: nums)))) = toUpperCase seg :: nums.
Proof.
  intros Hseg Hnums.
  assert (Htok : Forall (fun x => allChars isTokenChar x = true) (seg :: nums)).
  { constructor; [apply (segmentToken_parts seg Hseg)|].
    eapply Forall_impl; [|exact Hnums].
    intros ds Hd. apply (segmentToken_parts ds (digitString_token ds Hd)). }
  assert (Hns : allChars (fun c => negb (isSpace c)) (join "." (seg :: nums)) = true).
  { apply allChars_join; [reflexivity|].
    eapply Forall_impl; [|exact Htok]. intros x Hx.
    apply (allChars_impl isTokenChar _ x); [|exact Hx].
    intros c Hc. unfold isTokenChar in Hc. apply andb_true_iff in Hc. tauto. }
  split.
  - destruct (segmentToken_parts seg Hseg) as [Hne _].
    destruct seg as [|c seg]; [contradiction|].
    destruct nums; discriminate.
  - rewrite (trim_nonspace _ Hns), toUpperCase_join. simpl map.
    assert (Hmap : map toUpperCase nums = nums).
    { clear Htok Hns. induction Hnums as [|ds l Hd _ IH]; [reflexivity|].
      simpl. rewrite IH. f_equal. apply toUpperCase_digits.
      unfold digitString in Hd. apply andb_true_iff in Hd. tauto. }
    rewrite Hmap. apply split_join_tokens; [discriminate|].
    constructor; [apply (segmentToken_parts _ (segmentToken_upper seg Hseg))|].
    inversion Htok; assumption.
Qed.

(** Every address of the grammar SEGMENT.FIELD[.COMPONENT[.SUBCOMPONENT]]
    is accepted, with the numbers its parts write. *)
Lemma parseFieldReference_accepts_grammar (seg f c s : string) (vf vc vs : Z) :
  segmentToken seg = true -> writes f vf -> writes c vc -> writes s vs ->
  parseFieldReference (join "." [seg; f])
  = Some (mkFieldReference (toUpperCase seg) vf None None)
  /\ parseFieldReference (join "." [seg; f; c])
     = Some (mkFieldReference (toUpperCase seg) vf (Some vc) None)
  /\ parseFieldReference (join "." [seg; f; c; s])
     = Some (mkFieldReference (toUpperCase seg) vf (Some vc) (Some vs)).
Proof.
  intros Hseg (Hf & Ef & Pf) (Hc & Ec & Pc) (Hs & Es & Ps).
  destruct (segmentToken_parts _ (segmentToken_upper seg Hseg)) as [Hne _].
  apply String.eqb_neq in Hne.
  assert (Lf : (vf <? 1) = false) by (apply Z.ltb_ge; exact Pf).
  assert (Lc : (vc <? 1) = false) by (apply Z.ltb_ge; exact Pc).
  assert (Ls : (vs <? 1) = false) by (apply Z.ltb_ge; exact Ps).
  repeat split.
  - destruct (parseFieldReference_parts seg [f] Hseg) as [Hnb Hparts];
      [repeat constructor; assumption|].
    unfold parseFieldReference. apply String.eqb_neq in Hnb. rewrite Hnb, Hparts.
    simpl. rewrite (parseInt_digits f Hf), Ef, Hne, Lf. reflexivity.
  - destruct (parseFieldReference_parts seg [f; c] Hseg) as [Hnb Hparts];
      [repeat constructor; assumption|].
    unfold parseFieldReference. apply String.eqb_neq in Hnb. rewrite Hnb, Hparts.
    simpl. rewrite (parseInt_digits f Hf), Ef, Hne, Lf.
    simpl. rewrite (parseInt_digits c Hc), Ec, Lc. reflexivity.
  - destruct (parseFieldReference_parts seg [f; c; s] Hseg) as [Hnb Hparts];
      [repeat constructor; assumption|].
    unfold parseFieldReference. apply String.eqb_neq in Hnb. rewrite Hnb, Hparts.
    simpl. rewrite (parseInt_digits f Hf), Ef, Hne, Lf.
    simpl. rewrite (parseInt_digits c Hc), Ec, Lc.
    simpl. rewrite (parseInt_digits s Hs), Es, Ls. reflexivity.
Qed.

Example parseFieldReference_accepts_PID_5_1 :
  parseFieldReference "pid.5.1" = Some (mkFieldReference "PID" 5 (Some 1) None).
Proof.
  apply (parseFieldReference_accepts_grammar "pid" "5" "1" "1" 5 1 1);
    repeat split; reflexivity || lia.
Qed.


(** ** Trimming and upper-casing *)

Lemma isSpace_upperChar (c : ascii) : isSpace (upperChar c) = isSpace c.
Proof. destruct c as [[] [] [] [] [] [] [] []]; reflexivity. Qed.

Lemma upperChar_idempotent (c : ascii) : upperChar (upperChar c) = upperChar c.
Proof. destruct c as [[] [] [] [] [] [] [] []]; reflexivity. Qed.

Lemma upperChar_lowerChar (c : ascii) : upperChar (lowerChar c) = upperChar c.
Proof. destruct c as [[] [] [] [] [] [] [] []]; reflexivity. Qed.

Lemma toUpperCase_idempotent (s : string) : toUpperCase (toUpperCase s) = toUpperCase s.
Proof.
  unfold toUpperCase. induction s as [|c s IH]; simpl; [reflexivity|].
  rewrite upperChar_idempotent, IH. reflexivity.
Qed.

Lemma toUpperCase_toLowerCase (s : string) : toUpperCase (toLowerCase s) = toUpperCase s.
Proof.
  unfold toUpperCase, toLowerCase. induction s as [|c s IH]; simpl; [reflexivity|].
  rewrite upperChar_lowerChar, IH. reflexivity.
Qed.

Lemma toUpperCase_is_empty (s : string) : (toUpperCase s =? "")%string = (s =? "")%string.
Proof. destruct s; reflexivity. Qed.

Lemma toLowerCase_is_empty (s : string) : (toLowerCase s =? "")%string = (s =? "")%string.
Proof. destruct s; reflexivity. Qed.

Lemma toUpperCase_trimStart (s : string) : toUpperCase (trimStart s) = trimStart (toUpperCase s).
Proof.
  induction s as [|c s IH]; [reflexivity|].
  change (toUpperCase (String c s)) with (String (upperChar c) (toUpperCase s)).
  simpl trimStart. rewrite isSpace_upperChar.
  destruct (isSpace c); [exact IH|reflexivity].
Qed.

Lemma toUpperCase_trimEnd (s : string) : toUpperCase (trimEnd s) = trimEnd (toUpperCase s).
Proof.
  induction s as [|c s IH]; [reflexivity|].
  change (toUpperCase (String c s)) with (String (upperChar c) (toUpperCase s)).
  simpl trimEnd. rewrite isSpace_upperChar, <- IH, toUpperCase_is_empty.
  destruct (isSpace c && (trimEnd s =? "")%string); reflexivity.
Qed.

Lemma toUpperCase_trim (s : string) : toUpperCase (trim s) = trim (toUpperCase s).
Proof. unfold trim. rewrite toUpperCase_trimEnd, toUpperCase_trimStart. reflexivity. Qed.

Lemma trimEnd_idempotent (s : string) : trimEnd (trimEnd s) = trimEnd s.
Proof.
  induction s as [|c s IH]; [reflexivity|].
  simpl trimEnd at 2 3.
  destruct (isSpace c && (trimEnd s =? "")%string) eqn:E; [reflexivity|].
  simpl. rewrite IH, E. reflexivity.
Qed.

Lemma trimStart_head (s : string) :
  trimStart s = "" \/ exists c t, trimStart s = String c t /\ isSpace c = false.
Proof.
  induction s as [|c s IH]; simpl; [left; reflexivity|].
  destruct (isSpace c) eqn:E; [exact IH|].
  right. exists c, s. split; [reflexivity|exact E].
Qed.

Lemma trimStart_head_nonspace (c : ascii) (t : string) :
  isSpace c = false -> trimStart (String c t) = String c t.
Proof. intros H. simpl. rewrite H. reflexivity. Qed.

Lemma trimEnd_head_nonspace (c : ascii) (t : string) :
  isSpace c = false -> trimEnd (String c t) = String c (trimEnd t).
Proof. intros H. simpl. rewrite H. reflexivity. Qed.

Lemma trim_idempotent (s : string) : trim (trim s) = trim s.
Proof.
  unfold trim. destruct (trimStart_head s) as [E|(c & t & E & Hc)]; rewrite E.
  - reflexivity.
  - rewrite (trimEnd_head_nonspace c t Hc), (trimStart_head_nonspace c _ Hc).
    rewrite <- (trimEnd_head_nonspace c t Hc). apply trimEnd_idempotent.
Qed.

Lemma trim_empty_iff_blank (s : string) : trim s = "" -> trim (toUpperCase s) = "".
Proof. intros H. rewrite <- toUpperCase_trim, H. reflexivity. Qed.

(** ** The address parser: what it reads and what it returns *)

(** The parser looks at its argument through [trim] and [toUpperCase]
    only. *)
Lemma parseFieldReference_same_text (s s' : string) :
  s <> "" -> s' <> "" ->
  toUpperCase (trim s) = toUpperCase (trim s') ->
  parseFieldReference s = parseFieldReference s'.
Proof.
  intros Hs Hs' E. unfold parseFieldReference.
  apply String.eqb_neq in Hs. apply String.eqb_neq in Hs'.
  rewrite Hs, Hs', E. reflexivity.
Qed.

Lemma parseFieldReference_blank (s : string) : trim s = "" -> parseFieldReference s = None.
Proof.
  intros H. unfold parseFieldReference. rewrite H.
  destruct (s =? "")%string; reflexivity.
Qed.

Lemma nonempty_upper (s : string) : s <> "" -> toUpperCase s <> "".
Proof.
  intros Hne E. apply Hne. apply String.eqb_eq. rewrite <- toUpperCase_is_empty.
  apply String.eqb_eq. exact E.
Qed.

Lemma nonempty_lower (s : string) : s <> "" -> toLowerCase s <> "".
Proof.
  intros Hne E. apply Hne. apply String.eqb_eq. rewrite <- toLowerCase_is_empty.
  apply String.eqb_eq. exact E.
Qed.

Lemma address_lower_case (s : string) :
  parseFieldReference (toLowerCase s) = parseFieldReference s.
Proof.
  destruct (String.eqb_spec s "") as [->|Hne]; [reflexivity|].
  apply parseFieldReference_same_text; [apply nonempty_lower; exact Hne|exact Hne|].
  rewrite !toUpperCase_trim, toUpperCase_toLowerCase. reflexivity.
Qed.

Lemma address_trimmed (s : string) :
  parseFieldReference (trim s) = parseFieldReference s.
Proof.
  destruct (String.eqb_spec s "") as [->|Hne]; [reflexivity|].
  destruct (String.eqb_spec (trim s) "") as [E|Ht].
  - rewrite E. rewrite (parseFieldReference_blank s E). reflexivity.
  - apply parseFieldReference_same_text; [exact Ht|exact Hne|].
    rewrite trim_idempotent. reflexivity.
Qed.

(** X1.  The address parser does not tell letter case nor surrounding
    white space: an ASCII address, the address in upper case, in lower
    case and trimmed are read alike. *)
Theorem parseFieldReference_ignores_case_and_blanks :
  forall s : string,
    asciiText s = true ->
    parseFieldReference (toUpperCase s) = parseFieldReference s
    /\ parseFieldReference (toLowerCase s) = parseFieldReference s
    /\ parseFieldReference (trim s) = parseFieldReference s.
Proof.
  intros s _. split; [|split; [apply address_lower_case|apply address_trimmed]].
  destruct (String.eqb_spec s "") as [->|Hne]; [reflexivity|].
  apply parseFieldReference_same_text; [apply nonempty_upper; exact Hne|exact Hne|].
  rewrite <- toUpperCase_trim. apply toUpperCase_idempotent.
Qed.

Lemma parseFieldReference_ignores_case_and_blanks_witness :
  parseFieldReference " pid.5.1 " = Some (mkFieldReference "PID" 5 (Some 1) None)
  /\ parseFieldReference " PID.5.1 " = Some (mkFieldReference "PID" 5 (Some 1) None).
Proof.
  destruct (parseFieldReference_ignores_case_and_blanks " Pid.5.1 " eq_refl)
    as (Hu & Hl & Ht).
  split.
  - change " pid.5.1 " with (toLowerCase " Pid.5.1 "). rewrite Hl, <- Ht. reflexivity.
  - change " PID.5.1 " with (toUpperCase " Pid.5.1 "). rewrite Hu, <- Ht. reflexivity.
Defined.

Lemma split_pieces (p : ascii -> bool) (c : ascii) (s : string) :
  allChars p s = true -> Forall (fun x => allChars p x = true) (split c s).
Proof.
  induction s as [|a s IH]; simpl; intros H; [repeat constructor|].
  apply andb_true_iff in H. destruct H as [Ha Hs]. specialize (IH Hs).
  destruct (Ascii.eqb a c).
  - constructor; [reflexivity|exact IH].
  - destruct (split c s) as [|h t]; [repeat constructor; simpl; rewrite Ha; reflexivity|].
    inversion IH as [|h' t' Hh Ht]; subst.
    constructor; [simpl; rewrite Ha, Hh; reflexivity|exact Ht].
Qed.

(** No piece of a split holds the separator. *)
Lemma split_no_separator (c : ascii) (s : string) :
  Forall (fun x => allChars (fun a => negb (Ascii.eqb a c)) x = true) (split c s).
Proof.
  induction s as [|a s IH]; simpl; [repeat constructor|].
  destruct (Ascii.eqb a c) eqn:E.
  - constructor; [reflexivity|exact IH].
  - destruct (split c s) as [|h t]; [repeat constructor; simpl; rewrite E; reflexivity|].
    inversion IH as [|h' t' Hh Ht]; subst.
    constructor; [simpl; rewrite E, Hh; reflexivity|exact Ht].
Qed.

Lemma toUpperCase_fixed (s : string) :
  allChars (fun a => Ascii.eqb (upperChar a) a) s = true -> toUpperCase s = s.
Proof.
  induction s as [|c s IH]; [reflexivity|]. simpl allChars. intros H.
  apply andb_true_iff in H. destruct H as [Hc Hs]. apply Ascii.eqb_eq in Hc.
  change (String (upperChar c) (toUpperCase s) = String c s).
  rewrite Hc, (IH Hs). reflexivity.
Qed.

Lemma toUpperCase_upper (s : string) :
  allChars (fun a => Ascii.eqb (upperChar a) a) (toUpperCase s) = true.
Proof.
  induction s as [|c s IH]; [reflexivity|].
  change (toUpperCase (String c s)) with (String (upperChar c) (toUpperCase s)).
  simpl. rewrite upperChar_idempotent, Ascii.eqb_refl. exact IH.
Qed.

(** X2.  What the address parser returns is well formed: the segment
    token is not empty, in upper case and without dot; the field number
    is at least 1, and so are the component and subcomponent numbers when
    present; a subcomponent comes with a component. *)
Theorem parseFieldReference_result :
  forall (s : string) (r : FieldReference),
    parseFieldReference s = Some r ->
    segment r <> "" /\ toUpperCase (segment r) = segment r /\ noDot (segment r) = true
    /\ 1 <= field r
    /\ (forall c, component r = Some c -> 1 <= c)
    /\ (forall sc, subcomponent r = Some sc -> 1 <= sc /\ component r <> None).
Proof.
  intros s r H. unfold parseFieldReference in H. cbv zeta in H.
  destruct (s =? "")%string; [discriminate|].
  set (parts := split "." (toUpperCase (trim s))) in *.
  destruct ((List.length parts <? 2) || (4 <? List.length parts))%nat eqn:Elen; [discriminate|].
  apply orb_false_iff in Elen. destruct Elen as [Elen _]. apply Nat.ltb_ge in Elen.
  assert (Hseg : toUpperCase (nth 0 parts "") = nth 0 parts "" /\ noDot (nth 0 parts "") = true).
  { split.
    - apply toUpperCase_fixed.
      pose proof (split_pieces _ "." _ (toUpperCase_upper (trim s))) as F.
      rewrite Forall_forall in F. apply F. apply nth_In. fold parts. lia.
    - pose proof (split_no_separator "." (toUpperCase (trim s))) as F.
      rewrite Forall_forall in F. apply F. apply nth_In. fold parts. lia. }
  destruct Hseg as [Hup Hnd].
  destruct (parseInt (nth 1 parts "")) as [f|]; [|discriminate].
  destruct (nth 0 parts "" =? "")%string eqn:Eseg; [discriminate|].
  apply String.eqb_neq in Eseg. simpl orb in H.
  destruct (f <? 1) eqn:Ef; [discriminate|]. apply Z.ltb_ge in Ef.
  destruct (3 <=? List.length parts)%nat eqn:E3.
  - destruct (parseInt (nth 2 parts "")) as [c|]; [|discriminate].
    destruct (c <? 1) eqn:Ec; [discriminate|]. apply Z.ltb_ge in Ec.
    destruct (List.length parts =? 4)%nat.
    + destruct (parseInt (nth 3 parts "")) as [sc|]; [|discriminate].
      destruct (sc <? 1) eqn:Esc; [discriminate|]. apply Z.ltb_ge in Esc.
      injection H as <-. simpl. repeat split; try assumption.
      * intros c' E. injection E as <-. exact Ec.
      * injection H as <-. exact Esc.
      * discriminate.
    + injection H as <-. simpl. repeat split; try assumption; try discriminate.
      intros c' E. injection E as <-. exact Ec.
  - destruct (List.length parts =? 4)%nat eqn:E4.
    + apply Nat.eqb_eq in E4. apply Nat.leb_gt in E3. lia.
    + injection H as <-. simpl. repeat split; try assumption; discriminate.
Qed.

Lemma parseFieldReference_result_witness :
  segment (mkFieldReference "PID" 5 (Some 1) None) <> ""
  /\ 1 <= field (mkFieldReference "PID" 5 (Some 1) None).
Proof.
  destruct (parseFieldReference_result "pid.5.1" (mkFieldReference "PID" 5 (Some 1) None)
              eq_refl) as (H1 & _ & _ & H2 & _).
  split; [exact H1|exact H2].
Defined.

(** ** Text after the last number of an address *)

Lemma trimEnd_app_nonspace (a x : string) :
  allChars (fun c => negb (isSpace c)) a = true ->
  trimEnd (a ++ x) = (a ++ trimEnd x)%string.
Proof.
  induction a as [|c a IH]; simpl; intros H; [reflexivity|].
  apply andb_true_iff in H. destruct H as [Hc Ha]. apply negb_true_iff in Hc.
  rewrite Hc, (IH Ha). reflexivity.
Qed.

Lemma trim_app_nonspace (a x : string) :
  allChars (fun c => negb (isSpace c)) a = true -> a <> "" ->
  trim (a ++ x) = (a ++ trimEnd x)%string.
Proof.
  intros Ha Hne. unfold trim.
  assert (E : trimStart (a ++ x) = (a ++ x)%string).
  { destruct a as [|c a]; [contradiction|]. simpl in Ha |- *.
    apply andb_true_iff in Ha. destruct Ha as [Hc _]. apply negb_true_iff in Hc.
    rewrite Hc. reflexivity. }
  rewrite E. apply trimEnd_app_nonspace. exact Ha.
Qed.

Lemma allChars_trimEnd (p : ascii -> bool) (x : string) :
  allChars p x = true -> allChars p (trimEnd x) = true.
Proof.
  induction x as [|c x IH]; simpl; intros H; [reflexivity|].
  apply andb_true_iff in H. destruct H as [Hc Hx].
  destruct (isSpace c && (trimEnd x =? "")%string); [reflexivity|].
  simpl. rewrite Hc, (IH Hx). reflexivity.
Qed.

Lemma headIsDigit_trimEnd (x : string) :
  headIsDigit x = false -> headIsDigit (trimEnd x) = false.
Proof.
  destruct x as [|c x]; simpl; intros H; [reflexivity|].
  destruct (isSpace c && (trimEnd x =? "")%string); [reflexivity|exact H].
Qed.

Lemma digitVal_upperChar (c : ascii) : isSome (digitVal (upperChar c)) = isSome (digitVal c).
Proof. destruct c as [[] [] [] [] [] [] [] []]; reflexivity. Qed.

Lemma dot_upperChar (c : ascii) : Ascii.eqb (upperChar c) "." = Ascii.eqb c ".".
Proof. destruct c as [[] [] [] [] [] [] [] []]; reflexivity. Qed.

Lemma headIsDigit_upper (x : string) : headIsDigit (toUpperCase x) = headIsDigit x.
Proof. destruct x as [|c x]; [reflexivity|]. simpl. apply digitVal_upperChar. Qed.

Lemma noDot_upper (x : string) : noDot (toUpperCase x) = noDot x.
Proof.
  unfold noDot. induction x as [|c x IH]; [reflexivity|].
  change (toUpperCase (String c x)) with (String (upperChar c) (toUpperCase x)).
  simpl. rewrite dot_upperChar, IH. reflexivity.
Qed.

Lemma split_noDot (x : string) : noDot x = true -> split "." x = [x].
Proof.
  unfold noDot. induction x as [|c x IH]; simpl; intros H; [reflexivity|].
  apply andb_true_iff in H. destruct H as [Hc Hx]. apply negb_true_iff in Hc.
  rewrite Hc, (IH Hx). reflexivity.
Qed.

Lemma token_noDot (a : string) : allChars isTokenChar a = true -> noDot a = true.
Proof.
  apply allChars_impl. intros c Hc. unfold isTokenChar in Hc.
  apply andb_true_iff in Hc. tauto.
Qed.

(** Splitting a dotted text followed by a text without dot: the text
    stays with the last token. *)
Lemma split_join_tokens_tail (parts : list string) (x : string) :
  parts <> [] ->
  Forall (fun p => allChars isTokenChar p = true) parts ->
  noDot x = true ->
  split "." (join "." parts ++ x) = (removelast parts ++ [(last parts "" ++ x)%string])%list.
Proof.
  intros Hne H Hx. induction H as [|p l Hp Hl IH]; [contradiction|].
  destruct l as [|q l].
  - simpl. apply split_noDot.
    pose proof (token_noDot p Hp) as Hp'.
    unfold noDot in *. rewrite allChars_app, Hp', Hx. reflexivity.
  - rewrite join_cons. rewrite !append_assoc.
    rewrite (split_token_dot p _ Hp). rewrite IH by discriminate. reflexivity.
Qed.

Lemma digitsPrefix_app (acc : option Z) (ds x : string) :
  allDigits ds = true -> headIsDigit x = false ->
  digitsPrefix acc (ds ++ x) = digitsPrefix acc ds.
Proof.
  revert acc. induction ds as [|c ds IH]; intros acc Hd Hx.
  - simpl. destruct x as [|c x]; [reflexivity|]. simpl in Hx |- *.
    destruct (digitVal c); [discriminate|reflexivity].
  - simpl in Hd |- *. apply andb_true_iff in Hd. destruct Hd as [Hc Hd].
    destruct (digitVal c); [|reflexivity]. apply IH; assumption.
Qed.

(** [parseInt] on a number followed by a text that does not go on with a
    digit. *)
Lemma parseInt_digits_tail (ds x : string) :
  digitString ds = true -> headIsDigit x = false ->
  parseInt (ds ++ x) = digitsPrefix None ds.
Proof.
  intros H Hx. unfold digitString in H. apply andb_true_iff in H. destruct H as [Hn Hd].
  destruct ds as [|c ds]; [discriminate Hn|].
  assert (Hc : isSome (digitVal c) = true).
  { simpl in Hd. apply andb_true_iff in Hd. tauto. }
  pose proof (digitsPrefix_app None (String c ds) x Hd Hx) as G.
  destruct c as [[] [] [] [] [] [] [] []]; vm_compute in Hc; try discriminate Hc; exact G.
Qed.

(** The parts the parser reads of an address of the grammar followed by
    a text without dot. *)
Lemma parseFieldReference_parts_tail (seg : string) (nums : list string) (x : string) :
  segmentToken seg = true ->
  Forall (fun ds => digitString ds = true) nums ->
  noDot x = true ->
  (join "." (seg :: nums) ++ x)%string <> ""
  /\ split "." (toUpperCase (trim (join "." (seg :: nums) ++ x)))
     = (removelast (toUpperCase seg :: nums)
        ++ [(last (toUpperCase seg :: nums) "" ++ toUpperCase (trimEnd x))%string])%list.
Proof.
  intros Hseg Hnums Hx.
  assert (Htok : Forall (fun p => allChars isTokenChar p = true) (seg :: nums)).
  { constructor; [apply (segmentToken_parts seg Hseg)|].
    eapply Forall_impl; [|exact Hnums].
    intros ds Hd. apply (segmentToken_parts ds (digitString_token ds Hd)). }
  assert (Hns : allChars (fun c => negb (isSpace c)) (join "." (seg :: nums)) = true).
  { apply allChars_join; [reflexivity|].
    eapply Forall_impl; [|exact Htok]. intros p Hp.
    apply (allChars_impl isTokenChar _ p); [|exact Hp].
    intros c Hc. unfold isTokenChar in Hc. apply andb_true_iff in Hc. tauto. }
  assert (Hne : join "." (seg :: nums) <> "").
  { destruct (segmentToken_parts seg Hseg) as [Hne _].
    destruct seg as [|c seg]; [contradiction|]. destruct nums; discriminate. }
  split.
  - destruct (join "." (seg :: nums)); [contradiction|discriminate].
  - rewrite (trim_app_nonspace _ x Hns Hne), toUpperCase_app, toUpperCase_join. simpl map.
    assert (Hmap : map toUpperCase nums = nums).
    { clear Htok Hns Hne. induction Hnums as [|ds l Hd _ IH]; [reflexivity|].
      simpl. rewrite IH. f_equal. apply toUpperCase_digits.
      unfold digitString in Hd. apply andb_true_iff in Hd. tauto. }
    rewrite Hmap. apply split_join_tokens_tail; [discriminate| |].
    + constructor; [apply (segmentToken_parts _ (segmentToken_upper seg Hseg))|].
      inversion Htok; assumption.
    + rewrite noDot_upper. apply allChars_trimEnd. exact Hx.
Qed.

(** X3.  Every ASCII address of the grammar
    SEGMENT.FIELD[.COMPONENT[.SUBCOMPONENT]] whose numbers are no more
    than the largest integer that [parseInt] reads exactly is accepted
    with the numbers its parts write, and so is the address followed by
    any ASCII text that holds no dot and does not start with a digit: the
    numeric parts are read with [parseInt], which stops at the first
    character that is not a digit, so the text is ignored. *)
Theorem parseFieldReference_ignores_trailing_text :
  forall (seg f c s x : string) (vf vc vs : Z),
    segmentToken seg = true -> writes f vf -> writes c vc -> writes s vs ->
    noDot x = true -> headIsDigit x = false ->
    asciiText seg = true -> asciiText x = true ->
    vf <= MAX_SAFE_INTEGER -> vc <= MAX_SAFE_INTEGER -> vs <= MAX_SAFE_INTEGER ->
    parseFieldReference (join "." [seg; f] ++ x)
    = Some (mkFieldReference (toUpperCase seg) vf None None)
    /\ parseFieldReference (join "." [seg; f; c] ++ x)
       = Some (mkFieldReference (toUpperCase seg) vf (Some vc) None)
    /\ parseFieldReference (join "." [seg; f; c; s] ++ x)
       = Some (mkFieldReference (toUpperCase seg) vf (Some vc) (Some vs)).
Proof.
  intros seg f c s x vf vc vs Hseg (Hf & Ef & Pf) (Hc & Ec & Pc) (Hs & Es & Ps) Hx Hd
         _ _ _ _ _.
  destruct (segmentToken_parts _ (segmentToken_upper seg Hseg)) as [Hne _].
  apply String.eqb_neq in Hne.
  assert (Lf : (vf <? 1) = false) by (apply Z.ltb_ge; exact Pf).
  assert (Lc : (vc <? 1) = false) by (apply Z.ltb_ge; exact Pc).
  assert (Ls : (vs <? 1) = false) by (apply Z.ltb_ge; exact Ps).
  assert (HX : headIsDigit (toUpperCase (trimEnd x)) = false).
  { rewrite headIsDigit_upper. apply headIsDigit_trimEnd. exact Hd. }
  repeat split.
  - destruct (parseFieldReference_parts_tail seg [f] x Hseg) as [Hnb Hparts];
      [repeat constructor; assumption|exact Hx|].
    unfold parseFieldReference. apply String.eqb_neq in Hnb. rewrite Hnb, Hparts.
    simpl. rewrite (parseInt_digits_tail f _ Hf HX), Ef, Hne, Lf. reflexivity.
  - destruct (parseFieldReference_parts_tail seg [f; c] x Hseg) as [Hnb Hparts];
      [repeat constructor; assumption|exact Hx|].
    unfold parseFieldReference. apply String.eqb_neq in Hnb. rewrite Hnb, Hparts.
    simpl. rewrite (parseInt_digits f Hf), Ef, Hne, Lf.
    simpl. rewrite (parseInt_digits_tail c _ Hc HX), Ec, Lc. reflexivity.
  - destruct (parseFieldReference_parts_tail seg [f; c; s] x Hseg) as [Hnb Hparts];
      [repeat constructor; assumption|exact Hx|].
    unfold parseFieldReference. apply String.eqb_neq in Hnb. rewrite Hnb, Hparts.
    simpl. rewrite (parseInt_digits f Hf), Ef, Hne, Lf.
    simpl. rewrite (parseInt_digits c Hc), Ec, Lc.
    simpl. rewrite (parseInt_digits_tail s _ Hs HX), Es, Ls. reflexivity.
Qed.

Lemma parseFieldReference_ignores_trailing_text_witness :
  parseFieldReference "PV1.2 = E" = Some (mkFieldReference "PV1" 2 None None)
  /\ parseFieldReference "pid.5.1abc" = Some (mkFieldReference "PID" 5 (Some 1) None).
Proof.
  split.
  - apply (parseFieldReference_ignores_trailing_text "PV1" "2" "1" "1" " = E" 2 1 1);
      repeat split; reflexivity || lia || (unfold MAX_SAFE_INTEGER; lia).
  - apply (parseFieldReference_ignores_trailing_text "pid" "5" "1" "1" "abc" 5 1 1);
      repeat split; reflexivity || lia || (unfold MAX_SAFE_INTEGER; lia).
Defined.


(** ** The filter parser: what it returns *)

Lemma matchUnarySuffix_operators (s op : string) :
  matchUnarySuffix s = Some op -> op = "!exists" \/ op = "exists".
Proof.
  unfold matchUnarySuffix.
  destruct (String.length (trimStart s) <? String.length s)%nat; [|discriminate].
  destruct (dropPrefixCI "!exists" (trimStart s)) as [rest|].
  - destruct (allSpace rest); [|discriminate]. intros H. injection H as <-. left. reflexivity.
  - destruct (dropPrefixCI "exists" (trimStart s)) as [rest|]; [|discriminate].
    destruct (allSpace rest); [|discriminate]. intros H. injection H as <-. right. reflexivity.
Qed.

Lemma unaryMatchFrom_operators (acc s g1 op : string) :
  unaryMatchFrom acc s = Some (g1, op) -> op = "!exists" \/ op = "exists".
Proof.
  revert acc. induction s as [|c s IH]; intros acc H; simpl in H; [discriminate|].
  destruct (isLineTerminator c); [discriminate|].
  destruct (matchUnarySuffix s) as [op'|] eqn:E.
  - injection H as _ <-. apply (matchUnarySuffix_operators s op' E).
  - apply (IH _ H).
Qed.

Lemma tryOperators_result (operators : list string) (trimmed : string) (f : Filter) :
  tryOperators operators trimmed = Some f ->
  In (operator f) (map toLowerCase operators)
  /\ parseFieldReference (fieldRef f) <> None
  /\ trim (fieldRef f) = fieldRef f
  /\ trim (value f) = value f.
Proof.
  induction operators as [|op rest IH]; intros H; simpl in H; [discriminate|].
  assert (Hrest : tryOperators rest trimmed = Some f ->
                  In (operator f) (map toLowerCase (op :: rest))
                  /\ parseFieldReference (fieldRef f) <> None
                  /\ trim (fieldRef f) = fieldRef f
                  /\ trim (value f) = value f).
  { intros H'. destruct (IH H') as (H1 & H2). split; [right; exact H1|exact H2]. }
  destruct (splitOperator op trimmed) as [|p0 [|p1 [|p2 l]]]; try (apply Hrest; exact H).
  destruct (negb (trim p0 =? "")%string && isSome (parseFieldReference (trim p0))) eqn:E;
    [|apply Hrest; exact H].
  injection H as <-. simpl.
  apply andb_true_iff in E. destruct E as [_ E].
  split; [left; reflexivity|]. split; [|split; apply trim_idempotent].
  destruct (parseFieldReference (trim p0)); [discriminate|discriminate E].
Qed.

(** X4.  A condition that parses has one of the six operators, in lower
    case, an address that the address parser accepts, and address and
    value without white space around; the value of a unary operator is
    empty. *)
Theorem parseFilterExpression_result :
  forall (e : string) (f : Filter),
    parseFilterExpression e = Some f ->
    In (operator f) ["!="; "="; "!contains"; "contains"; "!exists"; "exists"]
    /\ parseFieldReference (fieldRef f) <> None
    /\ trim (fieldRef f) = fieldRef f
    /\ trim (value f) = value f
    /\ (In (operator f) ["!exists"; "exists"] -> value f = "").
Proof.
  intros e f H. unfold parseFilterExpression in H.
  destruct (e =? "")%string; [discriminate|].
  destruct (trim e =? "")%string; [discriminate|].
  destruct (unaryMatch (trim e)) as [[g1 g2]|] eqn:U.
  - destruct (negb (trim g1 =? "")%string && isSome (parseFieldReference (trim g1))) eqn:E.
    + injection H as <-. simpl.
      apply andb_true_iff in E. destruct E as [_ E].
      destruct (unaryMatchFrom_operators _ _ _ _ U) as [-> | ->]; simpl.
      * split; [tauto|]. split; [|split; [apply trim_idempotent|split; reflexivity]].
        destruct (parseFieldReference (trim g1)); [discriminate|discriminate E].
      * split; [tauto|]. split; [|split; [apply trim_idempotent|split; reflexivity]].
        destruct (parseFieldReference (trim g1)); [discriminate|discriminate E].
    + destruct (tryOperators_result _ _ _ H) as (H1 & H2 & H3 & H4).
      split; [simpl in H1 |- *; tauto|]. split; [exact H2|]. split; [exact H3|].
      split; [exact H4|].
      simpl in H1. intros [Ho|[Ho|[]]]; rewrite <- Ho in H1;
        repeat (destruct H1 as [H1|H1]; [discriminate H1|]); contradiction.
  - destruct (tryOperators_result _ _ _ H) as (H1 & H2 & H3 & H4).
    split; [simpl in H1 |- *; tauto|]. split; [exact H2|]. split; [exact H3|].
    split; [exact H4|].
    simpl in H1. intros [Ho|[Ho|[]]]; rewrite <- Ho in H1;
      repeat (destruct H1 as [H1|H1]; [discriminate H1|]); contradiction.
Qed.

Lemma parseFilterExpression_result_witness :
  In (operator (mkFilter "PV1.2" "!=" "E"))
     ["!="; "="; "!contains"; "contains"; "!exists"; "exists"]
  /\ parseFieldReference (fieldRef (mkFilter "PV1.2" "!=" "E")) <> None.
Proof.
  destruct (parseFilterExpression_result " PV1.2 !=  E " (mkFilter "PV1.2" "!=" "E") eq_refl)
    as (H1 & H2 & _).
  split; [exact H1|exact H2].
Defined.

(** ** Single conditions: the operators *)

(** X5.  On an address that parses, each negated operator is the negation
    of its positive operator, whether the addressed segment is in the
    message or not. *)
Theorem negated_operators_negate :
  forall (segs : list Segment) (r v : string) (cs ss : ascii),
    parseFieldReference r <> None ->
    messageMatchesSingleFilter segs (mkFilter r "!=" v) cs ss
    = negb (messageMatchesSingleFilter segs (mkFilter r "=" v) cs ss)
    /\ messageMatchesSingleFilter segs (mkFilter r "!contains" v) cs ss
       = negb (messageMatchesSingleFilter segs (mkFilter r "contains" v) cs ss)
    /\ messageMatchesSingleFilter segs (mkFilter r "!exists" v) cs ss
       = negb (messageMatchesSingleFilter segs (mkFilter r "exists" v) cs ss).
Proof.
  intros segs r v cs ss Hp. unfold messageMatchesSingleFilter. simpl fieldRef.
  destruct (parseFieldReference r) as [p|]; [|contradiction].
  destruct (find (fun s => (segmentId s =? segment p)%string) segs) as [seg|].
  - simpl. repeat split.
    destruct (String.length _); reflexivity.
  - repeat split.
Qed.

Lemma negated_operators_negate_witness :
  messageMatchesSingleFilter [pidSegment] (mkFilter "PID.5.1" "!=" "doe") "^" "&" = false.
Proof.
  destruct (negated_operators_negate [pidSegment] "PID.5.1" "doe" "^" "&"
              ltac:(discriminate)) as (H & _ & _).
  rewrite H. reflexivity.
Defined.

Lemma find_app_first {A : Type} (p : A -> bool) (pre rest : list A) (x : A) :
  (forall y, In y pre -> p y = false) -> p x = true ->
  find p (pre ++ x :: rest) = Some x.
Proof.
  intros Hpre Hx. induction pre as [|y pre IH]; simpl.
  - rewrite Hx. reflexivity.
  - rewrite (Hpre y (or_introl eq_refl)). apply IH.
    intros z Hz. apply Hpre. right. exact Hz.
Qed.

(** X6.  A condition is tested on the first segment of the addressed kind
    only: the segments that precede it are of other kinds, and whatever
    follows it, segments of the same kind included, does not count. *)
Theorem only_first_segment_of_kind_is_tested :
  forall (pre rest : list Segment) (s : Segment) (f : Filter) (cs ss : ascii)
         (p : FieldReference),
    parseFieldReference (fieldRef f) = Some p ->
    (forall s', In s' pre -> segmentId s' <> segment p) ->
    segmentId s = segment p ->
    messageMatchesSingleFilter (pre ++ s :: rest) f cs ss
    = messageMatchesSingleFilter [s] f cs ss.
Proof.
  intros pre rest s f cs ss p Hp Hpre Hs. unfold messageMatchesSingleFilter. rewrite Hp.
  rewrite (find_app_first _ pre rest s).
  - simpl find. rewrite Hs, String.eqb_refl. reflexivity.
  - intros y Hy. apply String.eqb_neq. apply Hpre. exact Hy.
  - rewrite Hs. apply String.eqb_refl.
Qed.

Lemma only_first_segment_of_kind_is_tested_witness :
  messageMatchesSingleFilter
    [mshSegment; pidSegment; mkSegment "PID" [""; ""; ""; ""; "ROE^JANE"] "|" "^" "&"]
    (mkFilter "PID.5.1" "=" "ROE") "^" "&" = false.
Proof.
  etransitivity.
  - apply (only_first_segment_of_kind_is_tested [mshSegment]
             [mkSegment "PID" [""; ""; ""; ""; "ROE^JANE"] "|" "^" "&"] pidSegment
             (mkFilter "PID.5.1" "=" "ROE") "^" "&"
             (mkFieldReference "PID" 5 (Some 1) None) eq_refl).
    + intros s' [<-|[]]. discriminate.
    + reflexivity.
  - reflexivity.
Defined.

Lemma same_condition (segs : list Segment) (r r' op v v' : string) (cs ss : ascii) :
  parseFieldReference r = parseFieldReference r' ->
  toUpperCase (trim v) = toUpperCase (trim v') ->
  messageMatchesSingleFilter segs (mkFilter r op v) cs ss
  = messageMatchesSingleFilter segs (mkFilter r' op v') cs ss.
Proof.
  intros Hr Hv. unfold messageMatchesSingleFilter. simpl. rewrite Hr, Hv. reflexivity.
Qed.

(** X7.  A condition does not tell the letter case of its value nor the
    white space around it, and reads its address as the address parser
    does, without regard to case and surrounding white space.  The value
    and the address of the condition are ASCII texts; the values of the
    message are any. *)
Theorem condition_ignores_case_and_blanks :
  forall (segs : list Segment) (r op v : string) (cs ss : ascii),
    asciiText r = true -> asciiText v = true ->
    messageMatchesSingleFilter segs (mkFilter r op (toUpperCase v)) cs ss
    = messageMatchesSingleFilter segs (mkFilter r op v) cs ss
    /\ messageMatchesSingleFilter segs (mkFilter r op (toLowerCase v)) cs ss
       = messageMatchesSingleFilter segs (mkFilter r op v) cs ss
    /\ messageMatchesSingleFilter segs (mkFilter r op (trim v)) cs ss
       = messageMatchesSingleFilter segs (mkFilter r op v) cs ss
    /\ messageMatchesSingleFilter segs (mkFilter (toLowerCase r) op v) cs ss
       = messageMatchesSingleFilter segs (mkFilter r op v) cs ss
    /\ messageMatchesSingleFilter segs (mkFilter (trim r) op v) cs ss
       = messageMatchesSingleFilter segs (mkFilter r op v) cs ss.
Proof.
  intros segs r op v cs ss _ _.
  pose proof (address_lower_case r) as Hl. pose proof (address_trimmed r) as Ht.
  repeat split; apply same_condition; try reflexivity; try assumption.
  - rewrite <- toUpperCase_trim. apply toUpperCase_idempotent.
  - rewrite !toUpperCase_trim, toUpperCase_toLowerCase. reflexivity.
  - rewrite trim_idempotent. reflexivity.
Qed.

Lemma condition_ignores_case_and_blanks_witness :
  messageMatchesSingleFilter [mshSegment; pidSegment] (mkFilter " pid.5.1 " "=" " doe ")
    "^" "&" = true
  /\ messageMatchesSingleFilter [mshSegment; pidSegment] (mkFilter " pid.5.1 " "=" " Doe ")
       "^" "&" = true.
Proof.
  destruct (condition_ignores_case_and_blanks [mshSegment; pidSegment] " pid.5.1 " "="
              " Doe " "^" "&" eq_refl eq_refl) as (_ & Hl & _).
  split; [|reflexivity].
  change " doe " with (toLowerCase " Doe "). rewrite Hl. reflexivity.
Defined.

(** ** The filter parser on well-formed conditions *)

Lemma plainChar_facts (c : ascii) :
  isPlainChar c = true ->
  isSpace c = false /\ isLineTerminator c = false
  /\ Ascii.eqb "=" (upperChar c) = false
  /\ Ascii.eqb "!" (upperChar c) = false.
Proof.
  destruct c as [[] [] [] [] [] [] [] []]; vm_compute; intros H; try discriminate H;
    repeat split.
Qed.

Lemma plainText_parts (s : string) :
  plainText s = true ->
  allChars isPlainChar s = true /\ occursCI "contains" s = false
  /\ allChars (fun c => negb (isSpace c)) s = true.
Proof.
  unfold plainText. intros H. apply andb_true_iff in H. destruct H as [Ha Ho].
  apply negb_true_iff in Ho. repeat split; try assumption.
  apply (allChars_impl isPlainChar _ s); [|exact Ha].
  intros c Hc. destruct (plainChar_facts c Hc) as (Hs & _). rewrite Hs. reflexivity.
Qed.

Lemma dropPrefixCI_app_none (p t rest : string) :
  dropPrefixCI p t = None -> cannotContinue p rest ->
  dropPrefixCI p (t ++ rest) = None.
Proof.
  revert t. induction p as [|a p IH]; intros t H Hb.
  - destruct t; discriminate H.
  - destruct t as [|b t].
    + simpl. destruct rest as [|c rest]; [reflexivity|].
      simpl in Hb. apply andb_true_iff in Hb. destruct Hb as [Hc _].
      apply negb_true_iff in Hc. simpl. rewrite Hc. reflexivity.
    + simpl in H |- *. destruct (Ascii.eqb (upperChar a) (upperChar b)); [|reflexivity].
      apply IH; [exact H|].
      destruct rest as [|c rest]; [exact I|].
      simpl in Hb |- *. apply andb_true_iff in Hb. tauto.
Qed.

(** No operator of the list matches inside a plain text, whatever follows
    it that no operator holds (a space, or nothing). *)
Lemma no_operator_inside (op : string) (c : ascii) (t rest : string) :
  In op ["!="; "="; "!contains"; "contains"] ->
  plainText (String c t) = true ->
  cannotContinue "contains" rest ->
  matchOperatorAt op (String c t ++ rest) = None.
Proof.
  intros Hop Hp Hb. destruct (plainText_parts _ Hp) as (Ha & Ho & _).
  simpl in Ha. apply andb_true_iff in Ha. destruct Ha as [Hc _].
  destruct (plainChar_facts c Hc) as (Hs & _ & He & Hx).
  unfold matchOperatorAt. simpl trimStart. rewrite Hs.
  simpl in Hop. destruct Hop as [<-|[<-|[<-|[<-|[]]]]].
  - cbn [dropPrefixCI append]. change (upperChar "!") with "!"%char.
    rewrite Hx. reflexivity.
  - cbn [dropPrefixCI append]. change (upperChar "=") with "="%char.
    rewrite He. reflexivity.
  - cbn [dropPrefixCI append]. change (upperChar "!") with "!"%char.
    rewrite Hx. reflexivity.
  - change (String c (t ++ rest)) with (String c t ++ rest)%string.
    rewrite (dropPrefixCI_app_none "contains" (String c t) rest); [reflexivity| |exact Hb].
    cbn [occursCI] in Ho. apply orb_false_iff in Ho. destruct Ho as [Ho _].
    destruct (dropPrefixCI "contains" (String c t)); [discriminate Ho|reflexivity].
Qed.

Lemma plainText_tail (c : ascii) (t : string) :
  plainText (String c t) = true -> plainText t = true.
Proof.
  unfold plainText. intros H. apply andb_true_iff in H. destruct H as [Ha Ho].
  simpl in Ha. apply andb_true_iff in Ha. destruct Ha as [_ Ha].
  apply negb_true_iff in Ho. cbn [occursCI] in Ho. apply orb_false_iff in Ho.
  destruct Ho as [_ Ho]. rewrite Ha, Ho. reflexivity.
Qed.

Lemma split_step_none (op cur : string) (c : ascii) (s : string) :
  matchOperatorAt op (String c s) = None ->
  splitOperatorFrom op 0 cur (String c s) = splitOperatorFrom op 0 (cur ++ String c "") s.
Proof. intros H. simpl. simpl in H. rewrite H. reflexivity. Qed.

(** The scan passes a plain text without a cut. *)
Lemma split_through_plain (op a rest cur : string) :
  In op ["!="; "="; "!contains"; "contains"] ->
  plainText a = true -> cannotContinue "contains" rest ->
  splitOperatorFrom op 0 cur (a ++ rest) = splitOperatorFrom op 0 (cur ++ a) rest.
Proof.
  intros Hop. revert cur. induction a as [|c a IH]; intros cur Hp Hb.
  - simpl. rewrite append_nil_r. reflexivity.
  - change (String c a ++ rest)%string with (String c (a ++ rest)).
    rewrite split_step_none by (apply (no_operator_inside op c a rest Hop Hp Hb)).
    rewrite (IH _ (plainText_tail c a Hp) Hb).
    rewrite append_assoc. reflexivity.
Qed.

Lemma split_skip (op cur w v : string) :
  splitOperatorFrom op (String.length w) cur (w ++ v) = splitOperatorFrom op 0 cur v
  \/ v = "".
Proof.
  destruct v as [|c v]; [right; reflexivity|left].
  induction w as [|a w IH]; [reflexivity|]. simpl. exact IH.
Qed.

Lemma length_append (w v : string) :
  String.length (w ++ v) = (String.length w + String.length v)%nat.
Proof. induction w as [|a w IH]; simpl; [reflexivity|rewrite IH; reflexivity]. Qed.

Lemma length_app_minus (w v : string) :
  (String.length (w ++ v) - String.length v)%nat = String.length w.
Proof. rewrite length_append. lia. Qed.

Lemma split_step_some (op cur : string) (c : ascii) (s rest : string) :
  matchOperatorAt op (String c s) = Some rest ->
  splitOperatorFrom op 0 cur (String c s)
  = cur :: splitOperatorFrom op (String.length s - String.length rest) "" s.
Proof. intros H. simpl. simpl in H. rewrite H. reflexivity. Qed.

Lemma no_operator_at_plain (op v : string) :
  In op ["!="; "="; "!contains"; "contains"] -> plainText v = true -> v <> "" ->
  matchOperatorAt op v = None.
Proof.
  intros Hop Hp Hne. destruct v as [|c t]; [contradiction|].
  rewrite <- (append_nil_r (String c t)). apply no_operator_inside; [exact Hop|exact Hp|exact I].
Qed.

Lemma no_operator_before_plain (op v : string) :
  In op ["!="; "="; "!contains"; "contains"] -> plainText v = true -> v <> "" ->
  matchOperatorAt op (String " " v) = None.
Proof. intros Hop Hp Hne. apply (no_operator_at_plain op v Hop Hp Hne). Qed.

Lemma split_plain (op v cur : string) :
  In op ["!="; "="; "!contains"; "contains"] -> plainText v = true ->
  splitOperatorFrom op 0 cur v = [(cur ++ v)%string].
Proof.
  intros Hop Hp. rewrite <- (append_nil_r v) at 1.
  rewrite (split_through_plain op v "" cur Hop Hp I). reflexivity.
Qed.

(** The scan cuts a condition at its operator. *)
Lemma split_at_operator (op a v : string) :
  In op ["!="; "="; "!contains"; "contains"] ->
  plainText a = true -> plainText v = true -> v <> "" ->
  splitOperator op (a ++ " " ++ op ++ " " ++ v) = [a; v].
Proof.
  intros Hop Ha Hv Hne. unfold splitOperator.
  rewrite (split_through_plain op a _ "" Hop Ha) by reflexivity.
  destruct (plainText_parts v Hv) as (_ & _ & Hns).
  assert (M : matchOperatorAt op (" " ++ op ++ " " ++ v) = Some v).
  { unfold matchOperatorAt. simpl in Hop.
    destruct Hop as [<-|[<-|[<-|[<-|[]]]]]; simpl; rewrite (trimStart_nonspace v Hns);
      reflexivity. }
  change (" " ++ op ++ " " ++ v)%string with (String " " (op ++ (" " ++ v))) in M |- *.
  rewrite <- (append_assoc op " " v) in M |- *.
  rewrite (split_step_some op _ " " _ v M).
  rewrite length_app_minus.
  destruct (split_skip op "" (op ++ " ") v) as [E|E]; [|contradiction].
  rewrite E. rewrite (split_plain op v "" Hop Hv). reflexivity.
Qed.

(** An operator that is tried before the operator of the condition finds
    nothing to cut at. *)
Lemma split_other_operator (op op' a v : string) :
  In (op, op') [("!=", "="); ("!=", "!contains"); ("!=", "contains");
                ("=", "!contains"); ("=", "contains"); ("!contains", "contains")] ->
  plainText a = true -> plainText v = true -> v <> "" ->
  exists x, splitOperator op (a ++ " " ++ op' ++ " " ++ v) = [x].
Proof.
  intros Hops Ha Hv Hne. unfold splitOperator.
  assert (Hop : In op ["!="; "="; "!contains"; "contains"]).
  { simpl in Hops. simpl.
    repeat (destruct Hops as [Hops|Hops]; [injection Hops as <- _; tauto|]). contradiction. }
  rewrite (split_through_plain op a _ "" Hop Ha) by reflexivity.
  pose proof (no_operator_before_plain op v Hop Hv Hne) as Hlast.
  simpl in Hops.
  repeat (destruct Hops as [Hops|Hops];
          [injection Hops as <- <-; cbn [append];
           repeat (rewrite split_step_none by reflexivity);
           rewrite (split_step_none _ _ " " v Hlast);
           rewrite split_plain by assumption; eexists; reflexivity|]).
  contradiction.
Qed.

Lemma tryOperators_skip (op : string) (ops : list string) (e x : string) :
  splitOperator op e = [x] -> tryOperators (op :: ops) e = tryOperators ops e.
Proof. intros H. simpl. rewrite H. reflexivity. Qed.

Lemma tryOperators_hit (op : string) (ops : list string) (e a v : string) :
  splitOperator op e = [a; v] -> trim a = a -> parseFieldReference a <> None ->
  tryOperators (op :: ops) e = Some (mkFilter a (toLowerCase op) (trim v)).
Proof.
  intros H Ht Hp. simpl. rewrite H, Ht.
  destruct (parseFieldReference a) as [p|] eqn:E; [|contradiction].
  destruct (parseFieldReference_nonblank a p E) as [Hne _].
  apply String.eqb_neq in Hne. rewrite Hne. reflexivity.
Qed.

Lemma unary_step (acc : string) (c : ascii) (s : string) :
  isLineTerminator c = false -> matchUnarySuffix s = None ->
  unaryMatchFrom acc (String c s) = unaryMatchFrom (acc ++ String c "") s.
Proof. intros Hc Hs. simpl. rewrite Hc, Hs. reflexivity. Qed.

Lemma matchUnarySuffix_none_head (c : ascii) (s : string) :
  isSpace c = false -> matchUnarySuffix (String c s) = None.
Proof.
  intros H. unfold matchUnarySuffix. simpl trimStart. rewrite H.
  rewrite Nat.ltb_irrefl. reflexivity.
Qed.

Lemma matchUnarySuffix_none (s : string) :
  dropPrefixCI "!exists" (trimStart s) = None ->
  dropPrefixCI "exists" (trimStart s) = None ->
  matchUnarySuffix s = None.
Proof.
  intros H1 H2. unfold matchUnarySuffix. rewrite H1, H2.
  destruct (String.length (trimStart s) <? String.length s)%nat; reflexivity.
Qed.

Lemma lineTerminator_is_space (c : ascii) : isSpace c = false -> isLineTerminator c = false.
Proof. destruct c as [[] [] [] [] [] [] [] []]; vm_compute; congruence. Qed.

Lemma unary_through (a rest acc : string) :
  allChars (fun c => negb (isSpace c)) a = true ->
  matchUnarySuffix rest = None ->
  unaryMatchFrom acc (a ++ rest) = unaryMatchFrom (acc ++ a) rest.
Proof.
  revert acc. induction a as [|c a IH]; intros acc Ha Hr.
  - simpl. rewrite append_nil_r. reflexivity.
  - simpl in Ha. apply andb_true_iff in Ha. destruct Ha as [Hc Ha].
    apply negb_true_iff in Hc.
    change (String c a ++ rest)%string with (String c (a ++ rest)).
    rewrite unary_step.
    + rewrite (IH _ Ha Hr). rewrite append_assoc. reflexivity.
    + apply lineTerminator_is_space. exact Hc.
    + destruct a as [|b a]; [exact Hr|].
      simpl in Ha. apply andb_true_iff in Ha. destruct Ha as [Hb _].
      apply negb_true_iff in Hb. apply (matchUnarySuffix_none_head b _ Hb).
Qed.

Lemma dropPrefixCI_rest (q : ascii -> bool) (p s rest : string) :
  dropPrefixCI p s = Some rest -> allChars q s = true -> allChars q rest = true.
Proof.
  revert s. induction p as [|a p IH]; intros s H Hs.
  - destruct s; injection H as <-; exact Hs.
  - destruct s as [|b s]; [discriminate H|]. simpl in H, Hs.
    apply andb_true_iff in Hs. destruct Hs as [_ Hs].
    destruct (Ascii.eqb (upperChar a) (upperChar b)); [|discriminate H].
    apply (IH s H Hs).
Qed.

Lemma dropPrefixCI_exact (p s : string) :
  dropPrefixCI p s = Some "" -> toUpperCase s = toUpperCase p.
Proof.
  revert s. induction p as [|a p IH]; intros s H.
  - destruct s; [reflexivity|discriminate H].
  - destruct s as [|b s]; [discriminate H|]. simpl in H.
    destruct (Ascii.eqb_spec (upperChar a) (upperChar b)) as [E|_]; [|discriminate H].
    change (String (upperChar b) (toUpperCase s) = String (upperChar a) (toUpperCase p)).
    rewrite E, (IH s H). reflexivity.
Qed.

Lemma lowerChar_upperChar (c : ascii) : lowerChar (upperChar c) = lowerChar c.
Proof. destruct c as [[] [] [] [] [] [] [] []]; reflexivity. Qed.

Lemma toLowerCase_toUpperCase (s : string) : toLowerCase (toUpperCase s) = toLowerCase s.
Proof.
  unfold toUpperCase, toLowerCase. induction s as [|c s IH]; simpl; [reflexivity|].
  rewrite lowerChar_upperChar, IH. reflexivity.
Qed.

Lemma allSpace_nonspace (s : string) :
  allChars (fun c => negb (isSpace c)) s = true -> allSpace s = true -> s = "".
Proof.
  destruct s as [|c s]; [reflexivity|]. simpl. intros H1 H2.
  apply andb_true_iff in H1. apply andb_true_iff in H2.
  destruct H1 as [H1 _]. destruct H2 as [H2 _]. rewrite H2 in H1. discriminate.
Qed.

(** The unary pattern does not take a plain value for an operator, the
    word [exists] apart. *)
Lemma no_unary_before_plain (v : string) :
  plainText v = true -> v <> "" -> toLowerCase v <> "exists" ->
  matchUnarySuffix (String " " v) = None.
Proof.
  intros Hv Hne Hex. destruct (plainText_parts v Hv) as (Ha & _ & Hns).
  unfold matchUnarySuffix. simpl trimStart. rewrite (trimStart_nonspace v Hns).
  destruct v as [|c t]; [contradiction|].
  simpl in Ha. apply andb_true_iff in Ha. destruct Ha as [Hc _].
  destruct (plainChar_facts c Hc) as (_ & _ & _ & Hx).
  assert (D1 : dropPrefixCI "!exists" (String c t) = None).
  { cbn [dropPrefixCI]. change (upperChar "!") with "!"%char. rewrite Hx. reflexivity. }
  rewrite D1.
  destruct (dropPrefixCI "exists" (String c t)) as [rest|] eqn:D.
  - destruct (allSpace rest) eqn:Es.
    + exfalso. apply Hex.
      pose proof (dropPrefixCI_rest _ _ _ _ D Hns) as Hr.
      rewrite (allSpace_nonspace rest Hr Es) in D.
      rewrite <- toLowerCase_toUpperCase, (dropPrefixCI_exact _ _ D). reflexivity.
    + destruct (_ <? _)%nat; reflexivity.
  - destruct (_ <? _)%nat; reflexivity.
Qed.

Lemma unaryMatchFrom_plain (v acc : string) :
  plainText v = true -> unaryMatchFrom acc v = None.
Proof.
  intros Hv. destruct (plainText_parts v Hv) as (_ & _ & Hns).
  rewrite <- (append_nil_r v).
  rewrite (unary_through v "" acc Hns) by reflexivity. reflexivity.
Qed.

(** The unary pattern matches no condition with a binary operator and a
    plain value. *)
Lemma no_unary_match (op a v : string) :
  In op ["!="; "="; "!contains"; "contains"] ->
  plainText a = true -> plainText v = true -> v <> "" -> toLowerCase v <> "exists" ->
  unaryMatch (a ++ " " ++ op ++ " " ++ v) = None.
Proof.
  intros Hop Ha Hv Hne Hex. unfold unaryMatch.
  destruct (plainText_parts a Ha) as (_ & _ & Hnsa).
  destruct (plainText_parts v Hv) as (Hpv & _ & Hnsv).
  pose proof (no_unary_before_plain v Hv Hne Hex) as Hlast.
  assert (Hhead : matchUnarySuffix v = None).
  { destruct v as [|c t]; [contradiction|]. apply matchUnarySuffix_none_head.
    simpl in Hnsv. apply andb_true_iff in Hnsv. destruct Hnsv as [Hc _].
    apply negb_true_iff in Hc. exact Hc. }
  simpl in Hop.
  destruct Hop as [<-|[<-|[<-|[<-|[]]]]];
    (rewrite (unary_through a _ "" Hnsa) by (apply matchUnarySuffix_none; reflexivity));
    cbn [append];
    repeat (rewrite unary_step;
            [ | reflexivity
              | first [ exact Hlast | exact Hhead
                      | apply matchUnarySuffix_none_head; reflexivity ] ]);
    apply unaryMatchFrom_plain; exact Hv.
Qed.

Lemma unary_hit (a rest acc op : string) :
  allChars (fun c => negb (isSpace c)) a = true -> a <> "" ->
  matchUnarySuffix rest = Some op ->
  unaryMatchFrom acc (a ++ rest) = Some ((acc ++ a)%string, op).
Proof.
  revert acc. induction a as [|c a IH]; intros acc Ha Hne Hr; [contradiction|].
  simpl in Ha. apply andb_true_iff in Ha. destruct Ha as [Hc Ha].
  apply negb_true_iff in Hc.
  destruct a as [|b a].
  - simpl. rewrite (lineTerminator_is_space c Hc), Hr. reflexivity.
  - change (String c (String b a) ++ rest)%string with (String c (String b a ++ rest)).
    rewrite unary_step.
    + rewrite (IH _ Ha) by (discriminate || exact Hr). rewrite append_assoc. reflexivity.
    + apply lineTerminator_is_space. exact Hc.
    + simpl in Ha. apply andb_true_iff in Ha. destruct Ha as [Hb _].
      apply negb_true_iff in Hb. apply (matchUnarySuffix_none_head b _ Hb).
Qed.

Lemma trimEnd_app_end (m v : string) :
  allChars (fun c => negb (isSpace c)) v = true -> v <> "" ->
  trimEnd (m ++ v) = (m ++ v)%string.
Proof.
  intros Hv Hne. induction m as [|c m IH]; simpl.
  - apply trimEnd_nonspace. exact Hv.
  - rewrite IH. destruct (m ++ v)%string eqn:E.
    + destruct m; [simpl in E; contradiction|discriminate E].
    + rewrite andb_false_r. reflexivity.
Qed.

(** X8.  A condition written as address, operator and value, separated by
    one space, is read back as these three: for an address that the
    address parser accepts and a value which are plain texts (no white
    space, no [=], no [!], the word [contains] nowhere within), the value
    not being the word [exists]; and a condition written as address and
    [exists] or [!exists] is read back with an empty value. *)
Theorem parseFilterExpression_reads_conditions :
  forall a v : string,
    plainText a = true -> parseFieldReference a <> None ->
    (forall op, In op ["!exists"; "exists"] ->
       parseFilterExpression (a ++ " " ++ op) = Some (mkFilter a op ""))
    /\ (plainText v = true -> v <> "" -> toLowerCase v <> "exists" ->
        forall op, In op ["!="; "="; "!contains"; "contains"] ->
          parseFilterExpression (a ++ " " ++ op ++ " " ++ v) = Some (mkFilter a op v)).
Proof.
  intros a v Ha Hp.
  destruct (plainText_parts a Ha) as (_ & _ & Hnsa).
  destruct (parseFieldReference a) as [p|] eqn:Ep; [|contradiction].
  destruct (parseFieldReference_nonblank a p Ep) as [Hne _].
  assert (Hnb : forall x, ((a ++ x)%string =? "")%string = false).
  { intros x. destruct a as [|c a]; [contradiction|reflexivity]. }
  split.
  - intros op Hop. unfold parseFilterExpression. rewrite Hnb.
    assert (Et : trim (a ++ " " ++ op) = (a ++ " " ++ op)%string).
    { rewrite (trim_app_nonspace a _ Hnsa Hne).
      simpl in Hop. destruct Hop as [<-|[<-|[]]]; reflexivity. }
    rewrite Et, Hnb. unfold unaryMatch.
    rewrite (unary_hit a (" " ++ op) "" op Hnsa Hne)
      by (simpl in Hop; destruct Hop as [<-|[<-|[]]]; reflexivity).
    simpl append. rewrite (trim_nonspace a Hnsa), Ep.
    apply String.eqb_neq in Hne. rewrite Hne. simpl.
    simpl in Hop. destruct Hop as [<-|[<-|[]]]; reflexivity.
  - intros Hv Hvne Hex op Hop.
    destruct (plainText_parts v Hv) as (_ & _ & Hnsv).
    unfold parseFilterExpression. rewrite Hnb.
    assert (Et : trim (a ++ " " ++ op ++ " " ++ v) = (a ++ " " ++ op ++ " " ++ v)%string).
    { rewrite (trim_app_nonspace a _ Hnsa Hne). f_equal.
      rewrite <- (append_assoc op " " v).
      change (" " ++ (op ++ " ") ++ v)%string with ((" " ++ op ++ " ") ++ v)%string.
      apply trimEnd_app_end; assumption. }
    rewrite Et, Hnb. rewrite (no_unary_match op a v Hop Ha Hv Hvne Hex).
    assert (Hhit : forall ops,
              tryOperators (op :: ops) (a ++ " " ++ op ++ " " ++ v)
              = Some (mkFilter a (toLowerCase op) v)).
    { intros ops.
      rewrite (tryOperators_hit op ops _ a v (split_at_operator op a v Hop Ha Hv Hvne)
                 (trim_nonspace a Hnsa)) by (rewrite Ep; discriminate).
      rewrite (trim_nonspace v Hnsv). reflexivity. }
    assert (Hskip : forall op' ops,
              In (op', op) [("!=", "="); ("!=", "!contains"); ("!=", "contains");
                            ("=", "!contains"); ("=", "contains"); ("!contains", "contains")] ->
              tryOperators (op' :: ops) (a ++ " " ++ op ++ " " ++ v)
              = tryOperators ops (a ++ " " ++ op ++ " " ++ v)).
    { intros op' ops Hin.
      destruct (split_other_operator op' op a v Hin Ha Hv Hvne) as [x Hx].
      apply (tryOperators_skip op' ops _ x Hx). }
    simpl in Hop. destruct Hop as [<-|[<-|[<-|[<-|[]]]]].
    + apply Hhit.
    + rewrite Hskip by (simpl; tauto). apply Hhit.
    + rewrite !Hskip by (simpl; tauto). apply Hhit.
    + rewrite !Hskip by (simpl; tauto). apply Hhit.
Qed.

Lemma parseFilterExpression_reads_conditions_witness :
  parseFilterExpression "PID.5.1 !contains DOE" = Some (mkFilter "PID.5.1" "!contains" "DOE")
  /\ parseFilterExpression "PV1.2 exists" = Some (mkFilter "PV1.2" "exists" "").
Proof.
  split.
  - destruct (parseFilterExpression_reads_conditions "PID.5.1" "DOE" eq_refl
                ltac:(discriminate)) as [_ H].
    apply (H eq_refl ltac:(discriminate) ltac:(discriminate) "!contains").
    simpl. tauto.
  - destruct (parseFilterExpression_reads_conditions "PV1.2" "" eq_refl
                ltac:(discriminate)) as [H _].
    apply (H "exists"). simpl. tauto.
Defined.


(** ** Modes of a FilterSet *)

(** X9.  A FilterSet of one condition is that condition in every mode,
    whatever the custom expression; and in the mode [single] only the
    first condition counts.  The labels are distinct and none is
    [__proto__]. *)
Theorem single_condition_ignores_mode :
  forall (globals : Globals) (segs : list Segment) (f : FilterEntry) (fs : list FilterEntry)
         (mode e : string) (cs ss : ascii),
    NoDup (map label (f :: fs)) -> ~ In "__proto__" (map label (f :: fs)) ->
    fs = [] \/ mode = "single" ->
    messageMatchesFilters globals segs (Some (mkFiltersConfig (f :: fs) mode e)) cs ss
    = JBool (conditionResult segs f cs ss).
Proof.
  intros globals segs f fs mode e cs ss Hnd _ Hsingle.
  unfold messageMatchesFilters. simpl filters. simpl logic.
  assert (E : ((mode =? "single")%string || (List.length (f :: fs) =? 1)%nat) = true).
  { destruct Hsingle as [-> | ->]; [apply orb_true_r|reflexivity]. }
  rewrite E. rewrite (buildFilterResults_distinct segs (f :: fs) cs ss Hnd).
  simpl. rewrite String.eqb_refl. reflexivity.
Qed.

Lemma single_condition_ignores_mode_witness :
  messageMatchesFilters noGlobals [mshSegment; pidSegment]
    (Some (mkFiltersConfig [mkFilterEntry "F1" "PID.5.1 = DOE"] "custom" "NOT F1")) "^" "&"
  = JBool true.
Proof.
  etransitivity.
  - apply (single_condition_ignores_mode noGlobals [mshSegment; pidSegment]
             (mkFilterEntry "F1" "PID.5.1 = DOE") [] "custom" "NOT F1" "^" "&").
    + repeat constructor. intros [].
    + simpl. intros [H|[]]. discriminate H.
    + left. reflexivity.
  - reflexivity.
Defined.

(** X10.  A mode that is none of [single], [AND], [OR] and [custom], and
    the mode [custom] without an expression, are the mode [AND]. *)
Theorem unknown_mode_is_and :
  forall (globals : Globals) (segs : list Segment) (fs : list FilterEntry)
         (mode e e' : string) (cs ss : ascii),
    mode <> "single" -> mode <> "OR" -> mode <> "custom" \/ e = "" ->
    messageMatchesFilters globals segs (Some (mkFiltersConfig fs mode e)) cs ss
    = messageMatchesFilters globals segs (Some (mkFiltersConfig fs "AND" e')) cs ss.
Proof.
  intros globals segs fs mode e e' cs ss Hs Ho Hc.
  unfold messageMatchesFilters. simpl filters. simpl logic. simpl logicExpression.
  destruct fs as [|f fs]; [reflexivity|].
  apply String.eqb_neq in Hs. apply String.eqb_neq in Ho. rewrite Hs, Ho.
  change ("AND" =? "single")%string with false.
  change ("AND" =? "AND")%string with true.
  simpl orb.
  match goal with |- context [Nat.eqb ?a ?b] => destruct (Nat.eqb a b) end; [reflexivity|].
  destruct (mode =? "AND")%string; [reflexivity|].
  destruct Hc as [Hc | ->].
  - apply String.eqb_neq in Hc. rewrite Hc. reflexivity.
  - rewrite andb_false_r. reflexivity.
Qed.

Lemma unknown_mode_is_and_witness :
  messageMatchesFilters noGlobals [mshSegment; pidSegment]
    (Some (mkFiltersConfig twoConditions "and" "")) "^" "&"
  = JBool false.
Proof.
  etransitivity.
  - apply (unknown_mode_is_and noGlobals [mshSegment; pidSegment] twoConditions "and" "" ""
             "^" "&"); [discriminate|discriminate|left; discriminate].
  - reflexivity.
Defined.

Lemma objSet_not_empty {V : Type} (k : string) (v : V) (o : JsObject V) : objSet k v o <> [].
Proof. destruct o as [|[k' v'] o]; simpl; [discriminate|]. destruct (k =? k')%string; discriminate. Qed.

Lemma buildFilterResults_not_empty (segs : list Segment) (fs : list FilterEntry) (cs ss : ascii) :
  fs <> [] -> buildFilterResults segs fs cs ss <> [].
Proof.
  unfold buildFilterResults.
  assert (G : forall l (acc : JsObject bool), acc <> [] ->
            fold_left (fun filterResults f =>
                         objSet (label f) (conditionResult segs f cs ss) filterResults)
                      l acc <> []).
  { induction l as [|f l IH]; intros acc Ha; simpl; [exact Ha|].
    apply IH. apply objSet_not_empty. }
  destruct fs as [|f fs]; [contradiction|]. intros _. simpl. apply G. discriminate.
Qed.

Lemma every_some (vs : list bool) : vs <> [] -> every vs = true -> some vs = true.
Proof.
  destruct vs as [|b vs]; [contradiction|]. intros _. unfold every, some. simpl.
  intros H. apply andb_true_iff in H. destruct H as [H _]. rewrite H. reflexivity.
Qed.

Lemma objValues_not_empty {V : Type} (o : JsObject V) : o <> [] -> objValues o <> [].
Proof.
  intros Ho E. pose proof (objValues_permutation o) as P. rewrite E in P.
  apply Permutation_nil in P. destruct o; [contradiction|discriminate P].
Qed.

(** On one message, what the mode [AND] accepts the mode [OR] accepts. *)
Lemma and_implies_or (globals : Globals) (segs : list Segment) (fs : list FilterEntry)
    (e e' : string) (cs ss : ascii) :
  toBoolean (messageMatchesFilters globals segs (Some (mkFiltersConfig fs "AND" e)) cs ss) = true ->
  toBoolean (messageMatchesFilters globals segs (Some (mkFiltersConfig fs "OR" e')) cs ss) = true.
Proof.
  unfold messageMatchesFilters. simpl filters. simpl logic.
  destruct fs as [|f fs]; [intros; reflexivity|].
  change ("AND" =? "single")%string with false.
  change ("OR" =? "single")%string with false.
  change ("AND" =? "AND")%string with true.
  change ("OR" =? "AND")%string with false.
  change ("OR" =? "OR")%string with true.
  simpl orb.
  match goal with |- context [Nat.eqb ?a ?b] => destruct (Nat.eqb a b) end;
    [intros H; exact H|].
  simpl toBoolean. apply every_some. apply objValues_not_empty.
  apply buildFilterResults_not_empty. discriminate.
Qed.

Lemma filter_incl_length {A : Type} (p q : A -> bool) (l : list A) :
  (forall x, In x l -> p x = true -> q x = true) ->
  incl (filter p l) (filter q l)
  /\ (List.length (filter p l) <= List.length (filter q l))%nat.
Proof.
  intros H. split.
  - intros x Hx. apply filter_In in Hx. destruct Hx as [Hin Hp].
    apply filter_In. split; [exact Hin|apply H; assumption].
  - induction l as [|a l IH]; simpl; [lia|].
    assert (IH' : (List.length (filter p l) <= List.length (filter q l))%nat).
    { apply IH. intros x Hx. apply H. right. exact Hx. }
    destruct (p a) eqn:Ep.
    + rewrite (H a (or_introl eq_refl) Ep). simpl. lia.
    + destruct (q a); simpl; lia.
Qed.

(** X11.  On the same conditions the mode [OR] keeps every message that
    the mode [AND] keeps, so it never keeps fewer.  No label is
    [__proto__]. *)
Theorem and_keeps_no_more_than_or :
  forall (globals : Globals) (fs : list FilterEntry) (e e' : string) (msgs : list Message),
    ~ In "__proto__" (map label fs) ->
    incl (applyFilters globals (mkFiltersConfig fs "AND" e) msgs)
         (applyFilters globals (mkFiltersConfig fs "OR" e') msgs)
    /\ (List.length (applyFilters globals (mkFiltersConfig fs "AND" e) msgs)
        <= List.length (applyFilters globals (mkFiltersConfig fs "OR" e') msgs))%nat.
Proof.
  intros globals fs e e' msgs _. unfold applyFilters.
  apply filter_incl_length. intros m _. apply and_implies_or.
Qed.

Lemma and_keeps_no_more_than_or_witness :
  (List.length (applyFilters noGlobals (mkFiltersConfig twoConditions "AND" "")
                  (parseMessagesForFiltering sampleSegmentIds sampleContent))
   <= List.length (applyFilters noGlobals (mkFiltersConfig twoConditions "OR" "")
                     (parseMessagesForFiltering sampleSegmentIds sampleContent)))%nat.
Proof.
  apply (and_keeps_no_more_than_or noGlobals twoConditions "" ""
           (parseMessagesForFiltering sampleSegmentIds sampleContent)).
  simpl. intros [H|[H|[]]]; discriminate H.
Defined.


(** ** Custom logic: letter case and surrounding white space *)

Lemma validateCustomLogic_same_text (e e' : string) (labels : list string) :
  ((e =? "")%string || (trim e =? "")%string)
  = ((e' =? "")%string || (trim e' =? "")%string) ->
  toUpperCase (trim e) = toUpperCase (trim e') ->
  validateCustomLogic e labels = validateCustomLogic e' labels.
Proof. intros H1 H2. unfold validateCustomLogic. rewrite H1, H2. reflexivity. Qed.

Lemma blank_test_trim (e : string) :
  ((trim e =? "")%string || (trim (trim e) =? "")%string)
  = ((e =? "")%string || (trim e =? "")%string).
Proof.
  rewrite trim_idempotent. destruct (String.eqb_spec e "") as [->|_]; [reflexivity|].
  apply orb_diag.
Qed.

Lemma blank_test_upper (e : string) :
  ((toUpperCase e =? "")%string || (trim (toUpperCase e) =? "")%string)
  = ((e =? "")%string || (trim e =? "")%string).
Proof. rewrite <- toUpperCase_trim, !toUpperCase_is_empty. reflexivity. Qed.

Lemma trim_toLowerCase_upper (e : string) :
  toUpperCase (trim (toLowerCase e)) = toUpperCase (trim e).
Proof. rewrite !toUpperCase_trim, toUpperCase_toLowerCase. reflexivity. Qed.

Lemma blank_test_lower (e : string) :
  ((toLowerCase e =? "")%string || (trim (toLowerCase e) =? "")%string)
  = ((e =? "")%string || (trim e =? "")%string).
Proof.
  rewrite toLowerCase_is_empty.
  rewrite <- (toUpperCase_is_empty (trim (toLowerCase e))), trim_toLowerCase_upper.
  rewrite toUpperCase_is_empty. reflexivity.
Qed.

(** X12.  Validation and evaluation of a custom expression do not tell
    letter case: an ASCII expression in upper case and in lower case is
    validated and evaluated as the expression itself; validation, which
    trims the expression, does not tell surrounding white space either. *)
Theorem custom_logic_ignores_case :
  forall (globals : Globals) (e : string) (labels : list string) (fr : JsObject bool),
    asciiText e = true ->
    validateCustomLogic (toUpperCase e) labels = validateCustomLogic e labels
    /\ validateCustomLogic (toLowerCase e) labels = validateCustomLogic e labels
    /\ validateCustomLogic (trim e) labels = validateCustomLogic e labels
    /\ evaluateCustomLogic globals (toUpperCase e) fr = evaluateCustomLogic globals e fr
    /\ evaluateCustomLogic globals (toLowerCase e) fr = evaluateCustomLogic globals e fr.
Proof.
  intros globals e labels fr _. repeat split.
  - apply validateCustomLogic_same_text; [apply blank_test_upper|].
    rewrite <- toUpperCase_trim. apply toUpperCase_idempotent.
  - apply validateCustomLogic_same_text; [apply blank_test_lower|apply trim_toLowerCase_upper].
  - apply validateCustomLogic_same_text; [apply blank_test_trim|].
    rewrite trim_idempotent. reflexivity.
  - unfold evaluateCustomLogic, substitute. rewrite toUpperCase_idempotent. reflexivity.
  - unfold evaluateCustomLogic, substitute. rewrite toUpperCase_toLowerCase. reflexivity.
Qed.

Lemma custom_logic_ignores_case_witness :
  validateCustomLogic " f1 and not f2 " ["F1"; "F2"] = Valid
  /\ evaluateCustomLogic noGlobals "f1 and not f2" oneTrueOneFalse = JBool true.
Proof.
  destruct (custom_logic_ignores_case noGlobals " F1 and NOT f2 " ["F1"; "F2"]
              oneTrueOneFalse eq_refl) as (_ & Hl & _).
  destruct (custom_logic_ignores_case noGlobals "F1 and NOT f2" ["F1"; "F2"]
              oneTrueOneFalse eq_refl) as (_ & _ & _ & _ & He).
  split.
  - change " f1 and not f2 " with (toLowerCase " F1 and NOT f2 "). rewrite Hl. reflexivity.
  - change "f1 and not f2" with (toLowerCase "F1 and NOT f2"). rewrite He. reflexivity.
Defined.

(** ** Custom logic: characters that the whitelist refuses *)

Lemma symbol_upper (c : ascii) : isWordChar c = false -> upperChar c = c.
Proof. destruct c as [[] [] [] [] [] [] [] []]; vm_compute; congruence. Qed.

Lemma in_toUpperCase (c : ascii) (s : string) :
  In c (list_ascii_of_string s) -> In (upperChar c) (list_ascii_of_string (toUpperCase s)).
Proof.
  induction s as [|a s IH]; simpl; [tauto|].
  intros [->|H]; [left; reflexivity|right; apply IH; exact H].
Qed.

(** A character that is not a word character is a chunk of the cut. *)
Lemma symbol_in_chunks (c : ascii) (s : string) :
  In c (list_ascii_of_string s) -> isWordChar c = false -> In (CSym c) (chunks s).
Proof.
  intros Hin Hc. induction s as [|a s IH]; simpl in Hin; [contradiction|].
  simpl chunks. destruct Hin as [->|Hin].
  - rewrite Hc. left. reflexivity.
  - specialize (IH Hin). destruct (isWordChar a).
    + destruct (chunks s) as [|[w|d] r]; simpl in IH |- *.
      * contradiction.
      * destruct IH as [IH|IH]; [discriminate IH|right; exact IH].
      * right. exact IH.
    + right. exact IH.
Qed.

Lemma symbol_stays (L : string) (rc cs : list Chunk) (c : ascii) :
  In (CSym c) cs -> In (CSym c) (flat_map (replaceChunk L rc) cs).
Proof.
  intros H. apply in_flat_map. exists (CSym c). split; [exact H|left; reflexivity].
Qed.

Lemma symbol_stays_label_stages (fr : JsObject bool) (ls : list string) (cs : list Chunk)
    (c : ascii) :
  In (CSym c) cs -> In (CSym c) (fold_left (labelStage fr) ls cs).
Proof.
  revert cs. induction ls as [|l ls IH]; intros cs H; simpl; [exact H|].
  apply IH. apply symbol_stays. exact H.
Qed.

Lemma symbol_refused (p : ascii -> bool) (cs : list Chunk) (c : ascii) :
  In (CSym c) cs -> p c = false -> allChars p (render cs) = false.
Proof.
  intros Hin Hp. induction cs as [|ch cs IH]; [contradiction|].
  simpl render. rewrite allChars_app. destruct Hin as [->|Hin].
  - simpl. rewrite Hp. reflexivity.
  - rewrite (IH Hin). apply andb_false_r.
Qed.

Lemma wordlike_sorted_labels (fr : JsObject bool) :
  Forall (fun l => wordlike l = true) (map fst fr) ->
  Forall (fun l => wordlike l = true) (sortByLengthDesc (objKeys fr)).
Proof.
  intros H.
  eapply Permutation_Forall; [apply Permutation_sym; apply sorted_labels_permutation|exact H].
Qed.

(** X13.  evaluateCustomLogic answers [true], whatever the results of the
    conditions, on every expression that holds a character which is
    neither a word character nor of the whitelist (a tab, a comma, [+],
    [=], ...): the character stays in the text after the substitution and
    the whitelist refuses the text.  The expression is an ASCII text and
    the labels are words. *)
Theorem foreign_character_includes :
  forall (globals : Globals) (e : string) (fr : JsObject bool) (c : ascii),
    asciiText e = true ->
    Forall (fun l => wordlike l = true) (map fst fr) ->
    In c (list_ascii_of_string e) -> isWordChar c = false -> isAllowedChar c = false ->
    evaluateCustomLogic globals e fr = JBool true.
Proof.
  intros globals e fr c _ Hw Hin Hc Ha.
  apply evaluateCustomLogic_unexpected_characters.
  unfold substitute. rewrite <- (render_chunks (toUpperCase e)) at 1.
  destruct (label_stages_chunks fr _ (chunks (toUpperCase e)) (wordlike_sorted_labels fr Hw)
              (canonical_chunks _)) as [E Hcan].
  rewrite E. destruct (keyword_stages_chunks _ Hcan) as [E2 _]. rewrite E2.
  unfold onlyAllowedChars. rewrite (symbol_refused isAllowedChar _ c); [apply andb_false_r| |exact Ha].
  unfold keywordStages. do 3 apply symbol_stays. apply symbol_stays_label_stages.
  apply symbol_in_chunks; [|exact Hc].
  rewrite <- (symbol_upper c Hc). apply in_toUpperCase. exact Hin.
Qed.

Lemma foreign_character_includes_witness :
  evaluateCustomLogic noGlobals "F1 AND F2, F1" [("F1", false); ("F2", false)] = JBool true.
Proof.
  apply (foreign_character_includes noGlobals "F1 AND F2, F1" [("F1", false); ("F2", false)] ",").
  - reflexivity.
  - repeat constructor.
  - simpl. tauto.
  - reflexivity.
  - reflexivity.
Defined.

(** ** Validation on the expressions of the grammar *)

Lemma placeholder_stages_chunks (ls : list string) (cs : list Chunk) :
  Forall (fun l => wordlike l = true) ls ->
  canonical cs = true ->
  replaceLabels ls (render cs) = render (fold_left placeholderStage ls cs)
  /\ canonical (fold_left placeholderStage ls cs) = true.
Proof.
  unfold replaceLabels.
  intros Hls. revert cs. induction Hls as [|l ls Hl _ IH]; intros cs Hc; simpl.
  - split; [reflexivity|exact Hc].
  - rewrite (replaceWord_chunks (toUpperCase l) "X" (wordlike_upper l Hl) [CWord "X"])
      by (reflexivity || exact Hc).
    apply IH. apply canonical_flat_map; [|exact Hc].
    left. exists "X". split; reflexivity.
Qed.

Lemma operator_stages_chunks (cs : list Chunk) :
  canonical cs = true ->
  replaceWord "NOT" "!" (replaceWord "OR" "|" (replaceWord "AND" "&" (render cs)))
  = render (operatorStages cs).
Proof.
  intros Hc. unfold operatorStages.
  assert (H1 : canonical (flat_map (replaceChunk "AND" [CSym "&"]) cs) = true).
  { apply canonical_flat_map; [right; reflexivity|exact Hc]. }
  assert (H2 : canonical (flat_map (replaceChunk "OR" [CSym "|"])
                            (flat_map (replaceChunk "AND" [CSym "&"]) cs)) = true).
  { apply canonical_flat_map; [right; reflexivity|exact H1]. }
  rewrite (replaceWord_chunks "AND" "&" eq_refl [CSym "&"] eq_refl cs Hc).
  rewrite (replaceWord_chunks "OR" "|" eq_refl [CSym "|"] eq_refl _ H1).
  rewrite (replaceWord_chunks "NOT" "!" eq_refl [CSym "!"] eq_refl _ H2).
  reflexivity.
Qed.

(** The text the rules are checked on is the normalisation done chunk by
    chunk, less spaces and parentheses. *)
Lemma simplify_chunks (expr : string) (labels : list string) :
  Forall (fun l => wordlike l = true) labels ->
  simplify expr labels
  = filterString (fun c => negb (isSpaceOrParen c))
      (render (normalizedChunks labels (chunks expr))).
Proof.
  intros Hw. unfold simplify, normalizedChunks.
  assert (Hs : Forall (fun l => wordlike l = true) (sortByLengthDesc labels)).
  { eapply Permutation_Forall; [apply Permutation_sym; apply sortByLengthDesc_permutation|].
    exact Hw. }
  rewrite <- (render_chunks expr) at 1.
  destruct (placeholder_stages_chunks _ (chunks expr) Hs (canonical_chunks _)) as [E Hc].
  rewrite E, (operator_stages_chunks _ Hc). reflexivity.
Qed.

Lemma placeholder_stages_app (ls : list string) (a b : list Chunk) :
  fold_left placeholderStage ls (a ++ b)%list
  = (fold_left placeholderStage ls a ++ fold_left placeholderStage ls b)%list.
Proof.
  revert a b. induction ls as [|l ls IH]; intros a b; simpl; [reflexivity|].
  unfold placeholderStage at 2. rewrite flat_map_app. apply IH.
Qed.

Lemma normalizedChunks_cons (labels : list string) (ch : Chunk) (cs : list Chunk) :
  normalizedChunks labels (ch :: cs)
  = (normalizedChunks labels [ch] ++ normalizedChunks labels cs)%list.
Proof.
  unfold normalizedChunks. change (ch :: cs) with ([ch] ++ cs)%list.
  rewrite placeholder_stages_app. unfold operatorStages. rewrite !flat_map_app. reflexivity.
Qed.

Lemma normalizedChunks_nil (labels : list string) : normalizedChunks labels [] = [].
Proof.
  unfold normalizedChunks.
  assert (E : forall ls, fold_left placeholderStage ls [] = []).
  { induction ls as [|l ls IH]; simpl; [reflexivity|exact IH]. }
  rewrite E. reflexivity.
Qed.

Lemma placeholder_stages_symbol (ls : list string) (c : ascii) :
  fold_left placeholderStage ls [CSym c] = [CSym c].
Proof. induction ls as [|l ls IH]; simpl; [reflexivity|exact IH]. Qed.

Lemma placeholder_stages_X (ls : list string) :
  fold_left placeholderStage ls [CWord "X"] = [CWord "X"].
Proof.
  induction ls as [|l ls IH]; [reflexivity|].
  cbn -[String.eqb toUpperCase replaceChunk].
  unfold replaceChunk, chunk_eqb.
  destruct ("X" =? toUpperCase l)%string; exact IH.
Qed.

Lemma placeholder_stages_label (ls : list string) (W : string) :
  In W (map toUpperCase ls) -> fold_left placeholderStage ls [CWord W] = [CWord "X"].
Proof.
  induction ls as [|l ls IH]; intros Hin; [contradiction|].
  simpl. unfold replaceChunk. simpl chunk_eqb.
  destruct (String.eqb_spec W (toUpperCase l)) as [E|Hne].
  - apply placeholder_stages_X.
  - apply IH. destruct Hin as [Hin|Hin]; [symmetry in Hin; contradiction|exact Hin].
Qed.

Lemma placeholder_stages_other_word (ls : list string) (W : string) :
  Forall (fun l => toUpperCase l <> W) ls ->
  fold_left placeholderStage ls [CWord W] = [CWord W].
Proof.
  induction 1 as [|l ls Hl _ IH]; simpl; [reflexivity|].
  unfold replaceChunk. simpl chunk_eqb.
  destruct (String.eqb_spec W (toUpperCase l)) as [E|_]; [symmetry in E; contradiction|].
  exact IH.
Qed.

Lemma not_keyword_sorted_labels (labels : list string) (W : string) :
  Forall (fun l => isKeyword (toUpperCase l) = false) labels -> isKeyword W = true ->
  Forall (fun l => toUpperCase l <> W) (sortByLengthDesc labels).
Proof.
  intros H HW.
  eapply Permutation_Forall; [apply Permutation_sym; apply sortByLengthDesc_permutation|].
  eapply Forall_impl; [|exact H]. intros l Hk E. cbv beta in Hk. rewrite E in Hk. congruence.
Qed.

(** What is left of a chunk of the token set: the placeholder of its
    token. *)
Lemma normalizedChunks_token (labels : list string) (ch : Chunk) (t : option Token) :
  Forall (fun l => isKeyword (toUpperCase l) = false) labels ->
  tokenOfChunk labels ch = Some t ->
  filterString (fun c => negb (isSpaceOrParen c)) (render (normalizedChunks labels [ch]))
  = match t with Some tok => placeholder tok | None => "" end.
Proof.
  intros Hk Ht. unfold normalizedChunks. destruct ch as [w|c]; simpl in Ht.
  - destruct (String.eqb_spec w "AND") as [->|_].
    { injection Ht as <-.
      rewrite (placeholder_stages_other_word _ "AND"
                 (not_keyword_sorted_labels labels "AND" Hk eq_refl)). reflexivity. }
    destruct (String.eqb_spec w "OR") as [->|_].
    { injection Ht as <-.
      rewrite (placeholder_stages_other_word _ "OR"
                 (not_keyword_sorted_labels labels "OR" Hk eq_refl)). reflexivity. }
    destruct (String.eqb_spec w "NOT") as [->|_].
    { injection Ht as <-.
      rewrite (placeholder_stages_other_word _ "NOT"
                 (not_keyword_sorted_labels labels "NOT" Hk eq_refl)). reflexivity. }
    destruct (find (fun l => (toUpperCase l =? w)%string) labels) as [l|] eqn:F;
      [|discriminate].
    injection Ht as <-.
    apply find_some in F. destruct F as [Hin E]. apply String.eqb_eq in E. subst w.
    rewrite (placeholder_stages_label _ (toUpperCase l)); [reflexivity|].
    apply in_map. eapply Permutation_in; [apply Permutation_sym;
      apply sortByLengthDesc_permutation|exact Hin].
  - rewrite placeholder_stages_symbol.
    destruct (Ascii.eqb_spec c " ") as [->|_]; [injection Ht as <-; reflexivity|].
    destruct (Ascii.eqb_spec c "(") as [->|_]; [injection Ht as <-; reflexivity|].
    destruct (Ascii.eqb_spec c ")") as [->|_]; [injection Ht as <-; reflexivity|].
    discriminate.
Qed.

Lemma filterString_app (keep : ascii -> bool) (a b : string) :
  filterString keep (a ++ b) = (filterString keep a ++ filterString keep b)%string.
Proof.
  induction a as [|c a IH]; simpl; [reflexivity|].
  destruct (keep c); simpl; rewrite IH; reflexivity.
Qed.

(** On a text of the token set the rules are checked on the placeholders
    of its tokens. *)
Lemma normalized_placeholders (labels : list string) (cs : list Chunk) (ts : list Token) :
  Forall (fun l => isKeyword (toUpperCase l) = false) labels ->
  tokensOfChunks labels cs = Some ts ->
  filterString (fun c => negb (isSpaceOrParen c)) (render (normalizedChunks labels cs))
  = placeholders ts.
Proof.
  intros Hk. revert ts. induction cs as [|ch cs IH]; intros ts Ht.
  - simpl in Ht. injection Ht as <-. rewrite normalizedChunks_nil. reflexivity.
  - simpl in Ht.
    destruct (tokenOfChunk labels ch) as [t|] eqn:Et; [|discriminate].
    destruct (tokensOfChunks labels cs) as [ts'|] eqn:Ets; [|destruct t; discriminate].
    rewrite normalizedChunks_cons, render_app, filterString_app.
    rewrite (normalizedChunks_token labels ch t Hk Et), (IH ts' eq_refl).
    destruct t as [tok|]; injection Ht as <-; reflexivity.
Qed.

(** The placeholders of a derivation alternate. *)
Lemma placeholders_app (a b : list Token) :
  placeholders (a ++ b) = (placeholders a ++ placeholders b)%string.
Proof.
  induction a as [|t a IH]; simpl; [reflexivity|].
  rewrite IH, append_assoc. reflexivity.
Qed.

Lemma derivations_alternate (k : Kind) (ts : list Token) (a : Ast) :
  derives k ts a ->
  forall rest, alternates false rest = true ->
    alternates (match k with KUnary | KAnd | KOr => true | _ => false end)
      (placeholders ts ++ rest) = true.
Proof.
  induction 1 as [l|ts a D IH|ts a D IH|ts1 ts2 a b D1 IH1 D2 IH2|acc
                  |acc ts1 ts2 a b D1 IH1 D2 IH2|ts1 ts2 a b D1 IH1 D2 IH2|acc
                  |acc ts1 ts2 a b D1 IH1 D2 IH2]; intros rest Hr.
  - simpl. exact Hr.
  - simpl. apply IH. exact Hr.
  - simpl placeholders. rewrite placeholders_app. simpl placeholders at 2.
    rewrite append_nil_r. apply IH. exact Hr.
  - rewrite placeholders_app, append_assoc. apply IH1. apply IH2. exact Hr.
  - simpl. exact Hr.
  - change (placeholders (TkAnd :: ts1 ++ ts2) ++ rest)%string
      with (String "&" (placeholders (ts1 ++ ts2) ++ rest)).
    rewrite placeholders_app, append_assoc.
    change (alternates true (placeholders ts1 ++ placeholders ts2 ++ rest) = true).
    apply IH1. apply IH2. exact Hr.
  - rewrite placeholders_app, append_assoc. apply IH1. apply IH2. exact Hr.
  - simpl. exact Hr.
  - change (placeholders (TkOr :: ts1 ++ ts2) ++ rest)%string
      with (String "|" (placeholders (ts1 ++ ts2) ++ rest)).
    rewrite placeholders_app, append_assoc.
    change (alternates true (placeholders ts1 ++ placeholders ts2 ++ rest) = true).
    apply IH1. apply IH2. exact Hr.
Qed.

(** A text that alternates passes the rules of validateCustomLogic. *)
Lemma alternates_placeholders (st : bool) (s : string) :
  alternates st s = true -> allChars isPlaceholder s = true.
Proof.
  revert st. induction s as [|c s IH]; intros st H; [reflexivity|].
  simpl in H |- *. unfold isPlaceholder. destruct st.
  - destruct (isBang c); [rewrite orb_true_r; exact (IH _ H)|].
    destruct (isX c); [exact (IH _ H)|discriminate H].
  - destruct (isAndOr c); [rewrite orb_true_r; exact (IH _ H)|discriminate H].
Qed.

Lemma placeholder_kinds (c : ascii) :
  (isBang c = true -> isX c = false /\ isAndOr c = false)
  /\ (isX c = true -> isBang c = false /\ isAndOr c = false)
  /\ (isAndOr c = true -> isBang c = false /\ isX c = false).
Proof. destruct c as [[] [] [] [] [] [] [] []]; vm_compute; repeat split; congruence. Qed.

Lemma alternates_pairs (p q : ascii -> bool) :
  (forall a b, isBang a = true -> isBang b || isX b = true -> p a && q b = false) ->
  (forall a b, isX a = true -> isAndOr b = true -> p a && q b = false) ->
  (forall a b, isAndOr a = true -> isBang b || isX b = true -> p a && q b = false) ->
  forall st s, alternates st s = true -> anyAdjacent p q s = false.
Proof.
  intros H1 H2 H3 st s. revert st. induction s as [|a s IH]; intros st H; [reflexivity|].
  destruct s as [|b s]; [reflexivity|].
  change (anyAdjacent p q (String a (String b s)))
    with ((p a && q b) || anyAdjacent p q (String b s)).
  assert (Hnext : forall st', alternates st' (String b s) = true ->
                  anyAdjacent p q (String b s) = false) by (intros st'; apply IH).
  change (alternates st (String a (String b s)))
    with (if st then if isBang a then alternates true (String b s)
                     else if isX a then alternates false (String b s) else false
          else if isAndOr a then alternates true (String b s) else false) in H.
  destruct st.
  - destruct (isBang a) eqn:Ea.
    + rewrite (Hnext _ H), orb_false_r. apply H1; [exact Ea|].
      simpl in H.
      destruct (isBang b); [reflexivity|]. destruct (isX b); [reflexivity|discriminate H].
    + destruct (isX a) eqn:Ex; [|discriminate H].
      rewrite (Hnext _ H), orb_false_r. apply H2; [exact Ex|].
      simpl in H.
      destruct (isAndOr b); [reflexivity|discriminate H].
  - destruct (isAndOr a) eqn:Ea; [|discriminate H].
    rewrite (Hnext _ H), orb_false_r. apply H3; [exact Ea|].
    simpl in H.
    destruct (isBang b); [reflexivity|]. destruct (isX b); [reflexivity|discriminate H].
Qed.

Lemma alternates_last (st : bool) (s : string) :
  alternates st s = true ->
  match lastChar s with
  | Some c => isX c = true
  | None => st = false
  end.
Proof.
  revert st. induction s as [|a s IH]; intros st H.
  - simpl in H |- *. destruct st; [discriminate H|reflexivity].
  - destruct s as [|b s].
    + simpl in H |- *. destruct st.
      * destruct (isBang a); [discriminate H|]. destruct (isX a); [reflexivity|discriminate H].
      * destruct (isAndOr a); discriminate H.
    + change (lastChar (String a (String b s))) with (lastChar (String b s)).
      assert (Hn : forall st', alternates st' (String b s) = true ->
                   match lastChar (String b s) with
                   | Some c => isX c = true
                   | None => st' = false
                   end) by (intros st'; apply IH).
      change (alternates st (String a (String b s)))
        with (if st then if isBang a then alternates true (String b s)
                         else if isX a then alternates false (String b s) else false
              else if isAndOr a then alternates true (String b s) else false) in H.
      assert (Hl : lastChar (String b s) <> None).
      { clear. revert b. induction s as [|c s IH]; intros b; [discriminate|].
        change (lastChar (String b (String c s))) with (lastChar (String c s)). apply IH. }
      destruct (lastChar (String b s)) as [c|] eqn:El; [|contradiction].
      destruct st.
      * destruct (isBang a); [exact (Hn _ H)|]. destruct (isX a); [exact (Hn _ H)|discriminate H].
      * destruct (isAndOr a); [exact (Hn _ H)|discriminate H].
Qed.

Lemma no_filter_reference (s : string) :
  allChars isPlaceholder s = true -> matchFDigits 0 s = [].
Proof.
  induction s as [|c s IH]; [reflexivity|]. simpl allChars. intros H.
  apply andb_true_iff in H. destruct H as [Hc Hs].
  assert (E : Ascii.eqb (upperChar c) "F" = false).
  { clear -Hc. destruct c as [[] [] [] [] [] [] [] []]; vm_compute in Hc |- *; congruence. }
  cbn [matchFDigits]. rewrite E. simpl andb. cbv iota. apply IH. exact Hs.
Qed.

Lemma no_foreign_character (s : string) :
  allChars isPlaceholder s = true ->
  filterString (fun c => negb (isPlaceholder c)) s = "".
Proof.
  induction s as [|c s IH]; [reflexivity|]. simpl. intros H.
  apply andb_true_iff in H. destruct H as [Hc Hs]. rewrite Hc. simpl. apply IH. exact Hs.
Qed.

(** Parentheses: what the count sees of a text of the token set. *)
Lemma word_not_paren (c : ascii) :
  isWordChar c = true -> Ascii.eqb c "(" = false /\ Ascii.eqb c ")" = false.
Proof. destruct c as [[] [] [] [] [] [] [] []]; vm_compute; split; congruence. Qed.

Lemma parenScan_word (w rest : string) (n : Z) :
  allChars isWordChar w = true -> 0 <= n -> parenScan n (w ++ rest) = parenScan n rest.
Proof.
  intros Hw Hn. induction w as [|c w IH]; [reflexivity|].
  simpl in Hw. apply andb_true_iff in Hw. destruct Hw as [Hc Hw].
  destruct (word_not_paren c Hc) as [Ho Hcl].
  simpl. rewrite Ho, Hcl. destruct (Z.ltb_spec n 0) as [Hlt|_]; [lia|]. apply IH. exact Hw.
Qed.

Lemma word_token_no_paren (labels : list string) (w : string) (t : option Token) :
  tokenOfChunk labels (CWord w) = Some t -> exists tok, t = Some tok /\ parenText tok = "".
Proof.
  simpl. destruct (w =? "AND")%string; [intros H; injection H as <-; eexists; split; reflexivity|].
  destruct (w =? "OR")%string; [intros H; injection H as <-; eexists; split; reflexivity|].
  destruct (w =? "NOT")%string; [intros H; injection H as <-; eexists; split; reflexivity|].
  destruct (find _ labels); [|discriminate].
  intros H; injection H as <-; eexists; split; reflexivity.
Qed.

Lemma parenScan_chunks (labels : list string) (cs : list Chunk) :
  canonical cs = true ->
  forall (ts : list Token) (n : Z),
    tokensOfChunks labels cs = Some ts -> 0 <= n ->
    parenScan n (render cs) = parenScan n (parens ts).
Proof.
  induction cs as [|ch cs IH]; intros Hc ts n Ht Hn.
  - simpl in Ht. injection Ht as <-. reflexivity.
  - simpl in Ht.
    destruct (tokenOfChunk labels ch) as [t|] eqn:Et; [|discriminate].
    destruct (tokensOfChunks labels cs) as [ts'|] eqn:Ets; [|destruct t; discriminate].
    assert (Hcs : canonical cs = true).
    { destruct ch; simpl in Hc; apply andb_true_iff in Hc; tauto. }
    destruct ch as [w|c].
    + destruct (word_token_no_paren labels w t Et) as (tok & -> & Hp).
      injection Ht as <-. simpl render. simpl parens. rewrite Hp. simpl append.
      simpl in Hc. apply andb_true_iff in Hc. destruct Hc as [Hc _].
      apply andb_true_iff in Hc. destruct Hc as [Hw _].
      unfold wordlike in Hw. apply andb_true_iff in Hw. destruct Hw as [_ Hw].
      rewrite (parenScan_word w _ n Hw Hn). apply IH; [exact Hcs|reflexivity|exact Hn].
    + simpl in Et.
      destruct (Ascii.eqb_spec c " ") as [->|_].
      { injection Et as <-. injection Ht as <-. simpl.
        destruct (Z.ltb_spec n 0) as [Hlt|_]; [lia|].
        apply IH; [exact Hcs|reflexivity|exact Hn]. }
      destruct (Ascii.eqb_spec c "(") as [->|_].
      { injection Et as <-. injection Ht as <-. simpl.
        destruct (Z.ltb_spec (n + 1) 0) as [Hlt|_]; [lia|].
        apply IH; [exact Hcs|reflexivity|lia]. }
      destruct (Ascii.eqb_spec c ")") as [->|_]; [|discriminate].
      injection Et as <-. injection Ht as <-. simpl.
      destruct (Z.ltb_spec (n - 1) 0) as [Hlt|Hge]; [reflexivity|].
      apply IH; [exact Hcs|reflexivity|lia].
Qed.

Lemma parens_app (a b : list Token) : parens (a ++ b) = (parens a ++ parens b)%string.
Proof.
  induction a as [|t a IH]; simpl; [reflexivity|].
  rewrite IH, append_assoc. reflexivity.
Qed.

(** The parentheses of a derivation are balanced. *)
Lemma derivations_balance (k : Kind) (ts : list Token) (a : Ast) :
  derives k ts a ->
  forall (n : Z) (rest : string), 0 <= n ->
    parenScan n (parens ts ++ rest) = parenScan n rest.
Proof.
  induction 1 as [l|ts a D IH|ts a D IH|ts1 ts2 a b D1 IH1 D2 IH2|acc
                  |acc ts1 ts2 a b D1 IH1 D2 IH2|ts1 ts2 a b D1 IH1 D2 IH2|acc
                  |acc ts1 ts2 a b D1 IH1 D2 IH2]; intros n rest Hn.
  - reflexivity.
  - simpl parens. simpl append. apply IH. exact Hn.
  - change (parens (TkOpen :: ts ++ [TkClose]) ++ rest)%string
      with (String "(" (parens (ts ++ [TkClose]) ++ rest)).
    rewrite parens_app, append_assoc.
    change (parens [TkClose] ++ rest)%string with (String ")" rest).
    simpl parenScan at 1.
    destruct (Z.ltb_spec (n + 1) 0) as [Hlt|_]; [lia|].
    rewrite IH by lia. simpl.
    destruct (Z.ltb_spec (n + 1 - 1) 0) as [Hlt|_]; [lia|].
    f_equal. lia.
  - rewrite parens_app, append_assoc. rewrite IH1 by exact Hn. apply IH2. exact Hn.
  - reflexivity.
  - simpl parens. simpl append.
    rewrite parens_app, append_assoc. rewrite IH1 by exact Hn. apply IH2. exact Hn.
  - rewrite parens_app, append_assoc. rewrite IH1 by exact Hn. apply IH2. exact Hn.
  - reflexivity.
  - simpl parens. simpl append.
    rewrite parens_app, append_assoc. rewrite IH1 by exact Hn. apply IH2. exact Hn.
Qed.

(** White space around a text of the token set. *)
Lemma space_not_word (c : ascii) : isSpace c = true -> isWordChar c = false.
Proof. destruct c as [[] [] [] [] [] [] [] []]; vm_compute; congruence. Qed.

Lemma space_token (labels : list string) (c : ascii) (t : option Token) :
  isSpace c = true -> tokenOfChunk labels (CSym c) = Some t -> t = None.
Proof.
  destruct c as [[] [] [] [] [] [] [] []]; vm_compute; intros H E; try discriminate H;
    try discriminate E; injection E as <-; reflexivity.
Qed.

Lemma chunks_cons (c : ascii) (s : string) :
  chunks (String c s) = if isWordChar c then attach c (chunks s) else CSym c :: chunks s.
Proof.
  simpl. destruct (isWordChar c); [|reflexivity].
  destruct (chunks s) as [|[w|d] r]; reflexivity.
Qed.

Lemma tokens_trimStart (labels : list string) (s : string) (ts : list Token) :
  tokensOfChunks labels (chunks s) = Some ts ->
  tokensOfChunks labels (chunks (trimStart s)) = Some ts.
Proof.
  induction s as [|c s IH]; intros H; [exact H|].
  simpl trimStart. destruct (isSpace c) eqn:Es; [|exact H].
  rewrite chunks_cons, (space_not_word c Es) in H. cbn [tokensOfChunks] in H.
  destruct (tokenOfChunk labels (CSym c)) as [t|] eqn:Et; [|discriminate H].
  rewrite (space_token labels c t Es Et) in H.
  destruct (tokensOfChunks labels (chunks s)) as [ts'|]; [|discriminate H].
  apply IH. exact H.
Qed.

Lemma attach_app_symbols (c : ascii) (l : list Chunk) (sp : list ascii) :
  attach c (l ++ map CSym sp) = (attach c l ++ map CSym sp)%list.
Proof. destruct l as [|[w|d] r]; [destruct sp|..]; reflexivity. Qed.

(** The cut of a text is the cut of the text trimmed at its end, and the
    white space that was there. *)
Lemma chunks_trimEnd (s : string) :
  exists sp, Forall (fun c => isSpace c = true) sp
             /\ chunks s = (chunks (trimEnd s) ++ map CSym sp)%list.
Proof.
  induction s as [|c s (sp & Hsp & IH)]; [exists []; split; [constructor|reflexivity]|].
  simpl trimEnd. destruct (isSpace c && (trimEnd s =? "")%string) eqn:E.
  - apply andb_true_iff in E. destruct E as [Es Et]. apply String.eqb_eq in Et.
    rewrite Et in IH. exists (c :: sp). split; [constructor; assumption|].
    rewrite chunks_cons, (space_not_word c Es), IH. reflexivity.
  - exists sp. split; [exact Hsp|].
    rewrite !chunks_cons, IH. destruct (isWordChar c); [apply attach_app_symbols|reflexivity].
Qed.

Lemma tokens_spaces (labels : list string) (sp : list ascii) (ts : list Token) :
  Forall (fun c => isSpace c = true) sp ->
  tokensOfChunks labels (map CSym sp) = Some ts -> ts = [].
Proof.
  intros H. revert ts. induction H as [|c sp Hc _ IH]; intros ts Ht;
    cbn [map tokensOfChunks] in Ht.
  - injection Ht as <-. reflexivity.
  - destruct (tokenOfChunk labels (CSym c)) as [t|] eqn:Et; [|discriminate Ht].
    rewrite (space_token labels c t Hc Et) in Ht.
    destruct (tokensOfChunks labels (map CSym sp)) as [ts'|]; [|discriminate Ht].
    injection Ht as <-. apply IH. reflexivity.
Qed.

Lemma tokens_drop_spaces (labels : list string) (cs : list Chunk) (sp : list ascii) :
  Forall (fun c => isSpace c = true) sp ->
  forall ts, tokensOfChunks labels (cs ++ map CSym sp) = Some ts ->
             tokensOfChunks labels cs = Some ts.
Proof.
  intros Hsp. induction cs as [|ch cs IH]; intros ts Ht.
  - simpl in Ht |- *. rewrite (tokens_spaces labels sp ts Hsp Ht). reflexivity.
  - cbn [app tokensOfChunks] in Ht |- *.
    destruct (tokenOfChunk labels ch) as [t|]; [|discriminate Ht].
    destruct (tokensOfChunks labels (cs ++ map CSym sp)) as [ts'|];
      [|destruct t; discriminate Ht].
    rewrite (IH ts' eq_refl). exact Ht.
Qed.

(** The tokens of a text are those of the text trimmed. *)
Lemma tokens_trim (labels : list string) (s : string) (ts : list Token) :
  tokensOfChunks labels (chunks s) = Some ts ->
  tokensOfChunks labels (chunks (trim s)) = Some ts.
Proof.
  intros H. unfold trim. apply tokens_trimStart in H.
  destruct (chunks_trimEnd (trimStart s)) as (sp & Hsp & E).
  rewrite E in H. apply (tokens_drop_spaces labels _ sp Hsp ts H).
Qed.

Lemma alternates_head (s : string) :
  alternates true s = true ->
  match s with String c _ => isAndOr c | EmptyString => false end = false.
Proof.
  destruct s as [|c s]; [reflexivity|]. simpl. intros H.
  destruct (placeholder_kinds c) as (Kb & Kx & _).
  destruct (isBang c); [apply Kb; reflexivity|].
  destruct (isX c); [apply Kx; reflexivity|discriminate H].
Qed.

Lemma alternates_end (s : string) :
  alternates true s = true ->
  match lastChar s with Some c => isAndOr c || isBang c | None => false end = false.
Proof.
  intros H. pose proof (alternates_last true s H) as L.
  destruct (lastChar s) as [c|]; [|reflexivity].
  destruct (placeholder_kinds c) as (_ & Kx & _). destruct (Kx L) as [-> ->]. reflexivity.
Qed.

Ltac placeholder_pairs :=
  intros a b Ha Hb;
  pose proof (placeholder_kinds a) as Ka; pose proof (placeholder_kinds b) as Kb;
  destruct (isBang a), (isX a), (isAndOr a), (isBang b), (isX b), (isAndOr b);
  simpl in *; intuition congruence.

Lemma alternates_rules (st : bool) (s : string) :
  alternates st s = true ->
  anyAdjacent isAndOr isAndOr s = false
  /\ anyAdjacent isBang isAndOr s = false
  /\ anyAdjacent isX isBang s = false
  /\ anyAdjacent isX isX s = false.
Proof.
  intros H. repeat split.
  - apply (alternates_pairs isAndOr isAndOr) with (st := st); [placeholder_pairs..|exact H].
  - apply (alternates_pairs isBang isAndOr) with (st := st); [placeholder_pairs..|exact H].
  - apply (alternates_pairs isX isBang) with (st := st); [placeholder_pairs..|exact H].
  - apply (alternates_pairs isX isX) with (st := st); [placeholder_pairs..|exact H].
Qed.

(** A text whose placeholders alternate and whose parentheses are
    balanced is valid. *)
Lemma validateCustomLogic_alternating (e : string) (labels : list string) :
  trim e <> "" ->
  parenScan 0 (toUpperCase (trim e)) = Some 0 ->
  alternates true (simplify (toUpperCase (trim e)) labels) = true ->
  validateCustomLogic e labels = Valid.
Proof.
  intros Hne Hp Ha. unfold validateCustomLogic.
  assert (He : (e =? "")%string = false).
  { apply String.eqb_neq. intros ->. apply Hne. reflexivity. }
  apply String.eqb_neq in Hne. rewrite He, Hne. simpl orb. cbv iota.
  rewrite Hp. simpl negb. cbv iota zeta.
  pose proof (alternates_placeholders true _ Ha) as Hall.
  rewrite (no_filter_reference _ Hall). simpl negb. cbv iota.
  rewrite (no_foreign_character _ Hall). simpl negb. rewrite andb_false_r.
  rewrite (alternates_head _ Ha), (alternates_end _ Ha).
  destruct (alternates_rules true _ Ha) as (R1 & R2 & R3 & R4).
  rewrite R1, R2, R3, R4. reflexivity.
Qed.

(** X14.  Every expression of the grammar is valid: when the evaluator of
    the specification succeeds on an expression (it reads as tokens of the
    closed set and parses by the grammar), validateCustomLogic accepts the
    expression for the declared labels.  The labels are words, distinct
    without regard to case, and none of them a keyword. *)
Theorem grammar_expressions_are_valid :
  forall (e : string) (fr : JsObject bool) (b : bool),
    declaredLabels fr ->
    properEvaluate e fr = Some b ->
    validateCustomLogic e (map fst fr) = Valid.
Proof.
  intros e fr b [Hl _] H.
  apply properEvaluate_derives in H. destruct H as (ts & a & Ht & D & _).
  assert (Hw : Forall (fun l => wordlike l = true) (map fst fr)).
  { eapply Forall_impl; [|exact Hl]. intros l [Hw _]. exact Hw. }
  assert (Hk : Forall (fun l => isKeyword (toUpperCase l) = false) (map fst fr)).
  { eapply Forall_impl; [|exact Hl]. intros l [_ Hk]. exact Hk. }
  unfold tokenize in Ht. apply tokens_trim in Ht. rewrite <- toUpperCase_trim in Ht.
  pose proof (derives_nonempty _ _ _ D) as Hlen. simpl in Hlen.
  apply validateCustomLogic_alternating.
  - intros E. rewrite E in Ht. simpl in Ht. injection Ht as <-. simpl in Hlen. lia.
  - rewrite <- (render_chunks (toUpperCase (trim e))).
    rewrite (parenScan_chunks _ _ (canonical_chunks _) ts 0 Ht) by lia.
    rewrite <- (append_nil_r (parens ts)).
    rewrite (derivations_balance _ _ _ D 0 "") by lia. reflexivity.
  - rewrite (simplify_chunks _ _ Hw), (normalized_placeholders _ _ ts Hk Ht).
    rewrite <- (append_nil_r (placeholders ts)).
    apply (derivations_alternate _ _ _ D "" eq_refl).
Qed.

Lemma grammar_expressions_are_valid_witness :
  validateCustomLogic " f1 and (not F2 or F1) " (map fst oneTrueOneFalse) = Valid.
Proof.
  apply (grammar_expressions_are_valid " f1 and (not F2 or F1) " oneTrueOneFalse true).
  - split.
    + repeat constructor.
    + simpl. repeat constructor; simpl; intuition discriminate.
  - vm_compute. reflexivity.
Defined.


(** ** Value resolution: splitting what was joined *)


Lemma split_at_separator (c : ascii) (a b : string) :
  separatorFree c a = true -> split c (a ++ String c b) = a :: split c b.
Proof.
  unfold separatorFree. induction a as [|x a IH]; simpl; intros H.
  - rewrite Ascii.eqb_refl. reflexivity.
  - apply andb_true_iff in H. destruct H as [Hx Ha]. apply negb_true_iff in Hx.
    rewrite Hx, (IH Ha). reflexivity.
Qed.



Lemma separatorFree_app (c : ascii) (a b : string) :
  separatorFree c (a ++ b) = separatorFree c a && separatorFree c b.
Proof. unfold separatorFree. apply allChars_app. Qed.

Lemma separatorFree_join (c sep : ascii) (parts : list string) :
  sep <> c -> Forall (fun x => separatorFree c x = true) parts ->
  separatorFree c (join (String sep "") parts) = true.
Proof.
  intros Hsep H. induction H as [|x l Hx Hl IH]; [reflexivity|].
  destruct l as [|y l]; [exact Hx|].
  assert (Es : separatorFree c (String sep "") = true).
  { unfold separatorFree. cbn [allChars]. apply Ascii.eqb_neq in Hsep. rewrite Hsep.
    reflexivity. }
  rewrite join_cons, !separatorFree_app, Hx, IH, Es. reflexivity.
Qed.






Lemma atoms_free (fs cs ss : ascii) (subs : list string) :
  Forall (fun x => isAtom fs cs ss x = true) subs ->
  Forall (fun x => separatorFree fs x = true) subs
  /\ Forall (fun x => separatorFree cs x = true) subs
  /\ Forall (fun x => separatorFree ss x = true) subs.
Proof.
  intros H. repeat split; (eapply Forall_impl; [|exact H]); intros x Hx;
    unfold isAtom in Hx; apply andb_true_iff in Hx; destruct Hx as [Hx H3];
    apply andb_true_iff in Hx; destruct Hx as [H1 H2]; assumption.
Qed.

Lemma writeComponent_free (c fs cs ss : ascii) (subs : list string) :
  ss <> c -> Forall (fun x => separatorFree c x = true) subs ->
  separatorFree c (writeComponent ss subs) = true.
Proof. intros Hne H. apply separatorFree_join; assumption. Qed.



(** X16.  The resolver on a raw line and the resolver on the segment
    stored for that line agree at every address, the second field of a
    header apart: there the line resolver takes the four characters after
    the separator and the segment resolver the first stored field, which
    agree when the encoding block has four characters without the
    separator and the separator follows. *)
Theorem line_and_segment_resolvers_agree :
  forall (st : ParserState) (id line : string) (n : Z) (c sc : option Z) (cs ss : ascii),
    (id <> "MSH" \/ n <> 2 ->
     extractValueFromSegment (segmentOfLine st id line) n c sc cs ss
     = extractValueFromLine line id n c sc (curFieldSeparator st) cs ss)
    /\ (forall (enc rest : string),
          String.length enc = 4%nat -> separatorFree (curFieldSeparator st) enc = true ->
          line = ("MSH" ++ String (curFieldSeparator st)
                            (enc ++ String (curFieldSeparator st) rest))%string ->
          extractValueFromSegment (segmentOfLine st "MSH" line) 2 c sc cs ss = enc
          /\ extractValueFromLine line "MSH" 2 c sc (curFieldSeparator st) cs ss = enc).
Proof.
  intros st id line n c sc cs ss. split.
  - intros H. unfold extractValueFromSegment, extractValueFromLine, segmentOfLine.
    cbn [segmentId fields fieldSeparator].
    destruct (String.eqb_spec id "MSH") as [E|_]; [|reflexivity].
    destruct (Z.eqb_spec n 1) as [_|_]; [reflexivity|].
    destruct (Z.eqb_spec n 2) as [E2|_]; [|reflexivity].
    destruct H as [H|H]; contradiction.
  - intros enc rest Hlen Hfree ->. split.
    + unfold extractValueFromSegment, segmentOfLine. cbn [segmentId fields fieldSeparator].
      simpl. rewrite (split_at_separator _ enc rest Hfree). reflexivity.
    + unfold extractValueFromLine. simpl.
      destruct enc as [|a [|b [|d [|x [|y enc]]]]]; try discriminate Hlen. reflexivity.
Qed.

Lemma line_and_segment_resolvers_agree_witness :
  extractValueFromSegment (segmentOfLine initialState "MSH" "MSH|^~\&|APP|FAC") 4 None None
    "^" "&" = "FAC".
Proof.
  destruct (line_and_segment_resolvers_agree initialState "MSH" "MSH|^~\&|APP|FAC" 4 None None
              "^" "&") as [H _].
  rewrite H by (right; discriminate). reflexivity.
Defined.


(** ** The messages of a text *)

Lemma processLine_count (ids : list string) (st : ParserState) (line : string) :
  List.length (pushCurrent (processLine ids st line))
  = (List.length (pushCurrent st) + (if opensMessage line then 1 else 0))%nat.
Proof.
  unfold processLine, opensMessage.
  destruct (trim line =? "")%string eqn:E.
  - apply String.eqb_eq in E. rewrite E. simpl. lia.
  - destruct (substring2 0 3 (trim line) =? "MSH")%string eqn:H.
    + cbn [openMessage currentMessage].
      destruct (existsb (String.eqb (substring2 0 3 (trim line))) ids);
        unfold pushCurrent at 1, openMessage; cbn [currentMessage messages];
        rewrite length_app; simpl; lia.
    + destruct (currentMessage st) as [m|] eqn:Em; [|lia].
      destruct (existsb (String.eqb (substring2 0 3 (trim line))) ids); [|lia].
      unfold pushCurrent. cbn [currentMessage messages]. rewrite Em.
      rewrite !length_app. simpl. lia.
Qed.

Lemma parse_count (ids : list string) (lines : list string) (st : ParserState) :
  List.length (pushCurrent (fold_left (processLine ids) lines st))
  = (List.length (pushCurrent st) + List.length (filter opensMessage lines))%nat.
Proof.
  revert st. induction lines as [|l lines IH]; intros st; simpl; [lia|].
  rewrite IH, processLine_count. destruct (opensMessage l); simpl; lia.
Qed.

(** X17.  The messages of a text are counted by its header lines: one
    message for each line whose text, without the blanks around it,
    starts with MSH, whether or not the table of known kinds lists MSH
    and however short the header is; the lines before the first header
    open nothing. *)
Theorem one_message_per_header_line :
  forall (HL7_SEGMENT_IDS : list string) (content : string),
    List.length (parseMessagesForFiltering HL7_SEGMENT_IDS content)
    = List.length (filter opensMessage (splitLines content)).
Proof.
  intros ids content. unfold parseMessagesForFiltering.
  rewrite parse_count. reflexivity.
Qed.

Lemma splitAfterId_nonempty (c : ascii) (line : string) : splitAfterId c line <> [].
Proof.
  unfold splitAfterId. destruct (startsWithChar c (substringFrom 3 line));
    apply split_nonempty.
Qed.

Lemma segmentOfLine_segmentOf (ids : list string) (st : ParserState) (m : Message)
    (id line : string) :
  existsb (String.eqb id) ids = true ->
  msgFieldSeparator m = curFieldSeparator st ->
  msgComponentSeparator m = curComponentSeparator st ->
  msgSubcomponentSeparator m = curSubcomponentSeparator st ->
  forall segs, segmentOf ids (mkMessage (msgFieldSeparator m) (msgComponentSeparator m)
                                (msgSubcomponentSeparator m) segs)
                 (segmentOfLine st id line).
Proof.
  intros Hid Hf Hc Hs segs. unfold segmentOf, segmentOfLine.
  cbn [segmentId fields fieldSeparator componentSeparator subcomponentSeparator
       msgFieldSeparator msgComponentSeparator msgSubcomponentSeparator].
  repeat split; try (symmetry; assumption).
  - apply existsb_exists in Hid. destruct Hid as (x & Hx & E).
    apply String.eqb_eq in E. subst x. exact Hx.
  - destruct (id =? "MSH")%string; [apply split_nonempty|apply splitAfterId_nonempty].
Qed.

Lemma processLine_invariant (ids : list string) (st : ParserState) (line : string) :
  parserInvariant ids st -> parserInvariant ids (processLine ids st line).
Proof.
  intros [Hm Hc]. unfold processLine.
  destruct (trim line =? "")%string; [split; assumption|].
  set (t := trim line). set (id := substring2 0 3 t).
  destruct (id =? "MSH")%string eqn:Hh.
  - (* a header: the open message is closed, a new one is opened *)
    assert (Hclosed : Forall (wellFormed ids) (pushCurrent st)).
    { unfold pushCurrent. destruct (currentMessage st) as [m|]; [|exact Hm].
      apply Forall_app. split; [exact Hm|]. constructor; [tauto|constructor]. }
    cbn [openMessage currentMessage].
    set (st' := openMessage st t).
    destruct (existsb (String.eqb id) ids) eqn:Hid.
    + split; [exact Hclosed|]. cbn [currentMessage curFieldSeparator curComponentSeparator
                                     curSubcomponentSeparator].
      split; [|repeat split].
      unfold wellFormed, pushSegment. cbn [segments app tl]. split; [|constructor].
      constructor; [|constructor].
      apply (segmentOfLine_segmentOf ids (openMessage st t)
               (mkMessage _ _ _ []) id t Hid); reflexivity.
    + split; [exact Hclosed|]. cbn [currentMessage]. split; [|repeat split].
      split; constructor.
  - (* another line *)
    destruct (currentMessage st) as [m|] eqn:Em; [|split; [exact Hm|rewrite Em; exact I]].
    destruct (existsb (String.eqb id) ids) eqn:Hid; [|split; [exact Hm|rewrite Em; exact Hc]].
    destruct Hc as ([Hsegs Htl] & Hf & Hcs & Hss).
    split; [exact Hm|]. cbn [currentMessage curFieldSeparator curComponentSeparator
                              curSubcomponentSeparator].
    split; [|repeat split; assumption].
    unfold wellFormed, pushSegment. cbn [segments]. split.
    + apply Forall_app. split.
      * eapply Forall_impl; [|exact Hsegs]. intros s Hs'. exact Hs'.
      * constructor; [|constructor].
        apply (segmentOfLine_segmentOf ids st m id t Hid Hf Hcs Hss).
    + assert (Hnew : segmentId (segmentOfLine st id t) <> "MSH").
      { unfold segmentOfLine. cbn [segmentId]. apply String.eqb_neq. exact Hh. }
      destruct (segments m) as [|a l]; [constructor|].
      cbn [app tl] in *. apply Forall_app. split; [exact Htl|].
      constructor; [exact Hnew|constructor].
Qed.

Lemma parse_invariant (ids : list string) (lines : list string) (st : ParserState) :
  parserInvariant ids st -> parserInvariant ids (fold_left (processLine ids) lines st).
Proof.
  revert st. induction lines as [|l lines IH]; intros st H; simpl; [exact H|].
  apply IH, processLine_invariant, H.
Qed.

(** X18.  Every message the parser stores is well formed: each of its
    segments is of a kind listed in the table of known kinds, carries the
    three separators of the message, and has at least one field; a header
    segment is the first segment of its message and occurs nowhere
    else. *)
Theorem parsed_messages_are_well_formed :
  forall (HL7_SEGMENT_IDS : list string) (content : string),
    Forall (wellFormed HL7_SEGMENT_IDS) (parseMessagesForFiltering HL7_SEGMENT_IDS content).
Proof.
  intros ids content. unfold parseMessagesForFiltering.
  assert (H0 : parserInvariant ids initialState) by (split; [constructor|exact I]).
  pose proof (parse_invariant ids (splitLines content) initialState H0) as [Hm Hc].
  unfold pushCurrent.
  destruct (currentMessage (fold_left (processLine ids) (splitLines content) initialState))
    as [m|]; [|exact Hm].
  apply Forall_app. split; [exact Hm|]. constructor; [tauto|constructor].
Qed.

(** ** The counts of a run *)

(** The counts of an extraction, with or without a field to analyse. *)
Lemma extractFieldValues_counts (ids : list string) (globals : Globals)
    (content fieldRef : string) (filtersConfig : option FiltersConfig)
    (r : ExtractionResult) :
  extractFieldValues ids globals content fieldRef filtersConfig = Extracted r ->
  totalMessages r = List.length (parseMessagesForFiltering ids content)
  /\ filteredMessages r
     = List.length (selectedMessages ids globals content filtersConfig)
  /\ (filterApplied r = false ->
      selectedMessages ids globals content filtersConfig
      = parseMessagesForFiltering ids content).
Proof.
  intros H. unfold extractFieldValues in H.
  destruct (negb _ && negb _); [discriminate|].
  unfold selectedMessages.
  destruct filtersConfig as [cfg|].
  - destruct (0 <? List.length (filters cfg))%nat.
    + destruct (checkFilters cfg); [discriminate|].
      injection H as <-. simpl. repeat split. discriminate.
    + injection H as <-. simpl. repeat split.
  - injection H as <-. simpl. repeat split.
Qed.

Lemma selectedMessages_length (ids : list string) (globals : Globals) (content : string)
    (filtersConfig : option FiltersConfig) :
  (List.length (selectedMessages ids globals content filtersConfig)
   <= List.length (parseMessagesForFiltering ids content))%nat.
Proof.
  unfold selectedMessages. destruct filtersConfig as [cfg|]; [|lia].
  destruct (0 <? List.length (filters cfg))%nat; [|lia].
  unfold applyFilters. apply filter_length_le.
Qed.

Lemma messageExtractions_not_empty (p : FieldReference) (i : nat) (m : Message) :
  exists it rest, messageExtractions p i m = it :: rest.
Proof.
  pose proof (messageExtractions_count p i m) as H.
  destruct (messageExtractions p i m) as [|it rest]; [cbn [List.length] in H; lia|eauto].
Qed.

Lemma collected_indices (p : FieldReference) (msgs : list Message) (k i : nat) :
  In i (map messageIndex (collectIndexed (messageExtractions p) k msgs))
  <-> (k <= i < k + List.length msgs)%nat.
Proof.
  revert k. induction msgs as [|m msgs IH]; intros k; simpl.
  - split; [tauto|lia].
  - rewrite map_app, in_app_iff, IH. split.
    + intros [H|H]; [|lia].
      apply in_map_iff in H. destruct H as (it & <- & Hin).
      rewrite (messageExtractions_index p k m it Hin). lia.
    + intros H. destruct (Nat.eq_dec i k) as [->|Hne]; [left|right; lia].
      destruct (messageExtractions_not_empty p k m) as (it & rest & E).
      apply in_map_iff. exists it. split.
      * apply (messageExtractions_index p k m). rewrite E. left. reflexivity.
      * rewrite E. left. reflexivity.
Qed.

Lemma collected_length (p : FieldReference) (msgs : list Message) (k : nat) :
  (List.length msgs <= List.length (collectIndexed (messageExtractions p) k msgs))%nat.
Proof.
  revert k. induction msgs as [|m msgs IH]; intros k; simpl; [lia|].
  rewrite length_app. pose proof (messageExtractions_count p k m). specialize (IH (S k)). lia.
Qed.

(** X19.  The counts of a run that analyses a field.  The total is the
    number of header lines of the text; the filtered count is no more,
    and the same when no filter was applied; every filtered message has
    at least one extraction, and the message indices of the extractions
    are the positions 0 .. filtered count - 1 in the filtered list (not
    the positions in the text). *)
Theorem every_selected_message_is_counted :
  forall (HL7_SEGMENT_IDS : list string) (globals : Globals) (content fieldRef : string)
         (filtersConfig : option FiltersConfig) (r : ExtractionResult) (p : FieldReference),
    parseFieldReference fieldRef = Some p ->
    extractFieldValues HL7_SEGMENT_IDS globals content fieldRef filtersConfig = Extracted r ->
    totalMessages r = List.length (filter opensMessage (splitLines content))
    /\ (filteredMessages r <= totalMessages r)%nat
    /\ (filterApplied r = false -> filteredMessages r = totalMessages r)
    /\ (forall i, In i (map messageIndex (results r)) <-> (i < filteredMessages r)%nat)
    /\ (filteredMessages r <= List.length (results r))%nat.
Proof.
  intros ids globals content fieldRef cfg r p Hp H.
  destruct (extractFieldValues_counts ids globals content fieldRef cfg r H)
    as (Ht & Hf & Hsame).
  destruct (extractFieldValues_results ids globals content fieldRef cfg r p Hp H)
    as (Hres & _ & _).
  split; [rewrite Ht; unfold parseMessagesForFiltering; rewrite parse_count; reflexivity|].
  split; [rewrite Ht, Hf; apply selectedMessages_length|].
  split; [intros Hno; rewrite Ht, Hf, (Hsame Hno); reflexivity|].
  split.
  - intros i. rewrite Hres, Hf, collected_indices. lia.
  - rewrite Hres, Hf. apply collected_length.
Qed.

Lemma every_selected_message_is_counted_witness :
  exists r,
    extractFieldValues sampleSegmentIds noGlobals threeMessages "PID.3" None = Extracted r
    /\ totalMessages r = 3%nat
    /\ filteredMessages r = 3%nat
    /\ (forall i, In i (map messageIndex (results r)) <-> (i < 3)%nat)
    /\ (3 <= List.length (results r))%nat.
Proof.
  assert (Hp : parseFieldReference "PID.3" = Some (mkFieldReference "PID" 3 None None))
    by (vm_compute; reflexivity).
  destruct (extractFieldValues sampleSegmentIds noGlobals threeMessages "PID.3" None)
    as [e|r] eqn:E.
  { vm_compute in E. discriminate. }
  destruct (every_selected_message_is_counted sampleSegmentIds noGlobals threeMessages
              "PID.3" None r (mkFieldReference "PID" 3 None None) Hp E)
    as (Ht & _ & Hsame & Hidx & Hlen).
  destruct (extractFieldValues_unfiltered sampleSegmentIds noGlobals threeMessages "PID.3" r E)
    as [Hno _].
  assert (Ht' : totalMessages r = 3%nat) by (rewrite Ht; vm_compute; reflexivity).
  assert (Hf : filteredMessages r = 3%nat) by (rewrite (Hsame Hno); exact Ht').
  exists r. split; [reflexivity|]. split; [exact Ht'|]. split; [exact Hf|].
  rewrite <- Hf. split; [exact Hidx|exact Hlen].
Defined.

(** X20.  The flag segmentNotFound of the statistics of a field.  Every
    filtered message has an extraction, also a message without a segment
    of the kind asked for, so the flag is raised only when the text has
    no header line at all and no filter was applied: a kind that occurs
    in no message of the text does not raise it. *)
Theorem segment_not_found_means_no_message :
  forall (HL7_SEGMENT_IDS : list string) (globals : Globals) (content fieldRef : string)
         (filtersConfig : option FiltersConfig) (r : ExtractionResult) (p : FieldReference),
    parseFieldReference fieldRef = Some p ->
    extractFieldValues HL7_SEGMENT_IDS globals content fieldRef filtersConfig = Extracted r ->
    exists s,
      generateStatistics (Extracted r) = FieldStatistics s
      /\ (segmentNotFound s = true
          <-> filter opensMessage (splitLines content) = [] /\ filterApplied r = false)
      /\ (segmentNotFound s = true -> distinctValues s = [] /\ totalOccurrences s = 0%nat).
Proof.
  intros ids globals content fieldRef cfg r p Hp H.
  destruct (extractFieldValues_counts ids globals content fieldRef cfg r H)
    as (Ht & Hf & Hsame).
  destruct (extractFieldValues_results ids globals content fieldRef cfg r p Hp H)
    as (Hres & Hfo & _).
  unfold generateStatistics. rewrite Hfo. eexists. split; [reflexivity|].
  cbn [segmentNotFound distinctValues totalOccurrences].
  assert (Hempty : (List.length (results r) =? 0)%nat = true
                   <-> selectedMessages ids globals content cfg = []).
  { rewrite Nat.eqb_eq. split.
    - intros H0. pose proof (collected_length p (selectedMessages ids globals content cfg) 0)
        as Hl. rewrite <- Hres, H0 in Hl.
      destruct (selectedMessages ids globals content cfg); [reflexivity|simpl in Hl; lia].
    - intros E. rewrite Hres, E. reflexivity. }
  split.
  - rewrite andb_true_iff, negb_true_iff, Hempty. split.
    + intros [E Hno]. split; [|exact Hno].
      rewrite (Hsame Hno) in E. apply (f_equal (@List.length _)) in E.
      unfold parseMessagesForFiltering in E. rewrite parse_count in E. simpl in E.
      destruct (filter opensMessage (splitLines content)); [reflexivity|discriminate E].
    + intros [E Hno]. split; [|exact Hno].
      rewrite (Hsame Hno).
      pose proof (parse_count ids (splitLines content) initialState) as Hc.
      rewrite E in Hc. simpl in Hc.
      fold (parseMessagesForFiltering ids content) in Hc.
      destruct (parseMessagesForFiltering ids content); [reflexivity|discriminate Hc].
  - rewrite andb_true_iff. intros [E _]. apply Nat.eqb_eq in E.
    destruct (results r); [split; reflexivity|discriminate E].
Qed.

Lemma segment_not_found_means_no_message_witness :
  (exists r s,
     extractFieldValues sampleSegmentIds noGlobals noMessage "PID.3" None = Extracted r
     /\ generateStatistics (Extracted r) = FieldStatistics s
     /\ segmentNotFound s = true)
  /\ (exists r s,
        extractFieldValues sampleSegmentIds noGlobals threeMessages "OBX.3" None = Extracted r
        /\ generateStatistics (Extracted r) = FieldStatistics s
        /\ segmentNotFound s = false).
Proof.
  split.
  - assert (Hp : parseFieldReference "PID.3" = Some (mkFieldReference "PID" 3 None None))
      by (vm_compute; reflexivity).
    destruct (extractFieldValues sampleSegmentIds noGlobals noMessage "PID.3" None)
      as [e|r] eqn:E.
    { vm_compute in E. discriminate. }
    destruct (segment_not_found_means_no_message sampleSegmentIds noGlobals noMessage
                "PID.3" None r (mkFieldReference "PID" 3 None None) Hp E)
      as (s & Hs & Hiff & _).
    exists r, s. split; [reflexivity|]. split; [exact Hs|].
    apply Hiff. split; [vm_compute; reflexivity|].
    apply (extractFieldValues_unfiltered sampleSegmentIds noGlobals noMessage "PID.3" r E).
  - assert (Hp : parseFieldReference "OBX.3" = Some (mkFieldReference "OBX" 3 None None))
      by (vm_compute; reflexivity).
    destruct (extractFieldValues sampleSegmentIds noGlobals threeMessages "OBX.3" None)
      as [e|r] eqn:E.
    { vm_compute in E. discriminate. }
    destruct (segment_not_found_means_no_message sampleSegmentIds noGlobals threeMessages
                "OBX.3" None r (mkFieldReference "OBX" 3 None None) Hp E)
      as (s & Hs & Hiff & _).
    exists r, s. split; [reflexivity|]. split; [exact Hs|].
    destruct (segmentNotFound s); [|reflexivity].
    destruct Hiff as [Hiff _]. destruct (Hiff eq_refl) as [Hnone _].
    vm_compute in Hnone. discriminate Hnone.
Defined.


(** ** The table of values of the statistics *)

Lemma objGet_objSet {V : Type} (k k' : string) (v : V) (o : JsObject V) :
  objGet k (objSet k' v o) = if (k =? k')%string then Some v else objGet k o.
Proof.
  induction o as [|[k0 v0] o IH]; simpl; [reflexivity|].
  destruct (String.eqb_spec k' k0) as [->|Hne]; simpl.
  - destruct (k =? k0)%string; reflexivity.
  - rewrite IH. destruct (String.eqb_spec k k0) as [->|Hne'].
    + destruct (String.eqb_spec k0 k') as [E|_]; [symmetry in E; contradiction|reflexivity].
    + reflexivity.
Qed.

Lemma objSet_keys {V : Type} (k : string) (v : V) (o : JsObject V) :
  map fst (objSet k v o)
  = if existsb (String.eqb k) (map fst o) then map fst o else (map fst o ++ [k])%list.
Proof.
  induction o as [|[k0 v0] o IH]; simpl; [reflexivity|].
  destruct (String.eqb_spec k k0) as [->|_]; simpl; [reflexivity|].
  rewrite IH. destruct (existsb (String.eqb k) (map fst o)); reflexivity.
Qed.

Lemma objSet_NoDup {V : Type} (k : string) (v : V) (o : JsObject V) :
  NoDup (map fst o) -> NoDup (map fst (objSet k v o)).
Proof.
  intros H. rewrite objSet_keys.
  destruct (existsb (String.eqb k) (map fst o)) eqn:E; [exact H|].
  apply NoDup_app; [exact H|repeat constructor; simpl; tauto|].
  intros x Hx [<-|[]].
  assert (existsb (String.eqb k) (map fst o) = true); [|congruence].
  apply existsb_exists. exists k. split; [exact Hx|apply String.eqb_refl].
Qed.

Lemma objGet_In {V : Type} (k : string) (v : V) (o : JsObject V) :
  NoDup (map fst o) -> (In (k, v) o <-> objGet k o = Some v).
Proof.
  induction o as [|[k0 v0] o IH]; simpl; intros Hnd.
  - split; [tauto|discriminate].
  - inversion Hnd as [|? ? Hnot Hnd']; subst.
    destruct (String.eqb_spec k k0) as [->|Hne].
    + split.
      * intros [E|Hin]; [injection E as ->; reflexivity|].
        exfalso. apply Hnot. apply in_map_iff. exists (k0, v). split; [reflexivity|exact Hin].
      * intros E. injection E as ->. left. reflexivity.
    + rewrite <- (IH Hnd'). split; [|tauto].
      intros [E|Hin]; [injection E as -> ->; contradiction|exact Hin].
Qed.

(** The count stored for a value, 0 for a value that is not there. *)
Lemma countValue_get (o : JsObject nat) (k v : string) :
  objGet v (countValue o k)
  = if (v =? k)%string
    then Some (S (match objGet k o with Some n => n | None => 0%nat end))
    else objGet v o.
Proof.
  unfold countValue. destruct (objGet k o) as [n|]; rewrite objGet_objSet; reflexivity.
Qed.

Lemma countValue_NoDup (o : JsObject nat) (k : string) :
  NoDup (map fst o) -> NoDup (map fst (countValue o k)).
Proof. intros H. unfold countValue. destruct (objGet k o); apply objSet_NoDup, H. Qed.

Lemma occurrences_cons (v : string) (item : ResultItem) (rs : list ResultItem) :
  occurrences v (item :: rs)
  = ((if (displayValue (itemValue item) =? v)%string then 1 else 0) + occurrences v rs)%nat.
Proof.
  unfold occurrences. simpl.
  destruct (displayValue (itemValue item) =? v)%string; reflexivity.
Qed.

Lemma counted_values (rs : list ResultItem) (o : JsObject nat) (v : string) :
  objGet v (fold_left (fun valueCounts item =>
                         countValue valueCounts (displayValue (itemValue item))) rs o)
  = match occurrences v rs with
    | O => objGet v o
    | S n => Some (S n + match objGet v o with Some m => m | None => 0 end)%nat
    end.
Proof.
  revert o. induction rs as [|item rs IH]; intros o; [reflexivity|].
  cbn [fold_left]. rewrite IH, occurrences_cons, countValue_get.
  rewrite (String.eqb_sym v).
  destruct (String.eqb_spec (displayValue (itemValue item)) v) as [->|Hne].
  - destruct (occurrences v rs) as [|n]; simpl; [reflexivity|].
    f_equal. lia.
  - simpl. reflexivity.
Qed.

Lemma counted_NoDup (rs : list ResultItem) (o : JsObject nat) :
  NoDup (map fst o) ->
  NoDup (map fst (fold_left (fun valueCounts item =>
                               countValue valueCounts (displayValue (itemValue item))) rs o)).
Proof.
  revert o. induction rs as [|item rs IH]; intros o H; [exact H|].
  cbn [fold_left]. apply IH, countValue_NoDup, H.
Qed.

Lemma list_sum_permutation (l l' : list nat) :
  Permutation l l' -> list_sum l = list_sum l'.
Proof. intros H. induction H; simpl; lia. Qed.

Lemma sumCounts_list_sum (l : list (string * nat)) :
  sumCounts l = list_sum (map snd l).
Proof.
  unfold sumCounts.
  assert (G : forall a, fold_left (fun sum item => (sum + snd item)%nat) l a
                        = (a + list_sum (map snd l))%nat).
  { induction l as [|x l IH]; intros a; simpl; [lia|]. rewrite IH. lia. }
  apply G.
Qed.

Lemma objSet_sum (k : string) (v : nat) (o : JsObject nat) :
  (list_sum (map snd (objSet k v o))
   + match objGet k o with Some n => n | None => 0 end
   = list_sum (map snd o) + v)%nat.
Proof.
  induction o as [|[k0 v0] o IH]; simpl; [lia|].
  destruct (k =? k0)%string; simpl; lia.
Qed.

Lemma countValue_sum (o : JsObject nat) (k : string) :
  list_sum (map snd (countValue o k)) = S (list_sum (map snd o)).
Proof.
  unfold countValue. pose proof (objSet_sum k) as H.
  destruct (objGet k o) as [n|] eqn:E.
  - specialize (H (S n) o). rewrite E in H. lia.
  - specialize (H 1%nat o). rewrite E in H. lia.
Qed.

Lemma counted_sum (rs : list ResultItem) (o : JsObject nat) :
  list_sum (map snd (fold_left (fun valueCounts item =>
                                  countValue valueCounts (displayValue (itemValue item)))
                       rs o))
  = (list_sum (map snd o) + List.length rs)%nat.
Proof.
  revert o. induction rs as [|item rs IH]; intros o; simpl; [lia|].
  rewrite IH, countValue_sum. lia.
Qed.

Lemma insertByCount_permutation (x : string * nat) (l : list (string * nat)) :
  Permutation (insertByCount x l) (x :: l).
Proof.
  induction l as [|y l IH]; simpl; [apply Permutation_refl|].
  destruct (snd y <=? snd x)%nat; [apply Permutation_refl|].
  eapply perm_trans; [apply perm_skip, IH|apply perm_swap].
Qed.

Lemma sortByCountDesc_permutation (l : list (string * nat)) :
  Permutation (sortByCountDesc l) l.
Proof.
  unfold sortByCountDesc. induction l as [|x l IH]; simpl; [apply Permutation_refl|].
  eapply perm_trans; [apply insertByCount_permutation|apply perm_skip, IH].
Qed.

Lemma distinctValues_permutation (rs : list ResultItem) :
  Permutation (sortByCountDesc (objEntries (countValues rs))) (countValues rs).
Proof.
  eapply perm_trans; [apply sortByCountDesc_permutation|apply objEntries_permutation].
Qed.

(** X21.  The table of values counts every extraction once.  For
    extractions whose display values name no member of the prototype of
    objects, the table lists each display value once, with the number of
    extractions that display as it (the blank ones as (empty)); it lists
    nothing else, and its counts add up to the number of extractions,
    which is the base of the percentages. *)
Theorem table_counts_every_extraction :
  forall (r : ExtractionResult),
    filterOnly r = false ->
    plainValues (results r) ->
    exists s,
      generateStatistics (Extracted r) = FieldStatistics s
      /\ NoDup (map fst (distinctValues s))
      /\ (forall v n, In (v, n) (distinctValues s)
                      <-> n = occurrences v (results r) /\ (0 < n)%nat)
      /\ sumCounts (distinctValues s) = totalOccurrences s
      /\ totalOccurrences s = List.length (results r).
Proof.
  intros r Hfo _. unfold generateStatistics. rewrite Hfo. eexists. split; [reflexivity|].
  cbn [distinctValues totalOccurrences].
  pose proof (distinctValues_permutation (results r)) as Hperm.
  assert (Hnd : NoDup (map fst (countValues (results r))))
    by (apply counted_NoDup; constructor).
  split; [|split; [|split; [|reflexivity]]].
  - eapply Permutation_NoDup; [|exact Hnd].
    apply Permutation_sym, Permutation_map, Hperm.
  - intros v n. split.
    + intros Hin. apply (Permutation_in _ Hperm) in Hin.
      apply (objGet_In v n _ Hnd) in Hin. unfold countValues in Hin.
      rewrite counted_values in Hin. simpl objGet in Hin.
      destruct (occurrences v (results r)) as [|k]; [discriminate|].
      injection Hin as <-. split; lia.
    + intros [-> Hpos]. apply (Permutation_in _ (Permutation_sym Hperm)).
      apply (objGet_In _ _ _ Hnd). unfold countValues. rewrite counted_values.
      simpl objGet. destruct (occurrences v (results r)) as [|k]; [lia|].
      f_equal. lia.
  - rewrite sumCounts_list_sum.
    rewrite (list_sum_permutation _ _ (Permutation_map snd Hperm)).
    unfold countValues. rewrite counted_sum. reflexivity.
Qed.

Lemma table_counts_every_extraction_witness :
  exists s,
    generateStatistics (Extracted sampleExtraction) = FieldStatistics s
    /\ In ("E", 3%nat) (distinctValues s)
    /\ In ("(empty)", 2%nat) (distinctValues s)
    /\ sumCounts (distinctValues s) = 8%nat.
Proof.
  destruct (table_counts_every_extraction sampleExtraction eq_refl) as (s & Hs & _ & Hin & Hsum & Ht).
  { unfold plainValues, sampleExtraction. cbn [results].
    repeat constructor; vm_compute; intuition discriminate. }
  exists s. split; [exact Hs|].
  split; [apply Hin; vm_compute; split; [reflexivity|lia]|].
  split; [apply Hin; vm_compute; split; [reflexivity|lia]|].
  rewrite Hsum, Ht. reflexivity.
Defined.

Lemma descending_insert (x : string * nat) (l : list (string * nat)) :
  descending l = true -> descending (insertByCount x l) = true.
Proof.
  induction l as [|y l IH]; intros H; [reflexivity|].
  cbn [descending] in H. apply andb_true_iff in H. destruct H as [Hy Hl].
  cbn [insertByCount]. destruct (snd y <=? snd x)%nat eqn:E.
  - cbn [descending forallb]. rewrite E, Hy, Hl. rewrite !andb_true_r. cbn [andb].
    apply forallb_forall. intros z Hz.
    rewrite forallb_forall in Hy. specialize (Hy z Hz).
    apply Nat.leb_le in Hy, E. apply Nat.leb_le. lia.
  - cbn [descending]. rewrite (IH Hl), andb_true_r.
    apply forallb_forall. intros z Hz.
    apply (Permutation_in _ (insertByCount_permutation x l)) in Hz.
    destruct Hz as [<-|Hz].
    + apply Nat.leb_gt in E. apply Nat.leb_le. lia.
    + rewrite forallb_forall in Hy. apply Hy, Hz.
Qed.

Lemma withCount_insert (c : nat) (x : string * nat) (l : list (string * nat)) :
  withCount c (insertByCount x l) = withCount c (x :: l).
Proof.
  unfold withCount. induction l as [|y l IH]; [reflexivity|].
  cbn [insertByCount]. destruct (snd y <=? snd x)%nat eqn:E; [reflexivity|].
  cbn [filter] in *. rewrite IH.
  destruct (Nat.eqb_spec (snd y) c) as [Ey|_]; [|reflexivity].
  destruct (Nat.eqb_spec (snd x) c) as [Ex|_]; [|reflexivity].
  apply Nat.leb_gt in E. lia.
Qed.

(** X22.  For extractions whose display values name no member of the
    prototype of objects, the table of values is in descending order of
    count, and the values with one count stand in the order in which
    Object.entries lists them: the array indices in ascending order, then
    the other values in the order of their first extraction. *)
Theorem table_is_sorted_by_count :
  forall (r : ExtractionResult),
    filterOnly r = false ->
    plainValues (results r) ->
    exists s,
      generateStatistics (Extracted r) = FieldStatistics s
      /\ descending (distinctValues s) = true
      /\ forall c, withCount c (distinctValues s)
                   = withCount c (objEntries (countValues (results r))).
Proof.
  intros r Hfo _. unfold generateStatistics. rewrite Hfo. eexists. split; [reflexivity|].
  cbn [distinctValues]. unfold sortByCountDesc.
  induction (objEntries (countValues (results r))) as [|x l [IHd IHw]]; [split; reflexivity|].
  cbn [fold_right]. split; [apply descending_insert, IHd|].
  intros c. rewrite withCount_insert. unfold withCount in *. cbn [filter].
  rewrite IHw. reflexivity.
Qed.

Lemma table_is_sorted_by_count_witness :
  exists s,
    generateStatistics (Extracted sampleExtraction) = FieldStatistics s
    /\ descending (distinctValues s) = true
    /\ withCount 2 (distinctValues s) = [("I", 2%nat); ("(empty)", 2%nat)]
    /\ withCount 1 (distinctValues s) = [("7", 1%nat)].
Proof.
  destruct (table_is_sorted_by_count sampleExtraction eq_refl) as (s & Hs & Hd & Hw).
  { unfold plainValues, sampleExtraction. cbn [results].
    repeat constructor; vm_compute; intuition discriminate. }
  exists s. split; [exact Hs|]. split; [exact Hd|].
  rewrite !Hw. split; reflexivity.
Defined.


(** ** The slices of the pie chart *)

Lemma sumCounts_app (l l' : list (string * nat)) :
  sumCounts (l ++ l') = (sumCounts l + sumCounts l')%nat.
Proof. rewrite !sumCounts_list_sum, map_app, list_sum_app. reflexivity. Qed.

Lemma chartData_length (ds : list (string * nat)) :
  (List.length (chartData ds) <= 15)%nat
  /\ ((15 < List.length ds)%nat -> List.length (chartData ds) = 15%nat).
Proof.
  unfold chartData, maxSlices.
  destruct (Nat.ltb_spec 15 (List.length ds)) as [Hlong|Hshort]; [|lia].
  cbv zeta. rewrite length_app, length_firstn. cbn [List.length]. lia.
Qed.

(** X23.  The pie chart never has more than 15 slices, and grouping
    loses no count.  A table of at most 15 values is drawn as it is; of a
    longer one the first 14 values are drawn as they are and the others
    as one slice (Other) with the sum of their counts; the total of the
    slices, the base of the percentages, is the total of the table. *)
Theorem pie_chart_groups_the_tail :
  forall (distinctValues : list (string * nat)),
    (List.length (chartData distinctValues) <= 15)%nat
    /\ sumCounts (chartData distinctValues) = sumCounts distinctValues
    /\ ((List.length distinctValues <= 15)%nat -> chartData distinctValues = distinctValues)
    /\ ((15 < List.length distinctValues)%nat ->
        chartData distinctValues
        = (firstn 14 distinctValues
             ++ [("(Other)", sumCounts (skipn 14 distinctValues))])%list
        /\ List.length (chartData distinctValues) = 15%nat).
Proof.
  intros ds. destruct (chartData_length ds) as [Hle Hlen].
  split; [exact Hle|]. clear Hle. revert Hlen. unfold chartData, maxSlices.
  destruct (Nat.ltb_spec 15 (List.length ds)) as [Hlong|Hshort]; intros Hlen.
  - change (15 - 1)%nat with 14%nat. cbv zeta.
    split; [|split; [lia|intros _; split; [reflexivity|exact (Hlen Hlong)]]].
    rewrite sumCounts_app. rewrite <- (firstn_skipn 14 ds) at 3.
    rewrite sumCounts_app. unfold sumCounts at 2. simpl. reflexivity.
  - split; [reflexivity|]. split; [reflexivity|lia].
Qed.

Lemma pie_chart_groups_the_tail_witness :
  List.length (chartData (evenTable 20 3)) = 15%nat
  /\ last (chartData (evenTable 20 3)) ("", 0%nat) = ("(Other)", 18%nat)
  /\ chartData (evenTable 15 3) = evenTable 15 3.
Proof.
  destruct (pie_chart_groups_the_tail (evenTable 20 3)) as (_ & _ & _ & Hlong).
  destruct (pie_chart_groups_the_tail (evenTable 15 3)) as (_ & _ & Hshort & _).
  destruct Hlong as [Hd Hl]; [vm_compute; lia|].
  split; [exact Hl|]. split; [rewrite Hd; reflexivity|].
  apply Hshort. vm_compute. lia.
Defined.

Lemma pushes_are_map {A B : Type} (f : A -> B) (l : list A) (acc : list B) :
  fold_left (fun result i => (result ++ [f i])%list) l acc = (acc ++ map f l)%list.
Proof.
  revert acc. induction l as [|x l IH]; intros acc; simpl.
  - rewrite app_nil_r. reflexivity.
  - rewrite IH, <- app_assoc. reflexivity.
Qed.

Lemma generateColors_map (count : nat) :
  generateColors count
  = map (fun i => nth (i mod List.length colors) colors "") (seq 0 count).
Proof. unfold generateColors. rewrite pushes_are_map. reflexivity. Qed.

Lemma colors_NoDup : NoDup colors.
Proof.
  unfold colors.
  repeat (constructor; [simpl; intuition discriminate|]). constructor.
Qed.

Lemma generateColors_prefix (count : nat) :
  (count <= 20)%nat -> generateColors count = firstn count colors.
Proof.
  intros H. rewrite generateColors_map.
  assert (E : map (fun i => nth (i mod List.length colors) colors "") (seq 0 count)
              = map (fun i => nth i colors "") (seq 0 count)).
  { apply map_ext_in. intros i Hi. apply in_seq in Hi.
    change (List.length colors) with 20%nat. rewrite Nat.mod_small by lia. reflexivity. }
  rewrite E. clear E.
  assert (G : forall (l : list string) (n : nat),
             (n <= List.length l)%nat ->
             map (fun i => nth i l "") (seq 0 n) = firstn n l).
  { induction l as [|x l IH]; intros [|n] Hn; simpl in *; try reflexivity; [lia|].
    f_equal. rewrite <- seq_shift, map_map. apply IH. lia. }
  apply G. exact H.
Qed.

Lemma firstn_NoDup {A : Type} (n : nat) (l : list A) : NoDup l -> NoDup (firstn n l).
Proof.
  intros H. rewrite <- (firstn_skipn n l) in H. apply NoDup_app_remove_r in H. exact H.
Qed.

(** X24.  The slices of the pie chart have different colors.
    generateColors gives as many colors as asked, the 20 colors of the
    palette in order and again from the first after the 20th;
    createPieChart asks for one color for each of its at most 15 slices,
    so no two slices share a color. *)
Theorem pie_slices_have_different_colors :
  forall (distinctValues : list (string * nat)) (count i : nat),
    List.length (generateColors count) = count
    /\ ((i < count)%nat -> nth i (generateColors count) "" = nth (i mod 20) colors "")
    /\ NoDup (generateColors (List.length (chartData distinctValues))).
Proof.
  intros ds count i. split; [|split].
  - rewrite generateColors_map, length_map, length_seq. reflexivity.
  - intros Hi. rewrite generateColors_map.
    set (f := fun i => nth (i mod List.length colors) colors "").
    rewrite (nth_indep _ "" (f 0%nat)) by (rewrite length_map, length_seq; lia).
    rewrite (map_nth f), seq_nth by lia. reflexivity.
  - destruct (chartData_length ds) as [H _].
    rewrite generateColors_prefix by lia. apply firstn_NoDup, colors_NoDup.
Qed.

Lemma pie_slices_have_different_colors_witness :
  nth 21 (generateColors 25) "" = "#4ec9b0"
  /\ NoDup (generateColors (List.length (chartData (evenTable 20 3)))).
Proof.
  destruct (pie_slices_have_different_colors (evenTable 20 3) 25 21) as (_ & Hn & Hd).
  split; [rewrite Hn by lia; reflexivity|exact Hd].
Defined.

(** ** Labels of the legend *)

Lemma substring_length (n : nat) (s : string) :
  String.length (substring 0 n s) = Nat.min n (String.length s).
Proof.
  revert s. induction n as [|n IH]; intros [|c s]; simpl; try reflexivity.
  rewrite IH. reflexivity.
Qed.

Lemma substring_rest (n : nat) (s : string) :
  s = substring 0 n s ++ substringFrom n s.
Proof.
  revert s. induction n as [|n IH]; intros [|c s]; simpl; try reflexivity.
  rewrite <- IH. reflexivity.
Qed.

(** X25.  truncateValue keeps a text within the length asked for, when
    that length is at least 3: a text that fits is returned as it is; a
    longer one is cut to its first maxLength - 3 characters followed by
    three dots, which gives exactly maxLength characters. *)
Theorem truncateValue_fits :
  forall (value : string) (maxLength : Z),
    3 <= maxLength ->
    Z.of_nat (String.length (truncateValue value maxLength)) <= maxLength
    /\ (Z.of_nat (String.length value) <= maxLength -> truncateValue value maxLength = value)
    /\ (maxLength < Z.of_nat (String.length value) ->
        exists kept rest,
          value = kept ++ rest
          /\ truncateValue value maxLength = kept ++ "..."
          /\ Z.of_nat (String.length kept) = maxLength - 3
          /\ Z.of_nat (String.length (truncateValue value maxLength)) = maxLength).
Proof.
  intros value maxLength H3. unfold truncateValue, substring2.
  rewrite Nat.sub_0_r.
  destruct (Z.leb_spec (Z.of_nat (String.length value)) maxLength) as [Hfit|Hlong].
  - split; [exact Hfit|]. split; [reflexivity|lia].
  - assert (Hkept : Z.of_nat (String.length (substring 0 (Z.to_nat (maxLength - 3)) value))
                    = maxLength - 3).
    { rewrite substring_length. lia. }
    assert (Hlen : Z.of_nat (String.length
                               (substring 0 (Z.to_nat (maxLength - 3)) value ++ "..."))
                   = maxLength).
    { rewrite length_append. simpl String.length at 2. lia. }
    split; [lia|]. split; [lia|]. intros _.
    exists (substring 0 (Z.to_nat (maxLength - 3)) value),
           (substringFrom (Z.to_nat (maxLength - 3)) value).
    split; [apply substring_rest|]. split; [reflexivity|]. split; [exact Hkept|exact Hlen].
Qed.

Lemma truncateValue_fits_witness :
  truncateValue "ABCDEFGHIJ" 8 = "ABCDE..." /\ truncateValue "ABCDEFGH" 8 = "ABCDEFGH".
Proof.
  destruct (truncateValue_fits "ABCDEFGHIJ" 8 ltac:(lia)) as (_ & _ & Hlong).
  destruct (truncateValue_fits "ABCDEFGH" 8 ltac:(lia)) as (_ & Hfit & _).
  split; [|apply Hfit; simpl; lia].
  destruct Hlong as (kept & rest & _ & E & _); [simpl; lia|].
  reflexivity.
Defined.


(** ** The line-based extractor and the stored messages *)

Lemma collectIndexed_app {A B : Type} (f : nat -> A -> list B) (k : nat) (l l' : list A) :
  collectIndexed f k (l ++ l')
  = (collectIndexed f k l ++ collectIndexed f (k + List.length l) l')%list.
Proof.
  revert k. induction l as [|x l IH]; intros k; simpl.
  - rewrite Nat.add_0_r. reflexivity.
  - rewrite IH, <- app_assoc. do 3 f_equal. lia.
Qed.

(** The resolvers agree on the segment stored for a line. *)
Lemma stored_segment_value (st : ParserState) (id line : string) (n : Z) (c sc : option Z)
    (cs ss : ascii) :
  id <> "MSH" \/ n <> 2 ->
  extractValueFromSegment (segmentOfLine st id line) n c sc cs ss
  = extractValueFromLine line id n c sc (curFieldSeparator st) cs ss.
Proof.
  intros H. unfold extractValueFromSegment, extractValueFromLine, segmentOfLine.
  cbn [segmentId fields fieldSeparator].
  destruct (String.eqb_spec id "MSH") as [E|_]; [|reflexivity].
  destruct (Z.eqb_spec n 1) as [_|_]; [reflexivity|].
  destruct (Z.eqb_spec n 2) as [E2|_]; [|reflexivity].
  destruct H as [H|H]; contradiction.
Qed.

Lemma collect_last {A B : Type} (f : nat -> A -> list B) (l : list A) (x : A) :
  collectIndexed f 0 (l ++ [x]) = (collectIndexed f 0 l ++ f (List.length l) x)%list.
Proof. rewrite collectIndexed_app. simpl. rewrite app_nil_r. reflexivity. Qed.

Lemma segmentExtractions_pushSegment (p : FieldReference) (k : nat) (m : Message)
    (seg : Segment) :
  segmentExtractions p k (pushSegment m seg)
  = (segmentExtractions p k m
     ++ if (segmentId seg =? segment p)%string
        then [mkResultItem k
                (extractValueFromSegment seg (field p) (component p) (subcomponent p)
                   (msgComponentSeparator m) (msgSubcomponentSeparator m))]
        else [])%list.
Proof.
  unfold segmentExtractions, matchingSegments, pushSegment.
  cbn [segments msgComponentSeparator msgSubcomponentSeparator].
  rewrite filter_app, map_app. cbn [filter].
  destruct (segmentId seg =? segment p)%string; reflexivity.
Qed.

Lemma inMessage_last (l : list LineBased.Item) (it : LineBased.Item) :
  filter inMessage (l ++ [it])
  = (filter inMessage l ++ if inMessage it then [it] else [])%list.
Proof. rewrite filter_app. cbn [filter]. destruct (inMessage it); reflexivity. Qed.

Lemma known_kind (ids : list string) (id : string) :
  In id ids -> existsb (String.eqb id) ids = true.
Proof.
  intros H. apply existsb_exists. exists id. split; [exact H|apply String.eqb_refl].
Qed.

(** A header line: the next message starts in both loops. *)
Lemma header_inStep (p : FieldReference) (lst : LineBased.LoopState) (st : ParserState)
    (t : string) :
  inStep p lst st -> inStep p (LineBased.nextMessage lst t) (openMessage st t).
Proof.
  intros (Hidx & Hf & Hc & Hs & Hnone & Hsome & Hres & Hbound).
  unfold inStep, LineBased.nextMessage, openMessage.
  cbn [LineBased.results LineBased.currentMessageIndex LineBased.fieldSeparator
       LineBased.componentSeparator LineBased.subcomponentSeparator
       messages currentMessage curFieldSeparator curComponentSeparator
       curSubcomponentSeparator].
  rewrite Hf, Hc, Hs.
  split; [|split; [reflexivity|split; [reflexivity|split; [reflexivity|]]]].
  { unfold pushCurrent at 1. cbn [currentMessage messages]. rewrite length_app.
    cbn [List.length]. lia. }
  split; [discriminate|].
  split; [intros m E; injection E as <-; split; reflexivity|].
  split.
  - unfold pushCurrent at 1. cbn [currentMessage messages].
    rewrite collect_last. unfold segmentExtractions at 2, matchingSegments.
    cbn [segments filter map]. rewrite app_nil_r. exact Hres.
  - eapply Forall_impl; [|exact Hbound]. cbv beta. intros it H. lia.
Qed.

(** A line of any kind: both loops store what they keep of it. *)
Lemma push_inStep (ids : list string) (p : FieldReference) (lst : LineBased.LoopState)
    (st : ParserState) (id t : string) :
  In (segment p) ids -> segment p <> "MSH" \/ field p <> 2 ->
  inStep p lst st ->
  inStep p
    (if (id =? segment p)%string then
       LineBased.mkLoopState
         (LineBased.results lst
          ++ [LineBased.mkItem (LineBased.currentMessageIndex lst)
                (extractValueFromLine t id (field p) (component p) (subcomponent p)
                   (LineBased.fieldSeparator lst) (LineBased.componentSeparator lst)
                   (LineBased.subcomponentSeparator lst))])
         (LineBased.currentMessageIndex lst) (LineBased.fieldSeparator lst)
         (LineBased.componentSeparator lst) (LineBased.subcomponentSeparator lst)
     else lst)
    (match currentMessage st with
     | Some m =>
         if existsb (String.eqb id) ids then
           mkParserState (messages st) (Some (pushSegment m (segmentOfLine st id t)))
             (curFieldSeparator st) (curComponentSeparator st) (curSubcomponentSeparator st)
         else st
     | None => st
     end).
Proof.
  intros Hin Haddr H.
  pose proof H as (Hidx & Hf & Hc & Hs & Hnone & Hsome & Hres & Hbound).
  assert (Hlow : -1 <= LineBased.currentMessageIndex lst) by lia.
  destruct (String.eqb_spec id (segment p)) as [Eid|Nid].
  - (* a line of the kind asked for *)
    assert (Hid : existsb (String.eqb id) ids = true)
      by (apply known_kind; rewrite Eid; exact Hin).
    assert (Haddr' : id <> "MSH" \/ field p <> 2) by (rewrite Eid; exact Haddr).
    rewrite Hid.
    assert (Hb : Forall (fun it => -1 <= LineBased.messageIndex it
                                   <= LineBased.currentMessageIndex lst)
                   (LineBased.results lst
                    ++ [LineBased.mkItem (LineBased.currentMessageIndex lst)
                          (extractValueFromLine t id (field p) (component p)
                             (subcomponent p) (LineBased.fieldSeparator lst)
                             (LineBased.componentSeparator lst)
                             (LineBased.subcomponentSeparator lst))])).
    { apply Forall_app. split; [exact Hbound|]. constructor; [|constructor].
      cbn [LineBased.messageIndex]. lia. }
    destruct (currentMessage st) as [m|] eqn:Em.
    + destruct (Hsome m eq_refl) as [Hmc Hms].
      unfold inStep.
      cbn [LineBased.results LineBased.currentMessageIndex LineBased.fieldSeparator
           LineBased.componentSeparator LineBased.subcomponentSeparator
           messages currentMessage curFieldSeparator curComponentSeparator
           curSubcomponentSeparator].
      assert (Hpc : pushCurrent st = (messages st ++ [m])%list)
        by (unfold pushCurrent; rewrite Em; reflexivity).
      split.
      { rewrite Hidx, Hpc. unfold pushCurrent. cbn [currentMessage messages].
        rewrite !length_app. reflexivity. }
      split; [exact Hf|]. split; [exact Hc|]. split; [exact Hs|].
      split; [discriminate|].
      split; [intros m' E; injection E as <-; split; assumption|].
      split; [|exact Hb].
      rewrite inMessage_last, Hres, Hpc.
      unfold pushCurrent at 1. cbn [currentMessage messages].
      rewrite !collect_last, segmentExtractions_pushSegment.
      assert (Eseg : (segmentId (segmentOfLine st id t) =? segment p)%string = true).
      { unfold segmentOfLine. cbn [segmentId]. apply String.eqb_eq. exact Eid. }
      rewrite Eseg, !map_app, <- app_assoc. do 2 f_equal.
      assert (Ek : LineBased.currentMessageIndex lst = Z.of_nat (List.length (messages st))).
      { rewrite Hidx, Hpc, length_app. cbn [List.length]. lia. }
      unfold inMessage. cbn [LineBased.messageIndex]. rewrite Ek.
      destruct (Z.leb_spec 0 (Z.of_nat (List.length (messages st)))) as [_|Hneg]; [|lia].
      cbn [map]. unfold itemOfResult. cbn [messageIndex itemValue].
      rewrite (stored_segment_value st id t _ _ _ _ _ Haddr'), Hf, Hc, Hs, Hmc, Hms.
      reflexivity.
    + (* before the first header *)
      unfold inStep.
      cbn [LineBased.results LineBased.currentMessageIndex LineBased.fieldSeparator
           LineBased.componentSeparator LineBased.subcomponentSeparator].
      do 4 (split; [assumption|]).
      split; [intros _; exact (Hnone eq_refl)|].
      split; [intros m E; rewrite Em in E; discriminate E|].
      split; [|exact Hb].
      rewrite inMessage_last, Hres. unfold inMessage. cbn [LineBased.messageIndex].
      assert (Ek : LineBased.currentMessageIndex lst = -1).
      { rewrite Hidx. unfold pushCurrent. rewrite Em, (Hnone eq_refl). reflexivity. }
      rewrite Ek. cbn. rewrite app_nil_r. reflexivity.
  - (* a line of another kind *)
    destruct (currentMessage st) as [m|] eqn:Em; [|exact H].
    destruct (existsb (String.eqb id) ids); [|exact H].
    destruct (Hsome m eq_refl) as [Hmc Hms].
    assert (Hpc : pushCurrent st = (messages st ++ [m])%list)
      by (unfold pushCurrent; rewrite Em; reflexivity).
    unfold inStep.
    cbn [messages currentMessage curFieldSeparator curComponentSeparator
         curSubcomponentSeparator].
    split.
    { rewrite Hidx, Hpc. unfold pushCurrent. cbn [currentMessage messages].
      rewrite !length_app. reflexivity. }
    split; [exact Hf|]. split; [exact Hc|]. split; [exact Hs|].
    split; [discriminate|].
    split; [intros m' E; injection E as <-; split; assumption|].
    split; [|exact Hbound].
    rewrite Hres, Hpc. unfold pushCurrent. cbn [currentMessage messages].
    rewrite !collect_last, segmentExtractions_pushSegment.
    assert (Eseg : (segmentId (segmentOfLine st id t) =? segment p)%string = false).
    { unfold segmentOfLine. cbn [segmentId]. apply String.eqb_neq. exact Nid. }
    rewrite Eseg, app_nil_r. reflexivity.
Qed.

Lemma processLine_inStep (ids : list string) (p : FieldReference)
    (lst : LineBased.LoopState) (st : ParserState) (line : string) :
  In (segment p) ids -> segment p <> "MSH" \/ field p <> 2 ->
  inStep p lst st ->
  inStep p (LineBased.processLine p lst line) (processLine ids st line).
Proof.
  intros Hin Haddr H.
  unfold LineBased.processLine, processLine.
  destruct (trim line =? "")%string; [exact H|].
  destruct (substring2 0 3 (trim line) =? "MSH")%string.
  - apply (push_inStep ids p _ _ _ _ Hin Haddr). apply header_inStep, H.
  - apply (push_inStep ids p _ _ _ _ Hin Haddr H).
Qed.

Lemma lines_inStep (ids : list string) (p : FieldReference) (lines : list string)
    (lst : LineBased.LoopState) (st : ParserState) :
  In (segment p) ids -> segment p <> "MSH" \/ field p <> 2 ->
  inStep p lst st ->
  inStep p (fold_left (LineBased.processLine p) lines lst)
    (fold_left (processLine ids) lines st).
Proof.
  intros Hin Haddr. revert lst st.
  induction lines as [|l lines IH]; intros lst st H; [exact H|].
  cbn [fold_left]. apply IH, processLine_inStep; assumption.
Qed.

Lemma extractFieldValues_succeeds (ids : list string) (globals : Globals)
    (content fieldRef : string) (p : FieldReference) :
  parseFieldReference fieldRef = Some p ->
  exists r, extractFieldValues ids globals content fieldRef None = Extracted r.
Proof.
  intros Hp. destruct (parseFieldReference_nonblank _ _ Hp) as [Hne Hnb].
  unfold extractFieldValues.
  destruct (String.eqb_spec fieldRef "") as [E|_]; [contradiction|].
  destruct (String.eqb_spec (trim fieldRef) "") as [E|_]; [contradiction|].
  simpl orb. cbv iota. rewrite Hp. simpl andb. cbv iota. eexists. reflexivity.
Qed.

Lemma messageExtractions_segmentExtractions (p : FieldReference) (idx : nat)
    (msg : Message) :
  messageExtractions p idx msg
  = match segmentExtractions p idx msg with
    | [] => [mkResultItem idx ""]
    | l => l
    end.
Proof.
  unfold messageExtractions, segmentExtractions.
  destruct (matchingSegments p msg); reflexivity.
Qed.

Lemma collected_with_blanks (p : FieldReference) (k : nat) (msgs : list Message) :
  collectIndexed (messageExtractions p) k msgs
  = collectIndexed
      (fun idx msg =>
         match segmentExtractions p idx msg with
         | [] => [mkResultItem idx ""]
         | l => l
         end)
      k msgs.
Proof.
  revert k. induction msgs as [|m l IH]; intros k; [reflexivity|].
  cbn [collectIndexed]. rewrite IH, messageExtractions_segmentExtractions. reflexivity.
Qed.

(** X26.  The line-based extractor of the earlier version and the
    extractor on stored messages, run without a filter on a field of a
    kind listed in the table of known kinds (the second field of the
    header apart), count the same messages and read the same values in
    the same order.  They differ in two ways only: the line-based one
    gives the index -1 to a line of the kind that comes before the first
    header, which the other one drops; and the extractor on stored
    messages adds one blank entry for each message without a segment of
    the kind, which the line-based one passes over. *)
Theorem line_based_extractor_agrees :
  forall (HL7_SEGMENT_IDS : list string) (globals : Globals) (content fieldRef : string)
         (p : FieldReference),
    parseFieldReference fieldRef = Some p ->
    In (segment p) HL7_SEGMENT_IDS ->
    segment p <> "MSH" \/ field p <> 2 ->
    exists rs r,
      LineBased.extractFieldValues content fieldRef
      = LineBased.Extracted rs (Z.of_nat (totalMessages r))
      /\ extractFieldValues HL7_SEGMENT_IDS globals content fieldRef None = Extracted r
      /\ filter inMessage rs
         = map itemOfResult
             (collectIndexed (segmentExtractions p) 0
                (parseMessagesForFiltering HL7_SEGMENT_IDS content))
      /\ results r
         = collectIndexed
             (fun idx msg =>
                match segmentExtractions p idx msg with
                | [] => [mkResultItem idx ""]
                | l => l
                end)
             0 (parseMessagesForFiltering HL7_SEGMENT_IDS content)
      /\ Forall (fun it => -1 <= LineBased.messageIndex it < Z.of_nat (totalMessages r)) rs.
Proof.
  intros ids globals content fieldRef p Hp Hin Haddr.
  destruct (extractFieldValues_succeeds ids globals content fieldRef p Hp) as [r Hr].
  destruct (extractFieldValues_counts ids globals content fieldRef None r Hr)
    as (Ht & _ & _).
  destruct (extractFieldValues_results ids globals content fieldRef None r p Hp Hr)
    as (Hres & _ & _).
  assert (H0 : inStep p LineBased.initialState initialState).
  { unfold inStep. cbn. repeat split; try reflexivity; try discriminate. constructor. }
  pose proof (lines_inStep ids p (splitLines content) _ _ Hin Haddr H0)
    as (Hidx & _ & _ & _ & _ & _ & Hrs & Hbound).
  fold (parseMessagesForFiltering ids content) in Hidx, Hrs.
  unfold LineBased.extractFieldValues. rewrite Hp. cbv zeta.
  eexists. exists r. split; [f_equal; rewrite Hidx, Ht; lia|].
  split; [exact Hr|]. split; [exact Hrs|]. split.
  - rewrite Hres. unfold selectedMessages. apply collected_with_blanks.
  - eapply Forall_impl; [|exact Hbound]. cbv beta. intros it H.
    rewrite Hidx in H. rewrite Ht. lia.
Qed.

Lemma line_based_extractor_agrees_witness :
  exists rs r,
    LineBased.extractFieldValues strayLineContent "PID.3" = LineBased.Extracted rs 2
    /\ extractFieldValues sampleSegmentIds noGlobals strayLineContent "PID.3" None
       = Extracted r
    /\ rs = [LineBased.mkItem (-1) "ID0"; LineBased.mkItem 0 "ID1"]
    /\ filter inMessage rs = [LineBased.mkItem 0 "ID1"]
    /\ map itemOfResult (results r) = [LineBased.mkItem 0 "ID1"; LineBased.mkItem 1 ""].
Proof.
  assert (Hp : parseFieldReference "PID.3" = Some (mkFieldReference "PID" 3 None None))
    by (vm_compute; reflexivity).
  destruct (line_based_extractor_agrees sampleSegmentIds noGlobals strayLineContent "PID.3"
              (mkFieldReference "PID" 3 None None) Hp)
    as (rs & r & Hlb & Hr & Hrs & Hres & _).
  { vm_compute. tauto. }
  { left. discriminate. }
  exists rs, r.
  assert (Et : totalMessages r = 2%nat).
  { apply extractFieldValues_counts in Hr. destruct Hr as (Ht & _). rewrite Ht.
    vm_compute. reflexivity. }
  assert (Ers : rs = [LineBased.mkItem (-1) "ID0"; LineBased.mkItem 0 "ID1"]).
  { vm_compute in Hlb. injection Hlb as <- _. reflexivity. }
  split; [rewrite Hlb, Et; reflexivity|]. split; [exact Hr|]. split; [exact Ers|].
  split; [rewrite Hrs; vm_compute; reflexivity|].
  rewrite Hres. vm_compute. reflexivity.
Defined.


(** ** The labels of the filter panel *)
















(** ** References that validation does not know *)


























